(* ===== verification/_CoqProject ===== *)
-Q . S2P
Prelude.v
JsMap.v
JsNum.v
Bits.v
JsValue.v
Types.v
HashGraph.v
Dag.v
TopoSort.v
Causality.v
Lca.v
LegacyCausality.v
Linearize.v
LinearizePair.v
LinearizeMulti.v
Convergence.v
Validation.v
Acl.v
Blueprints.v
AclInterplay.v
Finality.v
Pipeline.v
State.v
Applier.v
Replay.v
ApplierInv.v
ApplierProps.v
DrpObject.v
Channel.v
MessageQueue.v
