(* ===== verification/Prelude.v ===== *)
(** * A verification library for ts-drp

    ts-drp is a TypeScript framework for replicated objects (DRPs). Every replica
    of an object keeps the operations of all replicas as vertices of a hash graph,
    linearizes the graph, resolves conflicts between concurrent operations and
    replays the result; an access control list, itself such an object, says who may
    write, and BLS attestations make vertices final. Nodes exchange vertices through
    message queues. This library translates the object layer and the queues into
    Rocq and proves what makes them correct. Names of definitions are those of the
    source where Rocq allows it; paths below are under [src/].

    ** Parts of the program and their files

    Foundations. [Prelude]: results that may throw, loops with fuel, list lemmas,
    tactics, hint databases. [JsMap], [JsNum], [JsValue]: what the code uses of
    JavaScript: maps and sets in insertion order, 32-bit integer operations and
    doubles, values with [JSON.stringify].

    The object ([packages/object/src]).
    - [Bits] ([hashgraph/bitset.ts]): bit sets at their machine width.
    - [Types]: vertices, operations and enumerations ([packages/types/src]).
    - [HashGraph] ([hashgraph/index.ts]): the state of the class as a record and
      one definition per method. [Dag]: its invariant [wf], kept by [addVertex];
      [TopoSort]: the iterative depth-first sort; [Causality]: the breadth-first and
      the bit-set query; [Lca]: the lowest common ancestor and the distances;
      [Convergence]: replicas with the same hashes agree.
    - [LegacyCausality], [Linearize], [LinearizePair], [LinearizeMulti]
      ([linearize/]): the two linearizers and the matrix they use.
    - [Validation] ([packages/validation/src/vertex.ts]), [Acl] ([acl/index.ts]),
      [Blueprints] ([packages/blueprints/src]), [AclInterplay]: the resolvers of
      access control and of data inside the linearizers.
    - [Finality] ([finality/index.ts]): signatures, aggregation, quorum.
    - [Pipeline] ([pipeline/]), [State] ([state.ts], [proxy.ts] in part), [Applier]
      ([drp-applier.ts], [operation.ts]) with [Replay], [ApplierInv] and
      [ApplierProps], [DrpObject] ([index.ts]): local calls, received vertices,
      checkpoints, replay, and the object around them.

    The queues ([packages/message-queue/src]). [Channel]: bounded channels with
    waiting senders and receivers; [MessageQueue]: queues with their fan-out loops
    as a transition system over all interleavings, and the queue manager.

    A received vertex passes the pipeline of [Applier]: [Validation], the ancestor
    search and replay ([Lca], [Linearize...], [Replay]), the permission check against
    the replayed [Acl], the data operation, and the commit into [State], [Finality]
    and [HashGraph]. A local call takes the same path from the other side.

    ** How the code is modelled

    Pure functions are functions; stateful classes are records with one definition
    per method. Code that throws returns [res], and where a throwing call has
    already changed something the state is returned with it (the monad of
    [Pipeline]). Loops whose termination is not structural take fuel. Where the
    bound is part of the definition (the searches of [HashGraph]: sums of numbers of
    edges and vertices; the sort: twice the subgraph) theorems show that it is
    always enough. The linearizers take fuel as an argument, because with some
    resolvers they do not terminate; their theorems show that fuel above a bound
    computed from the subgraph gives a result (its size for the pair semantics
    without swaps, its square for multiple semantics). No statement is only about
    runs that happen to return. Asynchronous code that is never interleaved runs to
    completion; the queue's loops are threads of a transition system. Histories (the
    handled, taken, accepted and discarded messages of a queue, the notifications of
    an applier) are fields that no definition reads. The clock is a numbered
    sequence of readings.

    Code that is not part of the repository is a parameter with stated laws:
    SHA-256, BLS ([Finality.BLS], with an instance), the application's methods
    ([Applier.Application], instantiated by [ApplierProps.Counter]). Strings are
    sequences of bytes: [js_sort] compares bytes, which is the order of JavaScript on
    the hexadecimal hashes it sorts. An operation always has a list of values; the
    root operation, which has none in the source, has the empty list (it is not
    hashed by the code modelled here).

    ** A condition that several theorems need

    [reduced g] says that the dependencies of each vertex are pairwise concurrent.
    Vertices created on a frontier satisfy it ([reduced_addVertex],
    [antichain_frontier]), and [Convergence] is about replicas whose vertices are
    created so. Validation does not enforce it for received vertices. Without it
    the sort still succeeds and is right whenever it names no vertex twice
    ([TopoSort.dfs_sorts_dags]), but it may name a vertex twice and lose another
    ([TopoSort.dfs_loses_vertex]), and then the bit-set query may be wrong
    ([Causality.bitsets_miss_relation]). Every theorem that needs the condition
    names it.

    ** What the theorems show

    - Replicas converge: replicas with the same vertices compute the same order, the
      same ancestors, the same replay and the same frontier ([Convergence]).
    - The algorithms on the graph: the graph invariant ([Dag]), totality and causal
      order of the sort ([TopoSort]), both causality queries ([Causality]), the
      ancestor search and the distances ([Lca]), and linearizers that keep causality
      and drop only what a resolver dropped ([LinearizePair], [LinearizeMulti]).
    - The applier keeps its invariant, applies a received vertex completely or not at
      all, accounts for every vertex of a batch, notifies exactly of what it added,
      and replays from checkpoints that cover the past ([ApplierProps]); the genesis
      access control list is fixed ([DrpObject]).
    - Finality counts signers exactly, is stable, travels by attestations, and two
      final replicas share a signer ([Finality]). Access control does what its
      methods say and revocations win ([Acl], [AclInterplay]); map operations that are
      kept commute ([Blueprints]).
    - Channels conserve messages and are first in, first out until a sender has to
      wait ([Channel]); queues lose nothing, deliver serially to all subscribers and
      are always served ([MessageQueue]).
    - Behaviour the code does not intend is shown on concrete runs, as an [Example]:
      [TopoSort.dfs_loses_vertex], [Causality.bitsets_miss_relation],
      [AclInterplay.map_write_drops_revocation],
      [ApplierProps.aborted_merge_leaves_stale_state], [Channel.channel_reorders]; the
      general statements behind them are [AclInterplay.map_write_excludes_revocation],
      [ApplierProps.merge_notifies_exactly] and [Channel.waiting_sender_overtaken].

    ** Not modelled

    The network node, its handlers and object store, interval runners, discovery,
    rendezvous, membership, the keychain, logging and tracing are left out: most of
    them are input and output around libraries. Proxies are modelled only by the
    mutations they record. Numbers in application data are integers. *)

From stdpp Require Export base gmap strings list sorting pretty.
From Stdlib Require Export ZArith Lia.

#[export] Set Warnings "-clear-no-such-hyp,-register-all".

(** ** Scope, hint databases *)

Declare Scope drp_scope.
Delimit Scope drp_scope with drp.
#[global] Open Scope drp_scope.

Create HintDb drp.
Create HintDb jsmap.
Create Rewrite HintDb drp.

(** Settles a decidable closed proposition by evaluating its decision. *)
Ltac decide_by_compute := refine (bool_decide_unpack _ _); vm_compute; exact I.

(** ** Fallible code

    A JavaScript function that may throw returns a [res]: [Ok a] for a
    normal return, [Throw e] for an exception with payload [e]. *)

Inductive res (E A : Type) : Type :=
| Ok (a : A)
| Throw (e : E).
Arguments Ok {E A} a.
Arguments Throw {E A} e.

#[global] Instance res_ret {E} : MRet (res E) := λ A a, Ok a.
#[global] Instance res_bind {E} : MBind (res E) := λ A B f m,
  match m with
  | Ok a => f a
  | Throw e => Throw e
  end.
#[global] Instance res_fmap {E} : FMap (res E) := λ A B f m,
  match m with
  | Ok a => Ok (f a)
  | Throw e => Throw e
  end.

#[global] Instance res_eq_dec {E A} `{EqDecision E, EqDecision A} : EqDecision (res E A).
Proof. solve_decision. Defined.

Lemma Ok_inj {E A} (a b : A) : @Ok E A a = Ok b → a = b.
Proof. congruence. Qed.

Lemma bind_Ok {E A B} (m : res E A) (f : A → res E B) b :
  (m ≫= f) = Ok b ↔ ∃ a, m = Ok a ∧ f a = Ok b.
Proof.
  destruct m as [a|e]; simpl; split.
  - eauto.
  - by intros (? & [= <-] & ?).
  - done.
  - by intros (? & ? & ?).
Qed.

(** ** Loops

    A [while] loop is a step function on the loop's variables: [Next s]
    is one more iteration, [Done r] leaves the loop (by its condition, a
    [return] or a [throw]). [loop] runs it with fuel; [loop_total] is the
    total-correctness rule every loop of the development is verified with:
    an invariant, and a measure that every iteration decreases. *)

Inductive iter (S R : Type) : Type :=
| Next (s : S)
| Done (r : R).
Arguments Next {S R} s.
Arguments Done {S R} r.

Fixpoint loop {St R} (step : St → iter St R) (fuel : nat) (s : St) : option R :=
  match fuel with
  | O => None
  | S fuel =>
      match step s with
      | Next s' => loop step fuel s'
      | Done r => Some r
      end
  end.

Lemma loop_total {St R} (step : St → iter St R) (I : St → Prop) (μ : St → nat) (Q : R → Prop) :
  (∀ s, I s → match step s with
              | Next s' => I s' ∧ μ s' < μ s
              | Done r => Q r
              end) →
  ∀ fuel s, I s → μ s < fuel → ∃ r, loop step fuel s = Some r ∧ Q r.
Proof.
  intros Hstep fuel. induction fuel as [|fuel IH]; intros s HI Hμ; [lia|].
  simpl. specialize (Hstep s HI). destruct (step s) as [s'|r]; [|eauto].
  destruct Hstep as [HI' Hlt]. apply IH; [done|lia].
Qed.

Lemma loop_mono {St R} (step : St → iter St R) n m s r :
  loop step n s = Some r → n ≤ m → loop step m s = Some r.
Proof.
  revert m s. induction n as [|n IH]; intros m s Hn Hle; [done|].
  destruct m as [|m]; [lia|]. simpl in *.
  destruct (step s); [|done]. apply IH; [done|lia].
Qed.

Lemma loop_det {St R} (step : St → iter St R) n m s r r' :
  loop step n s = Some r → loop step m s = Some r' → r = r'.
Proof.
  intros H1 H2. destruct (decide (n ≤ m)).
  - eapply loop_mono in H1; [|done]. congruence.
  - eapply (loop_mono _ m n) in H2; [|lia]. congruence.
Qed.

(** A loop run on related step functions gives equal results: used to
    show that a loop reads its data only up to an equivalence. *)
Lemma loop_ext {St R} (step1 step2 : St → iter St R) fuel s :
  (∀ s, step1 s = step2 s) → loop step1 fuel s = loop step2 fuel s.
Proof.
  intros Hext. revert s. induction fuel as [|fuel IH]; intros s; [done|].
  simpl. rewrite Hext. destruct (step2 s); [apply IH|done].
Qed.

(** ** Lists *)

Lemma list_elem_of_filter_bool {A} (f : A → bool) (l : list A) x :
  x ∈ List.filter f l ↔ x ∈ l ∧ f x = true.
Proof. by rewrite !list_elem_of_In, filter_In. Qed.

Lemma NoDup_subset_length {A} (l k : list A) :
  NoDup l → (∀ x, x ∈ l → x ∈ k) → length l ≤ length k.
Proof.
  intros Hl Hsub. apply submseteq_length, NoDup_submseteq; done.
Qed.

(** [x] precedes [y] in [l]. *)
Lemma sublist_pair_lookup {A} (l : list A) x y :
  [x; y] `sublist_of` l ↔ ∃ i j, i < j ∧ l !! i = Some x ∧ l !! j = Some y.
Proof.
  split.
  - induction l as [|z l IH]; [by inversion 1|]. intros H. inversion H as [|? ? ? Hy|? ? ? Hs]; subst.
    + apply singleton_sublist_l, list_elem_of_lookup in Hy as [j Hj]. exists 0, (S j). split; [lia|done].
    + destruct (IH Hs) as (i & j & ? & ? & ?). exists (S i), (S j). split; [lia|done].
  - intros (i & j & Hij & Hi & Hj). revert i j Hij Hi Hj.
    induction l as [|z l IH]; intros i j Hij Hi Hj; [done|].
    destruct j as [|j]; [lia|]. destruct i as [|i]; simplify_eq/=.
    + apply sublist_skip, singleton_sublist_l. by eapply list_elem_of_lookup_2.
    + apply sublist_cons. eapply IH; [|done..]. lia.
Qed.

(** Exchanging two entries. *)
Lemma insert_perm {A} (l : list A) i x y : l !! i = Some x → y :: l ≡ₚ x :: <[i := y]> l.
Proof.
  revert i. induction l as [|z l IH]; intros [|i] Hi; simplify_eq/=; [apply Permutation_swap|].
  rewrite Permutation_swap, (IH i Hi). apply Permutation_swap.
Qed.

Lemma swap_perm {A} (l : list A) i j x y : i ≠ j → l !! i = Some x → l !! j = Some y →
  <[j := x]> (<[i := y]> l) ≡ₚ l.
Proof.
  intros Hij Hi Hj. apply (Permutation_cons_inv (a := y)).
  rewrite (insert_perm l i x y Hi). symmetry. apply insert_perm. by rewrite list_lookup_insert_ne.
Qed.

Lemma elem_of_gset_length `{Countable A} (X : gset A) (l : list A) :
  NoDup l → (∀ x, x ∈ l → x ∈ X) → length l ≤ size X.
Proof.
  intros Hl Hsub. unfold size, set_size. simpl.
  apply NoDup_subset_length; [done|]. intros x Hx. by apply elem_of_elements, Hsub.
Qed.

Lemma gset_size_le_list `{Countable A} (X : gset A) (l : list A) :
  (∀ x, x ∈ X → x ∈ l) → size X ≤ length l.
Proof.
  intros Hsub. unfold size, set_size. simpl.
  apply NoDup_subset_length; [apply NoDup_elements|]. intros x Hx%elem_of_elements. auto.
Qed.

(** [Array.prototype.sort] without a comparator orders strings by their
    code units: the lexicographic order of [String.le]. *)
Definition js_sort (l : list string) : list string := merge_sort String.le l.

Lemma js_sort_perm l : js_sort l ≡ₚ l.
Proof. apply merge_sort_Permutation. Qed.

Lemma js_sort_sorted l : Sorted String.le (js_sort l).
Proof. apply Sorted_merge_sort; apply _. Qed.

Lemma elem_of_js_sort l x : x ∈ js_sort l ↔ x ∈ l.
Proof. by rewrite js_sort_perm. Qed.

(** Sorting forgets the order of its input. *)
Lemma js_sort_proper l k : l ≡ₚ k → js_sort l = js_sort k.
Proof.
  intros Hp. apply (Sorted_unique String.le); try apply js_sort_sorted.
  by rewrite !js_sort_perm.
Qed.

Lemma js_sort_idemp l : js_sort (js_sort l) = js_sort l.
Proof. apply js_sort_proper, js_sort_perm. Qed.

#[global] Instance js_sort_Proper : Proper ((≡ₚ) ==> (=)) js_sort.
Proof. intros l k. apply js_sort_proper. Qed.

#[export] Hint Rewrite elem_of_js_sort : drp.
