(* ===== verification/JsMap.v ===== *)
(** * JavaScript's [Map] and [Set], with their iteration order

    ECMAScript's [Map] iterates in insertion order: setting a present key
    keeps its position, a new key goes to the end. The components whose
    behaviour depends on that order (the vertex table of the hash graph,
    the first-in-first-out table of rejected hashes, the message queues)
    use [jsmap] and [jsset]; a map or set that is only ever looked up is a
    [gmap] or [gset] instead. *)

From S2P Require Import Prelude.

Section jsmap.
Context {K V : Type} `{EqDecision K}.
Implicit Types (m : list (K * V)) (k : K) (v : V).

Fixpoint jm_get m k : option V :=
  match m with
  | [] => None
  | (k', v') :: m => if decide (k' = k) then Some v' else jm_get m k
  end.

Fixpoint jm_set m k v : list (K * V) :=
  match m with
  | [] => [(k, v)]
  | (k', v') :: m => if decide (k' = k) then (k', v) :: m else (k', v') :: jm_set m k v
  end.

Fixpoint jm_delete m k : list (K * V) :=
  match m with
  | [] => []
  | (k', v') :: m => if decide (k' = k) then m else (k', v') :: jm_delete m k
  end.

Definition jm_has m k : bool := bool_decide (is_Some (jm_get m k)).
Definition jm_keys m : list K := m.*1.
Definition jm_values m : list V := m.*2.

Lemma jm_get_set_eq m k v : jm_get (jm_set m k v) k = Some v.
Proof.
  induction m as [|[k' v'] m IH]; simpl; [by rewrite decide_True|].
  case_decide; simpl; [by rewrite decide_True|by rewrite decide_False].
Qed.

Lemma jm_get_set_ne m k k' v : k ≠ k' → jm_get (jm_set m k v) k' = jm_get m k'.
Proof.
  intros Hne. induction m as [|[k0 v0] m IH]; simpl; [by rewrite decide_False|].
  repeat (case_decide; simplify_eq/=); done.
Qed.

Lemma jm_get_set m k k' v :
  jm_get (jm_set m k v) k' = if decide (k = k') then Some v else jm_get m k'.
Proof. case_decide as H; [subst; apply jm_get_set_eq|by apply jm_get_set_ne]. Qed.

Lemma jm_get_Some_keys m k v : jm_get m k = Some v → k ∈ jm_keys m.
Proof.
  induction m as [|[k' v'] m IH]; simpl; [done|].
  case_decide; [subst; left|right; auto].
Qed.

Lemma jm_get_elem m k v : jm_get m k = Some v → (k, v) ∈ m.
Proof.
  induction m as [|[k' v'] m IH]; simpl; [done|].
  case_decide; [intros [= <-]; subst; left|right; auto].
Qed.

Lemma jm_get_None m k : jm_get m k = None ↔ k ∉ jm_keys m.
Proof.
  induction m as [|[k' v'] m IH]; simpl; [split; [intros _ []%elem_of_nil|done]|].
  rewrite not_elem_of_cons. case_decide; [|rewrite IH]; naive_solver.
Qed.

Lemma jm_has_spec m k : jm_has m k = true ↔ k ∈ jm_keys m.
Proof.
  unfold jm_has. rewrite bool_decide_eq_true, <- not_eq_None_Some, jm_get_None.
  split; [apply dec_stable|auto].
Qed.

Lemma jm_has_false m k : jm_has m k = false ↔ jm_get m k = None.
Proof. unfold jm_has. by rewrite bool_decide_eq_false, eq_None_not_Some. Qed.

Lemma jm_keys_set_new m k v : jm_get m k = None → jm_set m k v = m ++ [(k, v)].
Proof.
  induction m as [|[k' v'] m IH]; simpl; [done|].
  case_decide; [done|]. intros. by rewrite IH.
Qed.

Lemma jm_keys_set_old m k v : is_Some (jm_get m k) → jm_keys (jm_set m k v) = jm_keys m.
Proof.
  induction m as [|[k' v'] m IH]; simpl; [by intros []|].
  case_decide; simpl; [done|]. intros. by rewrite IH.
Qed.

Lemma elem_of_jm_keys_set m k v k' : k' ∈ jm_keys (jm_set m k v) ↔ k' = k ∨ k' ∈ jm_keys m.
Proof.
  destruct (jm_get m k) eqn:Hk.
  - rewrite jm_keys_set_old by eauto. split; [auto|].
    intros [->|]; [by eapply jm_get_Some_keys|done].
  - rewrite jm_keys_set_new by done. unfold jm_keys. rewrite fmap_app. set_solver.
Qed.

Lemma NoDup_jm_keys_set m k v : NoDup (jm_keys m) → NoDup (jm_keys (jm_set m k v)).
Proof.
  intros Hm. destruct (jm_get m k) eqn:Hk.
  - by rewrite jm_keys_set_old by eauto.
  - rewrite jm_keys_set_new by done. unfold jm_keys in *. rewrite fmap_app. simpl.
    apply NoDup_app. split; [done|]. split.
    + intros x Hx ->%list_elem_of_singleton. by apply jm_get_None in Hk.
    + apply NoDup_singleton.
Qed.

Lemma jm_get_In m k v : NoDup (jm_keys m) → (k, v) ∈ m → jm_get m k = Some v.
Proof.
  induction m as [|[k' v'] m IH]; simpl; [by intros _ []%elem_of_nil|].
  intros [Hk Hm]%NoDup_cons [[= <- <-]|Hin]%elem_of_cons.
  - by rewrite decide_True.
  - rewrite decide_False; [by apply IH|]. intros ->. apply Hk.
    unfold jm_keys. rewrite list_elem_of_fmap. by exists (k, v).
Qed.

Lemma jm_keys_delete m k : NoDup (jm_keys m) →
  ∀ k', k' ∈ jm_keys (jm_delete m k) ↔ k' ∈ jm_keys m ∧ k' ≠ k.
Proof.
  induction m as [|[k0 v0] m IH]; simpl; [set_solver|].
  intros [Hk Hm]%NoDup_cons k'. case_decide; subst; simpl; [set_solver|].
  rewrite !elem_of_cons, IH by done. set_solver.
Qed.

Lemma NoDup_jm_keys_delete m k : NoDup (jm_keys m) → NoDup (jm_keys (jm_delete m k)).
Proof.
  induction m as [|[k0 v0] m IH]; simpl; [done|].
  intros [Hk Hm]%NoDup_cons. case_decide; [done|].
  simpl. apply NoDup_cons. split; [|by apply IH].
  intros [??]%jm_keys_delete; done.
Qed.

Lemma jm_get_delete m k k' : NoDup (jm_keys m) →
  jm_get (jm_delete m k) k' = if decide (k = k') then None else jm_get m k'.
Proof.
  intros Hm. case_decide as Hk.
  - subst. apply jm_get_None. by intros [??]%jm_keys_delete.
  - clear Hm. induction m as [|[k0 v0] m IH]; simpl; [done|].
    repeat (case_decide; simplify_eq/=); done.
Qed.

Lemma jm_get_app m1 m2 k :
  jm_get (m1 ++ m2) k = match jm_get m1 k with Some v => Some v | None => jm_get m2 k end.
Proof. induction m1 as [|[k0 v0] m1 IH]; simpl; [done|]. by case_decide. Qed.

End jsmap.

#[export] Hint Resolve jm_get_Some_keys NoDup_jm_keys_set NoDup_jm_keys_delete : jsmap.

(** ** [Set] *)
Section jsset.
Context {K : Type} `{EqDecision K}.
Implicit Types (s : list K) (k : K).

Definition js_has s k : bool := bool_decide (k ∈ s).
Definition js_add s k : list K := if decide (k ∈ s) then s else s ++ [k].
Fixpoint js_del s k : list K :=
  match s with
  | [] => []
  | k' :: s => if decide (k' = k) then s else k' :: js_del s k
  end.

Lemma elem_of_js_add s k k' : k' ∈ js_add s k ↔ k' ∈ s ∨ k' = k.
Proof. unfold js_add. case_decide; set_solver. Qed.

Lemma NoDup_js_add s k : NoDup s → NoDup (js_add s k).
Proof.
  unfold js_add. intros Hs. case_decide; [done|].
  apply NoDup_app. split; [done|]. split; [set_solver|apply NoDup_singleton].
Qed.

Lemma elem_of_js_del s k k' : NoDup s → k' ∈ js_del s k ↔ k' ∈ s ∧ k' ≠ k.
Proof.
  induction s as [|k0 s IH]; simpl; [set_solver|].
  intros [Hk Hs]%NoDup_cons. case_decide; subst; [set_solver|].
  rewrite !elem_of_cons, IH by done. set_solver.
Qed.

Lemma NoDup_js_del s k : NoDup s → NoDup (js_del s k).
Proof.
  induction s as [|k0 s IH]; simpl; [done|].
  intros [Hk Hs]%NoDup_cons. case_decide; [done|].
  apply NoDup_cons. split; [|by apply IH]. by intros [??]%elem_of_js_del.
Qed.

End jsset.

#[export] Hint Resolve NoDup_js_add NoDup_js_del : jsmap.
