(* ===== verification/JsNum.v ===== *)
(** * JavaScript's integer conversions and bitwise operators

    A JavaScript number used as an integer is a [Z]. The bitwise operators
    convert their operands to signed 32-bit integers ([ToInt32]) and give
    one back; a store into a [Uint32Array] reduces modulo [2^32]. *)

From S2P Require Import Prelude.

Local Open Scope Z_scope.

Definition two32 : Z := 2 ^ 32.
Definition to_uint32 (x : Z) : Z := x mod two32.
Definition to_int32 (x : Z) : Z :=
  let u := x mod two32 in if u <? 2 ^ 31 then u else u - two32.

Definition js_shl (a b : Z) : Z := to_int32 (Z.shiftl (to_int32 a) (b mod 32)).
Definition js_or (a b : Z) : Z := to_int32 (Z.lor (to_int32 a) (to_int32 b)).
Definition js_and (a b : Z) : Z := to_int32 (Z.land (to_int32 a) (to_int32 b)).
Definition js_xor (a b : Z) : Z := to_int32 (Z.lxor (to_int32 a) (to_int32 b)).
Definition js_not (a : Z) : Z := to_int32 (Z.lnot (to_int32 a)).

(** [x | 0] for a number that is the quotient of two integers. *)
Definition js_trunc_div (a b : Z) : Z := to_int32 (Z.quot a b).

Lemma to_uint32_range x : 0 ≤ to_uint32 x < two32.
Proof. apply Z.mod_pos_bound. unfold two32. lia. Qed.

Lemma to_uint32_small x : 0 ≤ x < two32 → to_uint32 x = x.
Proof. apply Z.mod_small. Qed.

Lemma to_int32_mod x : to_int32 x mod two32 = x mod two32.
Proof.
  unfold to_int32. cbv zeta. destruct (_ <? _); [by apply Z.mod_mod|].
  rewrite <- Zminus_mod_idemp_r, Z.mod_same, Z.sub_0_r by done. by apply Z.mod_mod.
Qed.

Lemma to_uint32_to_int32 x : to_uint32 (to_int32 x) = to_uint32 x.
Proof. apply to_int32_mod. Qed.

Lemma to_int32_small x : 0 ≤ x < 2 ^ 31 → to_int32 x = x.
Proof.
  intros Hx. unfold to_int32. cbv zeta. rewrite Z.mod_small by (unfold two32; lia).
  destruct (Z.ltb_spec x (2 ^ 31)); lia.
Qed.

Lemma to_int32_zero x : x mod two32 = 0 → to_int32 x = 0.
Proof. unfold to_int32. cbv zeta. by intros ->. Qed.

Lemma testbit_to_uint32 x i : 0 ≤ i < 32 → Z.testbit (to_uint32 x) i = Z.testbit x i.
Proof. intros Hi. unfold to_uint32, two32. apply Z.mod_pow2_bits_low. lia. Qed.

Lemma testbit_to_int32 x i : 0 ≤ i < 32 → Z.testbit (to_int32 x) i = Z.testbit x i.
Proof.
  intros Hi. rewrite <- (testbit_to_uint32 (to_int32 x)), to_uint32_to_int32 by done.
  by apply testbit_to_uint32.
Qed.

Lemma testbit_uint32_high x i : 0 ≤ x < two32 → 32 ≤ i → Z.testbit x i = false.
Proof.
  intros Hx Hi. rewrite <- (Z.mod_small x two32) by done.
  unfold two32. apply Z.mod_pow2_bits_high. lia.
Qed.

(** Two unsigned 32-bit words are equal when their 32 bits are. *)
Lemma uint32_bits_eq x y : 0 ≤ x < two32 → 0 ≤ y < two32 →
  (∀ i, 0 ≤ i < 32 → Z.testbit x i = Z.testbit y i) → x = y.
Proof.
  intros Hx Hy Hbits. apply Z.bits_inj'. intros i Hi.
  destruct (decide (i < 32)); [apply Hbits; lia|].
  rewrite !testbit_uint32_high by (done || lia). done.
Qed.

(** The bit a shifted one sets, for the whole range of a word (bit 31 makes the
    [int32] negative; the stored word does not notice). *)
Lemma testbit_js_shl1 b i : 0 ≤ b < 32 → 0 ≤ i < 32 →
  Z.testbit (js_shl 1 b) i = bool_decide (i = b).
Proof.
  intros Hb Hi. unfold js_shl. rewrite testbit_to_int32 by done.
  rewrite (Z.mod_small b) by lia. rewrite (to_int32_small 1) by lia.
  rewrite Z.shiftl_1_l. case_bool_decide; subst.
  - apply Z.pow2_bits_true. lia.
  - apply Z.pow2_bits_false. lia.
Qed.

Lemma testbit_js_or a b i : 0 ≤ i < 32 →
  Z.testbit (js_or a b) i = Z.testbit a i || Z.testbit b i.
Proof. intros. unfold js_or. by rewrite testbit_to_int32, Z.lor_spec, !testbit_to_int32. Qed.

Lemma testbit_js_and a b i : 0 ≤ i < 32 →
  Z.testbit (js_and a b) i = Z.testbit a i && Z.testbit b i.
Proof. intros. unfold js_and. by rewrite testbit_to_int32, Z.land_spec, !testbit_to_int32. Qed.

Lemma testbit_js_xor a b i : 0 ≤ i < 32 →
  Z.testbit (js_xor a b) i = xorb (Z.testbit a i) (Z.testbit b i).
Proof. intros. unfold js_xor. by rewrite testbit_to_int32, Z.lxor_spec, !testbit_to_int32. Qed.

Lemma testbit_js_not a i : 0 ≤ i < 32 → Z.testbit (js_not a) i = negb (Z.testbit a i).
Proof.
  intros. unfold js_not. rewrite testbit_to_int32 by done.
  rewrite Z.lnot_spec by lia. by rewrite testbit_to_int32.
Qed.

(** [(w & (1 << b)) !== 0] reads bit [b] of [w]. *)
Lemma js_and_bit w b : 0 ≤ b < 32 →
  bool_decide (js_and w (js_shl 1 b) ≠ 0) = Z.testbit w b.
Proof.
  intros Hb. destruct (Z.testbit w b) eqn:Hw.
  - apply bool_decide_eq_true. intros H0.
    assert (Z.testbit (js_and w (js_shl 1 b)) b = true) as Hb1.
    { rewrite testbit_js_and, testbit_js_shl1, Hw, bool_decide_eq_true_2 by done. done. }
    rewrite H0, Z.bits_0 in Hb1. done.
  - apply bool_decide_eq_false. intros Hne. apply Hne.
    assert (js_and w (js_shl 1 b) mod two32 = 0) as Hmod.
    { apply uint32_bits_eq; [apply to_uint32_range|unfold two32; lia|].
      intros i Hi. rewrite Z.bits_0. change (Z.testbit (to_uint32 (js_and w (js_shl 1 b))) i = false).
      rewrite testbit_to_uint32, testbit_js_and, testbit_js_shl1 by done.
      case_bool_decide; subst; [by rewrite Hw|by rewrite andb_false_r]. }
    unfold js_and in *. rewrite to_int32_mod in Hmod. by apply to_int32_zero.
Qed.

#[export] Hint Rewrite testbit_to_uint32 testbit_to_int32 testbit_js_or testbit_js_and
  testbit_js_xor testbit_js_not testbit_js_shl1 using lia : drp.
