(* ===== verification/Bits.v ===== *)
(** * The bit set of the hash graph ([packages/object/src/hashgraph/bitset.ts])

    [BitSet.t] is the class [BitSet]: a [Uint32Array], as the list of its
    32-bit words. An access outside a typed array reads [undefined] (which the
    bitwise operators convert to 0) and ignores a store. The operators are the
    ones of [JsNum], so bit 31 goes through a negative [int32] as it does in
    the code. The abstract view of a bit set is the function [BitSet.get]: the
    theorems say what every operation does to it. *)

From S2P Require Import Prelude JsNum.

Local Open Scope Z_scope.

(** ** [Uint32Array] *)

Definition u32_get (a : list Z) (i : Z) : option Z :=
  if 0 <=? i then a !! Z.to_nat i else None.

Definition u32_set (a : list Z) (i x : Z) : list Z :=
  if 0 <=? i then <[Z.to_nat i := to_uint32 x]> a else a.

(** [undefined] is 0 for the bitwise operators. *)
Definition u32_num (o : option Z) : Z := default 0 o.

(** [DataView.getUint32] and [setUint32], little endian. *)
Definition le_word (bs : list Z) : Z :=
  match bs with
  | [b0; b1; b2; b3] => b0 + 2 ^ 8 * b1 + 2 ^ 16 * b2 + 2 ^ 24 * b3
  | _ => 0
  end.

Definition word_le (w : Z) : list Z :=
  [w mod 2 ^ 8; w / 2 ^ 8 mod 2 ^ 8; w / 2 ^ 16 mod 2 ^ 8; w / 2 ^ 24 mod 2 ^ 8].

Module BitSet.

Record t := mk { data : list Z }.

#[global] Instance t_eq_dec : EqDecision t.
Proof. solve_decision. Defined.

Inductive error := RangeError (expected received : Z).

(** [new BitSet(bits)] *)
Definition new (bits : Z) : t :=
  mk (replicate (Z.to_nat ((bits + 31) / 32)) 0).

(** [new BitSet(bits, data)] *)
Definition of_bytes (bits : Z) (bytes : list Z) : res error t :=
  let size := (bits + 31) / 32 in
  let byteLength := size * 4 in
  if bool_decide (Z.of_nat (length bytes) ≠ byteLength)
  then Throw (RangeError byteLength (Z.of_nat (length bytes)))
  else Ok (mk (map (λ i, le_word (take 4 (drop (4 * i) bytes))) (seq 0 (Z.to_nat size)))).

Definition toBytes (b : t) : list Z := mjoin (word_le <$> data b).

Definition clear (b : t) : t := mk (replicate (length (data b)) 0).

Definition set (b : t) (index : Z) (value : bool) : t :=
  let byteIndex := js_trunc_div index 32 in
  let bitIndex := Z.rem index 32 in
  let w := u32_num (u32_get (data b) byteIndex) in
  if value
  then mk (u32_set (data b) byteIndex (js_or w (js_shl 1 bitIndex)))
  else mk (u32_set (data b) byteIndex (js_and w (js_not (js_shl 1 bitIndex)))).

Definition get (b : t) (index : Z) : bool :=
  let byteIndex := js_trunc_div index 32 in
  let bitIndex := Z.rem index 32 in
  bool_decide (js_and (u32_num (u32_get (data b) byteIndex)) (js_shl 1 bitIndex) ≠ 0).

Definition flip (b : t) (index : Z) : t :=
  let byteIndex := js_trunc_div index 32 in
  let bitIndex := Z.rem index 32 in
  let w := u32_num (u32_get (data b) byteIndex) in
  mk (u32_set (data b) byteIndex (js_xor w (js_shl 1 bitIndex))).

(** The loop of [and], [or] and [xor]: every word of [this] with the word of
    [other] at the same index, stored into a new array. *)
Definition zip_words (op : Z → Z → Z) (a b : list Z) : list Z :=
  imap (λ i w, to_uint32 (op w (u32_num (b !! i)))) a.

Definition and (b other : t) : t := mk (zip_words js_and (data b) (data other)).
Definition or (b other : t) : t := mk (zip_words js_or (data b) (data other)).
Definition xor (b other : t) : t := mk (zip_words js_xor (data b) (data other)).
Definition not (b : t) : t := mk ((λ w, to_uint32 (js_not w)) <$> data b).

(** [int.toString(2).padStart(32, "0")], most significant bit first. *)
Definition word_string (w : Z) : list bool := (λ i, Z.testbit w (31 - Z.of_nat i)) <$> seq 0 32.

Definition toString (b : t) : string :=
  String.concat "" ((λ w, String.concat "" ((λ c : bool, if c then "1" else "0")%string <$> word_string w))
    <$> reverse (data b)).

(** ** Well-formed bit sets: every element is an unsigned 32-bit word, and the
    array is short enough for [(index / 32) | 0] to be an exact index. *)
Record wf (b : t) : Prop := {
  wf_words : Forall (λ w, 0 ≤ w < two32) (data b);
  wf_length : Z.of_nat (length (data b)) ≤ 2 ^ 31
}.

Definition capacity (b : t) : Z := 32 * Z.of_nat (length (data b)).

(** The bit of the word array that an index in range denotes. *)
Definition bit (b : t) (i : Z) : bool :=
  match data b !! Z.to_nat (i / 32) with
  | Some w => Z.testbit w (i mod 32)
  | None => false
  end.

Lemma index_in_range b i : wf b → 0 ≤ i < capacity b →
  js_trunc_div i 32 = i / 32 ∧ Z.rem i 32 = i mod 32 ∧ 0 ≤ i / 32 ∧
  (Z.to_nat (i / 32) < length (data b))%nat ∧ 0 ≤ i mod 32 < 32.
Proof.
  intros [_ Hlen] [H0 Hi]. unfold capacity in Hi.
  assert (0 ≤ i / 32 < Z.of_nat (length (data b))) as Hd.
  { split; [apply Z.div_pos; lia|apply Z.div_lt_upper_bound; lia]. }
  pose proof (Z.mod_pos_bound i 32). unfold js_trunc_div.
  rewrite Z.quot_div_nonneg, Z.rem_mod_nonneg, to_int32_small by lia. lia.
Qed.

Lemma get_bit b i : wf b → 0 ≤ i < capacity b → get b i = bit b i.
Proof.
  intros Hb Hi. destruct (index_in_range b i Hb Hi) as (E1 & E2 & H0 & H1 & H2).
  unfold get, bit. cbv zeta. rewrite E1, E2. unfold u32_get.
  rewrite (proj2 (Z.leb_le _ _) H0).
  destruct (data b !! _) as [w|] eqn:Hw; [|apply lookup_ge_None in Hw; lia].
  by apply js_and_bit.
Qed.

Lemma get_out_of_range b i : 0 ≤ i → capacity b ≤ i → i < 2 ^ 36 → get b i = false.
Proof.
  intros H0 Hi Hlt. unfold get. cbv zeta. unfold js_trunc_div.
  rewrite Z.quot_div_nonneg, Z.rem_mod_nonneg by lia.
  rewrite to_int32_small by (split; [apply Z.div_pos; lia|apply Z.div_lt_upper_bound; lia]).
  rewrite js_and_bit by (apply Z.mod_pos_bound; lia).
  assert (u32_get (data b) (i / 32) = None) as ->; [|apply Z.bits_0].
  unfold u32_get. destruct (0 <=? i / 32); [|done]. apply lookup_ge_None_2.
  unfold capacity in Hi. apply Nat2Z.inj_le. rewrite Z2Nat.id by (apply Z.div_pos; lia).
  apply Z.div_le_lower_bound; lia.
Qed.

Lemma wf_new bits : bits ≤ 2 ^ 36 → wf (new bits).
Proof.
  intros Hb. split; simpl.
  - apply Forall_replicate. unfold two32; lia.
  - rewrite length_replicate. assert ((bits + 31) / 32 ≤ 2 ^ 31); [|lia].
    assert ((bits + 31) / 32 < 2 ^ 31 + 1); [apply Z.div_lt_upper_bound|]; lia.
Qed.

Lemma capacity_new bits : 0 ≤ bits → bits ≤ capacity (new bits).
Proof.
  intros Hb. unfold capacity, new. simpl. rewrite length_replicate.
  assert (0 ≤ (bits + 31) / 32) by (apply Z.div_pos; lia).
  pose proof (Z.div_mod (bits + 31) 32). pose proof (Z.mod_pos_bound (bits + 31) 32). lia.
Qed.

Lemma bit_new bits i : bit (new bits) i = false.
Proof.
  unfold bit, new. simpl. destruct (replicate _ _ !! _) as [w|] eqn:E; [|done].
  apply lookup_replicate in E as [-> _]. apply Z.bits_0.
Qed.

(** A store of one word in range. *)
Lemma update_word b i f : wf b → 0 ≤ i < capacity b →
  ∃ w, data b !! Z.to_nat (i / 32) = Some w ∧
  let b' := mk (u32_set (data b) (js_trunc_div i 32)
                  (f (u32_num (u32_get (data b) (js_trunc_div i 32))))) in
  wf b' ∧ capacity b' = capacity b ∧
  ∀ j, 0 ≤ j < capacity b →
    bit b' j = if decide (j / 32 = i / 32) then Z.testbit (f w) (j mod 32) else bit b j.
Proof.
  intros Hb Hi. destruct (index_in_range b i Hb Hi) as (E1 & E2 & H0 & H1 & H2).
  destruct (lookup_lt_is_Some_2 _ _ H1) as [w Hw]. exists w. split; [done|]. cbv zeta.
  rewrite E1. unfold u32_get, u32_set. rewrite (proj2 (Z.leb_le _ _) H0), Hw. simpl.
  split; [|split].
  - destruct Hb as [Hb1 Hb2]. split; simpl; [|by rewrite length_insert].
    apply Forall_insert; [done|apply to_uint32_range].
  - unfold capacity. simpl. by rewrite length_insert.
  - intros j Hj. destruct (index_in_range b j Hb Hj) as (_ & _ & J0 & J1 & J2).
    unfold bit. simpl. case_decide as Hji.
    + rewrite Hji, list_lookup_insert_eq by done. by apply testbit_to_uint32.
    + rewrite list_lookup_insert_ne; [done|]. lia.
Qed.

(** Two indices of the same word denote the same bit exactly when they are equal. *)
Lemma same_bit i j : 0 ≤ i → 0 ≤ j → j / 32 = i / 32 →
  bool_decide (j mod 32 = i mod 32) = bool_decide (i = j).
Proof.
  intros. apply bool_decide_ext.
  pose proof (Z.div_mod i 32). pose proof (Z.div_mod j 32). lia.
Qed.

Lemma set_spec b i v : wf b → 0 ≤ i < capacity b →
  wf (set b i v) ∧ capacity (set b i v) = capacity b ∧
  ∀ j, 0 ≤ j < capacity b → bit (set b i v) j = if decide (i = j) then v else bit b j.
Proof.
  intros Hb Hi. destruct (index_in_range b i Hb Hi) as (_ & E2 & _ & _ & H2).
  unfold set. cbv zeta. rewrite E2. destruct v.
  - destruct (update_word b i (λ w, js_or w (js_shl 1 (i mod 32))) Hb Hi)
      as (w & Hw & Hwf & Hcap & Hbit).
    split; [done|split; [done|]]. intros j Hj. rewrite Hbit by done.
    destruct (decide (j / 32 = i / 32)) as [E|E]; [|by rewrite decide_False by naive_solver].
    rewrite testbit_js_or, testbit_js_shl1 by (done || apply Z.mod_pos_bound; lia).
    rewrite same_bit by lia. unfold bit. rewrite E, Hw.
    destruct (decide (i = j)); [rewrite bool_decide_true, orb_true_r by done; done|].
    by rewrite bool_decide_false, orb_false_r by done.
  - destruct (update_word b i (λ w, js_and w (js_not (js_shl 1 (i mod 32)))) Hb Hi)
      as (w & Hw & Hwf & Hcap & Hbit).
    split; [done|split; [done|]]. intros j Hj. rewrite Hbit by done.
    destruct (decide (j / 32 = i / 32)) as [E|E]; [|by rewrite decide_False by naive_solver].
    rewrite testbit_js_and, testbit_js_not, testbit_js_shl1 by (done || apply Z.mod_pos_bound; lia).
    rewrite same_bit by lia. unfold bit. rewrite E, Hw.
    destruct (decide (i = j)); [rewrite bool_decide_true, andb_false_r by done; done|].
    by rewrite bool_decide_false, andb_true_r by done.
Qed.

Lemma flip_spec b i : wf b → 0 ≤ i < capacity b →
  wf (flip b i) ∧ capacity (flip b i) = capacity b ∧
  ∀ j, 0 ≤ j < capacity b → bit (flip b i) j = if decide (i = j) then negb (bit b j) else bit b j.
Proof.
  intros Hb Hi. destruct (index_in_range b i Hb Hi) as (_ & E2 & _ & _ & H2).
  unfold flip. cbv zeta. rewrite E2.
  destruct (update_word b i (λ w, js_xor w (js_shl 1 (i mod 32))) Hb Hi)
    as (w & Hw & Hwf & Hcap & Hbit).
  split; [done|split; [done|]]. intros j Hj. rewrite Hbit by done.
  destruct (decide (j / 32 = i / 32)) as [E|E]; [|by rewrite decide_False by naive_solver].
  rewrite testbit_js_xor, testbit_js_shl1 by (done || apply Z.mod_pos_bound; lia).
  rewrite same_bit by lia. unfold bit. rewrite E, Hw.
  destruct (decide (i = j)); [rewrite bool_decide_true, xorb_true_r by done; done|].
  by rewrite bool_decide_false, xorb_false_r by done.
Qed.

(** The word-wise operations. [other] may be shorter: its missing words are 0. *)
Lemma zip_words_spec op f a b :
  (∀ x y i, 0 ≤ i < 32 → Z.testbit (op x y) i = f (Z.testbit x i) (Z.testbit y i)) →
  wf a → let r := mk (zip_words op (data a) (data b)) in
  wf r ∧ capacity r = capacity a ∧
  ∀ j, 0 ≤ j < capacity a → bit r j = f (bit a j) (bit b j).
Proof.
  intros Hop Ha. cbv zeta. split; [|split].
  - destruct Ha as [_ Hl]. split; simpl; unfold zip_words; [|by rewrite length_imap].
    apply Forall_lookup. intros k w Hk. rewrite list_lookup_imap in Hk.
    destruct (data a !! k); simplify_eq/=. apply to_uint32_range.
  - unfold capacity, zip_words. simpl. by rewrite length_imap.
  - intros j Hj. destruct (index_in_range a j Ha Hj) as (_ & _ & J0 & J1 & J2).
    unfold bit, zip_words. simpl. rewrite list_lookup_imap.
    destruct (lookup_lt_is_Some_2 _ _ J1) as [w Hw]. rewrite Hw. simpl.
    rewrite testbit_to_uint32, Hop by done. destruct (data b !! _); simpl; [done|].
    by rewrite Z.bits_0.
Qed.

Lemma or_spec a b : wf a → wf (or a b) ∧ capacity (or a b) = capacity a ∧
  ∀ j, 0 ≤ j < capacity a → bit (or a b) j = bit a j || bit b j.
Proof. apply zip_words_spec. intros. by apply testbit_js_or. Qed.

Lemma and_spec a b : wf a → wf (and a b) ∧ capacity (and a b) = capacity a ∧
  ∀ j, 0 ≤ j < capacity a → bit (and a b) j = bit a j && bit b j.
Proof. apply zip_words_spec. intros. by apply testbit_js_and. Qed.

Lemma xor_spec a b : wf a → wf (xor a b) ∧ capacity (xor a b) = capacity a ∧
  ∀ j, 0 ≤ j < capacity a → bit (xor a b) j = xorb (bit a j) (bit b j).
Proof. apply zip_words_spec. intros. by apply testbit_js_xor. Qed.

Lemma not_spec a : wf a → wf (not a) ∧ capacity (not a) = capacity a ∧
  ∀ j, 0 ≤ j < capacity a → bit (not a) j = negb (bit a j).
Proof.
  intros Ha. split; [|split].
  - destruct Ha as [_ Hl]. split; simpl; [|by rewrite length_fmap].
    apply Forall_fmap, Forall_true. intros. apply to_uint32_range.
  - unfold capacity. simpl. by rewrite length_fmap.
  - intros j Hj. destruct (index_in_range a j Ha Hj) as (_ & _ & J0 & J1 & J2).
    unfold bit. simpl. rewrite list_lookup_fmap.
    destruct (lookup_lt_is_Some_2 _ _ J1) as [w Hw]. rewrite Hw. simpl.
    by rewrite testbit_to_uint32, testbit_js_not by done.
Qed.

Lemma clear_spec b : wf b → wf (clear b) ∧ capacity (clear b) = capacity b ∧
  ∀ j, bit (clear b) j = false.
Proof.
  intros [_ Hl]. unfold clear, capacity. split; [|split].
  - split; simpl; [apply Forall_replicate; unfold two32; lia|by rewrite length_replicate].
  - simpl. by rewrite length_replicate.
  - intros j. unfold bit. simpl. destruct (replicate _ _ !! _) as [w|] eqn:E; [|done].
    apply lookup_replicate in E as [-> _]. apply Z.bits_0.
Qed.

(** ** The little-endian codec *)

Lemma length_word_le w : length (word_le w) = 4%nat.
Proof. done. Qed.

Lemma le_word_le w : 0 ≤ w < two32 → le_word (word_le w) = w.
Proof.
  intros Hw. unfold le_word, word_le, two32 in *.
  assert (w / 2 ^ 24 mod 2 ^ 8 = w / 2 ^ 24) as ->.
  { apply Z.mod_small. split; [apply Z.div_pos; lia|apply Z.div_lt_upper_bound; lia]. }
  change (2 ^ 16) with (2 ^ 8 * 2 ^ 8). change (2 ^ 24) with (2 ^ 8 * 2 ^ 8 * 2 ^ 8).
  rewrite <- !Z.div_div by lia.
  pose proof (Z.div_mod w (2 ^ 8)). pose proof (Z.div_mod (w / 2 ^ 8) (2 ^ 8)).
  pose proof (Z.div_mod (w / 2 ^ 8 / 2 ^ 8) (2 ^ 8)). lia.
Qed.

Lemma word_le_le bs : length bs = 4%nat → Forall (λ b, 0 ≤ b < 2 ^ 8) bs → word_le (le_word bs) = bs.
Proof.
  intros Hl Hb. destruct bs as [|b0 [|b1 [|b2 [|b3 [|]]]]]; simplify_eq/=.
  rewrite !Forall_cons in Hb. destruct Hb as (H0 & H1 & H2 & H3 & _).
  unfold word_le. set (w := b0 + _ + _ + _).
  assert (w / 2 ^ 8 = b1 + 2 ^ 8 * b2 + 2 ^ 16 * b3) as E1.
  { subst w. symmetry. apply Z.div_unique with b0; lia. }
  assert (w / 2 ^ 16 = b2 + 2 ^ 8 * b3) as E2.
  { subst w. symmetry. apply Z.div_unique with (b0 + 2 ^ 8 * b1); lia. }
  assert (w / 2 ^ 24 = b3) as E3.
  { subst w. symmetry. apply Z.div_unique with (b0 + 2 ^ 8 * b1 + 2 ^ 16 * b2); lia. }
  rewrite E1, E2, E3. subst w. repeat f_equal.
  - symmetry. apply Z.mod_unique with (b1 + 2 ^ 8 * b2 + 2 ^ 16 * b3); lia.
  - symmetry. apply Z.mod_unique with (b2 + 2 ^ 8 * b3); lia.
  - symmetry. apply Z.mod_unique with b3; lia.
  - apply Z.mod_small; lia.
Qed.

Lemma length_join_word_le (l : list Z) : length (mjoin (word_le <$> l)) = (4 * length l)%nat.
Proof.
  induction l as [|w l IH]; [done|]. change (length (word_le w ++ mjoin (word_le <$> l)) = 4 * S (length l))%nat.
  rewrite length_app, IH, length_word_le. lia.
Qed.

Lemma length_toBytes b : length (toBytes b) = (4 * length (data b))%nat.
Proof.
  unfold toBytes. apply length_join_word_le.
Qed.

(** Word [i] of the serialized array. *)
Lemma toBytes_word b i w : data b !! i = Some w →
  take 4 (drop (4 * i) (toBytes b)) = word_le w.
Proof.
  unfold toBytes. intros Hi. apply list_elem_of_split_length in Hi as (l1 & l2 & -> & Hl).
  rewrite fmap_app, join_app. pose proof (length_join_word_le l1) as Hlen.
  rewrite drop_app_ge by lia. rewrite Hlen, Hl, Nat.sub_diag. done.
Qed.

Lemma of_bytes_size bits bytes :
  of_bytes bits bytes =
  if decide (Z.of_nat (length bytes) = (bits + 31) / 32 * 4)
  then Ok (mk (map (λ i, le_word (take 4 (drop (4 * i) bytes))) (seq 0 (Z.to_nat ((bits + 31) / 32)))))
  else Throw (RangeError ((bits + 31) / 32 * 4) (Z.of_nat (length bytes))).
Proof.
  unfold of_bytes. cbv zeta. case_decide as H.
  - rewrite bool_decide_false; [done|]. intros Hn. by apply Hn.
  - by rewrite bool_decide_true.
Qed.

Lemma list_seq_lookup (f : nat → Z) (l : list Z) :
  (∀ i w, l !! i = Some w → f i = w) → map f (seq 0 (length l)) = l.
Proof.
  intros Hf. apply list_eq. intros i. change (map f ?k) with (f <$> k).
  rewrite list_lookup_fmap. destruct (l !! i) as [w|] eqn:Hi.
  - assert (i < length l)%nat by (apply lookup_lt_Some in Hi; lia).
    rewrite lookup_seq_lt by lia. simpl. f_equal. by apply Hf.
  - apply lookup_ge_None in Hi. rewrite lookup_seq_ge by lia. done.
Qed.

(** The constructor undoes [toBytes]. *)
Lemma of_bytes_toBytes b bits : wf b → (bits + 31) / 32 = Z.of_nat (length (data b)) →
  of_bytes bits (toBytes b) = Ok b.
Proof.
  intros Hb Hbits. rewrite of_bytes_size, Hbits, length_toBytes.
  rewrite decide_True by lia. rewrite Nat2Z.id. f_equal. destruct b as [l]. f_equal.
  apply list_seq_lookup. intros i w Hi.
  rewrite (toBytes_word (mk l) i w) by done. apply le_word_le.
  destruct Hb as [Hw _]. by eapply Forall_lookup_1 in Hw.
Qed.

Lemma le_word_range bs : Forall (λ b, 0 ≤ b < 2 ^ 8) bs → 0 ≤ le_word bs < two32.
Proof.
  intros Hb. unfold le_word, two32.
  destruct bs as [|b0 [|b1 [|b2 [|b3 [|]]]]]; try lia.
  rewrite !Forall_cons in Hb. lia.
Qed.

(** What the constructor accepts is well formed. *)
Lemma of_bytes_wf bits bytes b : bits ≤ 2 ^ 36 → 0 ≤ bits → Forall (λ b, 0 ≤ b < 2 ^ 8) bytes →
  of_bytes bits bytes = Ok b →
  wf b ∧ capacity b = capacity (new bits) ∧ Z.of_nat (length bytes) * 8 = capacity b.
Proof.
  intros Hle H0 Hby. rewrite of_bytes_size. case_decide as Hlen; [|done]. intros [= <-].
  assert (0 ≤ (bits + 31) / 32) by (apply Z.div_pos; lia).
  assert ((bits + 31) / 32 < 2 ^ 31 + 1) by (apply Z.div_lt_upper_bound; lia).
  unfold capacity, new. simpl. rewrite length_map, length_seq, length_replicate. split; [|lia].
  split; simpl; [|rewrite length_map, length_seq; lia].
  change (map ?f ?k) with (f <$> k). apply Forall_fmap, Forall_true. intros i.
  apply le_word_range. by apply Forall_take, Forall_drop.
Qed.

(** ** Properties *)

(** C33 The bit-set operations act on single bits: after [set], [flip], [clear],
    [and], [or], [xor] or [not], [get] at every index in range (bit 31 of a
    word included) gives the Boolean operation of the bits before, and no
    other bit moves. *)
Theorem operations_bitwise (b other : t) (i j : Z) (v : bool) :
  wf b → wf other → capacity other = capacity b →
  0 ≤ i < capacity b → 0 ≤ j < capacity b →
  get (set b i v) j = (if decide (i = j) then v else get b j) ∧
  get (flip b i) j = (if decide (i = j) then negb (get b j) else get b j) ∧
  get (and b other) j = get b j && get other j ∧
  get (or b other) j = get b j || get other j ∧
  get (xor b other) j = xorb (get b j) (get other j) ∧
  get (not b) j = negb (get b j) ∧
  get (clear b) j = false.
Proof.
  intros Hb Ho Hcap Hi Hj.
  destruct (set_spec b i v Hb Hi) as (? & ? & Es). destruct (flip_spec b i Hb Hi) as (? & ? & Ef).
  destruct (and_spec b other Hb) as (? & ? & Ea). destruct (or_spec b other Hb) as (? & ? & Eo).
  destruct (xor_spec b other Hb) as (? & ? & Ex). destruct (not_spec b Hb) as (? & ? & En).
  destruct (clear_spec b Hb) as (? & ? & Ec).
  rewrite !get_bit by (done || congruence || lia).
  rewrite Es, Ef, Ea, Eo, Ex, En, Ec by done. done.
Qed.

Lemma operations_bitwise_witness :
  get (set (new 64) 31 true) 31 = true ∧ get (set (new 64) 31 true) 32 = false.
Proof.
  split.
  - refine (eq_trans (proj1 (operations_bitwise (new 64) (new 64) 31 31 true _ _ _ _ _)) _);
      try (apply wf_new; lia); (reflexivity || (vm_compute; split; congruence)).
  - refine (eq_trans (proj1 (operations_bitwise (new 64) (new 64) 31 32 true _ _ _ _ _)) _);
      try (apply wf_new; lia); (reflexivity || (vm_compute; split; congruence)).
Defined.

(** A bit set survives its wire form: decoding the bytes of [toBytes] with
    the constructor gives the bit set back for every bit count that needs the
    same number of words, and the constructor refuses any other length. *)
Theorem bytes_roundtrip (b : t) (bits : Z) (bytes : list Z) :
  wf b → (bits + 31) / 32 = Z.of_nat (length (data b)) →
  of_bytes bits (toBytes b) = Ok b ∧
  (Z.of_nat (length bytes) ≠ 4 * Z.of_nat (length (data b)) →
     of_bytes bits bytes = Throw (RangeError (4 * Z.of_nat (length (data b))) (Z.of_nat (length bytes)))).
Proof.
  intros Hb Hbits. split; [by apply of_bytes_toBytes|].
  intros Hne. rewrite of_bytes_size, Hbits, decide_False by lia. f_equal. f_equal. lia.
Qed.

Lemma bytes_roundtrip_witness :
  let b := mk [1; 4294967295] in
  of_bytes 40 (toBytes b) = Ok b ∧ of_bytes 40 [0; 0; 0; 0] = Throw (RangeError 8 4).
Proof.
  cbv zeta. destruct (bytes_roundtrip (mk [1; 4294967295]) 40 [0; 0; 0; 0]) as [H1 H2].
  - split; [|simpl; lia]. repeat constructor; unfold two32; lia.
  - reflexivity.
  - split; [exact H1|]. apply H2. simpl. lia.
Defined.

End BitSet.
