(* ===== verification/JsValue.v ===== *)
(** * JavaScript values carried by operations and states

    The payload of an operation and the fields of a DRP are JavaScript values:
    [jsvalue]. A number is an integer; a reference (array, object, [Map],
    [Set], function) in one vertex is never the same object as a reference in
    another one, since payloads are detached by [cloneDeep] or decoded from the
    wire, so [===] between payloads of two vertices compares primitives only. *)

From S2P Require Import Prelude.

Inductive jsvalue : Type :=
| VUndefined
| VNull
| VBool (b : bool)
| VNum (n : Z)
| VStr (s : string)
| VArr (l : list jsvalue)
| VObj (fields : list (string * jsvalue))
| VMap (entries : list (jsvalue * jsvalue))
| VSet (l : list jsvalue)
| VFun (name : string).

Definition is_function (v : jsvalue) : bool :=
  match v with VFun _ => true | _ => false end.

(** [v === w] for values of two different payloads. *)
Definition strict_eq (v w : jsvalue) : bool :=
  match v, w with
  | VUndefined, VUndefined | VNull, VNull => true
  | VBool a, VBool b => Bool.eqb a b
  | VNum a, VNum b => (a =? b)%Z
  | VStr a, VStr b => String.eqb a b
  | _, _ => false
  end.

Lemma strict_eq_sym v w : strict_eq v w = strict_eq w v.
Proof.
  destruct v, w; simpl; try done.
  - by destruct b, b0.
  - apply Z.eqb_sym.
  - apply String.eqb_sym.
Qed.

(** [args[i]]: [undefined] past the end. *)
Definition arg (args : list jsvalue) (i : nat) : jsvalue := default VUndefined (args !! i).

(** ** [JSON.stringify] *)

Definition hex_digit (n : nat) : Ascii.ascii :=
  Ascii.ascii_of_nat (if n <? 10 then 48 + n else 87 + n)%nat.

Definition json_escape (c : Ascii.ascii) : string :=
  let n := Ascii.nat_of_ascii c in
  let bs := String (Ascii.ascii_of_nat 92) in
  if n =? 34 then bs (String c EmptyString)
  else if n =? 92 then bs (String c EmptyString)
  else if n =? 8 then bs "b"
  else if n =? 9 then bs "t"
  else if n =? 10 then bs "n"
  else if n =? 12 then bs "f"
  else if n =? 13 then bs "r"
  else if n <? 32 then
    bs ("u00" +:+ String (hex_digit (n / 16)) (String (hex_digit (n mod 16)) EmptyString))
  else String c EmptyString.

Definition json_quote (s : string) : string :=
  let q := String (Ascii.ascii_of_nat 34) EmptyString in
  q +:+ String.concat EmptyString (json_escape <$> String.list_ascii_of_string s) +:+ q.

(** [None] is the [undefined] that [JSON.stringify] returns for [undefined] and
    for a function; inside an array such an element prints as [null], inside an
    object the property is left out. A [Map] or [Set] has no enumerable
    property. *)
Fixpoint json_stringify (v : jsvalue) : option string :=
  match v with
  | VUndefined | VFun _ => None
  | VNull => Some "null"
  | VBool b => Some (if b then "true" else "false")%string
  | VNum n => Some (pretty n)
  | VStr s => Some (json_quote s)
  | VArr l =>
      Some ("[" +:+ String.concat "," (map (λ x, default "null"%string (json_stringify x)) l) +:+ "]")
  | VObj fs =>
      Some ("{" +:+ String.concat ","
              (flat_map (λ kx, match json_stringify kx.2 with
                               | Some s => [json_quote kx.1 +:+ ":" +:+ s]
                               | None => []
                               end) fs) +:+ "}")
  | VMap _ | VSet _ => Some "{}"
  end.

Example json_stringify_example :
  json_stringify (VObj [("a", VNum (-7)); ("b", VUndefined); ("c", VArr [VUndefined; VBool true])])%Z%string
  = Some (String.concat (String (Ascii.ascii_of_nat 34) EmptyString)
            ["{"; "a"; ":-7,"; "c"; ":[null,true]}"])%string.
Proof. vm_compute. reflexivity. Qed.
