(* ===== verification/Types.v ===== *)
(** * Shared types ([packages/types/src/hashgraph.ts], [drp.ts], [object.proto])

    Hashes, operations, vertices, and the outcome of a conflict resolver. The
    hash of a vertex is [computeHash] of [packages/utils/src/hash/index.ts];
    SHA-256 comes from a package outside the repository and is the parameter
    [sha256hex] (the digest in hexadecimal). *)

From S2P Require Import Prelude JsValue.

Abbreviation Hash := string (only parsing).

Record Operation := mkOperation {
  drpType : string;
  opType : string;
  value : list jsvalue
}.

Record Vertex := mkVertex {
  hash : Hash;
  peerId : string;
  operation : option Operation;
  dependencies : list Hash;
  timestamp : Z;
  signature : list Z
}.

Inductive ActionType := ActNop | ActDropLeft | ActDropRight | ActSwap | ActDrop.
#[global] Instance ActionType_eq_dec : EqDecision ActionType.
Proof. solve_decision. Defined.

Record ResolveConflictsType := mkResolved {
  action : ActionType;
  resolved_vertices : option (list Hash)
}.

Definition resolved (a : ActionType) : ResolveConflictsType := mkResolved a None.

Abbreviation ResolveConflictFn := (list Vertex → ResolveConflictsType) (only parsing).

Inductive SemanticsType := SemPair | SemMultiple.
#[global] Instance SemanticsType_eq_dec : EqDecision SemanticsType.
Proof. solve_decision. Defined.

(** [enum DrpType] *)
Definition DrpType_ACL : string := "ACL".
Definition DrpType_DRP : string := "DRP".

(** [OperationType.NOP] *)
Definition OperationType_NOP : string := "-1".

(** The type of a vertex's operation, [vertex.operation?.drpType]. *)
Definition drpType_of (v : Vertex) : option string := drpType <$> operation v.

(** ** Hashing *)
Section hashing.
Variable sha256hex : string → Hash.

Definition operation_json (op : Operation) : jsvalue :=
  VObj [("drpType", VStr (drpType op)); ("opType", VStr (opType op)); ("value", VArr (value op))].

Definition computeHash (peer : string) (op : option Operation) (deps : list Hash) (ts : Z) : Hash :=
  let serialized := json_stringify
    (VObj [("operation", match op with Some op => operation_json op | None => VUndefined end);
           ("deps", VArr (VStr <$> deps)); ("peerId", VStr peer); ("timestamp", VNum ts)]) in
  sha256hex (default EmptyString serialized).

(** [createVertex] *)
Definition createVertex (peer : string) (op : Operation) (deps : list Hash) (ts : Z)
    (sig : option (list Z)) : Vertex :=
  let h := computeHash peer (Some op) deps ts in
  mkVertex h peer (Some op) deps ts (default [] sig).

End hashing.
