(* ===== verification/HashGraph.v ===== *)
(** * The hash graph ([packages/object/src/hashgraph/index.ts])

    [HashGraph] is the class of the same name. [vertices] keeps the insertion
    order of the JavaScript [Map], because [getAllVertices] and the snapshot
    pruning read it; the other maps are only looked up. The predecessor cache
    (its bit sets, column indices and the two freshness flags) is one record.
    The graph's methods take the graph and give back the new graph, also where
    the change is a side effect: the topological sort sorts the edge lists it
    visits in place ([(this.forwardEdges.get(node) ?? []).sort()]).

    Loops run on fuel computed from the graph; [DfsOutOfFuel] and the [None] of
    [bfs] are the outcomes that the theorems of [TopoSort] and [Causality] show
    never to happen. *)

From S2P Require Import Prelude JsMap JsNum Bits JsValue Types.

Record VertexDistance := mkDistance {
  distance : Z;
  closestDependency : option Hash
}.

Record Resolvers := mkResolvers {
  resolveConflictsACL : ResolveConflictFn;
  resolveConflictsDRP : ResolveConflictFn;
  hasCustomResolverACL : bool;
  hasCustomResolverDRP : bool
}.

Record PredecessorCache := mkCache {
  arePredecessorsFresh : bool;
  arePredecessorsScoped : bool;
  reachablePredecessors : gmap Hash BitSet.t;
  topoSortedIndex : gmap Hash Z;
  currentBitsetSize : Z
}.

Record HashGraph := mkHashGraph {
  hg_peerId : string;
  semanticsTypeDRP : option SemanticsType;
  resolvers : Resolvers;
  vertices : list (Hash * Vertex);
  frontier : list Hash;
  forwardEdges : gmap Hash (list Hash);
  vertexDistances : gmap Hash VertexDistance;
  cache : PredecessorCache
}.

Definition with_forwardEdges (g : HashGraph) (fe : gmap Hash (list Hash)) : HashGraph :=
  mkHashGraph (hg_peerId g) (semanticsTypeDRP g) (resolvers g) (vertices g) (frontier g) fe
    (vertexDistances g) (cache g).

Definition with_cache (g : HashGraph) (c : PredecessorCache) : HashGraph :=
  mkHashGraph (hg_peerId g) (semanticsTypeDRP g) (resolvers g) (vertices g) (frontier g)
    (forwardEdges g) (vertexDistances g) c.

Definition with_resolvers (g : HashGraph) (r : Resolvers) : HashGraph :=
  mkHashGraph (hg_peerId g) (semanticsTypeDRP g) r (vertices g) (frontier g) (forwardEdges g)
    (vertexDistances g) (cache g).

(** ** Construction *)

Definition rootHash : Hash := "425d2b1f5243dbf23c685078034b06fbfa71dc31dcce30f614e28023f140ff13".

Definition rootVertex : Vertex :=
  mkVertex rootHash "" (Some (mkOperation "" OperationType_NOP [])) [] (-1) [].

(** [Number.MAX_VALUE] *)
Definition MAX_VALUE : Z := (2 ^ 53 - 1) * 2 ^ 971.

Definition resolveNoConflicts : ResolveConflictFn := λ _, resolved ActNop.

Definition empty_cache : PredecessorCache := mkCache false false ∅ ∅ 1.

(** The constructor of the class. *)
Definition new_HashGraph (peer : string) (acl drp : option ResolveConflictFn)
    (semantics : option SemanticsType) : HashGraph :=
  {| hg_peerId := peer;
     semanticsTypeDRP := semantics;
     resolvers := {| resolveConflictsACL := default resolveNoConflicts acl;
                     resolveConflictsDRP := default resolveNoConflicts drp;
                     hasCustomResolverACL := bool_decide (is_Some acl);
                     hasCustomResolverDRP := bool_decide (is_Some drp) |};
     vertices := [(rootHash, rootVertex)];
     frontier := [rootHash];
     forwardEdges := {[ rootHash := [] ]};
     vertexDistances := {[ rootHash := mkDistance 0 None ]};
     cache := empty_cache |}.

Inductive graph_error :=
| PeerIdRequired
| OriginNotInSubgraph
| UnreachableMembers (count : nat)
| GraphContainsCycle
| DependenciesEmpty
| LcaNotFound
| DfsStackUnderflow
| DfsOutOfFuel
| LcaOutOfFuel
| UndefinedVertex
| LinearizeOutOfFuel.

#[global] Instance graph_error_eq_dec : EqDecision graph_error.
Proof. solve_decision. Defined.

(** [createHashGraph] *)
Definition createHashGraph (peer : string) (acl drp : option ResolveConflictFn)
    (semantics : option SemanticsType) : res graph_error HashGraph :=
  if String.eqb peer EmptyString then Throw PeerIdRequired
  else Ok (new_HashGraph peer acl drp semantics).

(** ** Resolvers *)

Definition set_resolveConflictsDRP (g : HashGraph) (r : ResolveConflictFn) : HashGraph :=
  with_resolvers g (mkResolvers (resolveConflictsACL (resolvers g)) r
                      (hasCustomResolverACL (resolvers g)) true).

Definition set_resolveConflictsACL (g : HashGraph) (r : ResolveConflictFn) : HashGraph :=
  with_resolvers g (mkResolvers r (resolveConflictsDRP (resolvers g)) true
                      (hasCustomResolverDRP (resolvers g))).

Definition hasCustomConflictResolver (g : HashGraph) (type : option string) : bool :=
  if bool_decide (type = Some DrpType_ACL)
  then hasCustomResolverACL (resolvers g)
  else hasCustomResolverDRP (resolvers g).

Definition resolveConflicts (g : HashGraph) (vs : list Vertex) : ResolveConflictsType :=
  if bool_decide ((vs !! 0%nat) ≫= drpType_of = Some DrpType_ACL)
  then resolveConflictsACL (resolvers g) vs
  else resolveConflictsDRP (resolvers g) vs.

(** ** Lookup *)

Definition getVertex (g : HashGraph) (h : Hash) : option Vertex := jm_get (vertices g) h.
Definition getFrontier (g : HashGraph) : list Hash := frontier g.
Definition getDependencies (g : HashGraph) (h : Hash) : list Hash :=
  default [] (dependencies <$> getVertex g h).
Definition getAllVertices (g : HashGraph) : list Vertex := jm_values (vertices g).
Definition getCurrentBitsetSize (g : HashGraph) : Z := currentBitsetSize (cache g).
Definition children (g : HashGraph) (h : Hash) : list Hash := default [] (forwardEdges g !! h).
Definition vertex_keys (g : HashGraph) : gset Hash := list_to_set (jm_keys (vertices g)).

(** [HashGraph.createVertex]; [now] is the value of [Date.now()]. *)
Definition hg_createVertex (sha256hex : string → Hash) (g : HashGraph) (op : Operation)
    (deps : option (list Hash)) (now : Z) : Vertex :=
  createVertex sha256hex (hg_peerId g) op (default (getFrontier g) deps) now None.

(** ** [addVertex] *)

Definition addForwardEdge (child : Hash) (fe : gmap Hash (list Hash)) (dep : Hash) :
    gmap Hash (list Hash) :=
  <[dep := default [] (fe !! dep) ++ [child]]> fe.

Definition vertexDistance (ds : gmap Hash VertexDistance) (deps : list Hash) : VertexDistance :=
  foldl (λ vd dep,
    match ds !! dep with
    | Some dd =>
        if (distance dd + 1 <? distance vd)%Z then mkDistance (distance dd + 1) (Some dep) else vd
    | None => vd
    end) (mkDistance MAX_VALUE (Some EmptyString)) deps.

Definition addVertex (g : HashGraph) (v : Vertex) : HashGraph :=
  let deps := dependencies v in
  {| hg_peerId := hg_peerId g;
     semanticsTypeDRP := semanticsTypeDRP g;
     resolvers := resolvers g;
     vertices := jm_set (vertices g) (hash v) v;
     frontier := filter (λ h, h ∉ deps) (frontier g ++ [hash v]);
     forwardEdges := foldl (addForwardEdge (hash v)) (forwardEdges g) deps;
     vertexDistances := <[hash v := vertexDistance (vertexDistances g) deps]> (vertexDistances g);
     cache := mkCache false false (reachablePredecessors (cache g)) (topoSortedIndex (cache g))
                (currentBitsetSize (cache g)) |}.

(** ** Depth-first reachability

    The reachability pass of the topological sort: a stack, popped from its
    end, and a set of nodes seen. *)

Record walk := mkWalk { w_seen : gset Hash; w_stack : list Hash }.

(** One iteration of [while (stack.length > 0) { pop; skip if seen; add; push the successors }]. *)
Definition walk_step (succs : Hash → list Hash) (w : walk) : iter walk (gset Hash) :=
  match w_stack w with
  | [] => Done (w_seen w)
  | node :: stack =>
      if decide (node ∈ w_seen w) then Next (mkWalk (w_seen w) stack)
      else Next (mkWalk ({[node]} ∪ w_seen w) (reverse (succs node) ++ stack))
  end.

(** Every iteration pops one entry; entries come from the start and from the
    successors of a node, which is expanded once. *)
Definition walk_fuel (succs : Hash → list Hash) (universe start : list Hash) : nat :=
  S (length start + sum_list_with (λ u, length (succs u)) universe).

Definition walk_from (succs : Hash → list Hash) (universe start : list Hash) : option (gset Hash) :=
  loop (walk_step succs) (walk_fuel succs universe start) (mkWalk ∅ (reverse start)).

(** ** [dfsTopologicalSortIterative] *)

Record dfs := mkDfs {
  dfs_visited : gset Hash;
  dfs_processing : gset Hash;
  dfs_result : list Hash;   (* the filled slots of [result], from [resultIndex + 1] on *)
  dfs_stack : list Hash;    (* [stack], from [stackIndex] down *)
  dfs_edges : gmap Hash (list Hash)
}.

(** The [for] loop over the sorted neighbours of a node. *)
Definition dfs_push (subgraph visited processing : gset Hash) (neighbors stack : list Hash) :
    res graph_error (list Hash) :=
  foldl (λ acc neighbor,
    stack ← acc;
    if decide (neighbor ∈ processing) then Throw GraphContainsCycle
    else if decide (neighbor ∈ subgraph ∧ neighbor ∉ visited) then Ok (neighbor :: stack)
    else Ok stack) (Ok stack) neighbors.

Definition dfs_step (subgraph : gset Hash) (s : dfs) :
    iter dfs (gmap Hash (list Hash) * res graph_error (list Hash)) :=
  if decide (length (dfs_result s) < size subgraph) then
    match dfs_stack s with
    | [] => Done (dfs_edges s, Throw DfsStackUnderflow)
    | node :: rest =>
        if decide (node ∈ dfs_visited s) then
          Next (mkDfs (dfs_visited s) (dfs_processing s ∖ {[node]}) (node :: dfs_result s) rest
                  (dfs_edges s))
        else
          let processing := {[node]} ∪ dfs_processing s in
          let visited := {[node]} ∪ dfs_visited s in
          let neighbors := js_sort (default [] (dfs_edges s !! node)) in
          let edges := alter js_sort node (dfs_edges s) in
          match dfs_push subgraph visited processing neighbors (node :: rest) with
          | Throw e => Done (edges, Throw e)
          | Ok stack => Next (mkDfs visited processing (dfs_result s) stack edges)
          end
    end
  else Done (dfs_edges s, Ok (dfs_result s)).

(** Every iteration fills a slot or visits a new node of the subgraph. *)
Definition dfs_fuel (subgraph : gset Hash) : nat := S (2 * size subgraph).

Definition dfs_init (origin : Hash) (edges : gmap Hash (list Hash)) : dfs :=
  mkDfs ∅ ∅ [] [origin] edges.

Definition restore_origin (origin : Hash) (result : list Hash) : list Hash :=
  if decide (origin ∈ result) then result else <[0%nat := origin]> result.

(** The nodes a walk along the forward edges of the subgraph may expand. *)
Definition subgraph_children (edges : gmap Hash (list Hash)) (subgraph : gset Hash) (h : Hash) :
    list Hash :=
  filter (λ c, c ∈ subgraph) (default [] (edges !! h)).

Definition dfsTopologicalSortIterative (g : HashGraph) (origin : Hash) (subgraph : gset Hash) :
    HashGraph * res graph_error (list Hash) :=
  if decide (origin ∈ subgraph) then
    match walk_from (subgraph_children (forwardEdges g) subgraph) (elements subgraph) [origin] with
    | None => (g, Throw DfsOutOfFuel)
    | Some reachable =>
        let unreachable := subgraph ∖ reachable in
        if decide (size unreachable = 0) then
          match loop (dfs_step subgraph) (dfs_fuel subgraph) (dfs_init origin (forwardEdges g)) with
          | None => (g, Throw DfsOutOfFuel)
          | Some (edges, r) => (with_forwardEdges g edges, restore_origin origin <$> r)
          end
        else (g, Throw (UnreachableMembers (size unreachable)))
    end
  else (g, Throw OriginNotInSubgraph).

(** ** [topologicalSort] and the predecessor bit sets *)

(** [while (this.currentBitsetSize < n) this.currentBitsetSize *= 2] *)
Definition grow_bitset (size n : Z) : Z :=
  default size (loop (λ s, if (s <? n)%Z then Next (2 * s)%Z else Done s)
                  (S (Z.to_nat (Z.log2_up n))) size).

(** The loop body for one dependency of [result[i]]: the dependency's row gets
    its own bit, then the current row becomes the union of the two. *)
Definition cache_dep (index : gmap Hash Z) (h : Hash) (rows : gmap Hash BitSet.t) (dep : Hash) :
    gmap Hash BitSet.t :=
  match rows !! dep, index !! dep with
  | Some depReachable, Some depIndex =>
      let depReachable := BitSet.set depReachable depIndex true in
      let rows := <[dep := depReachable]> rows in
      match rows !! h with
      | Some reachable => <[h := BitSet.or reachable depReachable]> rows
      | None => rows
      end
  | _, _ => rows
  end.

Definition cache_vertex (g : HashGraph) (size : Z) (st : gmap Hash Z * gmap Hash BitSet.t)
    (ih : nat * Hash) : gmap Hash Z * gmap Hash BitSet.t :=
  let '(index, rows) := st in
  let '(i, h) := ih in
  let index := <[h := Z.of_nat i]> index in
  let rows := <[h := BitSet.new size]> rows in
  (index, foldl (cache_dep index h) rows (getDependencies g h)).

Definition build_cache (g : HashGraph) (size : Z) (order : list Hash) :
    gmap Hash Z * gmap Hash BitSet.t :=
  foldl (cache_vertex g size) (∅, ∅) (imap pair order).

Definition topologicalSort (g : HashGraph) (updateBitsets : bool) (origin : Hash)
    (subgraph : gset Hash) : HashGraph * res graph_error (list Hash) :=
  let '(g, r) := dfsTopologicalSortIterative g origin subgraph in
  match r with
  | Throw e => (g, Throw e)
  | Ok result =>
      if negb updateBitsets then (g, Ok result)
      else
        let isFullGraph := bool_decide (length result = length (vertices g))
                           && forallb (λ h, jm_has (vertices g) h) result in
        let size := grow_bitset (currentBitsetSize (cache g)) (Z.of_nat (length result)) in
        let '(index, rows) := build_cache g size result in
        (with_cache g (mkCache isFullGraph (negb isFullGraph) rows index size), Ok result)
  end.

(** ** Causality *)

Record bfs := mkBfs { bfs_visited : gset Hash; bfs_queue : list Hash; bfs_head : nat }.

Definition bfs_step (g : HashGraph) (target : Hash) (s : bfs) : iter bfs bool :=
  match bfs_queue s !! bfs_head s with
  | None => Done false
  | Some current =>
      let head := S (bfs_head s) in
      if decide (current = target) then Done true
      else
        let visited := {[current]} ∪ bfs_visited s in
        match getVertex g current with
        | None => Next (mkBfs visited (bfs_queue s) head)
        | Some v =>
            let queue := bfs_queue s ++ filter (λ d, d ∉ visited) (dependencies v) in
            if decide (length queue < 2 * head)
            then Next (mkBfs visited (drop head queue) 0)
            else Next (mkBfs visited queue head)
        end
  end.

(** The search expands a vertex once for every path that leads to it: a vertex
    is marked when it is dequeued, and enqueued while it is unmarked. The fuel
    is the number of paths. *)
Definition weigh (W : gmap Hash nat) (hv : Hash * Vertex) : gmap Hash nat :=
  <[hv.1 := S (sum_list_with (λ d, default 1%nat (W !! d)) (dependencies hv.2))]> W.

Definition path_weights (vs : list (Hash * Vertex)) : gmap Hash nat := foldl weigh ∅ vs.

Definition path_weight (g : HashGraph) (h : Hash) : nat :=
  default 1%nat (path_weights (vertices g) !! h).

Definition areCausallyRelatedUsingBFS_from (g : HashGraph) (start target : Hash) : option bool :=
  loop (bfs_step g target) (S (path_weight g start)) (mkBfs ∅ [start] 0).

Definition areCausallyRelatedUsingBFS (g : HashGraph) (hash1 hash2 : Hash) : option bool :=
  if decide (hash1 = hash2) then Some true
  else
    r1 ← areCausallyRelatedUsingBFS_from g hash1 hash2;
    if r1 : bool then Some true else areCausallyRelatedUsingBFS_from g hash2 hash1.

(** [areCausallyRelatedUsingBitsets]: the cache is rebuilt for the whole graph
    unless it is fresh, or scoped and containing both hashes. *)
Definition areCausallyRelatedUsingBitsets (g : HashGraph) (hash1 hash2 : Hash) :
    HashGraph * res graph_error (option bool) :=
  if decide (hash1 = hash2) then (g, Ok (Some true))
  else
    let c := cache g in
    let has h := bool_decide (is_Some (reachablePredecessors c !! h))
                 && bool_decide (is_Some (topoSortedIndex c !! h)) in
    let scopedCacheContainsPair := arePredecessorsScoped c && has hash1 && has hash2 in
    let '(g, sorted) :=
      if negb (arePredecessorsFresh c) && negb scopedCacheContainsPair
      then topologicalSort g true rootHash (vertex_keys g)
      else (g, Ok []) in
    match sorted with
    | Throw e => (g, Throw e)
    | Ok _ =>
        let c := cache g in
        match reachablePredecessors c !! hash1, reachablePredecessors c !! hash2,
              topoSortedIndex c !! hash1, topoSortedIndex c !! hash2 with
        | Some reachable1, Some reachable2, Some index1, Some index2 =>
            (g, Ok (Some (BitSet.get reachable1 index2 || BitSet.get reachable2 index1)))
        | _, _, _, _ => (g, Ok (areCausallyRelatedUsingBFS g hash1 hash2))
        end
    end.

Definition swapReachablePredecessors (g : HashGraph) (hash1 hash2 : Hash) : HashGraph :=
  let c := cache g in
  match reachablePredecessors c !! hash1, reachablePredecessors c !! hash2 with
  | Some reachable1, Some reachable2 =>
      with_cache g
        (mkCache (arePredecessorsFresh c) (arePredecessorsScoped c)
           (<[hash2 := reachable1]> (<[hash1 := reachable2]> (reachablePredecessors c)))
           (topoSortedIndex c) (currentBitsetSize c))
  | _, _ => g
  end.

(** ** Lowest common ancestor *)

Record lca_pair := mkLcaPair {
  lp_hash1 : Hash;
  lp_hash2 : Hash;
  lp_visited : gset Hash;
  lp_targets : list Hash
}.

(** The [closestDependency] test: [undefined] and the empty string are falsy. *)
Definition truthy_hash (o : option Hash) : option Hash :=
  match o with
  | Some h => if String.eqb h EmptyString then None else Some h
  | None => None
  end.

(** [for (const dep of ...) if (dep !== closest && !visited.has(dep)) targetVertices.push(dep)] *)
Definition lca_push (g : HashGraph) (h closest : Hash) (visited : gset Hash) (targets : list Hash) :
    list Hash :=
  targets ++ filter (λ d, d ≠ closest ∧ d ∉ visited) (getDependencies g h).

Definition lca_pair_step (g : HashGraph) (s : lca_pair) :
    iter lca_pair (option Hash * gset Hash * list Hash) :=
  let '(mkLcaPair h1 h2 visited targets) := s in
  if decide (h1 = h2) then Done (Some h1, visited, targets)
  else
    match vertexDistances g !! h1, vertexDistances g !! h2 with
    | Some d1, Some d2 =>
        if (distance d2 <? distance d1)%Z then
          match truthy_hash (closestDependency d1) with
          | None => Done (None, visited, targets)
          | Some up =>
              let targets := lca_push g h1 up visited targets in
              if decide (up ∈ visited) then Done (Some h2, visited, targets)
              else Next (mkLcaPair up h2 ({[up]} ∪ visited) targets)
          end
        else
          match truthy_hash (closestDependency d2) with
          | None => Done (None, visited, targets)
          | Some up =>
              let targets := lca_push g h2 up visited targets in
              if decide (up ∈ visited) then Done (Some h1, visited, targets)
              else Next (mkLcaPair h1 up ({[up]} ∪ visited) targets)
          end
    | _, _ => Done (None, visited, targets)
    end.

(** Every iteration but the last adds a hash to [visited]. *)
Definition lca_pair_fuel (g : HashGraph) : nat := S (S (length (vertices g))).

Definition lowestCommonAncestorPairVertices (g : HashGraph) (h1 h2 : Hash) (visited : gset Hash)
    (targets : list Hash) : option (option Hash * gset Hash * list Hash) :=
  loop (lca_pair_step g) (lca_pair_fuel g) (mkLcaPair h1 h2 ({[h2]} ∪ ({[h1]} ∪ visited)) targets).

Record lca_multi := mkLcaMulti {
  lm_index : nat;
  lm_lca : option Hash;
  lm_visited : gset Hash;
  lm_targets : list Hash
}.

Definition lca_multi_step (g : HashGraph) (s : lca_multi) :
    iter lca_multi (res graph_error (Hash * gset Hash)) :=
  let '(mkLcaMulti i lca visited targets) := s in
  match targets !! i with
  | None =>
      match truthy_hash lca with
      | None => Done (Throw LcaNotFound)
      | Some lca => Done (Ok (lca, visited))
      end
  | Some target =>
      match truthy_hash lca with
      | None => Done (Throw LcaNotFound)
      | Some lca =>
          if decide (target ∈ visited) then Next (mkLcaMulti (S i) (Some lca) visited targets)
          else
            match lowestCommonAncestorPairVertices g lca target visited targets with
            | None => Done (Throw LcaOutOfFuel)
            | Some (lca, visited, targets) => Next (mkLcaMulti (S i) lca visited targets)
            end
      end
  end.

(** The targets are the arguments and, for every vertex walked over, its
    dependencies. *)
Definition lca_multi_fuel (g : HashGraph) (hashes : list Hash) : nat :=
  S (length hashes + 2 * sum_list_with (λ hv, S (length (dependencies hv.2))) (vertices g)).

Definition lowestCommonAncestorMultipleVertices (g : HashGraph) (hashes : list Hash)
    (visited : gset Hash) : res graph_error (Hash * gset Hash) :=
  match hashes with
  | [] => Throw DependenciesEmpty
  | [h] => Ok (h, {[h]} ∪ visited)
  | h :: _ =>
      default (Throw LcaOutOfFuel)
        (loop (lca_multi_step g) (lca_multi_fuel g hashes)
           (mkLcaMulti 1 (Some h) visited hashes))
  end.
