(* ===== verification/Dag.v ===== *)
(** * The causal order of a hash graph

    The invariant of the hash graph ([wf]), its preservation by [addVertex],
    the reachability relation the other components speak about, and the
    correctness of the depth-first walks of the code ([walk_from]). *)

From S2P Require Import Prelude JsMap JsNum Bits JsValue Types HashGraph.

(** ** Reachability *)

(** [parent g h d]: [d] is a dependency of [h]. *)
Definition parent (g : HashGraph) (h d : Hash) : Prop := d ∈ getDependencies g h.

(** [ancestor g h a]: [a] is [h] or in its causal past. *)
Definition ancestor (g : HashGraph) : Hash → Hash → Prop := rtc (parent g).

(** [before g a h]: [a] is strictly in the causal past of [h]. *)
Definition before (g : HashGraph) (a h : Hash) : Prop := tc (parent g) h a.

(** Two vertices are causally related when one is in the other's past. *)
Definition related (g : HashGraph) (h1 h2 : Hash) : Prop := ancestor g h1 h2 ∨ ancestor g h2 h1.

(** ** The invariant

    [causal vs]: the table starts with the root, and every later vertex is
    filed under its own fresh hash, has a dependency, and depends only on
    vertices inserted before it. The insertion order of the [Map] is thus a
    topological order of the graph. *)

Inductive causal : list (Hash * Vertex) → Prop :=
| causal_root : causal [(rootHash, rootVertex)]
| causal_snoc vs v :
    causal vs →
    hash v ∉ jm_keys vs →
    dependencies v ≠ [] →
    (∀ d, d ∈ dependencies v → d ∈ jm_keys vs) →
    causal (vs ++ [(hash v, v)]).

Record wf (g : HashGraph) : Prop := {
  wf_causal : causal (vertices g);
  wf_edges : ∀ d c, c ∈ children g d ↔ parent g c d;
  wf_frontier : ∀ h, h ∈ frontier g ↔ h ∈ jm_keys (vertices g) ∧ ∀ c, ¬ parent g c h;
  wf_frontier_nodup : NoDup (frontier g);
  wf_edges_nodup : (∀ h, NoDup (getDependencies g h)) → ∀ d, NoDup (children g d)
}.

(** What [validateVertex] checks of a vertex before it is added. *)
Record admissible (g : HashGraph) (v : Vertex) : Prop := {
  adm_fresh : hash v ∉ jm_keys (vertices g);
  adm_nonempty : dependencies v ≠ [];
  adm_known : ∀ d, d ∈ dependencies v → d ∈ jm_keys (vertices g)
}.

Create HintDb dag.
#[export] Hint Resolve wf_causal wf_frontier_nodup causal_root : dag.

Lemma causal_NoDup vs : causal vs → NoDup (jm_keys vs).
Proof.
  induction 1 as [|vs v Hvs IH Hfresh _ _]; [apply NoDup_singleton|].
  unfold jm_keys in *. rewrite fmap_app. apply NoDup_app. split; [done|].
  split; [|apply NoDup_singleton]. intros x Hx ->%list_elem_of_singleton. done.
Qed.

Lemma causal_hash vs h v : causal vs → jm_get vs h = Some v → hash v = h.
Proof.
  induction 1 as [|vs w Hvs IH Hfresh _ _]; simpl.
  - case_decide; [by intros [= <-]|done].
  - rewrite jm_get_app. destruct (jm_get vs h); [done|]. simpl. case_decide; [|done].
    by intros [= <-].
Qed.

Lemma causal_root_vertex vs : causal vs → jm_get vs rootHash = Some rootVertex.
Proof.
  induction 1 as [|vs v Hvs IH _ _ _]; [done|].
  by rewrite jm_get_app, IH.
Qed.

Lemma causal_deps vs h v d : causal vs → jm_get vs h = Some v → d ∈ dependencies v →
  d ∈ jm_keys vs.
Proof.
  intros Hc. revert h v d. induction Hc as [|vs w Hvs IH Hfresh _ Hdeps]; simpl; intros h v d.
  - case_decide; [intros [= <-]; set_solver|done].
  - rewrite jm_get_app. unfold jm_keys in *. rewrite fmap_app, elem_of_app.
    destruct (jm_get vs h) eqn:E; [intros [= <-] ?; left; eauto|].
    simpl. case_decide; [|done]. intros [= <-] ?. left. auto.
Qed.

(** ** Ranks: the position of a vertex in the table *)

Fixpoint index_of (l : list Hash) (h : Hash) : nat :=
  match l with
  | [] => 0
  | x :: l => if decide (x = h) then 0 else S (index_of l h)
  end.

Definition rank (g : HashGraph) (h : Hash) : nat := index_of (jm_keys (vertices g)) h.

Lemma index_of_app_l l k h : h ∈ l → index_of (l ++ k) h = index_of l h.
Proof.
  induction l as [|x l IH]; simpl; [by intros []%elem_of_nil|].
  intros [->|Hin]%elem_of_cons; [by rewrite !decide_True|]. by rewrite IH.
Qed.

Lemma index_of_app_r l k h : h ∉ l → index_of (l ++ k) h = length l + index_of k h.
Proof.
  induction l as [|x l IH]; simpl; [done|].
  intros [Hne Hnin]%not_elem_of_cons. rewrite decide_False by done. by rewrite IH.
Qed.

Lemma index_of_lt l h : h ∈ l → index_of l h < length l.
Proof.
  induction l as [|x l IH]; simpl; [by intros []%elem_of_nil|].
  intros [->|Hin]%elem_of_cons; [rewrite decide_True by done; lia|].
  case_decide; [lia|]. specialize (IH Hin). lia.
Qed.

Lemma causal_rank vs h v d : causal vs → jm_get vs h = Some v → d ∈ dependencies v →
  index_of (jm_keys vs) d < index_of (jm_keys vs) h.
Proof.
  intros Hc. revert h v d. induction Hc as [|vs w Hvs IH Hfresh _ Hdeps]; simpl; intros h v d.
  - case_decide; [intros [= <-]; set_solver|done].
  - rewrite jm_get_app. unfold jm_keys in *. rewrite fmap_app.
    destruct (jm_get vs h) eqn:E.
    + intros [= <-] Hd. rewrite !index_of_app_l; [eauto|by eapply jm_get_Some_keys|].
      by eapply causal_deps in Hd.
    + simpl. case_decide; [|done]. intros [= <-] Hd. subst h.
      rewrite index_of_app_l by auto. rewrite index_of_app_r by done.
      pose proof (index_of_lt _ _ (Hdeps d Hd)). lia.
Qed.

Lemma getDependencies_Some g h d : parent g h d →
  ∃ v, getVertex g h = Some v ∧ d ∈ dependencies v.
Proof.
  unfold parent, getDependencies. destruct (getVertex g h) as [v|]; simpl; [eauto|].
  by intros []%elem_of_nil.
Qed.

Lemma parent_keys g h d : wf g → parent g h d →
  h ∈ jm_keys (vertices g) ∧ d ∈ jm_keys (vertices g).
Proof.
  intros Hg (v & Hv & Hd)%getDependencies_Some. split; [by eapply jm_get_Some_keys|].
  eapply causal_deps; eauto with dag.
Qed.

Lemma parent_rank g h d : wf g → parent g h d → rank g d < rank g h.
Proof.
  intros Hg (v & Hv & Hd)%getDependencies_Some. eapply causal_rank; eauto with dag.
Qed.

Lemma before_rank g a h : wf g → before g a h → rank g a < rank g h.
Proof.
  intros Hg. unfold before. induction 1 as [h a Hp|h m a Hp _ IH].
  - by apply parent_rank.
  - apply parent_rank in Hp; [lia|done].
Qed.

(** The causal order has no cycle. *)
Lemma before_irreflexive g h : wf g → ¬ before g h h.
Proof. intros Hg H. apply before_rank in H; [lia|done]. Qed.

Lemma before_ancestor g a h : before g a h → ancestor g h a.
Proof. apply tc_rtc. Qed.

Lemma ancestor_cases g h a : ancestor g h a → h = a ∨ before g a h.
Proof. intros H. by apply rtc_tc in H. Qed.

Lemma ancestor_keys g h a : wf g → h ∈ jm_keys (vertices g) → ancestor g h a →
  a ∈ jm_keys (vertices g).
Proof.
  intros Hg Hh Ha. induction Ha as [|h m a Hp _ IH]; [done|].
  apply IH. by eapply parent_keys.
Qed.

Lemma not_parent_root g d : wf g → ¬ parent g rootHash d.
Proof.
  intros Hg (v & Hv & Hd)%getDependencies_Some.
  unfold getVertex in Hv. rewrite causal_root_vertex in Hv by auto with dag.
  simplify_eq/=. set_solver.
Qed.

(** A vertex other than the root has a dependency. *)
Lemma causal_nonroot vs h v : causal vs → jm_get vs h = Some v → h ≠ rootHash →
  dependencies v ≠ [].
Proof.
  induction 1 as [|vs w Hvs IH _ Hne _]; simpl.
  - case_decide; [by subst|done].
  - rewrite jm_get_app. destruct (jm_get vs h); [done|]. simpl. case_decide; [|done].
    by intros [= <-].
Qed.

(** Every vertex has the root in its past. *)
Lemma ancestor_root g h : wf g → h ∈ jm_keys (vertices g) → ancestor g h rootHash.
Proof.
  intros Hg. remember (rank g h) as n eqn:Hn. revert h Hn.
  induction (lt_wf n) as [n _ IH]. intros h -> Hh.
  destruct (decide (h = rootHash)) as [->|Hne]; [apply rtc_refl|].
  destruct (getVertex g h) as [v|] eqn:Hv; [|apply jm_get_None in Hv; done].
  pose proof (causal_nonroot _ _ _ (wf_causal g Hg) Hv Hne) as Hdeps.
  destruct (dependencies v) as [|d ds] eqn:Hd; [done|].
  assert (parent g h d) as Hp.
  { unfold parent, getDependencies. rewrite Hv. simpl. rewrite Hd. set_solver. }
  eapply rtc_l; [exact Hp|]. eapply IH; [by apply parent_rank|done|].
  by eapply parent_keys.
Qed.

(** ** Preservation by [addVertex] *)

Lemma getVertex_addVertex g v h :
  getVertex (addVertex g v) h = if decide (hash v = h) then Some v else getVertex g h.
Proof. apply jm_get_set. Qed.

Lemma parent_addVertex g v h d : hash v ∉ jm_keys (vertices g) →
  parent (addVertex g v) h d ↔ parent g h d ∨ (h = hash v ∧ d ∈ dependencies v).
Proof.
  intros Hf. unfold parent, getDependencies. rewrite getVertex_addVertex.
  case_decide as E; [|naive_solver]. subst h. simpl.
  assert (getVertex g (hash v) = None) as -> by (by apply jm_get_None). set_solver.
Qed.

Lemma elem_of_forward_edges v deps fe d c :
  c ∈ default [] (foldl (addForwardEdge v) fe deps !! d) ↔
  c ∈ default [] (fe !! d) ∨ (c = v ∧ d ∈ deps).
Proof.
  revert fe. induction deps as [|x deps IH]; intros fe; simpl; [set_solver|].
  rewrite IH. unfold addForwardEdge. rewrite lookup_insert.
  case_decide as E; [|set_solver]. subst. simpl. rewrite elem_of_app, list_elem_of_singleton.
  set_solver.
Qed.

Lemma children_addVertex g v d c :
  c ∈ children (addVertex g v) d ↔ c ∈ children g d ∨ (c = hash v ∧ d ∈ dependencies v).
Proof. apply elem_of_forward_edges. Qed.

Lemma addVertex_vertices g v : hash v ∉ jm_keys (vertices g) →
  vertices (addVertex g v) = vertices g ++ [(hash v, v)].
Proof. intros Hf. simpl. by apply jm_keys_set_new, jm_get_None. Qed.

Lemma NoDup_forward_edges v deps fe d :
  NoDup deps → v ∉ default [] (fe !! d) → NoDup (default [] (fe !! d)) →
  NoDup (default [] (foldl (addForwardEdge v) fe deps !! d)).
Proof.
  revert fe. induction deps as [|x deps IH]; intros fe; simpl; [done|].
  intros [Hx Hdeps]%NoDup_cons Hv Hnd. unfold addForwardEdge at 2.
  destruct (decide (x = d)) as [->|Hne].
  - assert (∀ fe, default [] (foldl (addForwardEdge v) fe deps !! d) = default [] (fe !! d)) as E.
    { clear -Hx. induction deps as [|y deps IH]; intros fe; simpl; [done|].
      apply not_elem_of_cons in Hx as [Hy Hx]. rewrite IH by done. unfold addForwardEdge.
      by rewrite lookup_insert_ne. }
    rewrite E, lookup_insert_eq. simpl. apply NoDup_app. split; [done|].
    split; [set_solver|apply NoDup_singleton].
  - apply IH; [done|by rewrite lookup_insert_ne..].
Qed.

Lemma wf_addVertex g v : wf g → admissible g v → wf (addVertex g v).
Proof.
  intros Hg [Hfresh Hne Hknown]. split.
  - rewrite addVertex_vertices by done. constructor; auto with dag.
  - intros d c. rewrite children_addVertex, parent_addVertex by done.
    by rewrite (wf_edges g Hg).
  - intros h. simpl. rewrite list_elem_of_filter, elem_of_app, list_elem_of_singleton.
    rewrite (wf_frontier g Hg), elem_of_jm_keys_set.
    setoid_rewrite parent_addVertex; [|done]. split.
    + intros [Hnd [[Hk Hc]| ->]]; split; auto; intros c [Hp|[-> Hd]]; [by eapply Hc|done| |done].
      apply parent_keys in Hp as [_ Hp]; done.
    + intros [[->|Hk] Hc]; split; [|by right| |left].
      * intros Hd. apply (Hc (hash v)). auto.
      * intros Hd. apply (Hc (hash v)). auto.
      * split; [done|]. intros c Hp. apply (Hc c). auto.
  - simpl. apply NoDup_filter, NoDup_app. split; [auto with dag|].
    split; [|apply NoDup_singleton]. intros x [Hx _]%(wf_frontier g Hg) ->%list_elem_of_singleton.
    done.
  - intros Hnd d. unfold children. simpl.
    assert (∀ h, getDependencies (addVertex g v) h =
                 if decide (hash v = h) then dependencies v else getDependencies g h) as E.
    { intros h. unfold getDependencies. rewrite getVertex_addVertex. by case_decide. }
    apply NoDup_forward_edges.
    + specialize (Hnd (hash v)). by rewrite E, decide_True in Hnd.
    + change (hash v ∉ children g d). rewrite (wf_edges g Hg). intros [Hk _]%parent_keys; done.
    + apply (wf_edges_nodup g Hg). intros h. specialize (Hnd h). rewrite E in Hnd.
      case_decide; [|done]. subst. unfold getDependencies, getVertex.
      rewrite (proj2 (jm_get_None _ _) Hfresh). apply NoDup_nil_2.
Qed.

Lemma wf_new_HashGraph peer acl drp sem : wf (new_HashGraph peer acl drp sem).
Proof.
  assert (∀ h d, ¬ parent (new_HashGraph peer acl drp sem) h d) as Hp.
  { intros h d. unfold parent, getDependencies, getVertex. simpl.
    case_decide; simpl; apply not_elem_of_nil. }
  split; [constructor| | |apply NoDup_singleton|]; cycle 2.
  { intros _ d. unfold children. simpl. rewrite lookup_singleton.
    case_decide; apply NoDup_nil_2. }
  - intros d c. unfold children. simpl. rewrite lookup_singleton.
    case_decide; simpl; split; try (by intros []%elem_of_nil); by intros []%Hp.
  - intros h. simpl. rewrite list_elem_of_singleton. set_solver.
Qed.

#[export] Hint Resolve wf_addVertex wf_new_HashGraph : dag.

(** The last vertex of the table has no child, so the frontier is never empty. *)
Lemma getFrontier_nonempty g : wf g → ∃ h, h ∈ getFrontier g.
Proof.
  intros Hg. assert (∃ vs h v, vertices g = vs ++ [(h, v)]) as (vs & h & v & E).
  { destruct (wf_causal g Hg) as [|vs v]; [by exists [], rootHash, rootVertex|eauto]. }
  exists h. apply (wf_frontier g Hg). pose proof (causal_NoDup _ (wf_causal g Hg)) as Hnd.
  unfold jm_keys. rewrite E, fmap_app. split; [set_solver|]. intros c Hc.
  pose proof (parent_keys g c h Hg Hc) as [Hk _]. apply parent_rank in Hc; [|done].
  apply index_of_lt in Hk. unfold rank in *. unfold jm_keys in *. rewrite E, fmap_app in *. simpl in *.
  apply NoDup_app in Hnd as (_ & Hnd & _).
  assert (h ∉ vs.*1) as Hh by (intros Hin; apply (Hnd h Hin); left).
  rewrite (index_of_app_r _ _ h Hh), length_app in *. simpl in *. lia.
Qed.

(** ** The walks of the code compute reachability *)

Section walk.
Variable succs : Hash → list Hash.
Variable universe : list Hash.

Definition out (u : Hash) : nat := length (succs u).

Definition pending (X : gset Hash) : nat :=
  sum_list_with out (filter (λ u, u ∉ X) universe).

Lemma pending_le X : pending X ≤ sum_list_with out universe.
Proof.
  unfold pending. induction universe as [|u l IH]; [done|]. rewrite filter_cons. case_decide; simpl; lia.
Qed.

Lemma pending_expand X x : x ∈ universe → x ∉ X →
  pending ({[x]} ∪ X) + out x ≤ pending X.
Proof.
  unfold pending. intros Hx HxS. assert (∀ l, sum_list_with out (filter (λ u, u ∉ {[x]} ∪ X) l)
    ≤ sum_list_with out (filter (λ u, u ∉ X) l)) as Hle.
  { induction l as [|u l IHl]; [done|]. rewrite !filter_cons.
    repeat case_decide; simpl; (lia || (exfalso; set_solver)). }
  induction universe as [|u l IHl]; [set_solver|].
  rewrite !filter_cons. apply elem_of_cons in Hx as [<-|Hx].
  - rewrite decide_False by set_solver. rewrite decide_True by done. simpl.
    specialize (Hle l). lia.
  - specialize (IHl Hx). repeat case_decide; simpl; (lia || (exfalso; set_solver)).
Qed.

Variable start : list Hash.

Definition succ (x y : Hash) : Prop := y ∈ succs x.
Definition walked (h : Hash) : Prop := ∃ s, s ∈ start ∧ rtc succ s h.

Hypothesis walked_universe : ∀ h, walked h → h ∈ universe.

Record walk_inv (w : walk) : Prop := {
  wi_sound : ∀ h, h ∈ w_seen w ∨ h ∈ w_stack w → walked h;
  wi_start : ∀ h, h ∈ start → h ∈ w_seen w ∨ h ∈ w_stack w;
  wi_closed : ∀ x y, x ∈ w_seen w → succ x y → y ∈ w_seen w ∨ y ∈ w_stack w
}.

Lemma walk_step_inv w : walk_inv w →
  match walk_step succs w with
  | Next w' => walk_inv w' ∧
      length (w_stack w') + pending (w_seen w') < length (w_stack w) + pending (w_seen w)
  | Done X => ∀ h, h ∈ X ↔ walked h
  end.
Proof.
  intros [Hs Hst Hcl]. destruct w as [X [|x k]]; unfold walk_step; simpl in *.
  - intros h. split; [auto|]. intros (s & Hin & Hr).
    destruct (Hst s Hin) as [Hsin|[]%elem_of_nil]. clear Hin.
    induction Hr as [|s m h Hsm _ IH]; [done|]. apply IH.
    destruct (Hcl s m Hsin Hsm) as [|[]%elem_of_nil]; done.
  - case_decide as Hx; simpl.
    + split; [|lia]. split; simpl; set_solver.
    + assert (x ∈ universe) as Hu by (apply walked_universe, Hs; set_solver).
      split; [|rewrite length_app, length_reverse; pose proof (pending_expand X x Hu Hx); unfold out in *; lia].
      split; simpl.
      * intros h Hh. assert (h ∈ X ∨ h ∈ x :: k ∨ h ∈ succs x) as [?|[?|Hsucc]] by set_solver;
          [by apply Hs; auto..|].
        destruct (Hs x) as (s & ? & ?); [set_solver|]. exists s. split; [done|].
        by eapply rtc_r.
      * set_solver.
      * intros a b Ha Hab. apply elem_of_union in Ha as [->%elem_of_singleton|Ha]; [set_solver|].
        destruct (Hcl a b Ha Hab); set_solver.
Qed.

Lemma walk_from_spec : ∃ X, walk_from succs universe start = Some X ∧ ∀ h, h ∈ X ↔ walked h.
Proof.
  unfold walk_from. eapply (loop_total _ walk_inv (λ w, length (w_stack w) + pending (w_seen w))).
  - apply walk_step_inv.
  - split; simpl; [|set_solver..]. intros h [[]%elem_of_empty|Hh].
    exists h. split; [set_solver|apply rtc_refl].
  - unfold walk_fuel. simpl. rewrite length_reverse. pose proof (pending_le ∅).
    change (λ u, length (succs u)) with out. lia.
Qed.

End walk.

(** ** Concrete graphs *)

#[global] Instance admissible_dec g v : Decision (admissible g v).
Proof.
  refine (cast_if (decide ((hash v ∉ jm_keys (vertices g)) ∧ dependencies v ≠ [] ∧
                           Forall (λ d, d ∈ jm_keys (vertices g)) (dependencies v)))).
  - abstract (destruct_and!; split; [done..|by apply Forall_forall]).
  - abstract (intros [? ? ?]; destruct_and?; naive_solver (by apply Forall_forall)).
Defined.

Definition sample_vertex (h : Hash) (deps : list Hash) : Vertex :=
  mkVertex h "peer" (Some (mkOperation DrpType_DRP "op" [])) deps 1 [].

(** The root, two concurrent vertices, and a vertex that joins them. *)
Definition diamond : HashGraph :=
  let g := new_HashGraph "peer" None None None in
  let g := addVertex g (sample_vertex "a" [rootHash]) in
  let g := addVertex g (sample_vertex "b" [rootHash]) in
  addVertex g (sample_vertex "c" ["a"; "b"])%string.

Lemma wf_diamond : wf diamond.
Proof. unfold diamond. do 3 (apply wf_addVertex; [|decide_by_compute]). apply wf_new_HashGraph. Qed.

(** ** The hash graph as a state machine

    [HashGraph] objects only change through these calls; [admissible] is what
    the validation in front of [addVertex] establishes. *)

Inductive built : HashGraph → Prop :=
| built_new peer acl drp sem : built (new_HashGraph peer acl drp sem)
| built_add g v : built g → admissible g v → built (addVertex g v).

Lemma built_wf g : built g → wf g.
Proof. induction 1; auto with dag. Qed.

(** C4 Whatever admissible vertices are added to a fresh hash graph, in whatever
    order, the frontier that [getFrontier] returns has no duplicates and is
    exactly the set of vertices nothing depends on, the forward edges are
    exactly the inverse of the dependencies, the causal order has no cycle, and
    every vertex descends from the root. *)
Theorem graph_invariant (g : HashGraph) (H : built g) :
  NoDup (getFrontier g) ∧
  (∀ h, h ∈ getFrontier g ↔ is_Some (getVertex g h) ∧ ∀ c, h ∉ getDependencies g c) ∧
  (∀ d c, c ∈ children g d ↔ d ∈ getDependencies g c) ∧
  (∀ h, ¬ before g h h) ∧
  (∀ h, is_Some (getVertex g h) → ancestor g h rootHash).
Proof.
  apply built_wf in H as Hg.
  assert (∀ h, is_Some (getVertex g h) ↔ h ∈ jm_keys (vertices g)) as Hk.
  { intros h. rewrite <- jm_has_spec. unfold jm_has. by rewrite bool_decide_eq_true. }
  split; [apply (wf_frontier_nodup g Hg)|]. split; [intros h; rewrite Hk; apply (wf_frontier g Hg)|].
  split; [apply (wf_edges g Hg)|]. split; [intros h; by apply before_irreflexive|].
  intros h. rewrite Hk. by apply ancestor_root.
Qed.

Lemma graph_invariant_witness :
  getFrontier diamond = ["c"]%string ∧ ∀ h, ¬ before diamond h h.
Proof.
  split; [reflexivity|]. apply graph_invariant.
  do 3 (apply built_add; [|decide_by_compute]). apply built_new.
Defined.
