(* ===== verification/TopoSort.v ===== *)
(** * Correctness of [dfsTopologicalSortIterative]

    Four results about the iterative depth-first sort of
    [packages/object/src/hashgraph/index.ts]:
    - it always returns or throws one of its documented errors, for any edge
      lists, origin and subgraph (the [while] loops terminate, the explicit
      stack never underflows), and reports a cycle only if there is one;
    - on every well-formed graph it succeeds on a reachable subgraph, and its
      result is a causal order whenever it names no vertex twice;
    - on a well-formed graph in which no dependency of a vertex is in the past
      of another one ([reduced], which is what the frontier-based
      [createVertex] produces), the result is a permutation of the subgraph in
      causal order that starts with the origin;
    - without that condition the result can name a vertex twice and lose
      another. *)

From S2P Require Import Prelude JsMap JsNum Bits JsValue Types HashGraph Dag.

(** ** Reduced graphs *)

Record reduced (g : HashGraph) : Prop := {
  red_nodup : ∀ h, NoDup (getDependencies g h);
  red_antichain : ∀ h d1 d2, parent g h d1 → parent g h d2 → ¬ before g d1 d2
}.

(** ** Edge lists up to the order of their entries *)

Definition edges_equiv (e1 e2 : gmap Hash (list Hash)) : Prop :=
  ∀ h, default [] (e1 !! h) ≡ₚ default [] (e2 !! h).

#[global] Instance edges_equiv_equivalence : Equivalence edges_equiv.
Proof.
  split.
  - by intros e h.
  - intros e1 e2 H h. by rewrite (H h).
  - intros e1 e2 e3 H1 H2 h. by rewrite (H1 h), (H2 h).
Qed.

Lemma edges_equiv_sort e node : edges_equiv (alter js_sort node e) e.
Proof.
  intros h. rewrite lookup_alter. case_decide; [|done]. subst.
  destruct (e !! h); simpl; [apply js_sort_perm|done].
Qed.

(** ** The neighbour loop *)

Definition pushable (subgraph visited : gset Hash) (n : Hash) : Prop :=
  n ∈ subgraph ∧ n ∉ visited.

#[global] Instance pushable_dec subgraph visited n : Decision (pushable subgraph visited n).
Proof. apply _. Defined.

Lemma dfs_push_throw (subgraph visited : gset Hash) (processing : gset Hash) ns :
  foldl (λ acc neighbor,
    stack ← acc;
    if decide (neighbor ∈ processing) then Throw GraphContainsCycle
    else if decide (neighbor ∈ subgraph ∧ neighbor ∉ visited) then Ok (neighbor :: stack)
    else Ok stack) (Throw GraphContainsCycle) ns = Throw (A := list Hash) GraphContainsCycle.
Proof. by induction ns. Qed.

Lemma dfs_push_spec subgraph visited processing ns stack :
  dfs_push subgraph visited processing ns stack =
  if decide (Exists (λ n, n ∈ processing) ns) then Throw GraphContainsCycle
  else Ok (reverse (filter (pushable subgraph visited) ns) ++ stack).
Proof.
  unfold dfs_push. revert stack. induction ns as [|n ns IH]; intros stack; [done|].
  cbn [foldl mbind res_bind]. destruct (decide (n ∈ processing)) as [Hn|Hn].
  - rewrite dfs_push_throw. rewrite decide_True by (by left). done.
  - rewrite filter_cons. destruct (decide (n ∈ subgraph ∧ n ∉ visited)) as [Hp|Hp]; rewrite IH;
      destruct (decide (Exists _ ns)) as [He|He].
    + rewrite decide_True by (by right). done.
    + rewrite decide_False by (by intros [|]%Exists_cons).
      rewrite decide_True by done. by rewrite reverse_cons, <- app_assoc.
    + rewrite decide_True by (by right). done.
    + rewrite decide_False by (by intros [|]%Exists_cons). by rewrite decide_False by done.
Qed.

Section dfs.
Variables (e0 : gmap Hash (list Hash)) (origin : Hash) (subgraph : gset Hash).

Definition sub_child (x c : Hash) : Prop := c ∈ default [] (e0 !! x) ∧ c ∈ subgraph.

(** The nodes a step pushes, in terms of the original edges. *)
Lemma elem_of_pushed e visited node n : edges_equiv e e0 →
  n ∈ reverse (filter (pushable subgraph visited) (js_sort (default [] (e !! node)))) ↔
  sub_child node n ∧ n ∉ visited.
Proof.
  intros He. rewrite elem_of_reverse, list_elem_of_filter, elem_of_js_sort, (He node).
  unfold pushable, sub_child. tauto.
Qed.

(** ** Termination, for any edges *)

(** A node being processed is visited, and every stack entry above its topmost
    one descends from it. *)
Definition open_below (P V : gset Hash) (K : list Hash) : Prop :=
  ∀ x, x ∈ P → x ∈ V ∧ ∃ above below, K = above ++ x :: below ∧ (x ∉ above) ∧
    ∀ y, y ∈ above → tc sub_child x y.

Lemma open_below_pop P V x K : open_below P V (x :: K) → open_below (P ∖ {[x]}) V K.
Proof.
  intros Ho z [Hz Hzx]%elem_of_difference. destruct (Ho z Hz) as (HV & above & below & E & Hn & Ha).
  split; [done|]. destruct above as [|y above]; simplify_eq/=; [set_solver|].
  exists above, below. split_and!; [done|set_solver|]. intros y' Hy'. apply Ha. by right.
Qed.

Lemma open_below_visit P V x K pushed : open_below P V (x :: K) → x ∉ V →
  (∀ n, n ∈ pushed → sub_child x n ∧ n ∉ {[x]} ∪ V) →
  open_below ({[x]} ∪ P) ({[x]} ∪ V) (pushed ++ x :: K).
Proof.
  intros Ho Hx Hp z [->%elem_of_singleton|Hz]%elem_of_union.
  - split; [set_solver|]. exists pushed, K. split_and!; [done| |].
    + intros [_ ?]%Hp. set_solver.
    + intros y [? _]%Hp. by apply tc_once.
  - destruct (Ho z Hz) as (HV & above & below & E & Hn & Ha). split; [set_solver|].
    destruct above as [|y above]; simplify_eq/=; [done|].
    exists (pushed ++ y :: above), below. rewrite <- app_assoc. split_and!; [done| |].
    + intros [[_ ?]%Hp|?]%elem_of_app; [set_solver|done].
    + intros w [[Hw _]%Hp|Hw]%elem_of_app; [|auto]. eapply tc_r; [|exact Hw]. apply Ha. by left.
Qed.

(** An edge back to a node being processed closes a cycle. *)
Lemma open_below_cycle P V x K n : open_below P V (x :: K) → (∀ h, h ∈ x :: K → h ∈ subgraph) →
  n ∈ default [] (e0 !! x) → n ∈ {[x]} ∪ P → n ∈ subgraph ∧ tc sub_child n n.
Proof.
  intros Ho Hsub Hn Hnp. assert (n ∈ x :: K) as HnK.
  { apply elem_of_union in Hnp as [->%elem_of_singleton|Hnp]; [set_solver|].
    destruct (Ho n Hnp) as (_ & above & below & -> & _). set_solver. }
  split; [auto|]. assert (sub_child x n) as Hxn by (split; auto).
  apply elem_of_union in Hnp as [->%elem_of_singleton|Hnp]; [by apply tc_once|].
  destruct (Ho n Hnp) as (_ & above & below & E & _ & Ha).
  destruct above as [|y above]; simplify_eq/=; [by apply tc_once|].
  eapply tc_r; [|exact Hxn]. apply Ha. by left.
Qed.

Record dfs_inv (s : dfs) : Prop := {
  di_edges : edges_equiv (dfs_edges s) e0;
  di_visited : dfs_visited s ⊆ subgraph;
  di_result : ∀ h, h ∈ dfs_result s → h ∈ dfs_visited s;
  di_stack : ∀ h, h ∈ dfs_stack s → h ∈ subgraph;
  di_split : ∀ h, h ∈ dfs_visited s → h ∈ dfs_result s ∨ h ∈ dfs_stack s;
  di_origin : origin ∈ dfs_visited s ∨ origin ∈ dfs_stack s;
  di_closed : ∀ x c, x ∈ dfs_visited s → sub_child x c → c ∈ dfs_visited s ∨ c ∈ dfs_stack s;
  di_length : length (dfs_result s) ≤ size subgraph;
  di_open : open_below (dfs_processing s) (dfs_visited s) (dfs_stack s)
}.

Definition dfs_measure (s : dfs) : nat :=
  (size subgraph - length (dfs_result s)) + (size subgraph - size (dfs_visited s)).

Definition dfs_post (r : gmap Hash (list Hash) * res graph_error (list Hash)) : Prop :=
  edges_equiv r.1 e0 ∧
  match r.2 with
  | Ok l => length l = size subgraph ∧ ∀ h, h ∈ l → h ∈ subgraph
  | Throw e => e = GraphContainsCycle ∧ ∃ h, h ∈ subgraph ∧ tc sub_child h h
  end.

Lemma dfs_inv_pop s x rest : dfs_inv s → length (dfs_result s) < size subgraph →
  dfs_stack s = x :: rest → x ∈ dfs_visited s →
  dfs_inv (mkDfs (dfs_visited s) (dfs_processing s ∖ {[x]}) (x :: dfs_result s) rest (dfs_edges s)).
Proof.
  intros [He Hv Hr Hst Hsp Ho Hc Hl Hop] Hlt Hk Hx. rewrite Hk in *.
  split; simpl; [done|done|set_solver|set_solver|set_solver|set_solver| |lia|by apply open_below_pop].
  intros y c Hy Hyc. destruct (Hc y c Hy Hyc); set_solver.
Qed.

Lemma dfs_inv_visit s x rest pushed : dfs_inv s → dfs_stack s = x :: rest → x ∉ dfs_visited s →
  (∀ n, n ∈ pushed ↔ sub_child x n ∧ n ∉ {[x]} ∪ dfs_visited s) →
  dfs_inv (mkDfs ({[x]} ∪ dfs_visited s) ({[x]} ∪ dfs_processing s) (dfs_result s)
             (pushed ++ x :: rest) (alter js_sort x (dfs_edges s))).
Proof.
  intros [He Hv Hr Hst Hsp Ho Hc Hl Hop] Hk Hx Hp. rewrite Hk in *.
  split; simpl; [| | | | | | |done|apply open_below_visit; [done|done|apply Hp]].
  - etrans; [apply edges_equiv_sort|done].
  - set_solver.
  - set_solver.
  - intros h. rewrite elem_of_app, Hp. unfold sub_child. set_solver.
  - intros h. rewrite elem_of_app. set_solver.
  - rewrite elem_of_app. set_solver.
  - intros y c Hy Hyc. rewrite elem_of_app, Hp.
    destruct (decide (c ∈ {[x]} ∪ dfs_visited s)); [by left|].
    apply elem_of_union in Hy as [->%elem_of_singleton|Hy]; [auto|].
    destruct (Hc y c Hy Hyc); set_solver.
Qed.

Hypothesis origin_in : origin ∈ subgraph.
Hypothesis reachable : ∀ h, h ∈ subgraph → rtc sub_child origin h.

(** An empty stack means every vertex of the subgraph is in the result. *)
Lemma dfs_no_underflow s : dfs_inv s → dfs_stack s = [] → size subgraph ≤ length (dfs_result s).
Proof.
  intros [_ Hv Hr _ Hsp Ho Hc _ _] Hk. rewrite Hk in *.
  assert (∀ h, rtc sub_child origin h → h ∈ dfs_visited s) as Hall.
  { intros h Hh. destruct Ho as [Ho|[]%elem_of_nil]. clear -Hh Ho Hc.
    induction Hh as [|x y z Hxy _ IH]; [done|]. apply IH.
    by destruct (Hc x y Ho Hxy) as [|[]%elem_of_nil]. }
  unfold size, set_size. simpl. apply NoDup_subset_length; [apply NoDup_elements|].
  intros h. rewrite elem_of_elements. intros Hh.
  destruct (Hsp h) as [|[]%elem_of_nil]; [auto|done].
Qed.
Lemma dfs_inv_init : dfs_inv (dfs_init origin e0).
Proof. split; simpl; (done || set_solver || lia). Qed.

Lemma dfs_step_total s : dfs_inv s →
  match dfs_step subgraph s with
  | Next s' => dfs_inv s' ∧ dfs_measure s' < dfs_measure s
  | Done r => dfs_post r
  end.
Proof.
  intros Hs. pose proof Hs as [He Hv Hr Hst Hsp Ho Hc Hl Hop]. unfold dfs_step.
  case_decide as Hlt; cycle 1.
  { split; simpl; [done|]. split; [lia|]. auto. }
  destruct (dfs_stack s) as [|x rest] eqn:Hk.
  { pose proof (dfs_no_underflow s Hs Hk). lia. }
  case_decide as Hx.
  { split; [by apply dfs_inv_pop|]. unfold dfs_measure. simpl. lia. }
  rewrite dfs_push_spec. case_decide as Hcyc.
  { split; simpl; [etrans; [apply edges_equiv_sort|done]|]. split; [done|].
    apply Exists_exists in Hcyc as (n & Hn & Hnp). rewrite elem_of_js_sort, (He x) in Hn.
    exists n. by eapply open_below_cycle. }
  split.
  - apply dfs_inv_visit; [done|done|done|]. intros n. by apply elem_of_pushed.
  - unfold dfs_measure. simpl. rewrite size_union by set_solver. rewrite size_singleton.
    assert (size ({[x]} ∪ dfs_visited s) ≤ size subgraph) as Hle.
    { apply subseteq_size. assert (x ∈ subgraph) by (apply Hst; set_solver). set_solver. }
    rewrite size_union, size_singleton in Hle by set_solver. lia.
Qed.

Lemma dfs_loop_total :
  ∃ r, loop (dfs_step subgraph) (dfs_fuel subgraph) (dfs_init origin e0) = Some r ∧ dfs_post r.
Proof.
  eapply (loop_total _ dfs_inv dfs_measure); [apply dfs_step_total|apply dfs_inv_init|].
  unfold dfs_measure, dfs_fuel. simpl. lia.
Qed.

(** ** Graphs without cycles *)

(** The result, from its front: the children of an entry come after it. *)
Fixpoint result_ok (R : list Hash) : Prop :=
  match R with
  | [] => True
  | x :: l => (∀ c, sub_child x c → c ∈ l) ∧ result_ok l
  end.

Lemma result_ok_closed R x c : result_ok R → x ∈ R → sub_child x c → c ∈ R.
Proof.
  induction R as [|y R IH]; [by intros _ []%elem_of_nil|].
  intros [Hy HR] [->|Hx]%elem_of_cons Hc; right; auto.
Qed.

Lemma result_ok_after R i x c : result_ok R → R !! i = Some x → sub_child x c →
  ∃ j, i < j ∧ R !! j = Some c.
Proof.
  revert i. induction R as [|y R IH]; [done|]. intros [|i] [Hy HR] Hi Hc; simpl in Hi.
  - simplify_eq. apply Hy in Hc. apply list_elem_of_lookup in Hc as [j Hj]. exists (S j). split; [lia|done].
  - destruct (IH i HR Hi Hc) as (j & Hij & Hj). exists (S j). split; [lia|done].
Qed.

Hypothesis acyclic : ∀ h, h ∈ subgraph → ¬ tc sub_child h h.

(** What is visited is being processed or done; the children of a node being
    processed are done or above it in the stack; those of a node that is done
    are done. *)
Record dfs_dag (s : dfs) : Prop := {
  dd_inv : dfs_inv s;
  dd_visited : ∀ x, x ∈ dfs_visited s → x ∈ dfs_processing s ∨ x ∈ dfs_result s;
  dd_open : ∀ x above below c, x ∈ dfs_processing s → dfs_stack s = above ++ x :: below → x ∉ above →
    sub_child x c → c ∈ dfs_result s ∨ c ∈ above;
  dd_result : result_ok (dfs_result s)
}.

Lemma dfs_dag_pop s x rest : dfs_dag s → length (dfs_result s) < size subgraph →
  dfs_stack s = x :: rest → x ∈ dfs_visited s →
  dfs_dag (mkDfs (dfs_visited s) (dfs_processing s ∖ {[x]}) (x :: dfs_result s) rest (dfs_edges s)).
Proof.
  intros [Hi Hv Ho Hr] Hlt Hk Hx. split; simpl; [by apply dfs_inv_pop| | |].
  - intros y Hy. destruct (decide (y = x)) as [->|]; [right; by left|]. destruct (Hv y Hy); [left|right]; set_solver.
  - intros z above below c [Hz Hzx]%elem_of_difference E Hn Hc.
    destruct (Ho z (x :: above) below c) as [|[->|]%elem_of_cons]; [done|by rewrite Hk, E|set_solver|done|..];
      [left; by right|left; by left|by right].
  - split; [|done]. intros c Hc. destruct (Hv x Hx) as [Hp|Hp]; [|by eapply result_ok_closed].
    destruct (Ho x [] rest c Hp Hk) as [|[]%elem_of_nil]; [by apply not_elem_of_nil|done|done].
Qed.

Lemma dfs_dag_visit s x rest pushed : dfs_dag s → dfs_stack s = x :: rest → x ∉ dfs_visited s →
  (∀ n, n ∈ pushed ↔ sub_child x n ∧ n ∉ {[x]} ∪ dfs_visited s) →
  dfs_dag (mkDfs ({[x]} ∪ dfs_visited s) ({[x]} ∪ dfs_processing s) (dfs_result s)
             (pushed ++ x :: rest) (alter js_sort x (dfs_edges s))).
Proof.
  intros [Hi Hv Ho Hr] Hk Hx Hp. split; simpl; [by apply dfs_inv_visit| | |done].
  - intros y [->%elem_of_singleton|Hy]%elem_of_union; [set_solver|]. destruct (Hv y Hy); set_solver.
  - assert (∀ c, sub_child x c → c ∈ dfs_result s ∨ c ∈ pushed) as Hnew.
    { intros c Hc. rewrite Hp. destruct (decide (c ∈ {[x]} ∪ dfs_visited s)) as [Hcv|]; [left|by right].
      destruct (decide (c ∈ {[x]} ∪ dfs_processing s)) as [Hcp|Hcp].
      - pose proof (di_open s Hi) as Hop. rewrite Hk in Hop.
        destruct (open_below_cycle _ _ x rest c Hop) as [Hcs Hcyc]; [|apply Hc|done|by destruct (acyclic c)].
        intros h Hh. apply (di_stack s Hi). by rewrite Hk.
      - destruct (Hv c); set_solver. }
    intros z above below c Hz E Hn Hc.
    assert (z ∉ pushed) as Hzp.
    { rewrite Hp. pose proof (di_open s Hi z) as Hop. set_solver. }
    assert (∀ l, x :: rest = l ++ z :: below → z ∉ l → c ∈ dfs_result s ∨ c ∈ pushed ++ l) as Hl.
    { intros [|y l] E' Hzl; simplify_eq/=; [rewrite app_nil_r; by apply Hnew|].
      assert (z ∈ dfs_processing s) as Hz' by set_solver.
      destruct (Ho z (y :: l) below c Hz' Hk Hzl Hc); [by left|right; set_solver]. }
    apply app_eq_app in E as (l & [[-> E]|[-> E]]).
    + destruct l as [|y l]; simplify_eq/=; [|set_solver]. rewrite app_nil_r in *. by apply Hnew.
    + apply Hl; [done|set_solver].
Qed.

Lemma dfs_step_dag s : dfs_dag s →
  match dfs_step subgraph s with
  | Next s' => dfs_dag s' ∧ dfs_measure s' < dfs_measure s
  | Done r => ∃ l, r.2 = Ok l ∧ length l = size subgraph ∧ (∀ h, h ∈ l → h ∈ subgraph) ∧ result_ok l
  end.
Proof.
  intros Hs. pose proof Hs as [Hi _ _ Hr]. pose proof (dfs_step_total s Hi) as Ht. unfold dfs_step in *.
  case_decide as Hlt; [|destruct Ht as [_ [H1 H2]]; exists (dfs_result s); by split_and!].
  destruct (dfs_stack s) as [|x rest] eqn:Hk.
  { pose proof (dfs_no_underflow s Hi Hk). lia. }
  case_decide as Hx; [split; [by apply dfs_dag_pop|by destruct Ht]|].
  rewrite dfs_push_spec in *. case_decide as Hcyc.
  { destruct Ht as (_ & _ & h & Hh & Hc). by destruct (acyclic h). }
  split; [|by destruct Ht]. apply dfs_dag_visit; [done..|]. intros n. apply elem_of_pushed, Hi.
Qed.

Lemma dfs_loop_dag : ∃ e l,
  loop (dfs_step subgraph) (dfs_fuel subgraph) (dfs_init origin e0) = Some (e, Ok l) ∧
  length l = size subgraph ∧ (∀ h, h ∈ l → h ∈ subgraph) ∧ result_ok l.
Proof.
  destruct (loop_total _ dfs_dag dfs_measure _ dfs_step_dag (dfs_fuel subgraph) (dfs_init origin e0))
    as ([e r] & Hr & l & Hl & H).
  - split; simpl; [apply dfs_inv_init|set_solver|set_solver|done].
  - unfold dfs_measure, dfs_fuel. simpl. lia.
  - simpl in Hl. subst r. by exists e, l.
Qed.
End dfs.

(** The reachability check of the code decides reachability along the edges of
    the subgraph. *)
Lemma dfs_reachability_check g origin subgraph : origin ∈ subgraph →
  ∃ X, walk_from (subgraph_children (forwardEdges g) subgraph) (elements subgraph) [origin] = Some X ∧
    (∀ h, h ∈ X ↔ rtc (sub_child (forwardEdges g) subgraph) origin h) ∧ X ⊆ subgraph.
Proof.
  intros Ho.
  assert (∀ x y, succ (subgraph_children (forwardEdges g) subgraph) x y ↔
                 sub_child (forwardEdges g) subgraph x y) as Hs.
  { intros x y. unfold succ, subgraph_children, sub_child. rewrite list_elem_of_filter. tauto. }
  assert (∀ h, walked (subgraph_children (forwardEdges g) subgraph) [origin] h ↔
               rtc (sub_child (forwardEdges g) subgraph) origin h) as Hw.
  { intros h. split.
    - intros (s & ->%list_elem_of_singleton & Hr). eapply rtc_subrel; [|exact Hr].
      intros ??. apply Hs.
    - intros Hr. exists origin. split; [set_solver|]. eapply rtc_subrel; [|exact Hr].
      intros ??. apply Hs. }
  assert (∀ h, rtc (sub_child (forwardEdges g) subgraph) origin h → h ∈ subgraph) as Hin.
  { intros h Hr. apply rtc_inv_r in Hr as [<-|(y & _ & _ & ?)]; done. }
  destruct (walk_from_spec (subgraph_children (forwardEdges g) subgraph) (elements subgraph) [origin])
    as (X & HX & Hspec).
  { intros h Hh. by apply elem_of_elements, Hin, Hw. }
  exists X. split; [done|]. split; [intros h; by rewrite Hspec|].
  intros h Hh. by apply Hin, Hw, Hspec.
Qed.

Lemma elem_of_restore_origin origin l h : h ∈ restore_origin origin l → h = origin ∨ h ∈ l.
Proof.
  unfold restore_origin. case_decide; [auto|]. destruct l; simpl; set_solver.
Qed.

(** The outcomes of a call, with no assumption on the graph: what is proved of
    the loop, transported to the method. *)
Lemma dfs_outcomes g origin subgraph :
  let '(g', r) := dfsTopologicalSortIterative g origin subgraph in
  edges_equiv (forwardEdges g') (forwardEdges g) ∧ g' = with_forwardEdges g (forwardEdges g') ∧
  match r with
  | Ok l => length l = size subgraph ∧ (∀ h, h ∈ l → h ∈ subgraph) ∧ origin ∈ l ∧
            (∀ h, h ∈ subgraph → rtc (sub_child (forwardEdges g) subgraph) origin h)
  | Throw OriginNotInSubgraph => origin ∉ subgraph
  | Throw (UnreachableMembers n) =>
      0 < n ∧ ∃ h, h ∈ subgraph ∧ ¬ rtc (sub_child (forwardEdges g) subgraph) origin h
  | Throw e => e = GraphContainsCycle ∧ ∃ h, h ∈ subgraph ∧ tc (sub_child (forwardEdges g) subgraph) h h
  end.
Proof.
  assert (g = with_forwardEdges g (forwardEdges g)) as Hg by (by destruct g).
  unfold dfsTopologicalSortIterative. case_decide as Ho; [|done].
  destruct (dfs_reachability_check g origin subgraph Ho) as (X & -> & HX & Hsub).
  case_decide as Hu; cycle 1.
  { split; [done|]. split; [done|]. split; [lia|].
    destruct (set_choose_L (subgraph ∖ X)) as [h Hh].
    - intros E. by rewrite E, size_empty in Hu.
    - exists h. rewrite <- HX. set_solver. }
  assert (∀ h, h ∈ subgraph → rtc (sub_child (forwardEdges g) subgraph) origin h) as Hr.
  { intros h Hh. apply HX. apply size_empty_inv in Hu. destruct (decide (h ∈ X)); set_solver. }
  destruct (dfs_loop_total (forwardEdges g) origin subgraph Ho Hr) as ([e r] & -> & He & Hpost).
  simpl in *. split; [done|]. split; [done|]. destruct r as [l|er]; simpl; [|by destruct Hpost as [-> ?]].
  destruct Hpost as [Hlen Hin].
  assert (0 < length l) as Hpos.
  { rewrite Hlen. assert (size subgraph ≠ 0); [|lia]. intros E%size_empty_inv. set_solver. }
  split; [|split; [|split; [|done]]].
  - unfold restore_origin. case_decide; [done|]. by rewrite length_insert.
  - intros h [->|Hh]%elem_of_restore_origin; auto.
  - unfold restore_origin. case_decide; [done|]. destruct l; simpl in *; [lia|set_solver].
Qed.

(** ** Causal order *)

(** In [l], every vertex comes after those of its dependencies that are in [l]. *)
Definition causal_order (g : HashGraph) (l : list Hash) : Prop :=
  ∀ i j d h, l !! i = Some d → l !! j = Some h → parent g h d → i < j.

Section ordered.
Variables (g : HashGraph) (origin : Hash) (subgraph : gset Hash).
Hypothesis Hwf : wf g.
Hypothesis origin_in : origin ∈ subgraph.
Hypothesis reachable : ∀ h, h ∈ subgraph → rtc (sub_child (forwardEdges g) subgraph) origin h.

Local Abbreviation child := (sub_child (forwardEdges g) subgraph).

Lemma child_parent x c : child x c → parent g c x.
Proof. intros [Hc _]. by apply (wf_edges g Hwf). Qed.

Lemma child_before x c : child x c → before g x c.
Proof. intros Hc. by apply tc_once, child_parent. Qed.

Lemma subgraph_descends h : h ∈ subgraph → ancestor g h origin.
Proof.
  intros Hh. pose proof (reachable h Hh) as Hr. clear Hh.
  assert (∀ a b, rtc child a b → ancestor g b a) as Hrev; [|by apply Hrev].
  induction 1 as [|x y z Hxy _ IH]; [apply rtc_refl|].
  eapply rtc_r; [exact IH|]. by apply child_parent.
Qed.

(** A causal order of the subgraph starts with the origin, from which all of it
    descends. *)
Lemma causal_order_head l : l ≡ₚ elements subgraph → causal_order g l → head l = Some origin.
Proof.
  intros Hperm Hord. assert (origin ∈ l) as Ho by (rewrite Hperm; by apply elem_of_elements).
  destruct l as [|h l]; [set_solver|]. simpl. f_equal.
  assert (h ∈ subgraph) as Hh by (apply elem_of_elements; rewrite <- Hperm; set_solver).
  destruct (decide (h = origin)) as [|Hne]; [done|]. exfalso.
  apply reachable, rtc_inv_r in Hh as [|(p & Hp & Hph)]; [done|].
  assert (p ∈ h :: l) as Hpl.
  { rewrite Hperm. apply elem_of_elements. apply rtc_inv_r in Hp as [<-|(? & _ & ? & ?)]; done. }
  apply list_elem_of_lookup in Hpl as [i Hi].
  specialize (Hord i 0 p h Hi eq_refl (child_parent p h Hph)). lia.
Qed.

Lemma subgraph_acyclic h : ¬ tc child h h.
Proof.
  assert (∀ a b, tc child a b → before g a b) as Hb; [|by intros ?%Hb%before_irreflexive].
  induction 1 as [|x y z Hxy _ IH]; [by apply child_before|].
  eapply tc_transitive; [exact IH|by apply child_before].
Qed.

Lemma nodup_subgraph l : NoDup l → length l = size subgraph → (∀ h, h ∈ l → h ∈ subgraph) →
  l ≡ₚ elements subgraph.
Proof.
  intros Hnd Hlen Hin. apply submseteq_length_Permutation; [|by rewrite Hlen].
  apply NoDup_submseteq; [done|]. intros h Hh. by apply elem_of_elements, Hin.
Qed.

(** With no assumption on the dependencies: the sort succeeds and everything
    that depends on an entry other than the origin comes after it. *)
Lemma dfs_dag_outcome :
  ∃ l, (dfsTopologicalSortIterative g origin subgraph).2 = Ok l ∧
    length l = size subgraph ∧ (∀ h, h ∈ l → h ∈ subgraph) ∧ origin ∈ l ∧
    ∀ i d h, l !! i = Some d → h ∈ subgraph → parent g h d → d ≠ origin ∨ NoDup l →
      ∃ j, i < j ∧ l !! j = Some h.
Proof.
  unfold dfsTopologicalSortIterative. rewrite decide_True by done.
  destruct (dfs_reachability_check g origin subgraph origin_in) as (X & -> & HX & Hsub).
  rewrite decide_True; cycle 1.
  { apply size_empty_iff. intros h. split; [|by intros []%elem_of_empty].
    rewrite elem_of_difference, HX. intros [Hh []]. auto. }
  destruct (dfs_loop_dag (forwardEdges g) origin subgraph origin_in reachable) as (e & l & -> & Hlen & Hin & Hok);
    [intros h _; apply subgraph_acyclic|].
  assert (∀ i d h, l !! i = Some d → h ∈ subgraph → parent g h d → ∃ j, i < j ∧ l !! j = Some h) as Hafter.
  { intros i d h Hi Hh Hp. eapply result_ok_after; [done..|]. split; [by apply (wf_edges g Hwf)|done]. }
  eexists. split; [reflexivity|]. unfold restore_origin. case_decide as Ho; [by split_and!; eauto|].
  assert (0 < length l) as Hpos.
  { rewrite Hlen. assert (size subgraph ≠ 0); [|lia]. intros E%size_empty_inv. set_solver. }
  assert (∀ h, h ∈ <[0:=origin]> l → h ∈ subgraph) as Hin'.
  { destruct l; simpl in *; [lia|]. intros h [->|Hh]%elem_of_cons; [done|apply Hin; by right]. }
  split_and!; [by rewrite length_insert|done|destruct l; simpl in *; [lia|by left]|].
  intros i d h Hi Hh Hp Hcase. destruct i as [|i].
  - rewrite list_lookup_insert_eq in Hi by done. destruct Hcase as [|Hnd]; simplify_eq.
    assert (h ∈ <[0:=d]> l) as Hhl.
    { rewrite (nodup_subgraph _ Hnd); [by apply elem_of_elements|by rewrite length_insert|done]. }
    apply list_elem_of_lookup in Hhl as [[|j] Hj]; [|exists (S j); split; [lia|done]].
    rewrite list_lookup_insert_eq in Hj by done. simplify_eq.
    by destruct (before_irreflexive g h Hwf); apply tc_once.
  - rewrite list_lookup_insert_ne in Hi by done. destruct (Hafter (S i) d h Hi Hh Hp) as (j & Hij & Hj).
    exists j. split; [done|]. rewrite list_lookup_insert_ne by lia. done.
Qed.

Lemma dfs_nodup_order l : (dfsTopologicalSortIterative g origin subgraph).2 = Ok l → NoDup l →
  l ≡ₚ elements subgraph ∧ head l = Some origin ∧ causal_order g l.
Proof.
  intros E Hnd. destruct dfs_dag_outcome as (l' & E' & Hlen & Hin & Ho & Hafter). rewrite E in E'. injection E' as <-.
  assert (l ≡ₚ elements subgraph) as Hperm by (by apply nodup_subgraph).
  assert (causal_order g l) as Hord.
  { intros i j d h Hi Hj Hp. destruct (Hafter i d h Hi) as (j' & ? & Hj'); [|done|by right|].
    - by eapply Hin, list_elem_of_lookup_2.
    - by rewrite (NoDup_lookup l j j' h Hnd Hj Hj'). }
  split_and!; [done|by apply causal_order_head|done].
Qed.

Hypothesis Hred : reduced g.

(** Shape of the stack, from its top: a visited entry is in the past of every
    entry above it, and an unvisited entry was pushed by a visited one below it. *)
Fixpoint stack_ok (V : gset Hash) (K : list Hash) : Prop :=
  match K with
  | [] => True
  | y :: below =>
      (∀ x, x ∈ below → x ∈ V → before g x y) ∧
      (y ∉ V → y = origin ∨ ∃ p, p ∈ below ∧ p ∈ V ∧ parent g y p) ∧
      stack_ok V below
  end.

Lemma stack_ok_unvisited V K u : stack_ok V K → u ∈ K → u ∉ V →
  u = origin ∨ ∃ p, p ∈ K ∧ p ∈ V ∧ parent g u p.
Proof.
  induction K as [|y K IH]; simpl; [by intros _ []%elem_of_nil|].
  intros (_ & Hy & HK) [->|Hu]%elem_of_cons Hn.
  - destruct (Hy Hn) as [|(p & ? & ? & ?)]; [auto|right; exists p; set_solver].
  - destruct (IH HK Hu Hn) as [|(p & ? & ? & ?)]; [auto|right; exists p; set_solver].
Qed.

Lemma stack_ok_visit V K x : x ∉ K → stack_ok V K → stack_ok ({[x]} ∪ V) K.
Proof.
  induction K as [|y K IH]; simpl; [done|].
  intros [Hxy Hx]%not_elem_of_cons (H1 & H2 & H3). split; [|split; [|by apply IH]].
  - intros z Hz [->%elem_of_singleton|Hv]%elem_of_union; [done|auto].
  - intros Hy. destruct H2 as [|(p & ? & ? & ?)]; [set_solver|auto|]. right. exists p. set_solver.
Qed.

(** The children of an entry at the top of the stack are nowhere else in it:
    this is where a dependency in the past of another one would break the sort. *)
Lemma child_not_below V x rest c : stack_ok V (x :: rest) → x ∈ subgraph →
  child x c → c ∉ x :: rest.
Proof.
  intros (Htop & _ & Hrest) Hx Hc [->|Hin]%elem_of_cons.
  { by eapply before_irreflexive, child_before. }
  destruct (decide (c ∈ V)) as [HcV|HcV].
  - eapply (before_irreflexive g x Hwf), tc_transitive; [by apply Htop|by apply child_before].
  - destruct (stack_ok_unvisited V rest c Hrest Hin HcV) as [->|(p & Hp & HpV & Hcp)].
    + destruct (ancestor_cases g x origin (subgraph_descends x Hx)) as [->|Hb].
      * by eapply before_irreflexive, child_before.
      * eapply (before_irreflexive g x Hwf), tc_transitive; [exact Hb|by apply child_before].
    + eapply (red_antichain g Hred c p x); [done|by apply child_parent|by apply Htop].
Qed.

Lemma stack_ok_push V x rest N : stack_ok V (x :: rest) → x ∉ rest →
  (∀ n, n ∈ N → child x n ∧ n ∉ {[x]} ∪ V) →
  stack_ok ({[x]} ∪ V) (N ++ x :: rest).
Proof.
  intros (Htop & _ & Hrest) Hx HN.
  assert (stack_ok ({[x]} ∪ V) (x :: rest)) as Hbase.
  { simpl. split; [|split; [set_solver|by apply stack_ok_visit]].
    intros z Hz [->%elem_of_singleton|Hv]%elem_of_union; [done|auto]. }
  induction N as [|n N IH]; [done|]. simpl. split; [|split].
  - intros z Hz HzV. destruct (HN n) as [Hn _]; [set_solver|].
    apply elem_of_app in Hz as [Hz|[->|Hz]%elem_of_cons].
    + destruct (HN z) as [_ ?]; [set_solver|done].
    + by apply child_before.
    + eapply tc_transitive; [by apply child_before|]. apply Htop; [done|set_solver].
  - intros _. right. exists x. destruct (HN n) as [Hn _]; [set_solver|].
    split; [set_solver|]. split; [set_solver|by apply child_parent].
  - apply IH. intros m Hm. apply HN. by right.
Qed.

Record dfs_red (s : dfs) : Prop := {
  dr_inv : dfs_inv (forwardEdges g) origin subgraph s;
  dr_stack_nodup : NoDup (dfs_stack s);
  dr_result_nodup : NoDup (dfs_result s);
  dr_disjoint : ∀ h, h ∈ dfs_stack s → h ∉ dfs_result s;
  dr_processing : ∀ h, h ∈ dfs_processing s → h ∈ dfs_stack s ∧ h ∈ dfs_visited s;
  dr_stack : stack_ok (dfs_visited s) (dfs_stack s)
}.

Lemma dfs_red_pop s x rest : dfs_red s → length (dfs_result s) < size subgraph →
  dfs_stack s = x :: rest → x ∈ dfs_visited s →
  dfs_red (mkDfs (dfs_visited s) (dfs_processing s ∖ {[x]}) (x :: dfs_result s) rest (dfs_edges s)).
Proof.
  intros [Hi Hkn Hrn Hd Hp Hst] Hlt Hk Hx.
  pose proof (dfs_inv_pop _ _ _ s x rest Hi Hlt Hk Hx) as Hi'.
  rewrite Hk in *. apply NoDup_cons in Hkn as [Hxr Hkn].
  split; simpl; [done|done| |set_solver|set_solver|by destruct Hst as (_ & _ & ?)].
  apply NoDup_cons. split; [apply Hd; set_solver|done].
Qed.

Lemma dfs_red_visit s x rest pushed : dfs_red s → dfs_stack s = x :: rest → x ∉ dfs_visited s →
  NoDup pushed →
  (∀ n, n ∈ pushed ↔ child x n ∧ n ∉ {[x]} ∪ dfs_visited s) →
  dfs_red (mkDfs ({[x]} ∪ dfs_visited s) ({[x]} ∪ dfs_processing s) (dfs_result s)
             (pushed ++ x :: rest) (alter js_sort x (dfs_edges s))).
Proof.
  intros [Hi Hkn Hrn Hd Hp Hst] Hk Hx Hnd Hpush.
  pose proof (dfs_inv_visit _ _ _ s x rest pushed Hi Hk Hx Hpush) as Hi'.
  assert (x ∈ subgraph) as Hxs by (apply (di_stack _ _ _ s Hi); rewrite Hk; set_solver).
  rewrite Hk in *.
  split; simpl; [done| |done| | |].
  - apply NoDup_app. split; [done|]. split; [|done].
    intros n [Hn _]%Hpush. by eapply child_not_below.
  - intros h [[_ Hv]%Hpush|Hh]%elem_of_app Hr; [|by eapply Hd].
    apply (di_result _ _ _ s Hi) in Hr. set_solver.
  - intros h [->%elem_of_singleton|Hh]%elem_of_union; [set_solver|].
    destruct (Hp h Hh). set_solver.
  - apply NoDup_cons in Hkn as [Hxr _]. apply stack_ok_push; [done|done|].
    intros n Hn. by apply Hpush.
Qed.

Lemma dfs_step_red s : dfs_red s →
  match dfs_step subgraph s with
  | Next s' => dfs_red s' ∧ dfs_measure subgraph s' < dfs_measure subgraph s
  | Done r => ∃ l, r.2 = Ok l ∧ NoDup l ∧ length l = size subgraph ∧ ∀ h, h ∈ l → h ∈ subgraph
  end.
Proof.
  intros Hs. pose proof Hs as [Hi Hkn Hrn Hd Hp Hst].
  pose proof (dfs_step_total (forwardEdges g) origin subgraph origin_in reachable s Hi) as Ht.
  pose proof (di_length _ _ _ s Hi) as Hlen. unfold dfs_step in *.
  case_decide as Hlt; cycle 1.
  { destruct Ht as [_ [H1 H2]]. simpl in *. exists (dfs_result s). auto. }
  destruct (dfs_stack s) as [|x rest] eqn:Hk.
  { pose proof (dfs_no_underflow _ _ _ reachable s Hi Hk). lia. }
  case_decide as Hx.
  { split; [|by destruct Ht]. by apply dfs_red_pop. }
  rewrite dfs_push_spec in *.
  pose proof (di_edges _ _ _ s Hi) as He.
  assert (x ∈ subgraph) as Hxs by (apply (di_stack _ _ _ s Hi); rewrite Hk; set_solver).
  case_decide as Hcyc.
  { exfalso. apply Exists_exists in Hcyc as (c & Hc & HcP).
    rewrite elem_of_js_sort, (He x) in Hc.
    assert (child x c) as Hchild.
    { split; [done|]. apply elem_of_union in HcP as [->%elem_of_singleton|HcP]; [done|].
      apply Hp in HcP as [? _]. by apply (di_stack _ _ _ s Hi); rewrite Hk. }
    eapply (child_not_below _ x rest c Hst Hxs Hchild).
    apply elem_of_union in HcP as [->%elem_of_singleton|HcP]; [set_solver|by apply Hp]. }
  split; [|by destruct Ht]. apply dfs_red_visit; [done|done|done| |].
  - rewrite reverse_Permutation. apply NoDup_filter. rewrite js_sort_perm, (He x).
    apply (wf_edges_nodup g Hwf). apply (red_nodup g Hred).
  - intros n. by apply elem_of_pushed.
Qed.

Lemma dfs_loop_red : ∃ e l,
  loop (dfs_step subgraph) (dfs_fuel subgraph) (dfs_init origin (forwardEdges g)) = Some (e, Ok l) ∧
  NoDup l ∧ l ≡ₚ elements subgraph.
Proof.
  destruct (loop_total _ dfs_red (dfs_measure subgraph) _ dfs_step_red (dfs_fuel subgraph)
              (dfs_init origin (forwardEdges g))) as ([e r] & Hr & l & Hl & Hnd & Hlen & Hin).
  - split; simpl; [by apply dfs_inv_init|apply NoDup_singleton|apply NoDup_nil_2|set_solver|set_solver|].
    split; [set_solver|]. auto.
  - unfold dfs_measure, dfs_fuel. simpl. lia.
  - simpl in Hl. subst r. exists e, l. split_and!; [done|done|by apply nodup_subgraph].
Qed.

Lemma dfs_reduced_order :
  ∃ l, (dfsTopologicalSortIterative g origin subgraph).2 = Ok l ∧
    l ≡ₚ elements subgraph ∧ head l = Some origin ∧ causal_order g l.
Proof.
  assert (∃ l, (dfsTopologicalSortIterative g origin subgraph).2 = Ok l ∧ NoDup l) as (l & E & Hnd).
  { unfold dfsTopologicalSortIterative. rewrite decide_True by done.
    destruct (dfs_reachability_check g origin subgraph origin_in) as (X & -> & HX & Hsub).
    rewrite decide_True; cycle 1.
    { apply size_empty_iff. intros h. split; [|by intros []%elem_of_empty].
      rewrite elem_of_difference, HX. intros [Hh []]. auto. }
    destruct dfs_loop_red as (e & l & -> & Hnd & Hperm). exists l. split; [|done]. simpl.
    unfold restore_origin. rewrite decide_True; [done|]. rewrite Hperm. by apply elem_of_elements. }
  exists l. split; [done|]. by apply dfs_nodup_order.
Qed.

End ordered.

(** ** Vertices created locally keep the graph reduced *)

Lemma before_has_child g a h : before g a h → ∃ c, parent g c a.
Proof. unfold before. induction 1; eauto. Qed.

Lemma before_addVertex_old g v a h : wf g → hash v ∉ jm_keys (vertices g) →
  h ∈ jm_keys (vertices g) → before (addVertex g v) a h → before g a h.
Proof.
  intros Hg Hf Hh Hb. unfold before in *. induction Hb as [h a Hp|h m a Hp _ IH];
    apply parent_addVertex in Hp as [Hp|[-> _]]; try done.
  - by apply tc_once.
  - eapply tc_l; [exact Hp|]. apply IH. by eapply parent_keys.
Qed.

(** The dependencies of a vertex to add are pairwise concurrent. *)
Record antichain (g : HashGraph) (deps : list Hash) : Prop := {
  ac_nodup : NoDup deps;
  ac_concurrent : ∀ d1 d2, d1 ∈ deps → d2 ∈ deps → ¬ before g d1 d2
}.

Lemma antichain_frontier g : wf g → antichain g (getFrontier g).
Proof.
  intros Hg. split; [auto with dag|].
  intros d1 d2 [_ H1]%(wf_frontier g Hg) _ Hb. apply before_has_child in Hb as [c Hc]. by eapply H1.
Qed.

Lemma reduced_addVertex g v : wf g → reduced g → admissible g v →
  antichain g (dependencies v) → reduced (addVertex g v).
Proof.
  intros Hg [Hnd Hanti] [Hf Hne Hknown] [Hvnd Hv]. split.
  - intros h. unfold getDependencies. rewrite getVertex_addVertex. case_decide; [done|apply Hnd].
  - intros h d1 d2 H1%parent_addVertex H2%parent_addVertex Hb; [|done..].
    destruct H1 as [H1|[-> H1]], H2 as [H2|[E H2]]; subst.
    + apply (Hanti h d1 d2); [done..|]. eapply before_addVertex_old; [done..| |done].
      by eapply parent_keys.
    + by apply parent_keys in H1 as [? _].
    + by apply parent_keys in H2 as [? _].
    + apply (Hv d1 d2); [done..|]. eapply before_addVertex_old; eauto.
Qed.

Lemma reduced_new_HashGraph peer acl drp sem : reduced (new_HashGraph peer acl drp sem).
Proof.
  assert (∀ h, getDependencies (new_HashGraph peer acl drp sem) h = []) as Hd.
  { intros h. unfold getDependencies, getVertex. simpl. by case_decide. }
  split; [intros h; rewrite Hd; apply NoDup_nil_2|].
  intros h d1 d2 H. unfold parent in H. rewrite Hd in H. by apply elem_of_nil in H.
Qed.

#[export] Hint Resolve antichain_frontier reduced_new_HashGraph : dag.

Lemma antichain_singleton g d : wf g → antichain g [d].
Proof.
  intros Hg. split; [apply NoDup_singleton|].
  intros d1 d2 ->%list_elem_of_singleton ->%list_elem_of_singleton. by apply before_irreflexive.
Qed.

Lemma reduced_diamond : reduced diamond.
Proof.
  set (g0 := new_HashGraph "peer" None None None).
  set (g1 := addVertex g0 (sample_vertex "a" [rootHash])).
  set (g2 := addVertex g1 (sample_vertex "b" [rootHash])).
  assert (wf g0) as H0 by apply wf_new_HashGraph.
  assert (wf g1) as H1 by (apply wf_addVertex; [done|decide_by_compute]).
  assert (wf g2) as H2 by (apply wf_addVertex; [done|decide_by_compute]).
  change diamond with (addVertex g2 (sample_vertex "c" (getFrontier g2))).
  apply reduced_addVertex; [done| |decide_by_compute|by apply antichain_frontier].
  apply reduced_addVertex; [done| |decide_by_compute|by apply antichain_singleton].
  apply reduced_addVertex; [done| |decide_by_compute|by apply antichain_singleton].
  apply reduced_new_HashGraph.
Qed.

(** ** Properties *)

(** C27 The depth-first sort is total: for any edge lists, origin and subgraph
    (cyclic and disconnected ones too) it returns or throws one of its three
    documented errors. It throws [OriginNotInSubgraph] only when the origin is
    not in the subgraph, [UnreachableMembers] only when the origin does not reach
    some vertex along the edges of the subgraph, and [GraphContainsCycle] only
    when these edges have a cycle; the explicit stack never underflows and the
    loops need no more iterations than their fuel. A returned order has one entry
    per vertex of the subgraph, names only vertices of the subgraph and includes
    the origin, and the origin reaches the whole subgraph. *)
Theorem dfs_total (g : HashGraph) (origin : Hash) (subgraph : gset Hash) :
  match (dfsTopologicalSortIterative g origin subgraph).2 with
  | Ok l => length l = size subgraph ∧ (∀ h, h ∈ l → h ∈ subgraph) ∧ origin ∈ l ∧
            (∀ h, h ∈ subgraph → rtc (sub_child (forwardEdges g) subgraph) origin h)
  | Throw OriginNotInSubgraph => origin ∉ subgraph
  | Throw (UnreachableMembers n) =>
      0 < n ∧ ∃ h, h ∈ subgraph ∧ ¬ rtc (sub_child (forwardEdges g) subgraph) origin h
  | Throw e => e = GraphContainsCycle ∧ ∃ h, h ∈ subgraph ∧ tc (sub_child (forwardEdges g) subgraph) h h
  end.
Proof.
  pose proof (dfs_outcomes g origin subgraph) as H.
  destruct (dfsTopologicalSortIterative g origin subgraph) as [g' r]. by destruct H as (_ & _ & H).
Qed.

(** C3 On a well-formed graph whose vertices have pairwise concurrent
    dependencies, the sort of a subgraph that is reachable from its origin
    returns each vertex of the subgraph exactly once, the origin first, and
    every vertex after all of its dependencies in the subgraph. *)
Theorem dfs_causal_permutation (g : HashGraph) (origin : Hash) (subgraph : gset Hash)
    (Hwf : wf g) (Hred : reduced g) (Ho : origin ∈ subgraph)
    (Hreach : ∀ h, h ∈ subgraph → rtc (sub_child (forwardEdges g) subgraph) origin h) :
  ∃ l, (dfsTopologicalSortIterative g origin subgraph).2 = Ok l ∧
    l ≡ₚ elements subgraph ∧ head l = Some origin ∧
    ∀ i j d h, l !! i = Some d → l !! j = Some h → d ∈ getDependencies g h → i < j.
Proof. by apply dfs_reduced_order. Qed.

Lemma dfs_causal_permutation_witness :
  ∃ l, (dfsTopologicalSortIterative diamond "a" {["a"; "c"]}).2 = Ok l ∧
    l = ["a"; "c"]%string ∧ head l = Some "a"%string.
Proof.
  destruct (dfs_causal_permutation diamond "a" {["a"; "c"]}) as (l & E & _ & Hh & _).
  - apply wf_diamond.
  - apply reduced_diamond.
  - set_solver.
  - intros h [->%elem_of_singleton| ->%elem_of_singleton]%elem_of_union; [apply rtc_refl|].
    apply rtc_once. split; [|set_solver]. vm_compute. left.
  - exists l. split; [exact E|]. split; [|exact Hh]. vm_compute in E. congruence.
Defined.

(** C35 On every well-formed graph, whether or not dependencies are redundant, the
    sort of a subgraph that is reachable from its origin succeeds; everything in
    the subgraph that depends on an entry other than the origin comes after that
    entry; and whenever the result names no vertex twice it is a permutation of
    the subgraph that starts with the origin and puts every vertex after its
    dependencies. *)
Theorem dfs_sorts_dags (g : HashGraph) (origin : Hash) (subgraph : gset Hash)
    (Hwf : wf g) (Ho : origin ∈ subgraph)
    (Hreach : ∀ h, h ∈ subgraph → rtc (sub_child (forwardEdges g) subgraph) origin h) :
  ∃ l, (dfsTopologicalSortIterative g origin subgraph).2 = Ok l ∧
    length l = size subgraph ∧ (∀ h, h ∈ l → h ∈ subgraph) ∧ origin ∈ l ∧
    (∀ i d h, l !! i = Some d → d ≠ origin → h ∈ subgraph → d ∈ getDependencies g h →
       ∃ j, i < j ∧ l !! j = Some h) ∧
    (NoDup l → l ≡ₚ elements subgraph ∧ head l = Some origin ∧
       ∀ i j d h, l !! i = Some d → l !! j = Some h → d ∈ getDependencies g h → i < j).
Proof.
  destruct (dfs_dag_outcome g origin subgraph Hwf Ho Hreach) as (l & E & H1 & H2 & H3 & H4).
  exists l. split_and!; [done..| |by apply dfs_nodup_order].
  intros i d h Hi Hd Hh Hp. apply (H4 i d h); auto.
Qed.

(** The vertex [a] depends on [p] and on [b], and [b] already depends on [p]:
    a graph that the validation of incoming vertices lets through. *)
Definition redundant_dependency : HashGraph :=
  let g := new_HashGraph "peer" None None None in
  let g := addVertex g (sample_vertex "p" [rootHash]) in
  let g := addVertex g (sample_vertex "b" ["p"]) in
  addVertex g (sample_vertex "a" ["p"; "b"])%string.

Lemma wf_redundant_dependency : wf redundant_dependency.
Proof.
  unfold redundant_dependency. do 3 (apply wf_addVertex; [|decide_by_compute]). apply wf_new_HashGraph.
Qed.

(** The sort of this well-formed graph of four vertices returns four entries,
    names [a] twice, and loses [p]. *)
Example dfs_loses_vertex :
  wf redundant_dependency ∧
  (dfsTopologicalSortIterative redundant_dependency rootHash (vertex_keys redundant_dependency)).2
    = Ok [rootHash; "a"; "b"; "a"]%string ∧
  is_Some (getVertex redundant_dependency "p").
Proof.
  split; [apply wf_redundant_dependency|]. split; [vm_compute; reflexivity|eexists; vm_compute; reflexivity].
Qed.

Lemma dfs_sorts_dags_witness :
  ∃ l, (dfsTopologicalSortIterative redundant_dependency "b" {["b"; "a"]}).2 = Ok l ∧
    NoDup l ∧ l = ["b"; "a"]%string ∧ head l = Some "b"%string.
Proof.
  destruct (dfs_sorts_dags redundant_dependency "b" {["b"; "a"]}) as (l & E & _ & _ & _ & _ & Hnd).
  - apply wf_redundant_dependency.
  - set_solver.
  - intros h [->%elem_of_singleton| ->%elem_of_singleton]%elem_of_union; [apply rtc_refl|].
    apply rtc_once. split; [|set_solver]. vm_compute. left.
  - exists l. assert (l = ["b"; "a"]%string) as -> by (vm_compute in E; congruence).
    assert (NoDup ["b"; "a"]%string) as Hl by decide_by_compute.
    split_and!; [exact E|exact Hl|reflexivity|apply (Hnd Hl)].
Defined.
