(* ===== verification/Causality.v ===== *)
(** * Correctness of the causality queries of the hash graph

    [areCausallyRelatedUsingBFS] and the predecessor bit sets both decide the
    relation [related] of [Dag]. The bit-set algorithm (set the dependency's own
    bit, then OR its row into the current row) is verified once on an abstract
    Boolean matrix; the rows of the cache here and the flat matrix of
    [LegacyCausality] refine it. *)

From S2P Require Import Prelude JsMap JsNum Bits JsValue Types HashGraph Dag TopoSort.

(** ** The breadth-first search *)

Section bfs.
Variables (g : HashGraph).
Hypothesis Hwf : wf g.

Lemma path_weights_fresh vs h W :
  h ∉ jm_keys vs →
  foldl weigh W vs !! h = W !! h.
Proof.
  revert W. induction vs as [|[k v] vs IH]; intros W; simpl; [done|].
  intros [Hk Hvs]%not_elem_of_cons. rewrite IH by done. unfold weigh. by rewrite lookup_insert_ne.
Qed.

Lemma path_weights_unfold vs h v : causal vs → jm_get vs h = Some v →
  path_weights vs !! h =
  Some (S (sum_list_with (λ d, default 1 (path_weights vs !! d)) (dependencies v))).
Proof.
  intros Hc. revert h v. induction Hc as [|vs w Hvs IH Hf Hne Hd]; intros h v Hget.
  - simpl in Hget. case_decide; [|done]. simplify_eq. unfold path_weights. simpl.
    apply lookup_insert_eq.
  - unfold path_weights in *. rewrite foldl_app. simpl.
    set (W := foldl weigh ∅ vs) in *. unfold weigh. cbn [fst snd].
    assert (∀ ds, (∀ d, d ∈ ds → d ∈ jm_keys vs) → ∀ x,
      sum_list_with (λ d, default 1 (W !! d)) ds =
      sum_list_with (λ d, default 1 (<[hash w := x]> W !! d)) ds) as Hsum.
    { intros ds Hds x. induction ds as [|d ds IHds]; [done|]. simpl.
      rewrite lookup_insert_ne; [|intros <-; apply Hf, Hds; set_solver].
      rewrite IHds; [done|set_solver]. }
    rewrite jm_get_app in Hget. destruct (jm_get vs h) as [v'|] eqn:E.
    + simplify_eq. rewrite lookup_insert_ne.
      * rewrite (IH h v E). do 2 f_equal. apply Hsum. intros d. by eapply causal_deps.
      * intros <-. by apply jm_get_Some_keys in E.
    + simpl in Hget. case_decide; [|done]. simplify_eq. rewrite lookup_insert_eq.
      do 2 f_equal. by apply Hsum.
Qed.

Lemma path_weight_unfold h v : getVertex g h = Some v →
  path_weight g h = S (sum_list_with (path_weight g) (dependencies v)).
Proof.
  intros Hv. unfold path_weight at 1.
  by rewrite (path_weights_unfold _ h v (wf_causal g Hwf) Hv).
Qed.

Lemma path_weight_pos h : 0 < path_weight g h.
Proof.
  unfold path_weight. destruct (getVertex g h) as [v|] eqn:E.
  - rewrite (path_weights_unfold _ h v (wf_causal g Hwf) E). simpl. lia.
  - unfold path_weights. rewrite path_weights_fresh by (by apply jm_get_None).
    rewrite lookup_empty. simpl. lia.
Qed.

Variables (start target : Hash).

Definition bfs_pending (s : bfs) : list Hash := drop (bfs_head s) (bfs_queue s).

Record bfs_inv (s : bfs) : Prop := {
  bi_sound : ∀ x, x ∈ bfs_pending s → ancestor g start x;
  bi_start : start ∈ bfs_visited s ∨ start ∈ bfs_pending s;
  bi_target : target ∉ bfs_visited s;
  bi_closed : ∀ x y, x ∈ bfs_visited s → parent g x y → y ∈ bfs_visited s ∨ y ∈ bfs_pending s
}.

Lemma sum_filter_le (f : Hash → nat) (P : Hash → Prop) `{!∀ x, Decision (P x)} (l : list Hash) :
  sum_list_with f (filter P l) ≤ sum_list_with f l.
Proof. induction l as [|x l IH]; [done|]. rewrite filter_cons. case_decide; simpl; lia. Qed.

(** Compacting the queue does not change what is pending. *)
Lemma bfs_compact visited queue head :
  bfs_pending (mkBfs visited (drop head queue) 0) = bfs_pending (mkBfs visited queue head).
Proof. done. Qed.

Lemma bfs_step_inv s : bfs_inv s →
  match bfs_step g target s with
  | Next s' => bfs_inv s' ∧
      sum_list_with (path_weight g) (bfs_pending s') < sum_list_with (path_weight g) (bfs_pending s)
  | Done b => b = true ↔ ancestor g start target
  end.
Proof.
  intros [Hs Hst Ht Hc]. destruct s as [V q i]. unfold bfs_step, bfs_pending in *. simpl in *.
  destruct (q !! i) as [x|] eqn:Hx; cycle 1.
  { split; [done|]. apply lookup_ge_None in Hx. rewrite drop_ge in * by done. intros Ha. exfalso.
    assert (start ∈ V) as HV by (destruct Hst as [|[]%elem_of_nil]; done). clear -Ha HV Ht Hc.
    induction Ha as [|x y z Hxy _ IH]; [done|]. apply IH; [done|].
    by destruct (Hc x y HV Hxy) as [|[]%elem_of_nil]. }
  rewrite (drop_S q x i Hx) in *. simpl.
  case_decide as Hxt; [subst; split; [intros _; apply Hs; set_solver|done]|].
  destruct (getVertex g x) as [v|] eqn:Hv; cycle 1.
  { simpl. split; [|pose proof (path_weight_pos x); lia]. split; simpl; [set_solver..|].
    intros a b [->%elem_of_singleton|Ha]%elem_of_union Hab.
    - apply getDependencies_Some in Hab as (? & ? & _). congruence.
    - destruct (Hc a b Ha Hab); set_solver. }
  set (new := filter _ (dependencies v)).
  assert (∀ s', bfs_visited s' = {[x]} ∪ V → bfs_pending s' = drop (S i) q ++ new →
    bfs_inv s' ∧ sum_list_with (path_weight g) (bfs_pending s') <
      path_weight g x + sum_list_with (path_weight g) (drop (S i) q)) as Hnext.
  { intros s' EV EQ. rewrite EQ, sum_list_with_app, (path_weight_unfold x v Hv).
    pose proof (sum_filter_le (path_weight g) (λ d, d ∉ {[x]} ∪ V) (dependencies v)).
    split; [|subst new; lia].
    assert (∀ d, d ∈ new → parent g x d) as Hnew.
    { intros d [_ Hd]%list_elem_of_filter. unfold parent, getDependencies. by rewrite Hv. }
    split; rewrite ?EV, ?EQ.
    - intros y [Hy|Hy]%elem_of_app; [apply Hs; set_solver|].
      eapply rtc_r with x; [apply Hs; set_solver|auto].
    - set_solver.
    - set_solver.
    - intros a b [->%elem_of_singleton|Ha]%elem_of_union Hab; rewrite elem_of_app.
      + destruct (decide (b ∈ {[x]} ∪ V)); [by left|]. right. right.
        apply list_elem_of_filter. split; [done|].
        unfold parent, getDependencies in Hab. by rewrite Hv in Hab.
      + destruct (Hc a b Ha Hab); set_solver. }
  assert (i < length q) as Hi by (by eapply lookup_lt_Some).
  case_decide; apply Hnext; try done; unfold bfs_pending; simpl;
    rewrite drop_app_le by lia; done.
Qed.

Lemma bfs_from_spec :
  ∃ b, areCausallyRelatedUsingBFS_from g start target = Some b ∧
       (b = true ↔ ancestor g start target).
Proof.
  unfold areCausallyRelatedUsingBFS_from.
  eapply (loop_total _ bfs_inv (λ s, sum_list_with (path_weight g) (bfs_pending s)));
    [apply bfs_step_inv| |simpl; lia].
  split; unfold bfs_pending; simpl; [|set_solver..].
  intros x ->%list_elem_of_singleton. apply rtc_refl.
Qed.
End bfs.

Lemma bfs_spec g h1 h2 : wf g →
  ∃ b, areCausallyRelatedUsingBFS g h1 h2 = Some b ∧ (b = true ↔ related g h1 h2).
Proof.
  intros Hg. unfold areCausallyRelatedUsingBFS, related. case_decide as E.
  { exists true. split; [done|]. subst. split; [left; apply rtc_refl|done]. }
  destruct (bfs_from_spec g Hg h1 h2) as (b1 & -> & H1).
  destruct (bfs_from_spec g Hg h2 h1) as (b2 & E2 & H2). simpl. destruct b1.
  - exists true. tauto.
  - exists b2. rewrite E2. split; [done|]. rewrite H2. split; [auto|].
    intros [H|H]; [apply H1 in H; done|done].
Qed.

(** ** The predecessor matrix, abstractly *)

Definition amat := nat → nat → bool.

(** One dependency [d] of row [i]. *)
Definition amat_dep (i : nat) (R : amat) (d : nat) : amat :=
  let R1 : amat := λ x y, R x y || bool_decide (x = d ∧ y = d) in
  λ x y, if decide (x = i) then R1 i y || R1 d y else R1 x y.

Definition amat_row (deps : nat → list nat) (R : amat) (i : nat) : amat :=
  foldl (amat_dep i) R (deps i).

Definition amat_build (deps : nat → list nat) (n : nat) : amat :=
  foldl (amat_row deps) (λ _ _, false) (seq 0 n).

Section amat.
Variable deps : nat → list nat.
Hypothesis deps_lt : ∀ i d, d ∈ deps i → d < i.

Definition adep (i d : nat) : Prop := d ∈ deps i.

Lemma adep_lt x y : tc adep x y → y < x.
Proof. induction 1 as [x y H|x y z H _ IH]; apply deps_lt in H; lia. Qed.

Record amat_inv (k : nat) (R : amat) : Prop := {
  ai_sound : ∀ x y, R x y = true → x < k ∧ (x = y ∨ tc adep x y);
  ai_complete : ∀ x y, x < k → tc adep x y → R x y = true
}.

Record row_inv (k : nat) (done : list nat) (R : amat) : Prop := {
  ri_sound : ∀ x y, R x y = true →
    (x < k ∧ (x = y ∨ tc adep x y)) ∨ (x = k ∧ ∃ d, d ∈ done ∧ (y = d ∨ tc adep d y));
  ri_complete : ∀ x y, x < k → tc adep x y → R x y = true;
  ri_row : ∀ d y, d ∈ done → y = d ∨ tc adep d y → R k y = true
}.

Lemma amat_dep_inv k done R d : d < k → row_inv k done R → row_inv k (done ++ [d]) (amat_dep k R d).
Proof.
  intros Hd [Hs Hc Hr]. split; unfold amat_dep.
  - intros x y. case_decide as Hx.
    + subst x. rewrite !orb_true_iff, !bool_decide_eq_true. intros H. right. split; [done|].
      destruct H as [[H|[E1 E2]]|[H|[_ E2]]].
      * destruct (Hs _ _ H) as [[? _]|[_ (d' & ? & ?)]]; [lia|]. exists d'. set_solver.
      * lia.
      * exists d. destruct (Hs _ _ H) as [[_ ?]|[? _]]; [|lia]. set_solver.
      * exists d. set_solver.
    + rewrite orb_true_iff, bool_decide_eq_true. intros [H|[-> ->]]; [|left; auto].
      destruct (Hs _ _ H) as [?|[? _]]; [auto|done].
  - intros x y Hx Hxy. rewrite decide_False by lia. by rewrite Hc.
  - intros d' y Hd' Hy. rewrite decide_True by done. rewrite !orb_true_iff, bool_decide_eq_true.
    apply elem_of_app in Hd' as [Hd'| ->%list_elem_of_singleton]; [eauto|].
    destruct Hy as [->|Hy]; right; [right; rewrite bool_decide_eq_true; auto|left; auto].
Qed.

Lemma amat_row_inv k R : amat_inv k R → amat_inv (S k) (amat_row deps R k).
Proof.
  intros [Hs Hc]. unfold amat_row.
  assert (∀ todo done R, deps k = done ++ todo → row_inv k done R →
            row_inv k (deps k) (foldl (amat_dep k) R todo)) as Hfold.
  { induction todo as [|d todo IH]; intros done R' E HR; simpl.
    - by rewrite E, app_nil_r.
    - apply (IH (done ++ [d])); [by rewrite E, <- app_assoc|].
      apply amat_dep_inv; [|done]. apply deps_lt. rewrite E. set_solver. }
  destruct (Hfold (deps k) [] R eq_refl) as [Hs' Hc' Hr'].
  { split; [|done|by intros ?? []%elem_of_nil]. intros x y H. left. auto. }
  split.
  - intros x y [[Hx H]|[-> (d & Hd & H)]]%Hs'; [split; [lia|done]|]. split; [lia|]. right.
    destruct H as [->|H]; [by apply tc_once|by eapply tc_l].
  - intros x y Hx Hxy. destruct (decide (x = k)) as [->|]; [|apply Hc'; [lia|done]].
    inversion Hxy as [? ? Hd|? d ? Hd Hdy]; subst; (eapply Hr'; [exact Hd|]); auto.
Qed.

Lemma amat_build_inv n : amat_inv n (amat_build deps n).
Proof.
  unfold amat_build. induction n as [|n IH].
  - split; [done|lia].
  - rewrite seq_S, foldl_app. simpl. by apply amat_row_inv.
Qed.

(** Off the diagonal, the matrix is the transitive closure. *)
Lemma amat_build_spec n x y : x < n → x ≠ y →
  amat_build deps n x y = true ↔ tc adep x y.
Proof.
  intros Hx Hne. destruct (amat_build_inv n) as [Hs Hc]. split; [|by apply Hc].
  intros [_ [?|?]]%Hs; done.
Qed.
End amat.

(** Rows other than the ones touched are irrelevant to a step. *)
Lemma amat_dep_ext i R1 R2 d : (∀ x y, R1 x y = R2 x y) →
  ∀ x y, amat_dep i R1 d x y = amat_dep i R2 d x y.
Proof. intros H x y. unfold amat_dep. case_decide; by rewrite !H. Qed.

(** ** The predecessor cache refines the matrix *)

(** The dependencies of the [i]-th entry of [order], as positions in [order]. *)
Definition order_deps (g : HashGraph) (order : list Hash) (i : nat) : list nat :=
  match order !! i with
  | Some h => index_of order <$> filter (λ d, d ∈ order) (getDependencies g h)
  | None => []
  end.

(** The dependency relation inside [order]. *)
Definition within (g : HashGraph) (order : list Hash) (x y : Hash) : Prop :=
  parent g x y ∧ x ∈ order ∧ y ∈ order.

Lemma index_of_lookup l h : h ∈ l → l !! index_of l h = Some h.
Proof.
  induction l as [|x l IH]; simpl; [by intros []%elem_of_nil|].
  intros Hin. case_decide; [by subst|]. simpl. apply IH.
  apply elem_of_cons in Hin as [->|]; done.
Qed.

Lemma index_of_inv l i h : NoDup l → l !! i = Some h → index_of l h = i.
Proof.
  intros Hnd Hi. eapply NoDup_lookup; [done| |done].
  apply index_of_lookup. by eapply list_elem_of_lookup_2.
Qed.

Section order.
Variables (g : HashGraph) (order : list Hash).
Hypothesis Hnd : NoDup order.
Hypothesis Hcausal : causal_order g order.

Lemma order_deps_lt i d : d ∈ order_deps g order i → d < i.
Proof.
  unfold order_deps. destruct (order !! i) as [h|] eqn:Hi; [|by intros []%elem_of_nil].
  intros (x & -> & [Hx Hp]%list_elem_of_filter)%list_elem_of_fmap.
  eapply Hcausal; [by apply index_of_lookup|done|done].
Qed.

Lemma adep_within i j hi hj : order !! i = Some hi → order !! j = Some hj →
  tc (adep (order_deps g order)) i j ↔ tc (within g order) hi hj.
Proof.
  assert (∀ i d hi, order !! i = Some hi → adep (order_deps g order) i d →
            ∃ hd, order !! d = Some hd ∧ within g order hi hd) as Hstep.
  { intros i' d hi' Hi Hd. unfold adep, order_deps in Hd. rewrite Hi in Hd.
    apply list_elem_of_fmap in Hd as (x & -> & [Hx Hp]%list_elem_of_filter).
    exists x. split; [by apply index_of_lookup|]. split; [done|].
    split; [by eapply list_elem_of_lookup_2|done]. }
  intros Hi Hj. split.
  - intros Ht. revert hi Hi. induction Ht as [i j Ha|i m j Ha _ IH]; intros hi Hi.
    + destruct (Hstep i j hi Hi Ha) as (hd & Hd & Hw). simplify_eq. by apply tc_once.
    + destruct (Hstep i m hi Hi Ha) as (hd & Hd & Hw). eapply tc_l; [exact Hw|auto].
  - assert (∀ x y, within g order x y → ∀ i j, order !! i = Some x → order !! j = Some y →
              adep (order_deps g order) i j) as Hback.
    { intros x y (Hp & Hx & Hy) i' j' Hi' Hj'. unfold adep, order_deps. rewrite Hi'.
      apply list_elem_of_fmap. exists y. split; [symmetry; by apply index_of_inv|].
      by apply list_elem_of_filter. }
    intros Ht. revert i Hi. induction Ht as [hi hj Hw|hi hm hj Hw _ IH]; intros i Hi.
    + apply tc_once. by eapply Hback.
    + pose proof Hw as (_ & _ & Hm). eapply tc_l.
      * eapply (Hback hi hm Hw i (index_of order hm)); [done|by apply index_of_lookup].
      * apply IH; [done|by apply index_of_lookup].
Qed.

Variable size : Z.
Hypothesis size_low : (Z.of_nat (length order) ≤ size)%Z.
Hypothesis size_high : (size ≤ 2 ^ 36)%Z.

Record cache_ref (k : nat) (index : gmap Hash Z) (rows : gmap Hash BitSet.t) (R : amat) : Prop := {
  cr_index : ∀ i h, i < k → order !! i = Some h → index !! h = Some (Z.of_nat i);
  cr_absent : ∀ h, h ∉ order → rows !! h = None;
  cr_rows : ∀ i h, i < k → order !! i = Some h →
    ∃ b, rows !! h = Some b ∧ BitSet.wf b ∧ BitSet.capacity b = BitSet.capacity (BitSet.new size) ∧
         ∀ y, y < length order → BitSet.bit b (Z.of_nat y) = R i y
}.

Lemma column_in_range y b : y < length order →
  BitSet.capacity b = BitSet.capacity (BitSet.new size) →
  (0 ≤ Z.of_nat y < BitSet.capacity b)%Z.
Proof. intros Hy ->. pose proof (BitSet.capacity_new size). lia. Qed.

Lemma cache_dep_ref k h index rows R dep : order !! k = Some h →
  dep ∈ getDependencies g h → cache_ref (S k) index rows R →
  cache_ref (S k) index (cache_dep index h rows dep)
    (foldl (amat_dep k) R (index_of order <$> filter (λ d, d ∈ order) [dep])).
Proof.
  intros Hk Hdep [Hi Ha Hr]. rewrite filter_cons. destruct (decide (dep ∈ order)) as [Hin|Hin]; cycle 1.
  { unfold cache_dep. rewrite (Ha dep Hin). simpl. by split. }
  pose proof (index_of_lookup order dep Hin) as Hd. set (d := index_of order dep) in *.
  assert (d < k) as Hdk by (by eapply Hcausal).
  assert (d < length order) as Hdl by (by eapply lookup_lt_Some).
  simpl. unfold cache_dep.
  destruct (Hr d dep) as (bd & Hbd & Hwd & Hcd & Hbits); [lia|done|].
  destruct (Hr k h) as (bh & Hbh & Hwh & Hch & Hbith); [lia|done|].
  rewrite Hbd, (Hi d dep) by (done || lia).
  assert (dep ≠ h) as Hne by (intros ->; assert (d = k); [by eapply NoDup_lookup|lia]).
  rewrite lookup_insert_ne, Hbh by done.
  destruct (BitSet.set_spec bd (Z.of_nat d) true Hwd (column_in_range d bd Hdl Hcd))
    as (Hws & Hcs & Hbs).
  destruct (BitSet.or_spec bh (BitSet.set bd (Z.of_nat d) true) Hwh) as (Hwo & Hco & Hbo).
  assert (∀ y, y < length order → BitSet.bit (BitSet.set bd (Z.of_nat d) true) (Z.of_nat y)
            = R d y || bool_decide (d = d ∧ y = d)) as Hset.
  { intros y Hy. rewrite Hbs by (by apply column_in_range). case_decide as E.
    - rewrite bool_decide_true by lia. by rewrite orb_true_r.
    - rewrite bool_decide_false by lia. rewrite orb_false_r. by apply Hbits. }
  split; [done| |].
  - intros x Hx. rewrite !lookup_insert_ne; [by apply Ha|..]; intros ->; apply Hx; [done|].
    by eapply list_elem_of_lookup_2.
  - intros i x Hik Hx. unfold amat_dep. destruct (decide (i = k)) as [->|Hneq].
    + simplify_eq. rewrite lookup_insert_eq. eexists. split; [done|]. split; [done|].
      split; [congruence|]. intros y Hy. rewrite Hbo by (by apply column_in_range).
      rewrite Hbith, Hset by done.
      rewrite (bool_decide_false (k = d ∧ y = d)) by lia. by rewrite orb_false_r.
    + rewrite lookup_insert_ne by (intros <-; apply Hneq; by eapply NoDup_lookup).
      destruct (decide (i = d)) as [->|Hid].
      * simplify_eq. rewrite lookup_insert_eq. eexists. split; [done|]. split; [done|].
        split; [congruence|done].
      * rewrite lookup_insert_ne by (intros <-; apply Hid; by eapply NoDup_lookup).
        destruct (Hr i x Hik Hx) as (b & ? & ? & ? & Hb). exists b. repeat (split; [done|]).
        intros y Hy. rewrite (bool_decide_false (i = d ∧ y = d)) by lia. rewrite orb_false_r. auto.
Qed.

Lemma cache_deps_ref k h ds index rows R : order !! k = Some h →
  (∀ d, d ∈ ds → d ∈ getDependencies g h) → cache_ref (S k) index rows R →
  cache_ref (S k) index (foldl (cache_dep index h) rows ds)
    (foldl (amat_dep k) R (index_of order <$> filter (λ d, d ∈ order) ds)).
Proof.
  intros Hk. revert rows R. induction ds as [|d ds IH]; intros rows R Hds Href; [done|].
  replace (foldl (amat_dep k) R (index_of order <$> filter (λ d, d ∈ order) (d :: ds)))
    with (foldl (amat_dep k) (foldl (amat_dep k) R (index_of order <$> filter (λ d, d ∈ order) [d]))
            (index_of order <$> filter (λ d, d ∈ order) ds)).
  - simpl. apply IH; [set_solver|]. apply cache_dep_ref; [done|set_solver|done].
  - rewrite !filter_cons. by case_decide.
Qed.

Lemma build_cache_ref k : k ≤ length order →
  let '(index, rows) := foldl (cache_vertex g size) (∅, ∅) (imap pair (take k order)) in
  cache_ref k index rows (amat_build (order_deps g order) k).
Proof.
  induction k as [|k IH]; intros Hk.
  - rewrite take_0. simpl. split; [lia|done|lia].
  - destruct (lookup_lt_is_Some_2 order k) as [h Hh]; [lia|].
    rewrite (take_S_r _ _ _ Hh), imap_app, foldl_app. simpl.
    specialize (IH ltac:(lia)). destruct (foldl _ _ _) as [index rows]. simpl.
    rewrite length_take, Nat.add_0_r, Nat.min_l by lia.
    unfold amat_build. rewrite seq_S, foldl_app. simpl. fold (amat_build (order_deps g order) k).
    assert (order_deps g order k = index_of order <$> filter (λ d, d ∈ order) (getDependencies g h))
      as E by (unfold order_deps; by rewrite Hh).
    unfold amat_row. rewrite E. clear E.
    apply cache_deps_ref; [done|done|]. destruct IH as [Hi Ha Hr]. split.
    + intros i x Hik Hx. destruct (decide (i = k)) as [->|].
      * simplify_eq. apply lookup_insert_eq.
      * rewrite lookup_insert_ne; [apply Hi; [lia|done]|].
        intros <-. assert (i = k); [by eapply NoDup_lookup|done].
    + intros x Hx. rewrite lookup_insert_ne; [by apply Ha|]. intros <-.
      apply Hx. by eapply list_elem_of_lookup_2.
    + intros i x Hik Hx. destruct (decide (i = k)) as [->|].
      * simplify_eq. rewrite lookup_insert_eq. exists (BitSet.new size). split; [done|].
        split; [by apply BitSet.wf_new|]. split; [done|]. intros y Hy. rewrite BitSet.bit_new.
        destruct (amat_build _ k k y) eqn:E; [|done].
        apply (ai_sound _ _ _ (amat_build_inv _ order_deps_lt k)) in E as [? _]. lia.
      * rewrite lookup_insert_ne; [apply Hr; [lia|done]|].
        intros <-. assert (i = k); [by eapply NoDup_lookup|done].
Qed.

(** What the finished cache answers for two different hashes of the order. *)
Lemma build_cache_related index rows h1 h2 :
  build_cache g size order = (index, rows) → h1 ∈ order → h2 ∈ order → h1 ≠ h2 →
  ∃ b1 b2 i1 i2, rows !! h1 = Some b1 ∧ rows !! h2 = Some b2 ∧
    index !! h1 = Some i1 ∧ index !! h2 = Some i2 ∧
    (BitSet.get b1 i2 || BitSet.get b2 i1 = true ↔
     tc (within g order) h1 h2 ∨ tc (within g order) h2 h1).
Proof.
  intros Hb H1 H2 Hne. pose proof (build_cache_ref (length order) ltac:(lia)) as Href.
  rewrite firstn_all in Href. unfold build_cache in Hb. rewrite Hb in Href.
  destruct Href as [Hi _ Hr].
  pose proof (index_of_lookup order h1 H1) as L1. pose proof (index_of_lookup order h2 H2) as L2.
  set (i := index_of order h1) in *. set (j := index_of order h2) in *.
  assert (i < length order) as Li by (by eapply lookup_lt_Some).
  assert (j < length order) as Lj by (by eapply lookup_lt_Some).
  assert (i ≠ j) as Hij by (intros E; rewrite E in L1; congruence).
  destruct (Hr i h1 Li L1) as (b1 & Hb1 & W1 & C1 & B1).
  destruct (Hr j h2 Lj L2) as (b2 & Hb2 & W2 & C2 & B2).
  exists b1, b2, (Z.of_nat i), (Z.of_nat j). repeat (split; [by auto|]).
  rewrite !BitSet.get_bit by (done || by apply column_in_range).
  rewrite B1, B2, orb_true_iff by done.
  rewrite !(amat_build_spec _ order_deps_lt) by (done || lia).
  by rewrite !(adep_within _ _ _ _) by done.
Qed.
(** Hashes outside the order have no row. *)
Lemma build_cache_absent h : h ∉ order → (build_cache g size order).2 !! h = None.
Proof.
  intros Hh. pose proof (build_cache_ref (length order) ltac:(lia)) as Href.
  rewrite firstn_all in Href. unfold build_cache. destruct (foldl _ _ _) as [index rows].
  by apply (cr_absent _ _ _ _ Href).
Qed.
End order.

(** ** The whole graph *)

Lemma elem_of_vertex_keys g h : h ∈ vertex_keys g ↔ h ∈ jm_keys (vertices g).
Proof. unfold vertex_keys. apply elem_of_list_to_set. Qed.

Lemma full_graph_reachable g h : wf g → h ∈ vertex_keys g →
  rtc (sub_child (forwardEdges g) (vertex_keys g)) rootHash h.
Proof.
  intros Hg Hh%elem_of_vertex_keys. pose proof (ancestor_root g h Hg Hh) as Ha.
  unfold ancestor in Ha. induction Ha as [|x y z Hxy _ IH]; [apply rtc_refl|].
  eapply rtc_r; [apply IH; by eapply parent_keys|]. split.
  - by apply (wf_edges g Hg).
  - by apply elem_of_vertex_keys.
Qed.

Lemma root_in_vertex_keys g : wf g → rootHash ∈ vertex_keys g.
Proof.
  intros Hg. apply elem_of_vertex_keys. eapply jm_get_Some_keys, causal_root_vertex; auto with dag.
Qed.

Lemma full_topological_order g : wf g → reduced g →
  ∃ l, (dfsTopologicalSortIterative g rootHash (vertex_keys g)).2 = Ok l ∧
    l ≡ₚ jm_keys (vertices g) ∧ causal_order g l.
Proof.
  intros Hg Hr. destruct (dfs_reduced_order g rootHash (vertex_keys g)) as (l & El & Hp & _ & Hc);
    auto using root_in_vertex_keys, full_graph_reachable.
  exists l. split; [done|]. split; [|done]. rewrite Hp. unfold vertex_keys.
  apply elements_list_to_set, causal_NoDup. auto with dag.
Qed.

Lemma grow_bitset_spec s n : (1 ≤ s)%Z →
  (n ≤ grow_bitset s n)%Z ∧ (s ≤ grow_bitset s n)%Z ∧ (grow_bitset s n ≤ Z.max s (2 * n))%Z.
Proof.
  intros Hs. unfold grow_bitset.
  destruct (loop_total (λ s, if (s <? n)%Z then Next (2 * s)%Z else Done s)
    (λ x, s ≤ x ∧ x ≤ Z.max s (2 * n))%Z (λ x, Z.to_nat (Z.log2_up n - Z.log2 x))
    (λ x, n ≤ x ∧ s ≤ x ∧ x ≤ Z.max s (2 * n))%Z) with (fuel := S (Z.to_nat (Z.log2_up n))) (s := s)
    as (r & -> & Hr); [| | |done].
  - intros x [Hx1 Hx2]. destruct (Z.ltb_spec x n); [|lia]. split; [lia|].
    rewrite Z.log2_double by lia.
    assert (Z.log2 x < Z.log2_up n)%Z; [|lia].
    apply Z.log2_lt_pow2; [lia|]. eapply Z.lt_le_trans; [exact H|]. apply Z.log2_up_spec. lia.
  - lia.
  - pose proof (Z.log2_nonneg s). lia.
Qed.

Lemma tc_monotone {A} (R S : relation A) x y : (∀ a b, R a b → S a b) → tc R x y → tc S x y.
Proof. intros HRS. induction 1; [by apply tc_once; auto|eapply tc_l; eauto]. Qed.

(** Inside the whole vertex table, [within] is [parent]. *)
Lemma within_full g l h1 h2 : wf g → l ≡ₚ jm_keys (vertices g) →
  tc (within g l) h1 h2 ↔ before g h2 h1.
Proof.
  intros Hg Hl. unfold before. split.
  - intros Ht. eapply tc_monotone; [|exact Ht]. by intros x y [? _].
  - intros Ht. eapply tc_monotone; [|exact Ht]. intros x y Hp. split; [done|].
    rewrite Hl. by apply parent_keys.
Qed.

Lemma related_cases g h1 h2 : h1 ≠ h2 → related g h1 h2 ↔ before g h2 h1 ∨ before g h1 h2.
Proof.
  intros Hne. unfold related. split.
  - intros [H|H]; apply ancestor_cases in H as [?|?]; auto; congruence.
  - intros [H|H]; apply before_ancestor in H; auto.
Qed.

(** The orders whose inner dependency paths are all the paths between their
    members: the whole table, and the interval a lowest common ancestor spans. *)
Definition convex (g : HashGraph) (order : list Hash) : Prop :=
  ∀ h1 h2, h1 ∈ order → h2 ∈ order → (tc (within g order) h1 h2 ↔ before g h2 h1).

(** A cache is valid when it is stale, or holds the rows of a causal order of
    the whole table (fresh) or of a convex part of it (scoped). *)
Record cache_valid (g : HashGraph) : Prop := {
  cv_size : (1 ≤ currentBitsetSize (cache g) ≤ 2 ^ 36)%Z;
  cv_rows : arePredecessorsFresh (cache g) || arePredecessorsScoped (cache g) = true →
    ∃ order size, NoDup order ∧ causal_order g order ∧ convex g order ∧
      (arePredecessorsFresh (cache g) = true → order ≡ₚ jm_keys (vertices g)) ∧
      (Z.of_nat (length order) ≤ size ≤ 2 ^ 36)%Z ∧
      build_cache g size order = (topoSortedIndex (cache g), reachablePredecessors (cache g))
}.

Lemma cache_valid_new peer acl drp sem : cache_valid (new_HashGraph peer acl drp sem).
Proof. by split; simpl. Qed.

Lemma cache_valid_addVertex g v : cache_valid g → cache_valid (addVertex g v).
Proof. intros [? ?]. by split. Qed.

Section same_vertices.
Variables (g g' : HashGraph).
Hypothesis Hsame : vertices g' = vertices g.

Lemma parent_same h d : parent g' h d ↔ parent g h d.
Proof. unfold parent, getDependencies, getVertex. by rewrite Hsame. Qed.

Lemma before_same a h : before g' a h ↔ before g a h.
Proof. unfold before. split; apply tc_monotone; intros ??; apply parent_same. Qed.

Lemma ancestor_same h a : ancestor g' h a ↔ ancestor g h a.
Proof. unfold ancestor. split; (eapply rtc_subrel; intros ??; apply parent_same). Qed.

Lemma related_same h1 h2 : related g' h1 h2 ↔ related g h1 h2.
Proof. unfold related. by rewrite !ancestor_same. Qed.

Lemma causal_order_same l : causal_order g l → causal_order g' l.
Proof. intros H i j d h Hi Hj Hp. eapply H; [done..|]. by apply parent_same. Qed.

Lemma convex_same l : convex g l → convex g' l.
Proof.
  intros H h1 h2 H1 H2. rewrite before_same, <- (H h1 h2 H1 H2). split; apply tc_monotone;
    intros ?? (? & ? & ?); (split; [by apply parent_same|done]).
Qed.

Lemma build_cache_same size l : build_cache g' size l = build_cache g size l.
Proof.
  unfold build_cache.
  assert (∀ st ih, cache_vertex g' size st ih = cache_vertex g size st ih) as Hext.
  { intros [index rows] [i h]. unfold cache_vertex, getDependencies, getVertex. by rewrite Hsame. }
  generalize (∅ : gmap Hash Z, ∅ : gmap Hash BitSet.t). induction (imap pair l) as [|x k IH];
    intros st; simpl; [done|]. by rewrite Hext, IH.
Qed.

Lemma reduced_same : reduced g → reduced g'.
Proof.
  intros [H1 H2]. split.
  - intros h. specialize (H1 h). unfold getDependencies, getVertex in *. by rewrite Hsame.
  - intros h d1 d2. rewrite !parent_same, before_same. apply H2.
Qed.

Lemma wf_same : edges_equiv (forwardEdges g') (forwardEdges g) → frontier g' = frontier g →
  wf g → wf g'.
Proof.
  intros He Hf [H1 H2 H3 H4 H5]. split; rewrite ?Hsame, ?Hf; try done.
  - intros d x. rewrite parent_same, <- H2. unfold children. by rewrite (He d).
  - intros h. rewrite H3. by setoid_rewrite parent_same.
  - intros Hn d. unfold children. rewrite (He d). apply H5. intros h. specialize (Hn h).
    unfold getDependencies, getVertex in *. by rewrite Hsame in Hn.
Qed.

End same_vertices.

(** What a call of [topologicalSort] leaves unchanged, whatever its outcome. *)
Lemma topologicalSort_frame g upd origin sub :
  let g' := (topologicalSort g upd origin sub).1 in
  vertices g' = vertices g ∧ frontier g' = frontier g ∧
  vertexDistances g' = vertexDistances g ∧ resolvers g' = resolvers g ∧
  semanticsTypeDRP g' = semanticsTypeDRP g ∧
  edges_equiv (forwardEdges g') (forwardEdges g).
Proof.
  pose proof (dfs_outcomes g origin sub) as Hout. unfold topologicalSort.
  destruct (dfsTopologicalSortIterative g origin sub) as [g1 r].
  destruct Hout as (He & Eg & _). rewrite Eg.
  destruct r as [l|e]; [destruct upd|]; simpl; [|done..].
  destruct (build_cache _ _ _). done.
Qed.

Lemma topologicalSort_wf g upd origin sub : wf g → wf (topologicalSort g upd origin sub).1.
Proof.
  intros Hg. destruct (topologicalSort_frame g upd origin sub) as (H1 & H2 & _ & _ & _ & H3).
  by eapply wf_same.
Qed.

Lemma convex_full g l : wf g → l ≡ₚ jm_keys (vertices g) → convex g l.
Proof. intros Hg Hl h1 h2 _ _. by apply within_full. Qed.

(** Sorting a convex part of the graph (or all of it) rebuilds a valid cache. *)
Lemma topologicalSort_valid g origin sub : wf g → reduced g → cache_valid g →
  (Z.of_nat (length (vertices g)) ≤ 2 ^ 35)%Z →
  origin ∈ sub → sub ⊆ vertex_keys g →
  (∀ h, h ∈ sub → rtc (sub_child (forwardEdges g) sub) origin h) →
  (∀ l, l ≡ₚ elements sub → convex g l) →
  ∃ g' l, topologicalSort g true origin sub = (g', Ok l) ∧ l ≡ₚ elements sub ∧
    cache_valid g' ∧ (sub = vertex_keys g → arePredecessorsFresh (cache g') = true).
Proof.
  intros Hg Hr [Hsz _] Hlen Ho Hsub Hreach Hcv.
  destruct (dfs_reduced_order g origin sub Hg Ho Hreach Hr) as (l & El & Hp & _ & Hc).
  pose proof (dfs_outcomes g origin sub) as Hout. unfold topologicalSort.
  destruct (dfsTopologicalSortIterative g origin sub) as [g1 r1].
  destruct Hout as (He & -> & _). simpl in El. subst r1. simpl.
  destruct (grow_bitset_spec (currentBitsetSize (cache g)) (Z.of_nat (length l)) (proj1 Hsz))
    as (G1 & G2 & G3).
  assert (NoDup l) as Hnd by (rewrite Hp; apply NoDup_elements).
  assert (∀ h, h ∈ l ↔ h ∈ sub) as Hin by (intros h; by rewrite Hp, elem_of_elements).
  assert (∀ h, h ∈ l → h ∈ jm_keys (vertices g)) as Hkeys.
  { intros h Hh%Hin. apply elem_of_vertex_keys. by apply Hsub. }
  assert (length l ≤ length (vertices g)) as Hll.
  { rewrite <- (length_fmap fst (vertices g)). by apply NoDup_subset_length. }
  set (full := bool_decide _ && _). destruct (build_cache _ _ l) as [index rows] eqn:Hb.
  eexists _, l. split; [done|]. split; [done|]. split.
  - split; simpl; [lia|]. intros _.
    exists l, (grow_bitset (currentBitsetSize (cache g)) (Z.of_nat (length l))).
    split; [done|]. split; [by eapply causal_order_same|].
    split; [eapply convex_same; [done|]; by apply Hcv|]. split.
    { intros Hf. apply andb_true_iff in Hf as [Hf _]. apply bool_decide_eq_true in Hf.
      apply submseteq_length_Permutation; [by apply NoDup_submseteq|].
      unfold jm_keys. rewrite length_fmap. simpl in Hf. lia. }
    split; [lia|]. by rewrite <- Hb; apply build_cache_same.
  - intros Es. apply andb_true_iff. split.
    + apply bool_decide_eq_true. rewrite Hp, Es. unfold vertex_keys. simpl.
      rewrite elements_list_to_set by (apply causal_NoDup; auto with dag).
      unfold jm_keys. by rewrite length_fmap.
    + apply forallb_forall. intros h Hh%list_elem_of_In. apply jm_has_spec. simpl. auto.
Qed.

Lemma topologicalSort_full g : wf g → reduced g → cache_valid g →
  (Z.of_nat (length (vertices g)) ≤ 2 ^ 35)%Z →
  ∃ g' l, topologicalSort g true rootHash (vertex_keys g) = (g', Ok l) ∧
    cache_valid g' ∧ arePredecessorsFresh (cache g') = true.
Proof.
  intros Hg Hr Hc Hlen.
  destruct (topologicalSort_valid g rootHash (vertex_keys g)) as (g' & l & E & _ & H1 & H2);
    auto using root_in_vertex_keys, full_graph_reachable.
  - intros l Hl. apply convex_full; [done|]. rewrite Hl. unfold vertex_keys.
    apply elements_list_to_set, causal_NoDup. auto with dag.
  - exists g', l. auto.
Qed.

(** The answer read off a valid cache that has both hashes. *)
Lemma valid_cache_answer g h1 h2 b1 b2 i1 i2 : cache_valid g →
  arePredecessorsFresh (cache g) || arePredecessorsScoped (cache g) = true → h1 ≠ h2 →
  reachablePredecessors (cache g) !! h1 = Some b1 → reachablePredecessors (cache g) !! h2 = Some b2 →
  topoSortedIndex (cache g) !! h1 = Some i1 → topoSortedIndex (cache g) !! h2 = Some i2 →
  (BitSet.get b1 i2 || BitSet.get b2 i1 = true ↔ related g h1 h2).
Proof.
  intros [_ Hrows] Hflag Hne R1 R2 I1 I2.
  destruct (Hrows Hflag) as (order & size & Hnd & Hc & Hcv & _ & [Hs1 Hs2] & Hb).
  assert (∀ h b, reachablePredecessors (cache g) !! h = Some b → h ∈ order) as Hin.
  { intros h b Hh. destruct (decide (h ∈ order)) as [|Hn]; [done|].
    pose proof (build_cache_absent g order Hnd Hc size Hs1 Hs2 h Hn) as Habs.
    rewrite Hb in Habs. simpl in Habs. congruence. }
  destruct (build_cache_related g order Hnd Hc size Hs1 Hs2 _ _ h1 h2 Hb)
    as (? & ? & ? & ? & ? & ? & ? & ? & Hans); [by eapply Hin..|done|]. simplify_eq.
  rewrite Hans, related_cases by done.
  by rewrite (Hcv h1 h2), (Hcv h2 h1) by (by eapply Hin).
Qed.

Lemma bitset_query_spec g h1 h2 : wf g → reduced g → cache_valid g →
  (Z.of_nat (length (vertices g)) ≤ 2 ^ 35)%Z →
  ∃ g' b, areCausallyRelatedUsingBitsets g h1 h2 = (g', Ok (Some b)) ∧
    (b = true ↔ related g h1 h2) ∧ vertices g' = vertices g ∧ wf g' ∧ cache_valid g'.
Proof.
  intros Hg Hr Hc Hlen. unfold areCausallyRelatedUsingBitsets. case_decide as Heq.
  { exists g, true. split; [done|]. split; [|done]. subst. split; [left; apply rtc_refl|done]. }
  assert (∀ g', vertices g' = vertices g → wf g' → cache_valid g' →
    arePredecessorsFresh (cache g') || arePredecessorsScoped (cache g') = true →
    ∃ b, match reachablePredecessors (cache g') !! h1, reachablePredecessors (cache g') !! h2,
               topoSortedIndex (cache g') !! h1, topoSortedIndex (cache g') !! h2 with
         | Some r1, Some r2, Some i1, Some i2 =>
             (g', Ok (Some (BitSet.get r1 i2 || BitSet.get r2 i1)))
         | _, _, _, _ => (g', Ok (areCausallyRelatedUsingBFS g' h1 h2))
         end = (g', Ok (E := graph_error) (Some b)) ∧ (b = true ↔ related g h1 h2)) as Hfinal.
  { intros g' Ev Hg' Hc' Hfl. destruct (bfs_spec g' h1 h2 Hg') as (b & -> & Hb).
    rewrite (related_same g g' Ev) in Hb.
    destruct (reachablePredecessors (cache g') !! h1) as [r1|] eqn:R1; [|eauto].
    destruct (reachablePredecessors (cache g') !! h2) as [r2|] eqn:R2; [|eauto].
    destruct (topoSortedIndex (cache g') !! h1) as [i1|] eqn:I1; [|eauto].
    destruct (topoSortedIndex (cache g') !! h2) as [i2|] eqn:I2; [|eauto].
    eexists. split; [done|]. rewrite <- (related_same g g' Ev). by eapply valid_cache_answer. }
  destruct (negb (arePredecessorsFresh (cache g)) && _) eqn:Hflag.
  - destruct (topologicalSort_full g Hg Hr Hc Hlen) as (g' & l & E & Hc' & Hf).
    pose proof (topologicalSort_wf g true rootHash (vertex_keys g) Hg) as Hg'.
    destruct (topologicalSort_frame g true rootHash (vertex_keys g)) as (Ev & _).
    rewrite E in *. simpl in *.
    destruct (Hfinal g' Ev Hg' Hc') as (b & Eb & Hb); [by rewrite Hf|]. eauto 10.
  - destruct (Hfinal g eq_refl Hg Hc) as (b & Eb & Hb); [|by eauto 10].
    apply andb_false_iff in Hflag as [Hf|Hf]; apply negb_false_iff in Hf; [by rewrite Hf|].
    apply andb_true_iff in Hf as [Hf _]. apply andb_true_iff in Hf as [Hf _].
    rewrite Hf. apply orb_true_r.
Qed.

(** ** Properties *)

(** C28 The breadth-first query terminates on every well-formed graph and
    answers true exactly when one of the two hashes is in the causal past of
    the other (or they are equal). *)
Theorem bfs_decides_causality (g : HashGraph) (h1 h2 : Hash) (Hwf : wf g) :
  ∃ b, areCausallyRelatedUsingBFS g h1 h2 = Some b ∧
       (b = true ↔ ancestor g h1 h2 ∨ ancestor g h2 h1).
Proof. by apply bfs_spec. Qed.

Lemma bfs_decides_causality_witness :
  areCausallyRelatedUsingBFS diamond "a" "b" = Some false ∧
  ¬ (ancestor diamond "a" "b" ∨ ancestor diamond "b" "a").
Proof.
  split; [by vm_compute|].
  destruct (bfs_decides_causality diamond "a" "b" wf_diamond) as (b & E & H).
  vm_compute in E. intros Hr. apply H in Hr. congruence.
Defined.



(** On a graph with a redundant dependency the sort that fills the cache loses a
    vertex, and the bit sets miss a relation that the breadth-first search finds:
    [b] descends from the root. *)
Example bitsets_miss_relation :
  wf redundant_dependency ∧
  (areCausallyRelatedUsingBitsets redundant_dependency rootHash "b").2 = Ok (Some false) ∧
  areCausallyRelatedUsingBFS redundant_dependency rootHash "b" = Some true.
Proof. split; [apply wf_redundant_dependency|]. split; vm_compute; reflexivity. Qed.
