(* ===== verification/Lca.v ===== *)
(** * Vertex distances and lowest common ancestors

    [vertexDistances] holds for every vertex the length of its shortest
    dependency path to the root and the dependency that path starts with.
    [lowestCommonAncestorMultipleVertices] climbs along those dependencies; the
    set of vertices it visits on the way is the subgraph that is linearized and
    replayed, so what matters is that this set is the whole interval between
    the result and the given hashes, and that every path from them to the root
    goes through the result. *)

From S2P Require Import Prelude JsMap JsNum Bits JsValue Types HashGraph Dag TopoSort Causality.

(** ** Distances *)

Record dist_ok (g : HashGraph) : Prop := {
  do_root : vertexDistances g !! rootHash = Some (mkDistance 0 None);
  do_step : ∀ h v, getVertex g h = Some v → h ≠ rootHash →
    ∃ c m, c ∈ dependencies v ∧
      vertexDistances g !! c = Some m ∧
      vertexDistances g !! h = Some (mkDistance (distance m + 1) (Some c)) ∧
      ∀ d, d ∈ dependencies v → ∃ m', vertexDistances g !! d = Some m' ∧ (distance m ≤ distance m')%Z;
  do_bound : ∀ h m, vertexDistances g !! h = Some m →
    (0 ≤ distance m < Z.of_nat (length (vertices g)))%Z;
  do_names : EmptyString ∉ jm_keys (vertices g)
}.

Lemma dist_ok_new peer acl drp sem : dist_ok (new_HashGraph peer acl drp sem).
Proof.
  split.
  - apply lookup_singleton_eq.
  - intros h v Hv Hne. unfold getVertex in Hv. simpl in Hv. by case_decide.
  - intros h m. simpl. rewrite lookup_singleton. case_decide; [|done]. intros [= <-]. simpl. lia.
  - simpl. unfold jm_keys. by intros H%list_elem_of_singleton.
Qed.

(** The loop of [addVertex] finds a dependency of least distance. *)
Lemma vertexDistance_spec ds deps n : deps ≠ [] → (n < MAX_VALUE)%Z →
  (∀ d, d ∈ deps → ∃ m, ds !! d = Some m ∧ (distance m + 1 ≤ n)%Z) →
  ∃ c m, c ∈ deps ∧ ds !! c = Some m ∧
    vertexDistance ds deps = mkDistance (distance m + 1) (Some c) ∧
    ∀ d, d ∈ deps → ∃ m', ds !! d = Some m' ∧ (distance m ≤ distance m')%Z.
Proof.
  intros Hne Hn Hdeps. unfold vertexDistance.
  set (f := λ vd dep, _). induction deps as [|d deps IH] using rev_ind; [done|]. clear Hne.
  rewrite foldl_app. simpl. destruct (Hdeps d) as (md & Hd & Hmd); [set_solver|].
  destruct (decide (deps = [])) as [->|Hne].
  - simpl. unfold f. rewrite Hd. simpl. rewrite (proj2 (Z.ltb_lt _ _)) by lia.
    exists d, md. split; [set_solver|]. split; [done|]. split; [done|].
    intros d' ->%list_elem_of_singleton. exists md. split; [done|lia].
  - destruct IH as (c & m & Hc & Hm & -> & Hmin); [done|intros x Hx; apply Hdeps; set_solver|].
    unfold f. rewrite Hd. cbn [distance]. destruct (Z.ltb_spec (distance md + 1) (distance m + 1)).
    + exists d, md. split; [set_solver|]. split; [done|]. split; [done|].
      intros d' [Hd'| ->%list_elem_of_singleton]%elem_of_app; [|exists md; split; [done|lia]].
      destruct (Hmin d' Hd') as (m' & ? & ?). exists m'. split; [done|lia].
    + exists c, m. split; [set_solver|]. split; [done|]. split; [done|].
      intros d' [Hd'| ->%list_elem_of_singleton]%elem_of_app; [by apply Hmin|].
      exists md. split; [done|lia].
Qed.

Lemma dist_ok_lookup g h : wf g → dist_ok g → h ∈ jm_keys (vertices g) →
  ∃ m, vertexDistances g !! h = Some m.
Proof.
  intros Hg Hd Hh. destruct (decide (h = rootHash)) as [->|Hne]; [eexists; by apply do_root|].
  destruct (getVertex g h) as [v|] eqn:Hv; [|by apply jm_get_None in Hv].
  destruct (do_step g Hd h v Hv Hne) as (c & m & _ & _ & ? & _). eauto.
Qed.

Lemma dist_ok_addVertex g v : wf g → dist_ok g → admissible g v → hash v ≠ EmptyString →
  (Z.of_nat (length (vertices g)) < MAX_VALUE)%Z → dist_ok (addVertex g v).
Proof.
  intros Hg Hd [Hfresh Hne Hknown] Hname Hsize.
  destruct (vertexDistance_spec (vertexDistances g) (dependencies v) (Z.of_nat (length (vertices g))))
    as (c & m & Hc & Hm & Hvd & Hmin); [done|done| |].
  { intros d Hd'. destruct (dist_ok_lookup g d Hg Hd (Hknown d Hd')) as [m Hm].
    exists m. split; [done|]. apply (do_bound g Hd) in Hm. lia. }
  assert (∀ h, h ∈ jm_keys (vertices g) →
    vertexDistances (addVertex g v) !! h = vertexDistances g !! h) as Hold.
  { intros h Hh. simpl. apply lookup_insert_ne. intros <-. done. }
  split.
  - rewrite Hold; [by apply do_root|]. eapply jm_get_Some_keys, causal_root_vertex; auto with dag.
  - intros h w. rewrite getVertex_addVertex. case_decide as E.
    + intros [= <-] _. subst h. exists c, m. split; [done|].
      rewrite Hold by auto. split; [done|]. split; [simpl; rewrite lookup_insert_eq; by rewrite Hvd|].
      intros d Hdd. rewrite Hold by auto. by apply Hmin.
    + intros Hw Hr. destruct (do_step g Hd h w Hw Hr) as (c' & m' & Hc' & H1 & H2 & H3).
      pose proof (causal_deps _ h w c' (wf_causal g Hg) Hw Hc'). exists c', m'.
      split; [done|]. rewrite !Hold; [|by eapply jm_get_Some_keys|done].
      split; [done|]. split; [done|]. intros d Hdd. rewrite Hold; [by apply H3|].
      eapply causal_deps; eauto with dag.
  - intros h n. rewrite addVertex_vertices by done. rewrite length_app. simpl.
    rewrite lookup_insert. case_decide.
    + intros [= <-]. rewrite Hvd. simpl. apply (do_bound g Hd) in Hm. lia.
    + intros Hn%(do_bound g Hd). lia.
  - rewrite addVertex_vertices by done. unfold jm_keys. rewrite fmap_app. simpl.
    intros [H|H%list_elem_of_singleton]%elem_of_app; [by apply (do_names g Hd)|done].
Qed.

Lemma dist_ok_same g g' : vertices g' = vertices g → vertexDistances g' = vertexDistances g →
  dist_ok g → dist_ok g'.
Proof.
  intros Hv Hd [H1 H2 H3 H4]. split; rewrite ?Hd, ?Hv; try done.
  intros h v. unfold getVertex. rewrite Hv. apply H2.
Qed.

(** ** Climbing *)

Section lca.
Variable g : HashGraph.
Hypothesis Hwf : wf g.
Hypothesis Hdist : dist_ok g.

Local Abbreviation keys := (jm_keys (vertices g)).

(** What a step up from [h] finds, when [h] is the deeper of two vertices. *)
Lemma climb_spec h other m mo : h ∈ keys → other ∈ keys → h ≠ other →
  vertexDistances g !! h = Some m → vertexDistances g !! other = Some mo →
  (distance mo ≤ distance m)%Z →
  ∃ up, truthy_hash (closestDependency m) = Some up ∧ parent g h up.
Proof.
  intros Hh Ho Hne Hm Hmo Hle. destruct (decide (h = rootHash)) as [->|Hr].
  - exfalso. rewrite (do_root g Hdist) in Hm. simplify_eq. simpl in Hle.
    destruct (getVertex g other) as [v|] eqn:Hv; [|by apply jm_get_None in Hv].
    destruct (do_step g Hdist other v Hv ltac:(done)) as (c & mc & _ & Hc & Ho' & _).
    apply (do_bound g Hdist) in Hc. simplify_eq. simpl in Hle. lia.
  - destruct (getVertex g h) as [v|] eqn:Hv; [|by apply jm_get_None in Hv].
    destruct (do_step g Hdist h v Hv Hr) as (c & mc & Hc & _ & Hm' & _). simplify_eq.
    exists c. assert (parent g h c) as Hp by (unfold parent, getDependencies; by rewrite Hv).
    split; [|done]. simpl. destruct (String.eqb_spec c EmptyString) as [->|]; [|done].
    exfalso. apply (do_names g Hdist). by apply (parent_keys g h _ Hwf Hp).
Qed.

(** [l1] and [l2] are the two ends of the climb: everything visited lies below
    one of them, and the dependencies of every visited vertex other than the
    ends are visited or waiting in [targets]. *)
Record climbing (hs : list Hash) (V : gset Hash) (T : list Hash) (l1 l2 : Hash) : Prop := {
  cl_l1 : l1 ∈ V;
  cl_l2 : l2 ∈ V;
  cl_keys : ∀ v, v ∈ V → v ∈ keys;
  cl_anc : ∀ v, v ∈ V → ancestor g v l1 ∨ ancestor g v l2;
  cl_closed : ∀ v d, v ∈ V → v ≠ l1 → v ≠ l2 → parent g v d → d ∈ V ∨ d ∈ T;
  cl_past : ∀ v, v ∈ V ∨ v ∈ T → ∃ h, h ∈ hs ∧ ancestor g h v
}.

Lemma climbing_sym hs V T l1 l2 : climbing hs V T l1 l2 → climbing hs V T l2 l1.
Proof. intros [? ? ? Ha Hc ?]. split; try done; [intros v Hv; apply or_comm; auto|eauto]. Qed.

Lemma elem_of_lca_push h up (V : gset Hash) T d :
  d ∈ lca_push g h up V T ↔ d ∈ T ∨ (parent g h d ∧ d ≠ up ∧ d ∉ V).
Proof. unfold lca_push, parent. rewrite elem_of_app, list_elem_of_filter. tauto. Qed.

(** Climbing from one end to a vertex not yet visited. *)
Lemma climbing_up hs V T l1 l2 up : climbing hs V T l1 l2 → parent g l1 up →
  climbing hs ({[up]} ∪ V) (lca_push g l1 up V T) up l2.
Proof.
  intros [H1 H2 Hk Ha Hc Hp] Hup. split.
  - set_solver.
  - set_solver.
  - intros v [->%elem_of_singleton|Hv]%elem_of_union; [by eapply parent_keys|auto].
  - intros v [->%elem_of_singleton|Hv]%elem_of_union; [left; apply rtc_refl|].
    destruct (Ha v Hv); [left; by eapply rtc_r|by right].
  - intros v d Hv Hne1 Hne2 Hd. apply elem_of_union in Hv as [?%elem_of_singleton|Hv]; [done|].
    rewrite elem_of_lca_push. destruct (decide (d ∈ {[up]} ∪ V)); [by left|]. right.
    destruct (decide (v = l1)) as [->|Hn1]; [set_solver|].
    destruct (Hc v d Hv Hn1 Hne2 Hd); [set_solver|by left].
  - intros v Hv. destruct (decide (v ∈ V ∨ v ∈ T)) as [?|Hn]; [by apply Hp|].
    assert (parent g l1 v) as Hd.
    { rewrite elem_of_lca_push in Hv. set_solver. }
    destruct (Hp l1) as (h & Hh & Hl); [by left|]. exists h. split; [done|]. by eapply rtc_r.
Qed.

(** Climbing from one end into the visited set: the other end is below
    everything. *)
Lemma climbing_meet hs V T l1 l2 up : climbing hs V T l1 l2 → parent g l1 up → up ∈ V → l1 ≠ l2 →
  climbing hs V (lca_push g l1 up V T) l2 l2.
Proof.
  intros Hcl Hup HV Hne. pose proof Hcl as [H1 H2 Hk Ha Hc Hp].
  assert (ancestor g up l2) as Hup2.
  { destruct (Ha up HV) as [Hl|]; [|done]. exfalso.
    apply (before_irreflexive g l1 Hwf). by eapply tc_rtc_r; [apply tc_once|]. }
  assert (ancestor g l1 l2) as Hl by (by eapply rtc_l).
  split; [done|done|done|..].
  - intros v Hv. left. destruct (Ha v Hv); [by etrans|done].
  - intros v d Hv Hv2 _ Hd. rewrite elem_of_lca_push. destruct (decide (d ∈ V)); [by left|]. right.
    destruct (decide (v = l1)) as [->|Hn1]; [set_solver|].
    destruct (Hc v d Hv Hn1 Hv2 Hd); [done|by left].
  - intros v Hv. eapply cl_past; [by eapply climbing_up|]. set_solver.
Qed.

(** Unexpanded work: each visited vertex other than the two ends has pushed its
    dependencies, once. *)
Definition work (V : gset Hash) (l1 l2 : Hash) : nat := pending (getDependencies g) keys (V ∖ {[l1; l2]}).

Lemma work_expand V E l1 l2 l : l ∈ keys → l ∉ V ∖ {[l1; l2]} → E = {[l]} ∪ V ∖ {[l1; l2]} →
  pending (getDependencies g) keys E + length (getDependencies g l) ≤ work V l1 l2.
Proof. intros Hl Hn ->. by apply pending_expand. Qed.

Lemma length_lca_push h up V T : length (lca_push g h up V T) ≤ length T + length (getDependencies g h).
Proof. unfold lca_push. rewrite length_app. pose proof (length_filter (λ d, d ≠ up ∧ d ∉ V) (getDependencies g h)). lia. Qed.

(** The state of one climb: it started with the targets [T0] and the visited
    set [V0], and may still push [budget] targets. *)
Record pair_inv (hs T0 : list Hash) (V0 : gset Hash) (budget : nat) (s : lca_pair) : Prop := {
  pi_climb : climbing hs (lp_visited s) (lp_targets s) (lp_hash1 s) (lp_hash2 s);
  pi_visited : V0 ⊆ lp_visited s;
  pi_prefix : T0 `prefix_of` lp_targets s;
  pi_budget : length (lp_targets s) + work (lp_visited s) (lp_hash1 s) (lp_hash2 s) ≤ budget
}.

Definition pair_post (hs T0 : list Hash) (V0 : gset Hash) (budget : nat)
    (r : option Hash * gset Hash * list Hash) : Prop :=
  ∃ l V T, r = (Some l, V, T) ∧ climbing hs V T l l ∧ V0 ⊆ V ∧ T0 `prefix_of` T ∧
    length T + work V l l ≤ budget.

Lemma pair_inv_sym hs T0 V0 budget h1 h2 V T : pair_inv hs T0 V0 budget (mkLcaPair h1 h2 V T) →
  pair_inv hs T0 V0 budget (mkLcaPair h2 h1 V T).
Proof.
  intros [Hc ? ? Hb]. split; simpl in *; [by apply climbing_sym|done..|].
  unfold work in *. by replace ({[h2; h1]} : gset Hash) with ({[h1; h2]} : gset Hash) by set_solver.
Qed.

Lemma prefix_lca_push T0 h up V T : T0 `prefix_of` T → T0 `prefix_of` lca_push g h up V T.
Proof. intros Hp. etrans; [exact Hp|]. by exists (filter (λ d, d ≠ up ∧ d ∉ V) (getDependencies g h)). Qed.

(** One climb from the first end. *)
Lemma pair_climb hs T0 V0 budget h1 h2 V T up :
  pair_inv hs T0 V0 budget (mkLcaPair h1 h2 V T) → h1 ≠ h2 → parent g h1 up →
  if decide (up ∈ V) then pair_post hs T0 V0 budget (Some h2, V, lca_push g h1 up V T)
  else pair_inv hs T0 V0 budget (mkLcaPair up h2 ({[up]} ∪ V) (lca_push g h1 up V T)).
Proof.
  intros [Hc Hv Hp Hb] Hne Hup. simpl in *.
  pose proof (cl_keys _ _ _ _ _ Hc h1 (cl_l1 _ _ _ _ _ Hc)) as Hk.
  pose proof (length_lca_push h1 up V T) as Hlen.
  assert (up ≠ h1) as Hself.
  { intros ->. apply parent_rank in Hup; [lia|done]. }
  case_decide as Hin.
  - exists h2, V, (lca_push g h1 up V T). split; [done|]. split; [by eapply climbing_meet|].
    split; [done|]. split; [by apply prefix_lca_push|].
    assert (V ∖ {[h2; h2]} = {[h1]} ∪ V ∖ {[h1; h2]}) as E.
    { pose proof (cl_l1 _ _ _ _ _ Hc). apply set_eq. intros x.
      destruct (decide (x = h1)); set_solver. }
    pose proof (work_expand V _ h1 h2 h1 Hk ltac:(set_solver) E). unfold work at 1. lia.
  - split; simpl; [by eapply climbing_up|set_solver|by apply prefix_lca_push|].
    assert (({[up]} ∪ V) ∖ {[up; h2]} = {[h1]} ∪ V ∖ {[h1; h2]}) as E.
    { pose proof (cl_l1 _ _ _ _ _ Hc). apply set_eq. intros x.
      destruct (decide (x = h1)), (decide (x = up)); set_solver. }
    pose proof (work_expand V _ h1 h2 h1 Hk ltac:(set_solver) E). unfold work at 1. lia.
Qed.

Lemma lca_pair_step_inv hs T0 V0 budget s : pair_inv hs T0 V0 budget s →
  match lca_pair_step g s with
  | Next s' => pair_inv hs T0 V0 budget s' ∧
      length (vertices g) - size (lp_visited s') < length (vertices g) - size (lp_visited s)
  | Done r => pair_post hs T0 V0 budget r
  end.
Proof.
  destruct s as [h1 h2 V T]. intros Hs. unfold lca_pair_step. pose proof Hs as [Hc Hv Hp Hb].
  simpl in *. case_decide as Heq.
  { subst h2. exists h1, V, T. done. }
  pose proof (cl_keys _ _ _ _ _ Hc h1 (cl_l1 _ _ _ _ _ Hc)) as Hk1.
  pose proof (cl_keys _ _ _ _ _ Hc h2 (cl_l2 _ _ _ _ _ Hc)) as Hk2.
  destruct (dist_ok_lookup g h1 Hwf Hdist Hk1) as [m1 E1], (dist_ok_lookup g h2 Hwf Hdist Hk2) as [m2 E2].
  rewrite E1, E2.
  assert (∀ up, up ∉ V → up ∈ keys → size V < size ({[up]} ∪ V) ∧
            size ({[up]} ∪ V) ≤ length (vertices g)) as Hsize.
  { intros up Hup Hku. split; [rewrite size_union, size_singleton by set_solver; lia|].
    rewrite <- (length_fmap fst (vertices g)). apply gset_size_le_list.
    intros x [->%elem_of_singleton|Hx]%elem_of_union; [done|]. by eapply cl_keys. }
  destruct (Z.ltb_spec (distance m2) (distance m1)).
  - destruct (climb_spec h1 h2 m1 m2) as (up & -> & Hup); [done..|lia|].
    pose proof (pair_climb hs T0 V0 budget h1 h2 V T up Hs Heq Hup) as Hnext.
    case_decide; [done|]. split; [done|]. simpl. destruct (Hsize up); [done|by eapply parent_keys|lia].
  - destruct (climb_spec h2 h1 m2 m1) as (up & -> & Hup); [done..|lia|].
    pose proof (pair_climb hs T0 V0 budget h2 h1 V T up (pair_inv_sym _ _ _ _ _ _ _ _ Hs)
                  ltac:(done) Hup) as Hnext.
    case_decide; [done|]. split; [by apply pair_inv_sym|]. simpl.
    destruct (Hsize up); [done|by eapply parent_keys|lia].
Qed.

Lemma lca_pair_spec hs h1 h2 V T : climbing hs ({[h2]} ∪ ({[h1]} ∪ V)) T h1 h2 →
  ∃ r, lowestCommonAncestorPairVertices g h1 h2 V T = Some r ∧
    pair_post hs T ({[h2]} ∪ ({[h1]} ∪ V)) (length T + work ({[h2]} ∪ ({[h1]} ∪ V)) h1 h2) r.
Proof.
  intros Hc. unfold lowestCommonAncestorPairVertices.
  eapply loop_total; [apply lca_pair_step_inv| |unfold lca_pair_fuel; lia].
  by split.
Qed.

(** ** Several vertices *)

Section multi.
Variables (h0 : Hash) (rest : list Hash).
Local Abbreviation hs := (h0 :: rest).
Hypothesis hs_keys : ∀ h, h ∈ hs → h ∈ keys.
Hypothesis rest_nonempty : rest ≠ [].

Definition budget : nat := length hs + sum_list_with (λ u, length (getDependencies g u)) keys.

Record multi_inv (s : lca_multi) : Prop := {
  mi_index : 1 ≤ lm_index s ≤ length (lm_targets s);
  mi_lca : ∃ l, lm_lca s = Some l ∧ l ∈ keys ∧
    ((lm_index s = 1 ∧ l = h0 ∧ lm_visited s = ∅ ∧ lm_targets s = hs) ∨
     (climbing hs (lm_visited s) (lm_targets s) l l ∧ h0 ∈ lm_visited s ∧
      ∀ k t, 1 ≤ k < lm_index s → lm_targets s !! k = Some t → t ∈ lm_visited s)) ∧
    length (lm_targets s) + work (lm_visited s) l l ≤ budget;
  mi_prefix : hs `prefix_of` lm_targets s;
  mi_targets : ∀ t, t ∈ lm_targets s → t ∈ keys
}.

Definition multi_post (r : res graph_error (Hash * gset Hash)) : Prop :=
  ∃ l X, r = Ok (l, X) ∧ climbing hs X [] l l ∧ ∀ h, h ∈ hs → h ∈ X.

Lemma truthy_key l : l ∈ keys → truthy_hash (Some l) = Some l.
Proof.
  intros Hl. simpl. destruct (String.eqb_spec l EmptyString) as [->|]; [|done].
  by destruct (do_names g Hdist).
Qed.

Lemma multi_finish V T l : climbing hs V T l l → (∀ t, t ∈ T → t ∈ V) → climbing hs V [] l l.
Proof.
  intros [H1 H2 Hk Ha Hc Hp] HT. split; try done.
  - intros v d Hv Hn1 Hn2 Hd. destruct (Hc v d Hv Hn1 Hn2 Hd); [by left|left; auto].
  - intros v [Hv|[]%elem_of_nil]. auto.
Qed.

(** The ends of the next climb: the ancestor found so far and the next target. *)
Lemma multi_next V T l t : t ∈ T → t ∈ keys → l ∈ keys → t ∉ V → (∀ h, h ∈ hs → h ∈ T) →
  (∀ v, v ∈ T → ∃ h, h ∈ hs ∧ ancestor g h v) →
  (l = h0 ∧ V = ∅ ∨ climbing hs V T l l) →
  climbing hs ({[t]} ∪ ({[l]} ∪ V)) T l t ∧ work ({[t]} ∪ ({[l]} ∪ V)) l t = work V l l.
Proof.
  intros Ht Hkt Hkl HtV HhsT HpT HV.
  assert (∀ v, v ∈ V → v ∈ keys ∧ ancestor g v l ∧ (∃ h, h ∈ hs ∧ ancestor g h v) ∧
            (v ≠ l → ∀ d, parent g v d → d ∈ V ∨ d ∈ T)) as HVall.
  { intros v Hv. destruct HV as [[_ ->]|[H1 H2 Hk Ha Hc Hp]]; [set_solver|].
    split; [auto|]. split; [by destruct (Ha v Hv)|]. split; [apply Hp; auto|]. intros; eauto. }
  split; [split|].
  - set_solver.
  - set_solver.
  - intros v. rewrite !elem_of_union, !elem_of_singleton. intros [->|[->|Hv]]; [done..|]. by apply HVall.
  - intros v. rewrite !elem_of_union, !elem_of_singleton.
    intros [->|[->|Hv]]; [right; apply rtc_refl|left; apply rtc_refl|left; by apply HVall].
  - intros v d. rewrite !elem_of_union, !elem_of_singleton. intros [->|[->|Hv]] Hn1 Hn2 Hd; [done..|].
    destruct (HVall v Hv) as (_ & _ & _ & Hc). destruct (Hc Hn1 d Hd); auto.
  - intros v. rewrite !elem_of_union, !elem_of_singleton. intros [[->|[->|Hv]]|HT]; [auto| |by apply HVall|auto].
    destruct HV as [[-> _]|Hcl]; [exists h0; split; [left|apply rtc_refl]|].
    apply (cl_past _ _ _ _ _ Hcl). left. by eapply cl_l1.
  - unfold work. f_equal. apply set_eq. intros x. destruct (decide (x = t)), (decide (x = l)); set_solver.
Qed.

Lemma lca_multi_step_inv s : multi_inv s →
  match lca_multi_step g s with
  | Next s' => multi_inv s' ∧ budget - lm_index s' < budget - lm_index s
  | Done r => multi_post r
  end.
Proof.
  destruct s as [i lca V T]. intros [Hi (l & El & Hkl & Hst & Hb) Hpre HT]. simpl in *. subst lca.
  assert (∀ h, h ∈ hs → h ∈ T) as HhsT.
  { intros h Hh. destruct Hpre as [k ->]. by apply elem_of_app; left. }
  unfold lca_multi_step. rewrite truthy_key by done.
  destruct (T !! i) as [t|] eqn:Ht; cycle 1.
  { apply lookup_ge_None in Ht. exists l, V.
    destruct Hst as [(-> & -> & -> & ->)|(Hcl & H0 & Hdone)].
    - destruct rest; [done|]. simpl in *. lia.
    - assert (∀ t, t ∈ T → t ∈ V) as HTV.
      { intros t Hin. destruct (decide (t ∈ V)); [done|]. apply list_elem_of_lookup in Hin as [[|k] Hk].
        - destruct Hpre as [k ->]. simpl in Hk. by simplify_eq.
        - eapply (Hdone (S k)); [|done]. apply lookup_lt_Some in Hk. lia. }
      split; [done|]. split; [by eapply multi_finish|auto]. }
  pose proof (list_elem_of_lookup_2 _ _ _ Ht) as HtT. pose proof (lookup_lt_Some _ _ _ Ht) as Hlt.
  case_decide as HtV.
  - split; [|cbn [lm_index]; lia]. split; simpl; [lia| |done|done].
    exists l. split; [done|]. split; [done|]. split; [|done]. right.
    destruct Hst as [(-> & -> & -> & ->)|(Hcl & H0 & Hdone)]; [set_solver|].
    split; [done|]. split; [done|]. intros k t' Hk Hk'.
    destruct (decide (k = i)) as [->|]; [by simplify_eq|]. eapply Hdone; [|done]. lia.
  - destruct (multi_next V T l t) as [Hcl Hw]; auto.
    { intros v Hv. destruct Hst as [(_ & _ & _ & ->)|(Hcl & _)].
      - exists v. split; [done|apply rtc_refl].
      - apply (cl_past _ _ _ _ _ Hcl). by right. }
    { destruct Hst as [(_ & -> & -> & _)|(? & _)]; auto. }
    destruct (lca_pair_spec hs l t V T Hcl) as (r & -> & l' & V' & T' & -> & Hcl' & HV' & Hpre' & Hb').
    rewrite Hw in Hb'. split; [|cbn [lm_index]; lia]. destruct Hpre' as [k ->].
    split; simpl; [rewrite length_app; lia| |by apply prefix_app_r|].
    + exists l'. split; [done|]. split; [eapply cl_keys, cl_l1; exact Hcl'|]. split; [|lia]. right.
      split; [done|]. assert (∀ x, x = t ∨ x = l ∨ x ∈ V → x ∈ V') as Hsub by set_solver.
      split; [|intros j t' Hj Hj'].
      * apply Hsub. destruct Hst as [(_ & -> & _)|(_ & ? & _)]; auto.
      * apply Hsub. rewrite lookup_app_l in Hj' by lia.
        destruct (decide (j = i)) as [->|]; [left; by simplify_eq|]. right. right.
        destruct Hst as [(-> & _)|(_ & _ & Hdone)]; [lia|]. eapply Hdone; [|done]. lia.
    + intros t' Ht'. destruct (cl_past _ _ _ _ _ Hcl' t') as (h & Hh & Ha); [by right|].
      eapply (ancestor_keys g h); auto.
Qed.

End multi.

Lemma sum_dependencies :
  sum_list_with (λ u, length (getDependencies g u)) keys ≤
  sum_list_with (λ hv, S (length (dependencies hv.2))) (vertices g).
Proof.
  assert (∀ vs, (∀ hv, hv ∈ vs → getVertex g hv.1 = Some hv.2) →
    sum_list_with (λ u, length (getDependencies g u)) (jm_keys vs) ≤
    sum_list_with (λ hv, S (length (dependencies hv.2))) vs) as Hsum.
  { unfold jm_keys. induction vs as [|[h v] vs IH]; intros Hvs; csimpl; [lia|].
    pose proof (Hvs (h, v) ltac:(left)) as Hv. simpl in Hv.
    assert (getDependencies g h = dependencies v) as E by (unfold getDependencies; by rewrite Hv).
    rewrite E. assert (∀ hv, hv ∈ vs → getVertex g hv.1 = Some hv.2) as Hrest by (intros; apply Hvs; by right).
    specialize (IH Hrest). lia. }
  apply Hsum. intros [h v] Hin. apply jm_get_In; [|done]. apply causal_NoDup. auto with dag.
Qed.

Lemma lca_multi_spec hs : hs ≠ [] → (∀ h, h ∈ hs → h ∈ keys) →
  ∃ l X, lowestCommonAncestorMultipleVertices g hs ∅ = Ok (l, X) ∧
    climbing hs X [] l l ∧ ∀ h, h ∈ hs → h ∈ X.
Proof.
  intros Hne Hk. destruct hs as [|h0 [|h1 rest]]; [done| |].
  - exists h0, ({[h0]} ∪ ∅). split; [done|]. split; [|set_solver]. split; [set_solver..| | |].
    + intros v Hv. assert (v = h0) as -> by set_solver. left. apply rtc_refl.
    + set_solver.
    + intros v Hv. exists v. split; [set_solver|apply rtc_refl].
  - unfold lowestCommonAncestorMultipleVertices.
    destruct (loop_total (lca_multi_step g) (multi_inv h0 (h1 :: rest))
                (λ s, budget h0 (h1 :: rest) - lm_index s) (multi_post h0 (h1 :: rest)))
      with (fuel := lca_multi_fuel g (h0 :: h1 :: rest)) (s := mkLcaMulti 1 (Some h0) ∅ (h0 :: h1 :: rest))
      as (r & -> & l & X & -> & ? & ?); [by apply lca_multi_step_inv| | |by exists l, X].
    + split; simpl; [lia| |done|done]. exists h0. split; [done|]. split; [apply Hk; left|].
      split; [by left|]. unfold work, budget. simpl.
      pose proof (pending_le (getDependencies g) keys (∅ ∖ {[h0; h0]})). unfold out in *. lia.
    + pose proof sum_dependencies. unfold budget, lca_multi_fuel. simpl in *. lia.
Qed.

(** ** The visited set is the interval above the result *)

Section interval.
Variables (hs : list Hash) (X : gset Hash) (l : Hash).
Hypothesis Hcl : climbing hs X [] l l.
Hypothesis Hhs : ∀ h, h ∈ hs → h ∈ X.

Lemma interval_ancestor x : x ∈ X → ancestor g x l.
Proof. intros Hx. by destruct (cl_anc _ _ _ _ _ Hcl x Hx). Qed.

Lemma interval_closed x d : x ∈ X → x ≠ l → parent g x d → d ∈ X.
Proof. intros Hx Hne Hd. by destruct (cl_closed _ _ _ _ _ Hcl x d Hx Hne Hne Hd) as [|[]%elem_of_nil]. Qed.

Lemma interval_above x : x ∈ X → ancestor g l x → x = l.
Proof.
  intros Hx Hl. destruct (ancestor_cases g x l (interval_ancestor x Hx)) as [|Hb]; [done|].
  exfalso. apply (before_irreflexive g x Hwf). unfold before in *. by eapply tc_rtc_r.
Qed.

(** Everything below a member of the interval is in it, or below [l]. *)
Lemma interval_cut x a : x ∈ X → ancestor g x a → a ∈ X ∨ ancestor g l a.
Proof.
  intros Hx Ha. unfold ancestor in Ha. induction Ha as [|x y a Hxy Hya IH]; [by left|].
  destruct (decide (x = l)) as [->|Hne]; [right; by eapply rtc_l|].
  apply IH. by eapply interval_closed.
Qed.

Lemma interval_spec x : x ∈ X ↔ ancestor g x l ∧ ∃ h, h ∈ hs ∧ ancestor g h x.
Proof.
  split.
  - intros Hx. split; [by apply interval_ancestor|]. apply (cl_past _ _ _ _ _ Hcl). by left.
  - intros [Hl (h & Hh & Hx)]. destruct (interval_cut h x (Hhs h Hh) Hx) as [|Hlx]; [done|].
    destruct (ancestor_cases g x l Hl) as [->|Hb]; [apply (cl_l1 _ _ _ _ _ Hcl)|].
    exfalso. apply (before_irreflexive g l Hwf). unfold before in *. by eapply tc_rtc_l.
Qed.

Lemma interval_reachable x : x ∈ X → rtc (sub_child (forwardEdges g) X) l x.
Proof.
  remember (rank g x) as n eqn:Hn. revert x Hn. induction (lt_wf n) as [n _ IH]. intros x -> Hx.
  destruct (rtc_inv _ _ (interval_ancestor x Hx)) as [->|(y & Hxy & _)]; [apply rtc_refl|].
  destruct (decide (x = l)) as [->|Hne]; [apply rtc_refl|].
  eapply rtc_r; [eapply (IH (rank g y)); [by apply parent_rank|done|by eapply interval_closed]|].
  split; [by apply (wf_edges g Hwf)|done].
Qed.

Lemma interval_convex order : order ≡ₚ elements X → convex g order.
Proof.
  intros Ho h1 h2 H1 H2.
  assert (∀ x, x ∈ order ↔ x ∈ X) as Hin by (intros x; by rewrite Ho, elem_of_elements).
  split; [apply tc_monotone; by intros ?? (? & _)|]. unfold before.
  induction 1 as [x y Hxy|x y z Hxy Hyz IH]; [by apply tc_once|].
  assert (y ∈ X) as Hy.
  { apply (interval_closed x); [by apply Hin| |done]. intros ->.
    assert (z = l) as ->.
    { apply interval_above; [by apply Hin|]. eapply rtc_l; [exact Hxy|]. by apply tc_rtc. }
    apply (before_irreflexive g l Hwf). unfold before. by eapply tc_l. }
  eapply tc_l; [split; [exact Hxy|]|apply IH; [by apply Hin|done]]. split; [done|by apply Hin].
Qed.

End interval.
End lca.

(** ** Shortest paths *)

Lemma distance_path g h m : wf g → dist_ok g → vertexDistances g !! h = Some m →
  h ∈ jm_keys (vertices g) →
  (∃ n, Z.of_nat n = distance m ∧ nsteps (parent g) n h rootHash) ∧
  (∀ n, nsteps (parent g) n h rootHash → (distance m ≤ Z.of_nat n)%Z).
Proof.
  intros Hg Hd. remember (rank g h) as r eqn:Hr. revert h m Hr.
  induction (lt_wf r) as [r _ IH]. intros h m -> Hm Hh.
  destruct (decide (h = rootHash)) as [->|Hne].
  { rewrite (do_root g Hd) in Hm. simplify_eq. split; [exists 0; split; [done|constructor]|simpl; lia]. }
  destruct (getVertex g h) as [v|] eqn:Hv; [|by apply jm_get_None in Hv].
  assert (∀ d, d ∈ dependencies v ↔ parent g h d) as Hp.
  { intros d. unfold parent, getDependencies. by rewrite Hv. }
  destruct (do_step g Hd h v Hv Hne) as (c & mc & Hc & Hmc & Hm' & Hmin). simplify_eq.
  assert (∀ d m', parent g h d → vertexDistances g !! d = Some m' →
    (∃ n, Z.of_nat n = distance m' ∧ nsteps (parent g) n d rootHash) ∧
    (∀ n, nsteps (parent g) n d rootHash → (distance m' ≤ Z.of_nat n)%Z)) as IHd.
  { intros d m' Hpd Hm''. eapply IH; [by apply parent_rank|done|done|by eapply parent_keys]. }
  split.
  - destruct (IHd c mc) as [(n & Hn & Hs) _]; [by apply Hp|done|].
    exists (S n). split; [simpl; lia|]. eapply nsteps_l; [by apply Hp|done].
  - intros n Hn. inversion Hn as [|n' ? d ? Hhd Hdr]; subst; [done|].
    destruct (Hmin d) as (m' & Hm'' & Hle); [by apply Hp|].
    destruct (IHd d m' Hhd Hm'') as [_ Hlow]. specialize (Hlow n' Hdr). simpl. lia.
Qed.

(** Adding vertices with non-empty hashes to a fresh graph. *)
Inductive built_named : HashGraph → Prop :=
| bn_new peer acl drp sem : built_named (new_HashGraph peer acl drp sem)
| bn_add g v : built_named g → admissible g v → hash v ≠ EmptyString →
    (Z.of_nat (length (vertices g)) < 2 ^ 53)%Z → built_named (addVertex g v).

Lemma built_named_ok g : built_named g → wf g ∧ dist_ok g.
Proof.
  induction 1 as [|g v _ [Hg Hd] Ha Hn Hs]; [auto using dist_ok_new with dag|].
  split; [auto with dag|]. apply dist_ok_addVertex; [done..|].
  eapply Z.lt_trans; [exact Hs|]. unfold MAX_VALUE. by vm_compute.
Qed.

Lemma built_named_diamond : built_named diamond.
Proof.
  unfold diamond. do 3 (apply bn_add; [|decide_by_compute|done|by vm_compute]). apply bn_new.
Qed.

(** ** Properties *)

(** C30 In every graph of at most 2^53 vertices that was filled by [addVertex],
    the stored distance of a vertex is the length of the shortest dependency
    path from it to the root, and the stored closest dependency is a dependency
    one step nearer to the root. *)
Theorem distances_shortest (g : HashGraph) (h : Hash) (v : Vertex)
    (Hg : built_named g) (Hv : getVertex g h = Some v) :
  ∃ m, vertexDistances g !! h = Some m ∧
    (∃ n, Z.of_nat n = distance m ∧ nsteps (parent g) n h rootHash) ∧
    (∀ n, nsteps (parent g) n h rootHash → (distance m ≤ Z.of_nat n)%Z) ∧
    (h ≠ rootHash → ∃ c mc, closestDependency m = Some c ∧ c ∈ dependencies v ∧
       vertexDistances g !! c = Some mc ∧ distance m = (distance mc + 1)%Z).
Proof.
  apply built_named_ok in Hg as [Hg Hd].
  assert (h ∈ jm_keys (vertices g)) as Hk by (by eapply jm_get_Some_keys).
  destruct (dist_ok_lookup g h Hg Hd Hk) as [m Hm].
  destruct (distance_path g h m Hg Hd Hm Hk) as [H1 H2]. exists m. do 3 (split; [done|]).
  intros Hne. destruct (do_step g Hd h v Hv Hne) as (c & mc & ? & ? & ? & _). simplify_eq.
  by exists c, mc.
Qed.

Lemma distances_shortest_witness :
  ∃ m, vertexDistances diamond !! "c"%string = Some m ∧ distance m = 2%Z.
Proof.
  destruct (distances_shortest diamond "c" (sample_vertex "c" ["a"; "b"]%string)
              built_named_diamond ltac:(vm_compute; reflexivity)) as (m & Hm & _).
  exists m. split; [exact Hm|]. vm_compute in Hm. by injection Hm as <-.
Defined.

(** C6 For any non-empty list of known hashes the search for their lowest common
    ancestor terminates with a vertex [l] and the set [X] of vertices it
    visited, and never throws. [X] contains the given hashes and is exactly the
    interval between them and [l]: the vertices that descend from [l] and are in
    the past of one of the hashes. Every vertex in the past of the hashes is in
    [X] or in the past of [l], so replaying [X] on top of the state at [l]
    misses nothing; and [X] is reachable from [l] inside [X], so the topological
    sort of [X] from [l] does not throw. *)
Theorem lca_interval (g : HashGraph) (hashes : list Hash) (Hg : built_named g)
    (Hne : hashes ≠ []) (Hknown : ∀ h, h ∈ hashes → is_Some (getVertex g h)) :
  ∃ l X, lowestCommonAncestorMultipleVertices g hashes ∅ = Ok (l, X) ∧ l ∈ X ∧
    (∀ x, x ∈ X ↔ ancestor g x l ∧ ∃ h, h ∈ hashes ∧ ancestor g h x) ∧
    (∀ h a, h ∈ hashes → ancestor g h a → a ∈ X ∨ ancestor g l a) ∧
    (∀ x, x ∈ X → rtc (sub_child (forwardEdges g) X) l x).
Proof.
  apply built_named_ok in Hg as [Hg Hd].
  destruct (lca_multi_spec g Hg Hd hashes Hne) as (l & X & E & Hcl & Hin).
  { intros h [v Hv]%Hknown. by eapply jm_get_Some_keys. }
  exists l, X. split; [done|]. split; [apply (cl_l1 _ _ _ _ _ _ Hcl)|].
  split; [intros x; by apply interval_spec|]. split.
  - intros h a Hh Ha. eapply interval_cut; eauto.
  - intros x Hx. by eapply interval_reachable.
Qed.

Lemma lca_interval_witness :
  ∃ X, lowestCommonAncestorMultipleVertices diamond ["a"; "b"]%string ∅ = Ok (rootHash, X) ∧
       "a"%string ∈ X.
Proof.
  destruct (lca_interval diamond ["a"; "b"]%string built_named_diamond) as (l & X & E & _ & HX & _).
  - done.
  - intros h [->|[->|[]%elem_of_nil]%elem_of_cons]%elem_of_cons; eexists; vm_compute; reflexivity.
  - exists X. assert (l = rootHash) as ->.
    { assert (match lowestCommonAncestorMultipleVertices diamond ["a"; "b"]%string ∅ with
              | Ok r => r.1
              | Throw _ => EmptyString
              end = rootHash) as E' by (vm_compute; reflexivity).
      rewrite E in E'. exact E'. }
    split; [exact E|].
    apply HX. split; [apply rtc_once; vm_compute; left|]. exists "a"%string. split; [left|apply rtc_refl].
Defined.
