(* ===== verification/LegacyCausality.v ===== *)
(** * The call-local causality matrix ([packages/object/src/linearize/legacyCausality.ts])

    One flat [Uint32Array], [wordsPerRow] words for every vertex of the order.
    The constructor runs the same algorithm as the predecessor cache of the hash
    graph, and is shown to refine the same abstract matrix [amat_build]; so
    [areRelated] decides the causal relation inside the order, and exchanging
    two rows does what the linearizer wants: it relabels the two rows. *)

From S2P Require Import Prelude JsMap JsNum Bits JsValue Types HashGraph Dag TopoSort Causality.

(** ** Rows of a flat array *)

(** A typed array reads [undefined] (0 for the operators) out of range and
    ignores a store there. *)
Definition load (m : list Z) (k : nat) : Z := default 0%Z (m !! k).
Definition store (m : list Z) (k : nat) (x : Z) : list Z := <[k := to_uint32 x]> m.

Module LegacyCausalityMatrix.

Record t := mk {
  matrix : list Z;
  indexByHash : gmap Hash nat;
  wordsPerRow : nat
}.

(** [(column / 32) | 0] and [1 << column % 32] *)
Definition word_of (column : nat) : nat := Z.to_nat (js_trunc_div (Z.of_nat column) 32).
Definition mask_of (column : nat) : Z := js_shl 1 (Z.rem (Z.of_nat column) 32).

(** [for (word...) matrix[destination + word] |= matrix[source + word]] *)
Definition or_row (w destination source : nat) (m : list Z) : list Z :=
  foldl (λ m word, store m (destination + word)
                     (js_or (load m (destination + word)) (load m (source + word)))) m (seq 0 w).

(** The body of the loop over the dependencies of the vertex at [index]. *)
Definition add_dependency (w : nat) (indices : gmap Hash nat) (index : nat) (m : list Z) (dep : Hash) :
    list Z :=
  match indices !! dep with
  | None => m
  | Some dependencyIndex =>
      let source := dependencyIndex * w in
      let at_ := source + word_of dependencyIndex in
      let m := store m at_ (js_or (load m at_) (mask_of dependencyIndex)) in
      or_row w (index * w) source m
  end.

Definition add_row (g : HashGraph) (w : nat) (indices : gmap Hash nat) (m : list Z) (ih : nat * Hash) :
    list Z :=
  foldl (add_dependency w indices ih.1) m (getDependencies g ih.2).

(** [Math.ceil(order.length / 32) || 1] *)
Definition words_per_row (n : nat) : nat :=
  let w := (n + 31) / 32 in if decide (w = 0) then 1 else w.

Definition index_hashes (order : list Hash) : gmap Hash nat :=
  foldl (λ m ih, <[ih.2 := ih.1]> m) ∅ (imap pair order).

(** The constructor. *)
Definition new (g : HashGraph) (order : list Hash) : t :=
  let w := words_per_row (length order) in
  let indices := index_hashes order in
  mk (foldl (add_row g w indices) (replicate (length order * w) 0%Z) (imap pair order)) indices w.

Definition has (c : t) (row column : nat) : bool :=
  bool_decide (js_and (load (matrix c) (row * wordsPerRow c + word_of column)) (mask_of column) ≠ 0%Z).

Definition areRelated (c : t) (left right : Hash) : bool :=
  match indexByHash c !! left, indexByHash c !! right with
  | Some leftIndex, Some rightIndex => has c leftIndex rightIndex || has c rightIndex leftIndex
  | _, _ => false
  end.

(** [for (word...) exchange matrix[leftOffset + word] and matrix[rightOffset + word]] *)
Definition swap_rows (w leftOffset rightOffset : nat) (m : list Z) : list Z :=
  foldl (λ m word,
    store (store m (leftOffset + word) (load m (rightOffset + word)))
      (rightOffset + word) (load m (leftOffset + word))) m (seq 0 w).

Definition swapReachablePredecessors (c : t) (left right : Hash) : t :=
  match indexByHash c !! left, indexByHash c !! right with
  | Some leftIndex, Some rightIndex =>
      mk (swap_rows (wordsPerRow c) (leftIndex * wordsPerRow c) (rightIndex * wordsPerRow c) (matrix c))
         (indexByHash c) (wordsPerRow c)
  | _, _ => c
  end.

End LegacyCausalityMatrix.

Import LegacyCausalityMatrix.

(** ** Words and bits *)

Lemma load_store m k k' x : k < length m →
  load (store m k x) k' = if decide (k = k') then to_uint32 x else load m k'.
Proof.
  intros Hk. unfold load, store. rewrite list_lookup_insert. case_decide as E.
  - destruct E as [-> _]. by rewrite decide_True.
  - rewrite decide_False; [done|]. naive_solver.
Qed.

Lemma length_store m k x : length (store m k x) = length m.
Proof. apply length_insert. Qed.

Lemma word_of_spec c : (Z.of_nat c < 2 ^ 36)%Z → word_of c = c / 32.
Proof.
  intros Hc. unfold word_of, js_trunc_div. rewrite Z.quot_div_nonneg by lia.
  rewrite to_int32_small; [change 32%Z with (Z.of_nat 32); by rewrite <- Nat2Z.inj_div, Nat2Z.id|]. split; [apply Z.div_pos; lia|apply Z.div_lt_upper_bound; lia].
Qed.

Lemma mask_of_spec c : mask_of c = js_shl 1 (Z.of_nat (c mod 32)).
Proof.
  unfold mask_of. rewrite Z.rem_mod_nonneg by lia. f_equal.
  change 32%Z with (Z.of_nat 32). by rewrite <- Nat2Z.inj_mod.
Qed.

(** The rows are disjoint. *)
Lemma row_word_inj w x a y b : a < w → b < w → x * w + a = y * w + b → x = y ∧ a = b.
Proof. intros Ha Hb E. assert (x = y) by nia. subst. lia. Qed.

Definition rowbit (w : nat) (m : list Z) (x y : nat) : bool :=
  Z.testbit (load m (x * w + y / 32)) (Z.of_nat (y mod 32)).

Lemma in_row n w x a : x < n → a < w → x * w + a < n * w.
Proof. nia. Qed.

Section rows.
Variables (n w : nat).

Lemma length_or_row dest src m : length (or_row w dest src m) = length m.
Proof.
  unfold or_row. revert m. induction (seq 0 w) as [|i l IH]; intros m; simpl; [done|].
  by rewrite IH, length_store.
Qed.

Lemma length_swap_rows l r m : length (swap_rows w l r m) = length m.
Proof.
  unfold swap_rows. revert m. induction (seq 0 w) as [|i k IH]; intros m; simpl; [done|].
  by rewrite IH, !length_store.
Qed.

(** The word loops, stated for a prefix of the row and proved by induction on
    its length. *)
Lemma or_row_words x y m : x < n → y < n → x ≠ y → length m = n * w → ∀ k, k ≤ w →
  let m' := foldl (λ m word, store m (x * w + word)
               (js_or (load m (x * w + word)) (load m (y * w + word)))) m (seq 0 k) in
  length m' = n * w ∧
  ∀ z a, a < w → load m' (z * w + a) =
    if decide (z = x ∧ a < k) then to_uint32 (js_or (load m (x * w + a)) (load m (y * w + a)))
    else load m (z * w + a).
Proof.
  intros Hx Hy Hne Hm. induction k as [|k IH]; intros Hk.
  - simpl. split; [done|]. intros z a Ha. by rewrite decide_False by lia.
  - rewrite seq_S, foldl_app. simpl. destruct IH as [Hlen IH]; [lia|].
    split; [by rewrite length_store|]. intros z a Ha.
    rewrite load_store by (rewrite Hlen; apply in_row; lia).
    rewrite !IH by lia. rewrite !(decide_False (P := _ ∧ k < k)) by lia.
    case_decide as E.
    + apply row_word_inj in E as [-> <-]; [|lia..]. by rewrite decide_True by lia.
    + destruct (decide (z = x ∧ a < k)) as [[-> ?]|]; [by rewrite decide_True by lia|].
      rewrite decide_False; [done|]. intros [-> ?]. apply E. f_equal. lia.
Qed.

Lemma swap_rows_words x y m : x < n → y < n → x ≠ y → length m = n * w →
  (∀ k, (0 ≤ load m k < two32)%Z) → ∀ k, k ≤ w →
  let m' := foldl (λ m word,
    store (store m (x * w + word) (load m (y * w + word)))
      (y * w + word) (load m (x * w + word))) m (seq 0 k) in
  length m' = n * w ∧
  ∀ z a, a < w → load m' (z * w + a) =
    if decide (a < k) then load m ((if decide (z = x) then y else if decide (z = y) then x else z) * w + a)
    else load m (z * w + a).
Proof.
  intros Hx Hy Hne Hm Hw. induction k as [|k IH]; intros Hk.
  - cbn [seq foldl]. split; [done|]. intros z a Ha. destruct (decide (a < 0)); [lia|done].
  - rewrite seq_S, foldl_app. simpl. destruct IH as [Hlen IH]; [lia|].
    split; [by rewrite !length_store|]. intros z a Ha.
    rewrite load_store by (rewrite length_store, Hlen; apply in_row; lia).
    rewrite load_store by (rewrite Hlen; apply in_row; lia).
    rewrite !IH by lia. rewrite !(decide_False (P := k < k)) by lia.
    rewrite !to_uint32_small by apply Hw.
    destruct (decide (y * w + k = z * w + a)) as [E|E].
    + apply row_word_inj in E as [<- <-]; [|lia..].
      rewrite (decide_True (P := k < S k)) by lia. rewrite (decide_False (P := y = x)) by lia.
      by rewrite decide_True.
    + destruct (decide (x * w + k = z * w + a)) as [E'|E'].
      * apply row_word_inj in E' as [<- <-]; [|lia..].
        rewrite (decide_True (P := k < S k)) by lia. by rewrite decide_True.
      * destruct (decide (a < k)); [by rewrite (decide_True (P := a < S k)) by lia|].
        destruct (decide (a < S k)) as [Ha'|]; [|done]. assert (a = k) as -> by lia.
        rewrite decide_False by (intros ->; done). by rewrite decide_False by (intros ->; done).
Qed.

Hypothesis w_small : (Z.of_nat (32 * w) ≤ 2 ^ 36)%Z.

Definition words_ok (m : list Z) : Prop := length m = n * w ∧ ∀ k, (0 ≤ load m k < two32)%Z.

Lemma words_ok_store m k x : words_ok m → k < n * w → words_ok (store m k x).
Proof.
  intros [Hl Hw] Hk. split; [by rewrite length_store|]. intros k'. rewrite load_store by lia.
  case_decide; [apply to_uint32_range|apply Hw].
Qed.

(** Setting one bit. *)
Lemma set_bit_spec m x c : words_ok m → x < n → c < 32 * w →
  let m' := store m (x * w + word_of c) (js_or (load m (x * w + word_of c)) (mask_of c)) in
  words_ok m' ∧
  ∀ z y, y < 32 * w → rowbit w m' z y = rowbit w m z y || bool_decide (z = x ∧ y = c).
Proof.
  intros Hm Hx Hc. rewrite word_of_spec, mask_of_spec by lia. cbv zeta.
  assert (c / 32 < w) as Hcw by (apply Nat.Div0.div_lt_upper_bound; lia).
  split; [apply words_ok_store; [done|by apply in_row]|]. intros z y Hy. unfold rowbit.
  assert (y / 32 < w) as Hyw by (apply Nat.Div0.div_lt_upper_bound; lia).
  rewrite load_store by (destruct Hm as [-> _]; by apply in_row). case_decide as E.
  - apply row_word_inj in E as [<- E]; [|lia..]. rewrite E.
    pose proof (Nat.mod_upper_bound y 32 ltac:(lia)). pose proof (Nat.mod_upper_bound c 32 ltac:(lia)).
    rewrite testbit_to_uint32, testbit_js_or, testbit_js_shl1 by lia. f_equal.
    apply bool_decide_ext. pose proof (Nat.div_mod_eq y 32). pose proof (Nat.div_mod_eq c 32). lia.
  - rewrite bool_decide_false; [by rewrite orb_false_r|]. intros [-> ->]. done.
Qed.

Lemma or_row_spec m x y : words_ok m → x < n → y < n → x ≠ y →
  words_ok (or_row w (x * w) (y * w) m) ∧
  ∀ z c, c < 32 * w → rowbit w (or_row w (x * w) (y * w) m) z c =
    if decide (z = x) then rowbit w m x c || rowbit w m y c else rowbit w m z c.
Proof.
  intros [Hl Hw] Hx Hy Hne. destruct (or_row_words x y m Hx Hy Hne Hl w ltac:(lia)) as [Hlen Hload].
  fold (or_row w (x * w) (y * w) m) in *. split.
  - split; [done|]. intros k. destruct (decide (w = 0)) as [->|Hw0].
    { unfold load. rewrite lookup_ge_None_2 by lia. simpl. unfold two32. lia. }
    rewrite (Nat.div_mod_eq k w), (Nat.mul_comm w).
    rewrite Hload by (by apply Nat.mod_upper_bound). case_decide; [apply to_uint32_range|apply Hw].
  - intros z c Hc. assert (c / 32 < w) as Hcw by (apply Nat.Div0.div_lt_upper_bound; lia).
    unfold rowbit. rewrite Hload by done. destruct (decide (z = x)) as [->|].
    + rewrite decide_True by done. pose proof (Nat.mod_upper_bound c 32 ltac:(lia)).
      by rewrite testbit_to_uint32, testbit_js_or by lia.
    + by rewrite decide_False by naive_solver.
Qed.

Lemma swap_rows_spec m x y : words_ok m → x < n → y < n → x ≠ y →
  words_ok (swap_rows w (x * w) (y * w) m) ∧
  ∀ z c, c < 32 * w → rowbit w (swap_rows w (x * w) (y * w) m) z c =
    rowbit w m (if decide (z = x) then y else if decide (z = y) then x else z) c.
Proof.
  intros [Hl Hw] Hx Hy Hne. destruct (swap_rows_words x y m Hx Hy Hne Hl Hw w ltac:(lia)) as [Hlen Hload].
  fold (swap_rows w (x * w) (y * w) m) in *. split.
  - split; [done|]. intros k. destruct (decide (w = 0)) as [->|Hw0].
    { unfold load. rewrite lookup_ge_None_2 by lia. simpl. unfold two32. lia. }
    rewrite (Nat.div_mod_eq k w), (Nat.mul_comm w).
    rewrite Hload by (by apply Nat.mod_upper_bound). case_decide; apply Hw.
  - intros z c Hc. assert (c / 32 < w) as Hcw by (apply Nat.Div0.div_lt_upper_bound; lia).
    unfold rowbit. rewrite Hload by done. by rewrite decide_True.
Qed.

End rows.

(** ** The constructor refines the abstract matrix *)

Lemma index_hashes_spec order : NoDup order → ∀ h i,
  index_hashes order !! h = Some i ↔ order !! i = Some h.
Proof.
  unfold index_hashes. induction order as [|x order IH] using rev_ind; intros Hnd h i; [done|].
  apply NoDup_app in Hnd as (Hnd & Hx & _). rewrite imap_app, foldl_app. simpl.
  rewrite Nat.add_0_r, lookup_insert. case_decide as E.
  - subst h. split.
    + intros [= <-]. by apply list_lookup_middle.
    + intros Hi. apply lookup_app_Some in Hi as [Hi|[Hge Hi]].
      * exfalso. apply (Hx x); [by eapply list_elem_of_lookup_2|set_solver].
      * apply list_lookup_singleton_Some in Hi as [? _]. f_equal. lia.
  - rewrite IH by done. split; [intros; by apply lookup_app_l_Some|].
    intros [?|[_ [_ ?]%list_lookup_singleton_Some]]%lookup_app_Some; congruence.
Qed.

Lemma words_per_row_spec n : 0 < words_per_row n ∧ n ≤ 32 * words_per_row n ∧
  32 * words_per_row n ≤ n + 32.
Proof.
  unfold words_per_row. pose proof (Nat.div_mod_eq (n + 31) 32).
  pose proof (Nat.mod_upper_bound (n + 31) 32 ltac:(lia)). case_decide; lia.
Qed.

Section matrix.
Variables (g : HashGraph) (order : list Hash).
Hypothesis Hnd : NoDup order.
Hypothesis Hcausal : causal_order g order.
Hypothesis Hsize : (Z.of_nat (length order) ≤ 2 ^ 35)%Z.

Local Abbreviation n := (length order).
Local Abbreviation w := (words_per_row n).

Lemma w_small : (Z.of_nat (32 * w) ≤ 2 ^ 36)%Z.
Proof. pose proof (words_per_row_spec n). lia. Qed.

Record matrix_ref (m : list Z) (R : amat) : Prop := {
  mr_words : words_ok n w m;
  mr_bits : ∀ x y, x < n → y < n → rowbit w m x y = R x y
}.

Lemma add_dependency_ref k h m R dep : order !! k = Some h → dep ∈ getDependencies g h →
  matrix_ref m R →
  matrix_ref (add_dependency w (index_hashes order) k m dep)
    (foldl (amat_dep k) R (index_of order <$> filter (λ d, d ∈ order) [dep])).
Proof.
  intros Hk Hdep [Hw Hb]. unfold add_dependency. rewrite filter_cons.
  destruct (decide (dep ∈ order)) as [Hin|Hin]; cycle 1.
  { destruct (index_hashes order !! dep) as [d|] eqn:E; [|by split].
    apply index_hashes_spec in E; [|done]. destruct Hin. by eapply list_elem_of_lookup_2. }
  pose proof (index_of_lookup order dep Hin) as Hd. simpl. set (d := index_of order dep) in *.
  rewrite (proj2 (index_hashes_spec order Hnd dep d) Hd).
  assert (d < k) as Hdk by (by eapply Hcausal).
  assert (k < n) as Hkn by (by eapply lookup_lt_Some).
  pose proof (words_per_row_spec n) as (_ & Hnw & _). pose proof w_small as Hws.
  destruct (set_bit_spec n w Hws m d d Hw ltac:(lia) ltac:(lia)) as [Hw1 Hb1].
  destruct (or_row_spec n w Hws _ k d Hw1 Hkn ltac:(lia) ltac:(lia)) as [Hw2 Hb2].
  split; [done|]. intros x y Hx Hy. rewrite Hb2 by lia. unfold amat_dep. case_decide.
  - subst. rewrite !Hb1, !Hb by lia. done.
  - by rewrite Hb1, Hb by lia.
Qed.

Lemma add_row_ref k h m R : order !! k = Some h → matrix_ref m R →
  matrix_ref (add_row g w (index_hashes order) m (k, h)) (amat_row (order_deps g order) R k).
Proof.
  intros Hk. unfold add_row, amat_row, order_deps. rewrite Hk. simpl.
  assert (∀ ds m R, (∀ d, d ∈ ds → d ∈ getDependencies g h) → matrix_ref m R →
    matrix_ref (foldl (add_dependency w (index_hashes order) k) m ds)
      (foldl (amat_dep k) R (index_of order <$> filter (λ d, d ∈ order) ds))) as Hds; [|by apply Hds].
  induction ds as [|d ds IH]; intros m' R' Hds Href; [done|].
  replace (foldl (amat_dep k) R' (index_of order <$> filter (λ d, d ∈ order) (d :: ds)))
    with (foldl (amat_dep k) (foldl (amat_dep k) R' (index_of order <$> filter (λ d, d ∈ order) [d]))
            (index_of order <$> filter (λ d, d ∈ order) ds))
    by (rewrite !filter_cons; by case_decide).
  simpl. apply IH; [set_solver|]. apply (add_dependency_ref k h); [done|set_solver|done].
Qed.

Lemma new_ref : matrix_ref (matrix (new g order)) (amat_build (order_deps g order) n).
Proof.
  assert (∀ k, k ≤ n → matrix_ref
    (foldl (add_row g w (index_hashes order)) (replicate (n * w) 0%Z) (imap pair (take k order)))
    (amat_build (order_deps g order) k)) as Hk; [|by specialize (Hk n ltac:(lia)); rewrite firstn_all in Hk].
  induction k as [|k IH]; intros Hk.
  - rewrite take_0. simpl. assert (∀ j, load (replicate (n * w) 0%Z) j = 0%Z) as Hz.
    { intros j. unfold load. destruct (_ !! j) eqn:E; [|done]. by apply lookup_replicate in E as [-> _]. }
    split; [split; [apply length_replicate|]|].
    + intros j. rewrite Hz. unfold two32. lia.
    + intros x y _ _. unfold rowbit. rewrite Hz. apply Z.bits_0.
  - destruct (lookup_lt_is_Some_2 order k) as [h Hh]; [lia|].
    rewrite (take_S_r _ _ _ Hh), imap_app, foldl_app. unfold amat_build.
    rewrite seq_S, foldl_app. simpl. rewrite length_take, Nat.add_0_r, Nat.min_l by lia.
    apply add_row_ref; [done|]. apply IH. lia.
Qed.

(** [has] reads one bit of the matrix. *)
Lemma has_spec m x y : words_ok n w m → y < n →
  has (mk m (index_hashes order) w) x y = rowbit w m x y.
Proof.
  intros Hw Hy. unfold has, rowbit. simpl. rewrite word_of_spec, mask_of_spec by lia.
  apply js_and_bit. pose proof (Nat.mod_upper_bound y 32 ltac:(lia)). lia.
Qed.

Lemma legacy_new_related h1 h2 : h1 ∈ order → h2 ∈ order → h1 ≠ h2 →
  areRelated (new g order) h1 h2 = true ↔
  tc (within g order) h1 h2 ∨ tc (within g order) h2 h1.
Proof.
  intros H1 H2 Hne. pose proof new_ref as [Hw Hb].
  pose proof (index_of_lookup order h1 H1) as L1. pose proof (index_of_lookup order h2 H2) as L2.
  set (i := index_of order h1) in *. set (j := index_of order h2) in *.
  assert (i < n) as Li by (by eapply lookup_lt_Some).
  assert (j < n) as Lj by (by eapply lookup_lt_Some).
  assert (i ≠ j) as Hij by (intros E; rewrite E in L1; congruence).
  unfold areRelated.
  change (indexByHash (new g order)) with (index_hashes order).
  rewrite (proj2 (index_hashes_spec order Hnd h1 i) L1), (proj2 (index_hashes_spec order Hnd h2 j) L2).
  change (new g order) with (mk (matrix (new g order)) (index_hashes order) w).
  rewrite !has_spec, !Hb, orb_true_iff by done.
  rewrite !(amat_build_spec _ (order_deps_lt g order Hcausal)) by (done || lia).
  by rewrite !(adep_within g order Hnd _ _ _ _) by done.
Qed.

(** Exchanging the rows of two hashes: a query reads, at the same columns, the
    row of the other hash. *)
Lemma legacy_swap m a b x y : words_ok n w m → a ∈ order → b ∈ order → a ≠ b → y < n →
  let c := mk m (index_hashes order) w in
  let c' := swapReachablePredecessors c a b in
  (∃ m', c' = mk m' (index_hashes order) w ∧ words_ok n w m') ∧
  has c' x y = has c (if decide (x = index_of order a) then index_of order b
                      else if decide (x = index_of order b) then index_of order a else x) y.
Proof.
  intros Hw Ha Hb Hne Hy. cbv zeta. unfold swapReachablePredecessors. simpl.
  pose proof (index_of_lookup order a Ha) as La. pose proof (index_of_lookup order b Hb) as Lb.
  rewrite (proj2 (index_hashes_spec order Hnd a _) La), (proj2 (index_hashes_spec order Hnd b _) Lb).
  set (i := index_of order a) in *. set (j := index_of order b) in *.
  assert (i < n) as Li by (by eapply lookup_lt_Some).
  assert (j < n) as Lj by (by eapply lookup_lt_Some).
  assert (i ≠ j) as Hij by (intros E; rewrite E in La; congruence).
  destruct (swap_rows_spec n w w_small m i j Hw Li Lj Hij) as [Hw' Hbits].
  split; [eauto|]. pose proof (words_per_row_spec n). rewrite !has_spec by done. apply Hbits. lia.
Qed.

End matrix.
