(* ===== verification/Linearize.v ===== *)
(** * Linearization ([packages/object/src/linearize/], [HashGraph.linearizeVertices], [getLCA])

    The two linearizers sort a subgraph and let the conflict resolver drop,
    swap or keep concurrent operations. Their inner loops stop only if the
    resolver cooperates (a resolver that always answers [Swap], or [Drop] with
    nothing to drop, makes them run forever), so the fuel of the inner loop is a
    parameter and [LinearizeOutOfFuel] the outcome of a loop that did not stop
    within it; the termination theorems say which resolvers exclude it. *)

From S2P Require Import Prelude JsMap JsNum Bits JsValue Types HashGraph Dag TopoSort Causality Lca.
From S2P Require Import LegacyCausality.

Abbreviation causality := LegacyCausalityMatrix.t (only parsing).

(** ** Shared by the two linearizers *)

(** [order.some((hash) => hash !== origin && hashGraph.hasCustomConflictResolver(...))] *)
Definition needsConflictResolution (g : HashGraph) (origin : Hash) (order : list Hash) : bool :=
  existsb (λ h, negb (bool_decide (h = origin)) &&
                hasCustomConflictResolver g (getVertex g h ≫= drpType_of)) order.

(** The vertices of an order, without the origin and without unknown hashes. *)
Definition vertices_of (g : HashGraph) (origin : Hash) (order : list Hash) : list Vertex :=
  omap (λ h, if decide (h = origin) then None else getVertex g h) order.

Definition push_vertex (g : HashGraph) (result : list Vertex) (h : Hash) : list Vertex :=
  match getVertex g h with
  | Some v => result ++ [v]
  | None => result
  end.

Definition is_dropped (dropped : list bool) (k : nat) : bool := default false (dropped !! k).

(** ** [linearizePairSemantics] *)

Record pair_scan := mkScan {
  sc_j : nat;
  sc_anchor : Hash;
  sc_order : list Hash;
  sc_dropped : list bool;
  sc_causality : causality
}.

(** One iteration of the loop over [j] for the entry [i]. A [Swap] sets [j] to
    [i + 1], which the loop's increment then advances to [i + 2]. *)
Definition pair_scan_step (g : HashGraph) (i : nat) (s : pair_scan) : iter pair_scan pair_scan :=
  let '(mkScan j anchor order dropped c) := s in
  match order !! j with
  | None => Done s
  | Some hj =>
      if is_dropped dropped j || LegacyCausalityMatrix.areRelated c anchor hj
      then Next (mkScan (S j) anchor order dropped c)
      else
        match getVertex g anchor, getVertex g hj with
        | Some vl, Some vr =>
            match action (resolveConflicts g [vl; vr]) with
            | ActDropLeft => Done (mkScan j anchor order (<[i := true]> dropped) c)
            | ActDropRight => Next (mkScan (S j) anchor order (<[j := true]> dropped) c)
            | ActSwap =>
                let hi := default anchor (order !! i) in
                let c := LegacyCausalityMatrix.swapReachablePredecessors c hi hj in
                Next (mkScan (S (S i)) hj (<[j := hi]> (<[i := hj]> order)) dropped c)
            | _ => Next (mkScan (S j) anchor order dropped c)
            end
        | _, _ => Next (mkScan (S j) anchor order dropped c)
        end
  end.

Record pair_state := mkPair {
  ps_order : list Hash;
  ps_dropped : list bool;
  ps_causality : causality;
  ps_result : list Vertex
}.

Definition pair_step (g : HashGraph) (fuel : nat) (origin : Hash) (s : pair_state) (i : nat) :
    res graph_error pair_state :=
  let '(mkPair order dropped c result) := s in
  match order !! i with
  | None => Ok s
  | Some anchor =>
      if decide (anchor = origin) then Ok s
      else if is_dropped dropped i then Ok s
      else
        match loop (pair_scan_step g i) fuel (mkScan (S i) anchor order dropped c) with
        | None => Throw LinearizeOutOfFuel
        | Some (mkScan _ _ order dropped c) =>
            let result := if is_dropped dropped i then result
                          else push_vertex g result (default EmptyString (order !! i)) in
            Ok (mkPair order dropped c result)
        end
  end.

Definition linearizePairSemantics (fuel : nat) (g : HashGraph) (origin : Hash) (subgraph : gset Hash) :
    HashGraph * res graph_error (list Vertex) :=
  let '(g, r) := dfsTopologicalSortIterative g origin subgraph in
  (g, order ← r;
      if negb (needsConflictResolution g origin order) then Ok (vertices_of g origin order)
      else
        let init := mkPair order (replicate (length order) false)
                      (LegacyCausalityMatrix.new g order) [] in
        s ← foldl (λ acc i, s ← acc; pair_step g fuel origin s i) (Ok init) (seq 0 (length order));
        Ok (ps_result s)).

(** ** [linearizeMultipleSemantics] *)

(** The loop over [k]: every later undropped entry that is concurrent with all
    the operations collected so far joins them. *)
Definition collect_step (c : causality) (order : list Hash) (dropped : list bool)
    (st : list Hash * gmap Hash nat) (k : nat) : list Hash * gmap Hash nat :=
  let '(ops, indices) := st in
  match order !! k with
  | None => st
  | Some hk =>
      if is_dropped dropped k then st
      else if existsb (λ h, LegacyCausalityMatrix.areRelated c h hk) ops then st
      else (ops ++ [hk], <[hk := k]> indices)
  end.

(** [dropped[indices.get(hash) || -1] = true]: an absent hash and index 0 both
    write the property [-1], which no entry of the array is. *)
Definition drop_hash (indices : gmap Hash nat) (dropped : list bool) (h : Hash) : list bool :=
  match indices !! h with
  | Some (S k) => <[S k := true]> dropped
  | _ => dropped
  end.

Record multi_scan := mkMultiScan {
  ms_j : nat;
  ms_dropped : list bool;
  ms_indices : gmap Hash nat
}.

Definition multi_scan_step (g : HashGraph) (c : causality) (order : list Hash) (i : nat) (anchor : Hash)
    (s : multi_scan) : iter multi_scan (res graph_error multi_scan) :=
  let '(mkMultiScan j dropped indices) := s in
  match order !! j with
  | None => Done (Ok s)
  | Some moving =>
      if LegacyCausalityMatrix.areRelated c anchor moving || is_dropped dropped j
      then Next (mkMultiScan (S j) dropped indices)
      else
        let indices := <[moving := j]> (<[anchor := i]> indices) in
        let '(ops, indices) :=
          foldl (collect_step c order dropped) ([anchor; moving], indices)
            (seq (S j) (length order - S j)) in
        match mapM (getVertex g) ops with
        | None => Done (Throw UndefinedVertex)
        | Some vs =>
            let r := resolveConflicts g vs in
            match action r with
            | ActDrop =>
                let dropped := foldl (drop_hash indices) dropped (default [] (resolved_vertices r)) in
                Next (mkMultiScan (if is_dropped dropped i then length order else j) dropped indices)
            | ActNop => Next (mkMultiScan (S j) dropped indices)
            | _ => Next (mkMultiScan j dropped indices)
            end
        end
  end.

Record multi_state := mkMulti {
  mu_dropped : list bool;
  mu_indices : gmap Hash nat;
  mu_result : list Vertex
}.

Definition multi_step (g : HashGraph) (fuel : nat) (origin : Hash) (c : causality) (order : list Hash)
    (s : multi_state) (i : nat) : res graph_error multi_state :=
  let '(mkMulti dropped indices result) := s in
  match order !! i with
  | None => Ok s
  | Some anchor =>
      if decide (anchor = origin) then Ok s
      else if is_dropped dropped i then Ok s
      else
        match loop (multi_scan_step g c order i anchor) fuel (mkMultiScan (S i) dropped indices) with
        | None => Throw LinearizeOutOfFuel
        | Some r =>
            s ← r;
            Ok (mkMulti (ms_dropped s) (ms_indices s)
                  (if is_dropped (ms_dropped s) i then result else push_vertex g result anchor))
        end
  end.

Definition linearizeMultipleSemantics (fuel : nat) (g : HashGraph) (origin : Hash)
    (subgraph : gset Hash) : HashGraph * res graph_error (list Vertex) :=
  let '(g, r) := dfsTopologicalSortIterative g origin subgraph in
  (g, order ← r;
      if negb (needsConflictResolution g origin order) then Ok (vertices_of g origin order)
      else
        let c := LegacyCausalityMatrix.new g order in
        let init := mkMulti (replicate (length order) false) ∅ [] in
        s ← foldl (λ acc i, s ← acc; multi_step g fuel origin c order s i) (Ok init)
              (seq 0 (length order));
        Ok (mu_result s)).

(** ** [linearizeVertices] and [getLCA] *)

Definition linearizeVertices (fuel : nat) (g : HashGraph) (origin : Hash) (subgraph : gset Hash) :
    HashGraph * res graph_error (list Vertex) :=
  match semanticsTypeDRP g with
  | Some SemPair => linearizePairSemantics fuel g origin subgraph
  | Some SemMultiple => linearizeMultipleSemantics fuel g origin subgraph
  | None => (g, Ok [])
  end.

Definition getLCA (fuel : nat) (g : HashGraph) (deps : list Hash) :
    HashGraph * res graph_error (Hash * list Vertex) :=
  match deps with
  | [d] => (g, Ok (d, []))
  | _ =>
      match lowestCommonAncestorMultipleVertices g deps ∅ with
      | Throw e => (g, Throw e)
      | Ok (lca, subgraph) =>
          let '(g, r) := linearizeVertices fuel g lca subgraph in
          (g, vs ← r; Ok (lca, vs))
      end
  end.
