(* ===== verification/LinearizePair.v ===== *)
(** * Correctness of [linearizePairSemantics]

    A recursive reference definition [linearize_spec] of what the flag-and-index
    loops compute when the resolver never swaps, the refinement of the loops to
    it, and what the reference guarantees; termination for resolvers whose swaps
    follow a priority. *)

From S2P Require Import Prelude JsMap JsNum Bits JsValue Types HashGraph Dag TopoSort Causality Lca.
From S2P Require Import LegacyCausality Linearize.

(** ** The reference definition *)

Section reference.
Variable rel : Hash → Hash → bool.
Variable act : Hash → Hash → ActionType.

(** Compare [x] with the later entries, first to last: the first [DropLeft]
    drops [x] and stops, every [DropRight] drops the other entry. *)
Fixpoint scan (x : Hash) (l : list Hash) : bool * list Hash :=
  match l with
  | [] => (true, [])
  | y :: l' =>
      if rel x y then let '(k, r) := scan x l' in (k, y :: r)
      else
        match act x y with
        | ActDropLeft => (false, y :: l')
        | ActDropRight => scan x l'
        | _ => let '(k, r) := scan x l' in (k, y :: r)
        end
  end.

Fixpoint linearize_n (n : nat) (l : list Hash) : list Hash :=
  match n, l with
  | S n, x :: l =>
      let '(k, r) := scan x l in
      if k : bool then x :: linearize_n n r else linearize_n n r
  | _, _ => []
  end.

(** [scan] never returns more entries than it was given, so the length is
    enough. *)
Definition linearize_spec (l : list Hash) : list Hash := linearize_n (length l) l.

Lemma scan_sublist x l : (scan x l).2 `sublist_of` l.
Proof.
  induction l as [|y l IH]; simpl; [done|]. destruct (scan x l) as [k r]. simpl in IH.
  destruct (rel x y); [by constructor|]. destruct (act x y); simpl; by constructor || done.
Qed.

Lemma linearize_n_enough n l : length l ≤ n → linearize_n n l = linearize_spec l.
Proof.
  unfold linearize_spec. remember (length l) as m eqn:Hm. revert n l Hm.
  induction (lt_wf m) as [m _ IH]. intros n [|x l] -> Hn; [by destruct n|]. simpl in *.
  destruct n as [|n]; [lia|]. simpl. pose proof (scan_sublist x l) as Hs. destruct (scan x l) as [k r].
  simpl in Hs. apply sublist_length in Hs.
  assert (linearize_n n r = linearize_n (length l) r) as ->; [|done].
  rewrite (IH (length r) ltac:(lia) n r), (IH (length r) ltac:(lia) (length l) r); (done || lia).
Qed.

Lemma linearize_spec_cons x l :
  linearize_spec (x :: l) =
  let '(k, r) := scan x l in if k : bool then x :: linearize_spec r else linearize_spec r.
Proof.
  unfold linearize_spec at 1. simpl. pose proof (scan_sublist x l) as Hs. destruct (scan x l) as [k r].
  simpl in Hs. apply sublist_length in Hs. by rewrite linearize_n_enough.
Qed.

Lemma linearize_spec_ind (P : list Hash → Prop) :
  P [] → (∀ x l, P (scan x l).2 → P (x :: l)) → ∀ l, P l.
Proof.
  intros H0 Hcons l. remember (length l) as m eqn:Hm. revert l Hm.
  induction (lt_wf m) as [m _ IH]. intros [|x l] ->; [done|]. apply Hcons.
  eapply IH; [|done]. simpl. pose proof (sublist_length _ _ (scan_sublist x l)). lia.
Qed.

Lemma linearize_spec_sublist l : linearize_spec l `sublist_of` l.
Proof.
  induction l as [|x l IH] using linearize_spec_ind; [done|].
  rewrite linearize_spec_cons. pose proof (scan_sublist x l) as Hs.
  destruct (scan x l) as [[] r]; simpl in *.
  - constructor. by etrans.
  - constructor. by etrans.
Qed.

(** What survives next to a kept [x] does not conflict with it. *)
Lemma scan_kept x l y : (scan x l).1 = true → y ∈ (scan x l).2 → rel x y = false →
  act x y ≠ ActDropLeft ∧ act x y ≠ ActDropRight.
Proof.
  induction l as [|z l IH]; simpl; [set_solver|]. destruct (scan x l) as [k r]. simpl in IH.
  destruct (rel x z) eqn:Hz; simpl.
  - intros -> [->|Hy]%elem_of_cons Hrel; [congruence|auto].
  - destruct (act x z) eqn:Ha; simpl; try done; auto;
      intros -> [->|Hy]%elem_of_cons Hrel; auto; rewrite Ha; done.
Qed.

Lemma linearize_spec_conflict_free l i j x y : i < j →
  linearize_spec l !! i = Some x → linearize_spec l !! j = Some y → rel x y = false →
  act x y ≠ ActDropLeft ∧ act x y ≠ ActDropRight.
Proof.
  revert i j. induction l as [|z l IH] using linearize_spec_ind; intros i j Hij; [done|].
  rewrite linearize_spec_cons. pose proof (scan_kept z l) as Hk.
  destruct (scan z l) as [[] r]; simpl in *; [|by apply IH].
  destruct j as [|j]; [lia|]. destruct i as [|i]; simpl.
  - intros [= ->] Hy Hrel. apply Hk; [done| |done].
    eapply elem_of_sublist; [by eapply list_elem_of_lookup_2|apply linearize_spec_sublist].
  - intros Hx Hy. eapply IH; [|done..]. lia.
Qed.

(** Why an entry of the input is missing from the output: the resolver dropped
    it against an entry it was not related to, a later one (as the left
    operand) or an earlier one (as the right operand). *)
Definition dropped_because (l : list Hash) (h : Hash) : Prop :=
  (∃ y, [h; y] `sublist_of` l ∧ rel h y = false ∧ act h y = ActDropLeft) ∨
  (∃ y, [y; h] `sublist_of` l ∧ rel y h = false ∧ act y h = ActDropRight).

Lemma dropped_because_mono l k h : l `sublist_of` k → dropped_because l h → dropped_because k h.
Proof.
  intros Hs [(y & H1 & H2)|(y & H1 & H2)]; [left|right]; exists y; (split; [by etrans|done]).
Qed.

Lemma scan_left x l : (scan x l).1 = false → ∃ y, y ∈ l ∧ rel x y = false ∧ act x y = ActDropLeft.
Proof.
  induction l as [|z l IH]; simpl; [done|]. destruct (scan x l) as [k r]. simpl in IH.
  destruct (rel x z) eqn:Hz; simpl.
  - intros (y & ? & ?)%IH. exists y. split; [by right|done].
  - destruct (act x z) eqn:Ha; simpl; try (intros (y & ? & ?)%IH; exists y; split; [by right|done]).
    intros _. exists z. split; [left|done].
Qed.

Lemma scan_right x l y : y ∈ l → y ∉ (scan x l).2 → rel x y = false ∧ act x y = ActDropRight.
Proof.
  induction l as [|z l IH]; simpl; [set_solver|]. destruct (scan x l) as [k r]. simpl in IH.
  destruct (rel x z) eqn:Hz; simpl; [set_solver|].
  destruct (act x z) eqn:Ha; simpl; try set_solver.
Qed.

Lemma linearize_spec_dropped l h : h ∈ l → h ∉ linearize_spec l → dropped_because l h.
Proof.
  induction l as [|x l IH] using linearize_spec_ind; [set_solver|].
  rewrite linearize_spec_cons. pose proof (scan_sublist x l) as Hs.
  pose proof (scan_left x l) as Hleft. pose proof (scan_right x l h) as Hright.
  intros Hin Hout. destruct (scan x l) as [k r]. simpl in *.
  destruct (decide (h = x)) as [->|Hne].
  - destruct k; [set_solver|]. destruct Hleft as (y & Hy & Hr & Ha); [done|].
    left. exists y. split; [|done]. constructor. by apply singleton_sublist_l.
  - assert (h ∈ l) as Hl by set_solver. destruct (decide (h ∈ r)) as [Hr|Hr].
    + eapply dropped_because_mono; [|apply IH; [done|]]; [by constructor|].
      destruct k; set_solver.
    + destruct Hright as [Hrel Ha]; [done..|]. right. exists x. split; [|done].
      constructor. by apply singleton_sublist_l.
Qed.
End reference.

(** ** The loops refine the reference *)

(** The entries whose flag is not set. *)
Fixpoint alive (l : list Hash) (dropped : list bool) : list Hash :=
  match l, dropped with
  | h :: l, b :: dropped => if b : bool then alive l dropped else h :: alive l dropped
  | _, _ => []
  end.

Section refine.
Variables (g : HashGraph) (origin : Hash) (order : list Hash) (c : causality).

Definition act_of (x y : Hash) : ActionType :=
  match getVertex g x, getVertex g y with
  | Some vl, Some vr => action (resolveConflicts g [vl; vr])
  | _, _ => ActNop
  end.

Hypothesis no_swap : ∀ x y, act_of x y ≠ ActSwap.

Local Abbreviation rel := (LegacyCausalityMatrix.areRelated c).
Definition alive_from (j : nat) (dropped : list bool) : list Hash :=
  alive (drop j order) (drop j dropped).

Lemma alive_at j dropped h (b : bool) : order !! j = Some h → dropped !! j = Some b →
  alive_from j dropped = if b then alive_from (S j) dropped else h :: alive_from (S j) dropped.
Proof. intros Ho Hd. unfold alive_from. rewrite (drop_S _ _ _ Ho), (drop_S _ _ _ Hd). done. Qed.

Lemma alive_end j dropped : length order ≤ j → alive_from j dropped = [].
Proof. intros Hj. unfold alive_from. by rewrite drop_ge. Qed.

Lemma pair_scan_refines i x fuel : ∀ j dropped,
  i < j → length dropped = length order → dropped !! i = Some false → length order - j < fuel →
  ∃ j' dropped', loop (pair_scan_step g i) fuel (mkScan j x order dropped c)
      = Some (mkScan j' x order dropped' c) ∧
    length dropped' = length order ∧
    (scan rel act_of x (alive_from j dropped)) = (negb (is_dropped dropped' i), alive_from j dropped') ∧
    ∀ k, k < j → k ≠ i → dropped' !! k = dropped !! k.
Proof.
  induction fuel as [|fuel IH]; intros j dropped Hij Hlen Hi Hf; [lia|]. simpl.
  destruct (order !! j) as [hj|] eqn:Hj; cycle 1.
  { apply lookup_ge_None in Hj. exists j, dropped. split; [done|]. split; [done|].
    split; [|done]. rewrite alive_end by done. simpl. unfold is_dropped. by rewrite Hi. }
  assert (j < length order) as Hjl by (by eapply lookup_lt_Some).
  destruct (lookup_lt_is_Some_2 dropped j) as [b Hb]; [lia|].
  assert (∀ dropped1 (b1 : bool), length dropped1 = length order → dropped1 !! i = Some false →
    dropped1 !! j = Some b1 → (∀ k, k ≠ j → dropped1 !! k = dropped !! k) →
    alive_from (S j) dropped1 = alive_from (S j) dropped →
    ∃ j' dropped', loop (pair_scan_step g i) fuel (mkScan (S j) x order dropped1 c)
      = Some (mkScan j' x order dropped' c) ∧ length dropped' = length order ∧
      (if b1 then scan rel act_of x (alive_from (S j) dropped)
       else let '(k, r) := scan rel act_of x (alive_from (S j) dropped) in (k, hj :: r))
        = (negb (is_dropped dropped' i), alive_from j dropped') ∧
      ∀ k, k < j → k ≠ i → dropped' !! k = dropped !! k) as Hnext.
  { intros dropped1 b1 Hl1 Hi1 Hj1 Hk1 HA.
    destruct (IH (S j) dropped1) as (j' & dropped' & E & Hl' & Hs & Hk); [lia|done|done|lia|].
    exists j', dropped'. split; [done|]. split; [done|]. rewrite HA in Hs. rewrite Hs.
    assert (dropped' !! j = Some b1) as Hj' by (rewrite Hk by lia; done).
    rewrite (alive_at j dropped' hj b1 Hj Hj'). split; [by destruct b1|].
    intros k Hkj Hki. rewrite Hk, Hk1 by lia. done. }
  rewrite (alive_at j dropped hj b Hj Hb). unfold is_dropped at 1. rewrite Hb. simpl.
  destruct b; simpl.
  { by apply (Hnext dropped true). }
  destruct (rel x hj) eqn:Hrel; simpl.
  { rewrite ?Hrel. apply (Hnext dropped false); done. }
  specialize (no_swap x hj). unfold act_of at 1. unfold act_of at 1 in no_swap.
  destruct (getVertex g x) as [vl|] eqn:Hvl; [destruct (getVertex g hj) as [vr|] eqn:Hvr|].
  2,3: apply (Hnext dropped false); done.
  destruct (action (resolveConflicts g [vl; vr])) eqn:Hact.
  - apply (Hnext dropped false); done.
  - exists j, (<[i := true]> dropped). split; [done|]. split; [by rewrite length_insert|].
    split; [|intros; by rewrite list_lookup_insert_ne].
    unfold is_dropped. rewrite list_lookup_insert_eq by (by eapply lookup_lt_Some). simpl. f_equal.
    rewrite <- (alive_at j dropped hj false Hj Hb). unfold alive_from. by rewrite drop_insert_lt by lia.
  - apply (Hnext (<[j := true]> dropped) true).
    + by rewrite length_insert.
    + by rewrite list_lookup_insert_ne by lia.
    + by rewrite list_lookup_insert_eq by lia.
    + intros. by rewrite list_lookup_insert_ne.
    + unfold alive_from. by rewrite drop_insert_lt by lia.
  - done.
  - apply (Hnext dropped false); done.
Qed.

(** The known vertices of a list of hashes. *)
Definition vertices_at (l : list Hash) : list Vertex := omap (getVertex g) l.

Lemma push_vertex_spec result h : push_vertex g result h = result ++ vertices_at [h].
Proof. unfold push_vertex, vertices_at. simpl. destruct (getVertex g h); [done|by rewrite app_nil_r]. Qed.

(** The outer loop, from the entry [i] on. *)
Lemma pair_steps_refine fuel n : ∀ i dropped result,
  i + n = length order → length dropped = length order → length order < fuel →
  origin ∉ alive_from i dropped →
  ∃ s, foldl (λ acc i, s ← acc; pair_step g fuel origin s i) (Ok (mkPair order dropped c result)) (seq i n)
         = Ok s ∧
    ps_result s = result ++ vertices_at (linearize_spec rel act_of (alive_from i dropped)).
Proof.
  induction n as [|n IH]; intros i dropped result Hn Hlen Hf Ho.
  { exists (mkPair order dropped c result). split; [done|]. rewrite alive_end by lia.
    simpl. by rewrite app_nil_r. }
  destruct (lookup_lt_is_Some_2 order i) as [x Hx]; [lia|].
  destruct (lookup_lt_is_Some_2 dropped i) as [b Hb]; [lia|].
  cbn [seq foldl mbind res_bind]. unfold pair_step at 2. rewrite Hx.
  rewrite (alive_at i dropped x b Hx Hb) in *. unfold is_dropped at 1. rewrite Hb.
  destruct (decide (x = origin)) as [->|Hne].
  { destruct b; [|by destruct Ho; left]. apply IH; [lia|done..]. }
  destruct b; simpl.
  { apply IH; [lia|done..]. }
  destruct (pair_scan_refines i x fuel (S i) dropped) as (j' & dropped' & -> & Hl' & Hs & Hk);
    [lia|done|done|lia|].
  rewrite linearize_spec_cons, Hs. rewrite Hx. simpl.
  pose proof (scan_sublist rel act_of x (alive_from (S i) dropped)) as Hsub. rewrite Hs in Hsub. simpl in Hsub.
  assert (origin ∉ alive_from (S i) dropped') as Ho'.
  { intros Hin. apply Ho. right. by eapply elem_of_sublist. }
  destruct (is_dropped dropped' i); simpl.
  - apply IH; [lia|done..].
  - destruct (IH (S i) dropped' (push_vertex g result x)) as (s & -> & Hres); [lia|done..|].
    exists s. split; [done|]. rewrite Hres, push_vertex_spec, <- app_assoc. f_equal.
    unfold vertices_at. simpl. by destruct (getVertex g x).
Qed.

End refine.

(** ** What a linearization promises to the code that replays it *)

(** A part of the graph that is reachable from its origin and contains every
    path between its members: the whole graph from the root, and the interval
    that [lowestCommonAncestorMultipleVertices] visits. *)
Record interval (g : HashGraph) (origin : Hash) (sub : gset Hash) : Prop := {
  iv_origin : origin ∈ sub;
  iv_keys : sub ⊆ vertex_keys g;
  iv_reach : ∀ h, h ∈ sub → rtc (sub_child (forwardEdges g) sub) origin h;
  iv_convex : ∀ l, l ≡ₚ elements sub → convex g l
}.

Lemma interval_whole g : wf g → interval g rootHash (vertex_keys g).
Proof.
  intros Hg. split; [by apply root_in_vertex_keys|done|intros; by apply full_graph_reachable|].
  intros l Hl. apply convex_full; [done|]. rewrite Hl. unfold vertex_keys.
  apply elements_list_to_set, causal_NoDup. auto with dag.
Qed.

Lemma interval_lca g hs l X : wf g → climbing g hs X [] l l → interval g l X.
Proof.
  intros Hg Hcl. split.
  - apply (cl_l1 _ _ _ _ _ _ Hcl).
  - intros x Hx. apply elem_of_vertex_keys. by eapply cl_keys.
  - intros h Hh. by eapply interval_reachable.
  - intros o Ho. by eapply interval_convex.
Qed.

Record linearization (g : HashGraph) (origin : Hash) (sub : gset Hash) (l : list Vertex) : Prop := {
  lz_nodup : NoDup (hash <$> l);
  lz_members : ∀ v, v ∈ l → getVertex g (hash v) = Some v ∧ hash v ∈ sub ∧ hash v ≠ origin;
  lz_causal : ∀ u v, [u; v] `sublist_of` l → ¬ before g (hash v) (hash u)
}.

Section order.
Variables (g : HashGraph) (origin : Hash) (sub : gset Hash).
Hypothesis Hwf : wf g.
Hypothesis Hred : reduced g.
Hypothesis Hiv : interval g origin sub.

(** The order the linearizers start from. *)
Record sorted (order : list Hash) : Prop := {
  so_order : (dfsTopologicalSortIterative g origin sub).2 = Ok order;
  so_perm : order ≡ₚ elements sub;
  so_head : ∃ tail, order = origin :: tail;
  so_causal : causal_order g order
}.

Lemma sorted_exists : ∃ order, sorted order.
Proof.
  destruct (dfs_reduced_order g origin sub Hwf (iv_origin _ _ _ Hiv) (iv_reach _ _ _ Hiv) Hred)
    as (l & E & Hp & Hh & Hc). exists l. split; [done..| |done].
  destruct l as [|x l]; simplify_eq/=. eauto.
Qed.

Lemma dfs_same_vertices : vertices (dfsTopologicalSortIterative g origin sub).1 = vertices g ∧
  resolvers (dfsTopologicalSortIterative g origin sub).1 = resolvers g.
Proof.
  pose proof (dfs_outcomes g origin sub) as H.
  destruct (dfsTopologicalSortIterative g origin sub) as [g' r]. destruct H as (_ & -> & _). done.
Qed.

Variable order : list Hash.
Hypothesis Hso : sorted order.

Lemma sorted_NoDup : NoDup order.
Proof. rewrite (so_perm _ Hso). apply NoDup_elements. Qed.

Lemma elem_of_sorted h : h ∈ order ↔ h ∈ sub.
Proof. by rewrite (so_perm _ Hso), elem_of_elements. Qed.

Lemma sorted_known h : h ∈ order → ∃ v, getVertex g h = Some v ∧ hash v = h.
Proof.
  intros Hh%elem_of_sorted. pose proof (iv_keys _ _ _ Hiv h Hh) as Hk%elem_of_vertex_keys.
  destruct (getVertex g h) as [v|] eqn:E; [|by apply jm_get_None in E].
  exists v. split; [done|]. by apply (causal_hash _ h v (wf_causal g Hwf)).
Qed.

Lemma sorted_before x y : [x; y] `sublist_of` order → ¬ before g y x.
Proof.
  intros (i & j & Hij & Hi & Hj)%sublist_pair_lookup Hb.
  assert (x ∈ order ∧ y ∈ order) as [Hx Hy] by (split; by eapply list_elem_of_lookup_2).
  apply (iv_convex _ _ _ Hiv order (so_perm _ Hso) x y Hx Hy) in Hb.
  assert (∀ a b, tc (within g order) a b → ∀ i j, order !! i = Some a → order !! j = Some b → j < i) as Hlt.
  { clear -Hso Hred. intros a b. induction 1 as [a b (Hp & _)|a m b (Hp & Ha & Hm) _ IH]; intros i j Hi Hj.
    - by eapply (so_causal _ Hso).
    - apply list_elem_of_lookup in Hm as [k Hk]. specialize (IH k j Hk Hj).
      pose proof (so_causal _ Hso k i _ _ Hk Hi Hp). lia. }
  specialize (Hlt x y Hb i j Hi Hj). lia.
Qed.

(** The vertices of a sublist of the order that avoids the origin. *)
Lemma sublist_linearization l : l `sublist_of` order → origin ∉ l →
  linearization g origin sub (vertices_at g l) ∧ hash <$> vertices_at g l = l.
Proof.
  intros Hl Ho.
  assert (hash <$> vertices_at g l = l) as E.
  { assert (∀ h, h ∈ l → h ∈ order) as Hin by (intros; by eapply elem_of_sublist).
    clear Hl Ho. unfold vertices_at. induction l as [|h l IH]; [done|]. simpl.
    destruct (sorted_known h) as (v & -> & Hv); [apply Hin; left|]. csimpl. rewrite Hv. f_equal.
    apply IH. intros x Hx. apply Hin. by right. }
  split; [|done]. split.
  - rewrite E. eapply sublist_NoDup; [apply sorted_NoDup|exact Hl].
  - intros v Hv. assert (hash v ∈ l) as Hh by (rewrite <- E; by apply list_elem_of_fmap_2).
    assert (hash v ∈ order) as Hhs by (by eapply elem_of_sublist).
    split; [|split; [by apply elem_of_sorted|by intros <-]].
    unfold vertices_at in Hv. apply list_elem_of_omap in Hv as (h & _ & Hv).
    by rewrite (causal_hash _ h v (wf_causal g Hwf) Hv).
  - intros u v Huv. apply sorted_before. etrans; [|exact Hl]. rewrite <- E.
    change [hash u; hash v] with (hash <$> [u; v]). by apply fmap_sublist.
Qed.

(** The matrix answers the causality question for the members of the order. *)
Lemma sorted_related x y : (Z.of_nat (size sub) ≤ 2 ^ 35)%Z → x ∈ order → y ∈ order → x ≠ y →
  LegacyCausalityMatrix.areRelated (LegacyCausalityMatrix.new g order) x y = true ↔ related g x y.
Proof.
  intros Hsz Hx Hy Hne.
  rewrite (legacy_new_related g order sorted_NoDup (so_causal _ Hso)); [|by rewrite (so_perm _ Hso)|done..].
  rewrite related_cases by done. pose proof (iv_convex _ _ _ Hiv order (so_perm _ Hso)) as Hcv.
  by rewrite (Hcv x y), (Hcv y x).
Qed.

Lemma vertices_of_tail tail : order = origin :: tail → (origin ∉ tail) ∧
  vertices_of g origin order = vertices_at g tail.
Proof.
  intros E. pose proof sorted_NoDup as Hnd. rewrite E in Hnd. apply NoDup_cons in Hnd as [Ho _].
  split; [done|]. rewrite E. unfold vertices_of, vertices_at. simpl. rewrite decide_True by done.
  clear -Ho. induction tail as [|h tail IH]; [done|]. simpl. rewrite decide_False by set_solver.
  rewrite IH by set_solver. done.
Qed.

End order.

Lemma linearize_spec_nop rel act l : (∀ x y, x ∈ l → y ∈ l → act x y = ActNop) →
  linearize_spec rel act l = l.
Proof.
  assert (∀ x l, (∀ y, y ∈ l → act x y = ActNop) → scan rel act x l = (true, l)) as Hscan.
  { intros x k. induction k as [|y k IH]; intros Hk; [done|]. simpl.
    rewrite IH by (intros; apply Hk; by right). rewrite (Hk y) by left. by destruct (rel x y). }
  induction l as [|x l IH]; intros Hl; [done|]. rewrite linearize_spec_cons.
  rewrite Hscan by (intros; apply Hl; [left|by right]). rewrite IH; [done|].
  intros; apply Hl; by right.
Qed.

(** A resolver that was not supplied is the one that finds no conflicts: the
    constructor and the setters keep this true. *)
Definition default_resolvers (g : HashGraph) : Prop :=
  (hasCustomResolverACL (resolvers g) = false → resolveConflictsACL (resolvers g) = resolveNoConflicts) ∧
  (hasCustomResolverDRP (resolvers g) = false → resolveConflictsDRP (resolvers g) = resolveNoConflicts).

Lemma default_resolvers_new peer acl drp sem : default_resolvers (new_HashGraph peer acl drp sem).
Proof. split; simpl; [by destruct acl|by destruct drp]. Qed.

Lemma act_of_default g origin order x y : default_resolvers g →
  needsConflictResolution g origin order = false → x ∈ order → x ≠ origin → act_of g x y = ActNop.
Proof.
  intros [HA HD] Hn Hx Hne. unfold act_of. destruct (getVertex g x) as [vx|] eqn:Ex; [|done].
  destruct (getVertex g y) as [vy|]; [|done].
  assert (hasCustomConflictResolver g (getVertex g x ≫= drpType_of) = false) as Hc.
  { unfold needsConflictResolution in Hn. apply not_true_iff_false in Hn. rewrite existsb_exists in Hn.
    apply not_true_iff_false. intros Hc. apply Hn. exists x.
    split; [by apply list_elem_of_In|]. rewrite Hc. by rewrite bool_decide_false. }
  rewrite Ex in Hc. simpl in Hc. unfold hasCustomConflictResolver in Hc. unfold resolveConflicts. simpl.
  case_bool_decide; [by rewrite HA|by rewrite HD].
Qed.

(** The first iteration skips the origin. *)
Lemma pair_skip_origin g fuel origin order tail dropped c result : order = origin :: tail →
  foldl (λ acc i, s ← acc; pair_step g fuel origin s i) (Ok (mkPair order dropped c result))
    (seq 0 (length order)) =
  foldl (λ acc i, s ← acc; pair_step g fuel origin s i) (Ok (mkPair order dropped c result))
    (seq 1 (length tail)).
Proof. intros ->. cbn [length seq foldl mbind res_bind]. f_equal. simpl. by rewrite decide_True. Qed.

Lemma vertices_at_NoDup g l : wf g → NoDup l → NoDup (hash <$> vertices_at g l).
Proof.
  intros Hg. induction l as [|h l IH]; [intros; apply NoDup_nil_2|]. intros [Hh Hnd]%NoDup_cons.
  unfold vertices_at. simpl. destruct (getVertex g h) as [v|] eqn:Hv; [|by apply IH].
  csimpl. apply NoDup_cons. split; [|by apply IH].
  intros (w & Ew & (h' & Hh' & Hw)%list_elem_of_omap)%list_elem_of_fmap.
  apply (causal_hash _ _ _ (wf_causal g Hg)) in Hv, Hw. congruence.
Qed.

Lemma pair_result g origin sub order tail fuel : wf g → reduced g → interval g origin sub →
  default_resolvers g → sorted g origin sub order → order = origin :: tail →
  (∀ x y, act_of g x y ≠ ActSwap) → size sub < fuel →
  (linearizePairSemantics fuel g origin sub).2 =
  Ok (vertices_at g (linearize_spec (LegacyCausalityMatrix.areRelated (LegacyCausalityMatrix.new g order))
                       (act_of g) tail)).
Proof.
  intros Hg Hr Hiv Hdef Hso E Hns Hf. pose proof (dfs_outcomes g origin sub) as Hout.
  pose proof (so_order _ _ _ _ Hso) as Hdfs. unfold linearizePairSemantics.
  destruct (dfsTopologicalSortIterative g origin sub) as [g1 r]. destruct Hout as (_ & Eg1 & _).
  simpl in Hdfs. subst r. rewrite Eg1. set (g' := with_forwardEdges g (forwardEdges g1)). simpl.
  destruct (vertices_of_tail g origin sub order Hso tail E) as [Ho Hv].
  assert (length order = size sub) as Hlen by (by rewrite (so_perm _ _ _ _ Hso)).
  destruct (needsConflictResolution g' origin order) eqn:Hn; simpl; cycle 1.
  { f_equal. change (vertices_of g' origin order) with (vertices_of g origin order). rewrite Hv.
    rewrite linearize_spec_nop; [done|]. intros x y Hx _.
    apply (act_of_default g origin order); [done|done|rewrite E; by right|by intros ->]. }
  change (LegacyCausalityMatrix.new g' order) with (LegacyCausalityMatrix.new g order).
  rewrite (pair_skip_origin g' fuel origin order tail _ _ _ E).
  assert (∀ l : list Hash, alive l (replicate (length l) false) = l) as Halive.
  { induction l as [|h l IH]; [done|]. simpl. by rewrite IH. }
  assert (alive_from order 1 (replicate (length order) false) = tail) as Ha.
  { unfold alive_from. rewrite E. simpl. rewrite !drop_0. apply Halive. }
  destruct (pair_steps_refine g' origin order (LegacyCausalityMatrix.new g order) Hns fuel (length tail) 1
              (replicate (length order) false) []) as (s & -> & Hs).
  - by rewrite E.
  - apply length_replicate.
  - by rewrite Hlen.
  - by rewrite Ha.
  - simpl. rewrite Hs, Ha. done.
Qed.

(** ** Resolvers that swap *)

Section swap.
Variables (g : HashGraph) (prio : Hash → nat) (P : nat).
Hypothesis prio_bound : ∀ h, prio h ≤ P.
Hypothesis swap_prio : ∀ x y, act_of g x y = ActSwap → prio y < prio x.

Section scan.
Variables (i : nat) (order : list Hash) (dropped : list bool).
Hypothesis dropped_length : length dropped = length order.

(** The scan permutes the entries from [i] on and leaves the earlier ones. *)
Record scan_inv (s : pair_scan) : Prop := {
  si_perm : sc_order s ≡ₚ order;
  si_take : take i (sc_order s) = take i order;
  si_length : length (sc_dropped s) = length order;
  si_anchor : sc_order s !! i = Some (sc_anchor s);
  si_j : i < sc_j s
}.

Definition scan_measure (s : pair_scan) : nat :=
  S (length order) * prio (sc_anchor s) + (length order - sc_j s).

Lemma scan_inv_next j s anchor order' dropped' c : scan_inv s →
  order' = sc_order s → anchor = sc_anchor s → length dropped' = length order → i < j →
  scan_inv (mkScan j anchor order' dropped' c).
Proof. intros [H1 H2 H3 H4 H5] -> -> Hd Hj. by split. Qed.

Lemma pair_scan_step_inv s : scan_inv s →
  match pair_scan_step g i s with
  | Next s' => scan_inv s' ∧ scan_measure s' < scan_measure s
  | Done s' => scan_inv s'
  end.
Proof.
  destruct s as [j anchor o d c]. intros Hs. pose proof Hs as [H1 H2 H3 H4 H5]. simpl in *.
  destruct (o !! j) as [hj|] eqn:Hj; [|done].
  assert (j < length order) as Hjl by (rewrite <- H1; by eapply lookup_lt_Some).
  assert (∀ d', length d' = length order →
    scan_inv (mkScan (S j) anchor o d' c) ∧
    scan_measure (mkScan (S j) anchor o d' c) < scan_measure (mkScan j anchor o d c)) as Hnext.
  { intros d' Hd'. split; [eapply scan_inv_next; [exact Hs|done..|lia]|]. unfold scan_measure. simpl. lia. }
  destruct (is_dropped d j || _); [by apply Hnext|].
  pose proof (swap_prio anchor hj) as Hswap. unfold act_of in Hswap.
  destruct (getVertex g anchor), (getVertex g hj); try (by apply Hnext).
  destruct (action _); try (by apply Hnext).
  - eapply scan_inv_next; [exact Hs|done..|by rewrite length_insert|done].
  - apply Hnext. by rewrite length_insert.
  - rewrite H4. simpl. specialize (Hswap eq_refl). split.
    + split; simpl; [|..|lia].
      * rewrite <- H1. apply swap_perm; [lia|done..].
      * by rewrite !take_insert_ge by lia.
      * done.
      * rewrite list_lookup_insert_ne by lia. apply list_lookup_insert_eq. by eapply lookup_lt_Some.
    + unfold scan_measure. simpl. nia.
Qed.

Lemma pair_scan_total fuel anchor c : order !! i = Some anchor →
  S (length order) * P + length order < fuel →
  ∃ s, loop (pair_scan_step g i) fuel (mkScan (S i) anchor order dropped c) = Some s ∧ scan_inv s.
Proof.
  intros Ha Hf. eapply (loop_total _ scan_inv scan_measure); [apply pair_scan_step_inv| |].
  - split; simpl; (done || lia).
  - unfold scan_measure. simpl. pose proof (prio_bound anchor). nia.
Qed.
End scan.

(** The outer loop: what was pushed so far are entries at positions before [i],
    which later iterations leave alone. *)
Lemma pair_steps_total fuel origin n : ∀ i order dropped c l,
  S (length order) * P + length order < fuel →
  i + n = length order → length dropped = length order →
  l `sublist_of` take i order → (origin ∉ l) → (origin ∉ drop i order) →
  ∃ s l', foldl (λ acc i, s ← acc; pair_step g fuel origin s i)
            (Ok (mkPair order dropped c (vertices_at g l))) (seq i n) = Ok s ∧
    ps_result s = vertices_at g l' ∧ (origin ∉ l') ∧ ps_order s ≡ₚ order ∧
    l' `sublist_of` ps_order s.
Proof.
  induction n as [|n IH]; intros i order dropped c l Hf Hn Hd Hl Ho Hod.
  { exists (mkPair order dropped c (vertices_at g l)), l. do 4 (split; [done|]).
    etrans; [exact Hl|apply sublist_take]. }
  destruct (lookup_lt_is_Some_2 order i) as [x Hx]; [lia|].
  rewrite (drop_S _ _ _ Hx) in Hod. apply not_elem_of_cons in Hod as [Hox Hod].
  assert (l `sublist_of` take (S i) order) as Hl'.
  { rewrite (take_S_r _ _ _ Hx). by apply sublist_inserts_r. }
  cbn [seq foldl mbind res_bind]. unfold pair_step at 2. rewrite Hx, decide_False by done.
  destruct (is_dropped dropped i); [apply IH; (done || lia)|].
  destruct (pair_scan_total i order dropped Hd fuel x c Hx Hf) as ([j a o d c'] & -> & [H1 H2 H3 H4 H5]).
  simpl in *. rewrite H4. simpl.
  assert (length o = length order) as Hlo by (by rewrite H1).
  assert (take (S i) o = take i order ++ [a]) as Ht by (by rewrite (take_S_r _ _ _ H4), H2).
  assert (origin ∉ a :: drop (S i) o) as Hod'.
  { rewrite <- (drop_S _ _ _ H4). assert (drop i o ≡ₚ drop i order) as ->.
    { apply (Permutation_app_inv_l (take i order)). rewrite <- H2 at 1. by rewrite !take_drop. }
    rewrite (drop_S _ _ _ Hx). by apply not_elem_of_cons. }
  apply not_elem_of_cons in Hod' as [Hoa Hod'].
  assert (∃ l2, vertices_at g l2 = (if is_dropped d i then vertices_at g l else push_vertex g (vertices_at g l) a)
    ∧ l2 `sublist_of` take (S i) o ∧ origin ∉ l2) as (l2 & <- & Hs2 & Ho2).
  { rewrite Ht. destruct (is_dropped d i).
    - exists l. split; [done|]. split; [by apply sublist_inserts_r|done].
    - exists (l ++ [a]). rewrite push_vertex_spec. split; [apply omap_app|].
      split; [by apply sublist_app|set_solver]. }
  destruct (IH (S i) o d c' l2) as (s & l' & E & E2 & E3 & E4 & E5);
    [by rewrite Hlo|lia|by rewrite Hlo|done|done|done|].
  exists s, l'. do 3 (split; [done|]). split; [by rewrite E4|done].
Qed.

End swap.

(** ** The reference, read on the graph *)

Section pair_final.
Variables (g : HashGraph) (origin : Hash) (sub : gset Hash) (order tail : list Hash).
Hypothesis Hwf : wf g.
Hypothesis Hiv : interval g origin sub.
Hypothesis Hso : sorted g origin sub order.
Hypothesis Etail : order = origin :: tail.
Hypothesis Hsz : (Z.of_nat (size sub) ≤ 2 ^ 35)%Z.

Local Abbreviation rel := (LegacyCausalityMatrix.areRelated (LegacyCausalityMatrix.new g order)).
Local Abbreviation kept := (linearize_spec rel (act_of g) tail).

Lemma kept_sublist : kept `sublist_of` order ∧ origin ∉ kept.
Proof.
  pose proof (linearize_spec_sublist rel (act_of g) tail) as Hsub. split.
  - rewrite Etail at 2. by apply sublist_cons.
  - destruct (vertices_of_tail g origin sub order Hso tail Etail) as [Ho _].
    intros Hin. apply Ho. by eapply elem_of_sublist.
Qed.

Lemma kept_linearization :
  linearization g origin sub (vertices_at g kept) ∧ hash <$> vertices_at g kept = kept.
Proof.
  destruct kept_sublist as [H1 H2].
  exact (sublist_linearization g origin sub Hwf Hiv order Hso kept H1 H2).
Qed.

Lemma pair_conflict_free u v : [u; v] `sublist_of` vertices_at g kept →
  ¬ related g (hash u) (hash v) →
  action (resolveConflicts g [u; v]) ≠ ActDropLeft ∧ action (resolveConflicts g [u; v]) ≠ ActDropRight.
Proof.
  intros Huv Hc. destruct kept_linearization as [Hlz Ehash]. destruct kept_sublist as [Hsub _].
  assert (∀ w, w ∈ [u; v] → getVertex g (hash w) = Some w ∧ hash w ∈ order) as Hmem.
  { intros w Hw. destruct (lz_members _ _ _ _ Hlz w) as (Ew & Hs & _); [by eapply elem_of_sublist|].
    split; [done|]. by apply (elem_of_sorted g origin sub order Hso). }
  destruct (Hmem u) as [Eu Hu]; [left|]. destruct (Hmem v) as [Ev Hv]; [right; left|].
  assert (hash u ≠ hash v) as Hne by (intros Eh; apply Hc; rewrite Eh; left; apply rtc_refl).
  apply (fmap_sublist hash) in Huv. rewrite Ehash in Huv.
  apply sublist_pair_lookup in Huv as (i & j & Hij & Hi & Hj).
  destruct (linearize_spec_conflict_free rel (act_of g) tail i j (hash u) (hash v) Hij Hi Hj) as [H1 H2].
  { apply not_true_iff_false. by rewrite (sorted_related g origin sub Hiv order Hso). }
  unfold act_of in H1, H2. by rewrite Eu, Ev in H1, H2.
Qed.

(** A member next to which [h] was dropped is another, concurrent vertex. *)
Lemma pair_other h y : [h; y] `sublist_of` tail ∨ [y; h] `sublist_of` tail →
  rel h y = false ∨ rel y h = false →
  ∃ w, hash w = y ∧ y ∈ sub ∧ getVertex g y = Some w ∧ ¬ related g h y.
Proof.
  intros Hp Hr. pose proof (sorted_NoDup g origin sub order Hso) as Hnd. rewrite Etail in Hnd.
  apply NoDup_cons in Hnd as [_ Hnd].
  assert (h ∈ order ∧ y ∈ order ∧ h ≠ y) as (Hh & Hy & Hne).
  { rewrite Etail, !elem_of_cons. destruct Hp as [Hp|Hp];
      pose proof (sublist_NoDup _ _ Hnd Hp) as [Hn _]%NoDup_cons;
      (split; [|split]); try (right; eapply elem_of_sublist; [|exact Hp]); set_solver. }
  destruct (sorted_known g origin sub Hwf Hiv order Hso y Hy) as (w & Hw & Ew).
  exists w. split; [done|]. split; [by apply (elem_of_sorted g origin sub order Hso)|].
  split; [done|]. intros Hrl. assert (related g y h) as Hrl' by (unfold related in *; tauto).
  apply (sorted_related g origin sub Hiv order Hso) in Hrl, Hrl'; try done.
  destruct Hr; congruence.
Qed.

Lemma pair_dropped h v : h ∈ sub → h ≠ origin → getVertex g h = Some v → v ∉ vertices_at g kept →
  ∃ w, hash w ∈ sub ∧ getVertex g (hash w) = Some w ∧ ¬ related g (hash v) (hash w) ∧
    (action (resolveConflicts g [v; w]) = ActDropLeft ∨ action (resolveConflicts g [w; v]) = ActDropRight).
Proof.
  intros Hh Hne Hv Hnin. rewrite (causal_hash _ h v (wf_causal g Hwf) Hv).
  apply (elem_of_sorted g origin sub order Hso) in Hh. rewrite Etail in Hh.
  apply elem_of_cons in Hh as [|Hh]; [done|].
  destruct (linearize_spec_dropped rel (act_of g) tail h Hh) as [(y & Hp & Hr & Ha)|(y & Hp & Hr & Ha)].
  { intros Hin. apply Hnin. unfold vertices_at. apply list_elem_of_omap. eauto. }
  all: destruct (pair_other h y) as (w & Ew & Hys & Hw & Hnr); [auto..|].
  all: exists w; rewrite Ew; do 3 (split; [done|]); unfold act_of in Ha; rewrite Hv, Hw in Ha; auto.
Qed.

End pair_final.

(** ** Properties *)

Lemma pair_linearization_result (g : HashGraph) (origin : Hash) (sub : gset Hash) (fuel : nat)
    (Hwf : wf g) (Hred : reduced g) (Hiv : interval g origin sub) (Hdef : default_resolvers g)
    (Hsem : semanticsTypeDRP g = Some SemPair)
    (Hns : ∀ u v, action (resolveConflicts g [u; v]) ≠ ActSwap)
    (Hsz : (Z.of_nat (size sub) ≤ 2 ^ 35)%Z) (Hfuel : size sub < fuel) :
  ∃ l, (linearizeVertices fuel g origin sub).2 = Ok l ∧ linearization g origin sub l ∧
    (∀ u v, [u; v] `sublist_of` l → ¬ related g (hash u) (hash v) →
       action (resolveConflicts g [u; v]) ≠ ActDropLeft ∧
       action (resolveConflicts g [u; v]) ≠ ActDropRight) ∧
    (∀ h v, h ∈ sub → h ≠ origin → getVertex g h = Some v → v ∉ l →
       ∃ w, hash w ∈ sub ∧ getVertex g (hash w) = Some w ∧ ¬ related g (hash v) (hash w) ∧
         (action (resolveConflicts g [v; w]) = ActDropLeft ∨
          action (resolveConflicts g [w; v]) = ActDropRight)).
Proof.
  destruct (sorted_exists g origin sub Hwf Hred Hiv) as [order Hso].
  destruct (so_head _ _ _ _ Hso) as [tail E].
  unfold linearizeVertices. rewrite Hsem.
  rewrite (pair_result g origin sub order tail fuel) by
    (done || (intros x y; unfold act_of; by repeat case_match)).
  eexists. split; [done|]. split; [by eapply kept_linearization|]. split.
  - intros u v. by eapply pair_conflict_free.
  - intros h v. by eapply pair_dropped.
Qed.

(** C2 Pair semantics with a resolver that never swaps: for an interval (of at
    most 2^35 vertices) of a well-formed graph with pairwise concurrent
    dependencies, [linearizeVertices] terminates and returns vertices of the
    interval without the origin, each at most once, none before a vertex of its
    causal past; no two concurrent vertices in the result conflict (the resolver
    drops neither); and a vertex of the interval is missing only if the resolver
    dropped it against a concurrent vertex of the interval. *)
Theorem pair_linearization (g : HashGraph) (origin : Hash) (sub : gset Hash) (fuel : nat)
    (Hwf : wf g) (Hred : reduced g) (Hiv : interval g origin sub) (Hdef : default_resolvers g)
    (Hsem : semanticsTypeDRP g = Some SemPair)
    (Hns : ∀ u v, action (resolveConflicts g [u; v]) ≠ ActSwap)
    (Hsz : (Z.of_nat (size sub) ≤ 2 ^ 35)%Z) (Hfuel : size sub < fuel) :
  ∃ l, (linearizeVertices fuel g origin sub).2 = Ok l ∧ linearization g origin sub l ∧
    (∀ u v, [u; v] `sublist_of` l → ¬ related g (hash u) (hash v) →
       action (resolveConflicts g [u; v]) ≠ ActDropLeft ∧
       action (resolveConflicts g [u; v]) ≠ ActDropRight) ∧
    (∀ h v, h ∈ sub → h ≠ origin → getVertex g h = Some v → v ∉ l →
       ∃ w, hash w ∈ sub ∧ getVertex g (hash w) = Some w ∧ ¬ related g (hash v) (hash w) ∧
         (action (resolveConflicts g [v; w]) = ActDropLeft ∨
          action (resolveConflicts g [w; v]) = ActDropRight)).
Proof. by apply pair_linearization_result. Qed.

(** Concurrent increments and resets: a reset drops a concurrent increment. *)
Definition reset_wins : ResolveConflictFn := λ vs,
  match vs with
  | [u; v] =>
      if bool_decide (opType <$> operation u = Some "inc" ∧ opType <$> operation v = Some "reset")%string
      then resolved ActDropLeft
      else if bool_decide (opType <$> operation u = Some "reset" ∧ opType <$> operation v = Some "inc")%string
      then resolved ActDropRight
      else resolved ActNop
  | _ => resolved ActNop
  end.

Definition sample_op (op h : string) (deps : list Hash) : Vertex :=
  mkVertex h "peer" (Some (mkOperation DrpType_DRP op [])) deps 1 [].

Definition conflict_graph : HashGraph :=
  let g := new_HashGraph "peer" None (Some reset_wins) (Some SemPair) in
  let g := addVertex g (sample_op "inc" "x" [rootHash]) in
  addVertex g (sample_op "reset" "y" [rootHash]).

Lemma conflict_graph_ok : wf conflict_graph ∧ reduced conflict_graph ∧ default_resolvers conflict_graph.
Proof.
  set (g0 := new_HashGraph "peer" None (Some reset_wins) (Some SemPair)).
  set (g1 := addVertex g0 (sample_op "inc" "x" [rootHash])).
  assert (wf g0) as H0 by apply wf_new_HashGraph.
  assert (wf g1) as H1 by (apply wf_addVertex; [done|decide_by_compute]).
  change conflict_graph with (addVertex g1 (sample_op "reset" "y" [rootHash])).
  split; [apply wf_addVertex; [done|decide_by_compute]|]. split; [|by split].
  apply reduced_addVertex; [done| |decide_by_compute|by apply antichain_singleton].
  apply reduced_addVertex; [done| |decide_by_compute|by apply antichain_singleton].
  apply reduced_new_HashGraph.
Qed.

Lemma pair_linearization_witness :
  ∃ l, (linearizeVertices 4 conflict_graph rootHash (vertex_keys conflict_graph)).2 = Ok l ∧
    hash <$> l = ["y"]%string ∧ NoDup (hash <$> l).
Proof.
  destruct conflict_graph_ok as (H1 & H2 & H3).
  destruct (pair_linearization conflict_graph rootHash (vertex_keys conflict_graph) 4)
    as (l & E & Hlz & _).
  - exact H1.
  - exact H2.
  - apply interval_whole, H1.
  - exact H3.
  - reflexivity.
  - intros u v. unfold resolveConflicts. simpl. case_bool_decide; [done|].
    unfold reset_wins. by repeat case_match.
  - vm_compute. discriminate.
  - vm_compute. lia.
  - exists l. split; [exact E|]. split; [|apply (lz_nodup _ _ _ _ Hlz)].
    vm_compute in E. injection E as <-. reflexivity.
Defined.

Lemma pair_total_result g origin sub prio P fuel : wf g → reduced g → interval g origin sub →
  (∀ h, prio h ≤ P) → (∀ x y, act_of g x y = ActSwap → prio y < prio x) →
  S (size sub) * P + size sub < fuel →
  ∃ l order, (linearizePairSemantics fuel g origin sub).2 = Ok (vertices_at g l) ∧
    (origin ∉ l) ∧ order ≡ₚ elements sub ∧ l `sublist_of` order.
Proof.
  intros Hg Hr Hiv HP Hprio Hf.
  destruct (sorted_exists g origin sub Hg Hr Hiv) as [order Hso].
  destruct (so_head _ _ _ _ Hso) as [tail E].
  destruct (vertices_of_tail g origin sub order Hso tail E) as [Ho Hv].
  pose proof (dfs_outcomes g origin sub) as Hout.
  pose proof (so_order _ _ _ _ Hso) as Hdfs. unfold linearizePairSemantics.
  destruct (dfsTopologicalSortIterative g origin sub) as [g1 r]. destruct Hout as (_ & Eg1 & _).
  simpl in Hdfs. subst r. rewrite Eg1. set (g' := with_forwardEdges g (forwardEdges g1)). simpl.
  assert (length order = size sub) as Hlen by (by rewrite (so_perm _ _ _ _ Hso)).
  destruct (needsConflictResolution g' origin order) eqn:Hn; simpl; cycle 1.
  { exists tail, order. split; [by rewrite <- Hv|]. split; [done|].
    split; [apply (so_perm _ _ _ _ Hso)|]. rewrite E. by apply sublist_cons. }
  destruct (pair_steps_total g' prio P HP Hprio fuel origin (length tail) 1 order
    (replicate (length order) false) (LegacyCausalityMatrix.new g order) [])
    as (s & l & Es & Hres & Hol & Hp & Hs).
  - by rewrite Hlen.
  - by rewrite E.
  - apply length_replicate.
  - apply sublist_nil_l.
  - apply not_elem_of_nil.
  - by rewrite E.
  - exists l, (ps_order s). split; [|split; [done|split; [|done]]].
    + rewrite (pair_skip_origin g' fuel origin order tail _ _ _ E).
      change (LegacyCausalityMatrix.new g' order) with (LegacyCausalityMatrix.new g order).
      simpl in Es. rewrite Es. simpl. by rewrite Hres.
    + rewrite Hp. apply (so_perm _ _ _ _ Hso).
Qed.

(** C29 Pair semantics with swaps: if every [Swap] the resolver answers puts a
    vertex of smaller priority in front (a bounded natural number computed from
    the vertex), then on every interval of a well-formed graph with pairwise
    concurrent dependencies the linearizer terminates within a bound computed from
    the interval, and returns each vertex of the interval without the origin at
    most once. *)
Theorem pair_swap_terminates (g : HashGraph) (origin : Hash) (sub : gset Hash) (prio : Vertex → nat)
    (P fuel : nat) (Hwf : wf g) (Hred : reduced g) (Hiv : interval g origin sub)
    (Hsem : semanticsTypeDRP g = Some SemPair) (HP : ∀ v, prio v ≤ P)
    (Hprio : ∀ u v, action (resolveConflicts g [u; v]) = ActSwap → prio v < prio u)
    (Hfuel : S (size sub) * P + size sub < fuel) :
  ∃ l, (linearizeVertices fuel g origin sub).2 = Ok l ∧ NoDup (hash <$> l) ∧
    ∀ v, v ∈ l → getVertex g (hash v) = Some v ∧ hash v ∈ sub ∧ hash v ≠ origin.
Proof.
  unfold linearizeVertices. rewrite Hsem.
  destruct (pair_total_result g origin sub (λ h, default 0 (prio <$> getVertex g h)) P fuel)
    as (l & order & -> & Ho & Hp & Hs); try done.
  { intros h. destruct (getVertex g h); simpl; [apply HP|lia]. }
  { intros x y. unfold act_of. destruct (getVertex g x), (getVertex g y); try done. apply Hprio. }
  eexists. split; [done|].
  assert (∀ h, h ∈ l → h ∈ sub) as Hin.
  { intros h Hh. apply elem_of_elements. rewrite <- Hp. by eapply elem_of_sublist. }
  assert (NoDup l) as Hnd by (eapply sublist_NoDup; [|exact Hs]; rewrite Hp; apply NoDup_elements).
  assert (∀ v, v ∈ vertices_at g l → getVertex g (hash v) = Some v ∧ hash v ∈ l) as Hmem.
  { intros v (h & Hh & Hv)%list_elem_of_omap.
    by rewrite (causal_hash _ h v (wf_causal g Hwf) Hv). }
  split.
  - by apply vertices_at_NoDup.
  - intros v Hv. destruct (Hmem v Hv) as [? ?]. split; [done|]. split; [auto|by intros <-].
Qed.

(** A resolver that moves "low" operations in front of "high" ones. *)
Definition low_first : ResolveConflictFn := λ vs,
  match vs with
  | [u; v] =>
      if bool_decide (opType <$> operation u = Some "high" ∧ opType <$> operation v = Some "low")%string
      then resolved ActSwap else resolved ActNop
  | _ => resolved ActNop
  end.

Definition sample_prio (v : Vertex) : nat :=
  if decide (opType <$> operation v = Some "high"%string) then 1 else 0.

Definition swap_graph (r : ResolveConflictFn) : HashGraph :=
  let g := new_HashGraph "peer" None (Some r) (Some SemPair) in
  let g := addVertex g (sample_op "high" "x" [rootHash]) in
  let g := addVertex g (sample_op "low" "y" [rootHash]) in
  addVertex g (sample_op "low" "z" [rootHash]).

Lemma swap_graph_ok r : wf (swap_graph r) ∧ reduced (swap_graph r).
Proof.
  set (g0 := new_HashGraph "peer" None (Some r) (Some SemPair)).
  set (g1 := addVertex g0 (sample_op "high" "x" [rootHash])).
  set (g2 := addVertex g1 (sample_op "low" "y" [rootHash])).
  assert (wf g0) as H0 by apply wf_new_HashGraph.
  assert (wf g1) as H1 by (apply wf_addVertex; [done|decide_by_compute]).
  assert (wf g2) as H2 by (apply wf_addVertex; [done|decide_by_compute]).
  change (swap_graph r) with (addVertex g2 (sample_op "low" "z" [rootHash])).
  split; [apply wf_addVertex; [done|decide_by_compute]|].
  do 3 (apply reduced_addVertex; [done| |decide_by_compute|by apply antichain_singleton]).
  apply reduced_new_HashGraph.
Qed.

Lemma pair_swap_terminates_witness :
  ∃ l, (linearizeVertices 20 (swap_graph low_first) rootHash (vertex_keys (swap_graph low_first))).2 = Ok l ∧
    NoDup (hash <$> l) ∧ hash <$> l = ["y"; "z"; "x"]%string.
Proof.
  destruct (swap_graph_ok low_first) as [H1 H2].
  destruct (pair_swap_terminates (swap_graph low_first) rootHash (vertex_keys (swap_graph low_first))
              sample_prio 1 20) as (l & E & Hnd & _).
  - exact H1.
  - exact H2.
  - apply interval_whole, H1.
  - reflexivity.
  - intros v. unfold sample_prio. case_decide; lia.
  - intros u v. unfold resolveConflicts. simpl. case_bool_decide; [done|]. unfold low_first, sample_prio.
    case_bool_decide as Hop; [|done]. destruct Hop as [-> ->]. intros _. vm_compute. lia.
  - vm_compute. lia.
  - exists l. split; [exact E|]. split; [exact Hnd|].
    vm_compute in E. injection E as <-. reflexivity.
Defined.

(** A loop that keeps returning to one of two states never ends. *)
Lemma loop_cycle {St R} (step : St → iter St R) (a b : St) fuel :
  step a = Next b → step b = Next a → loop step fuel a = None ∧ loop step fuel b = None.
Proof.
  intros Ha Hb. induction fuel as [|fuel IH]; [done|]. simpl. rewrite Ha, Hb. tauto.
Qed.

Definition always_swap : ResolveConflictFn := λ _, resolved ActSwap.

(** The priority is needed: with a resolver that always answers [Swap], three
    concurrent vertices are enough for the loop of the pair linearizer to
    exchange two of them forever; no number of iterations is enough. *)
Theorem pair_always_swap_diverges (fuel : nat) :
  (linearizeVertices fuel (swap_graph always_swap) rootHash (vertex_keys (swap_graph always_swap))).2
  = Throw LinearizeOutOfFuel.
Proof.
  set (g := swap_graph always_swap). unfold linearizeVertices.
  change (semanticsTypeDRP g) with (Some SemPair). cbv iota. unfold linearizePairSemantics.
  rewrite (surjective_pairing (dfsTopologicalSortIterative g rootHash (vertex_keys g))).
  set (g1 := (dfsTopologicalSortIterative g rootHash (vertex_keys g)).1).
  set (order := [rootHash; "x"; "y"; "z"]%string).
  assert ((dfsTopologicalSortIterative g rootHash (vertex_keys g)).2 = Ok order) as ->
    by (vm_compute; reflexivity).
  cbn [snd mbind res_bind]. change (negb (needsConflictResolution g1 rootHash order)) with false. cbv iota.
  set (c := LegacyCausalityMatrix.new g1 order).
  set (s0 := mkScan 2 "x" order (replicate 4 false) c).
  assert (∀ f, loop (pair_scan_step g1 1) f s0 = None) as Hloop.
  { pose (next := λ s, match pair_scan_step g1 1 s with Next s' => s' | Done s' => s' end).
    assert (pair_scan_step g1 1 s0 = Next (next s0)) as E0 by (vm_compute; reflexivity).
    assert (pair_scan_step g1 1 (next s0) = Next (next (next s0))) as E1 by (vm_compute; reflexivity).
    assert (pair_scan_step g1 1 (next (next s0)) = Next (next s0)) as E2 by (vm_compute; reflexivity).
    intros [|f]; [done|]. cbn [loop]. rewrite E0. apply (loop_cycle _ _ _ f E1 E2). }
  set (init := mkPair order (replicate (length order) false) c []).
  assert (pair_step g1 fuel rootHash init 0 = Ok init) as H0 by reflexivity.
  assert (pair_step g1 fuel rootHash init 1 = Throw LinearizeOutOfFuel) as H1.
  { unfold pair_step, init. cbn [lookup list_lookup order]. rewrite decide_False by done.
    change (is_dropped (replicate (length order) false) 1) with false. cbv iota.
    change (replicate (length order) false) with (replicate 4 false). by rewrite Hloop. }
  cbn [length seq foldl mbind res_bind order]. rewrite H0. cbn [mbind res_bind]. rewrite H1. reflexivity.
Qed.
