(* ===== verification/LinearizeMulti.v ===== *)
(** * Correctness of [linearizeMultipleSemantics]

    Termination of the linearizer for resolvers that answer [Nop], or [Drop]
    naming at least one of the operations they were given, and what its result
    guarantees. *)

From S2P Require Import Prelude JsMap JsNum Bits JsValue Types HashGraph Dag TopoSort Causality Lca.
From S2P Require Import LegacyCausality Linearize LinearizePair.

(** ** Flags that only get set *)

Definition grows : relation (list bool) := Forall2 (λ a b, a = true → b = true).

#[global] Instance grows_preorder : PreOrder grows.
Proof.
  split.
  - intros d. by induction d; constructor.
  - intros d1 d2 d3 H. revert d3. induction H; intros d3 H3; inversion H3; subst; constructor; auto.
    by apply IHForall2.
Qed.

Definition undropped (d : list bool) : nat := length (filter (λ b, b = false) d).

Lemma grows_insert d k : grows d (<[k := true]> d).
Proof.
  apply Forall2_same_length_lookup_2; [by rewrite length_insert|].
  intros j a b Ha Hb ->. destruct (decide (j = k)) as [->|Hne].
  - rewrite list_lookup_insert_eq in Hb by (by eapply lookup_lt_Some). congruence.
  - rewrite list_lookup_insert_ne in Hb by done. congruence.
Qed.

Lemma undropped_grows d d' : grows d d' → undropped d' ≤ undropped d.
Proof.
  unfold undropped. induction 1 as [|a b d d' Hab _ IH]; [done|]. rewrite !filter_cons.
  destruct a, b; simpl; (lia || by specialize (Hab eq_refl)).
Qed.

Lemma undropped_strict d d' k : grows d d' → d !! k = Some false → d' !! k = Some true →
  undropped d' < undropped d.
Proof.
  intros H. revert k. induction H as [|a b d d' Hab Hg IH]; intros k Hk Hk'; [done|].
  pose proof (undropped_grows d d' Hg). unfold undropped in *. rewrite !filter_cons.
  destruct k as [|k]; simplify_eq/=; [lia|]. specialize (IH k Hk Hk').
  destruct a, b; simpl; (lia || by specialize (Hab eq_refl)).
Qed.

Lemma is_dropped_true d k : is_dropped d k = true ↔ d !! k = Some true.
Proof. unfold is_dropped. destruct (d !! k) as [[]|]; naive_solver. Qed.

(** ** The scan *)

Section multi.
Variables (g : HashGraph) (origin : Hash) (order : list Hash) (c : causality).
Hypothesis Hnd : NoDup order.
Hypothesis Hknown : ∀ h, h ∈ order → ∃ v, getVertex g h = Some v ∧ hash v = h.

Local Abbreviation rel := (LegacyCausalityMatrix.areRelated c).

(** What the resolver must answer for the linearizer to stop. *)
Hypothesis Hresolver : ∀ vs, action (resolveConflicts g vs) = ActNop ∨
  action (resolveConflicts g vs) = ActDrop ∧
  ∃ h, h ∈ default [] (resolved_vertices (resolveConflicts g vs)) ∧ h ∈ hash <$> vs.

(** A [Drop] that names [h], given for pairwise unrelated members of the order. *)
Definition drop_verdict (h : Hash) : Prop :=
  ∃ vs, action (resolveConflicts g vs) = ActDrop ∧
    h ∈ default [] (resolved_vertices (resolveConflicts g vs)) ∧
    (∀ v, v ∈ vs → hash v ∈ order ∧ getVertex g (hash v) = Some v) ∧
    (∀ u v, [u; v] `sublist_of` vs → rel (hash u) (hash v) = false).

Definition indices_ok (indices : gmap Hash nat) : Prop :=
  ∀ h k, indices !! h = Some k → order !! k = Some h.

Lemma indices_ok_insert indices h k : order !! k = Some h → indices_ok indices →
  indices_ok (<[h := k]> indices).
Proof.
  intros Hk Hi h' k'. rewrite lookup_insert. case_decide; [by intros [= <-]; subst|apply Hi].
Qed.

Record collected (dropped : list bool) (ops : list Hash) (indices : gmap Hash nat) : Prop := {
  co_indices : indices_ok indices;
  co_ops : ∀ h, h ∈ ops → ∃ k, indices !! h = Some (S k) ∧ dropped !! S k = Some false;
  co_unrelated : ∀ x y, [x; y] `sublist_of` ops → rel x y = false
}.

Lemma sublist_pair_snoc (l : list Hash) z x y : [x; y] `sublist_of` l ++ [z] →
  [x; y] `sublist_of` l ∨ (x ∈ l ∧ y = z).
Proof.
  intros (i & j & Hij & Hi & Hj)%sublist_pair_lookup.
  destruct (decide (j < length l)) as [Hl|Hl].
  - left. apply sublist_pair_lookup. exists i, j. rewrite !lookup_app_l in * by lia. done.
  - right. assert (j < length (l ++ [z])) by (by eapply lookup_lt_Some).
    rewrite length_app in *. simpl in *. assert (j = length l) as -> by lia.
    rewrite list_lookup_middle in Hj by done. simplify_eq.
    rewrite lookup_app_l in Hi by lia. split; [by eapply list_elem_of_lookup_2|done].
Qed.

Lemma collect_step_ok dropped ops indices k : length dropped = length order → 0 < k →
  collected dropped ops indices →
  let '(ops', indices') := collect_step c order dropped (ops, indices) k in
  collected dropped ops' indices' ∧ ops `prefix_of` ops'.
Proof.
  intros Hlen Hk0 [Hi Ho Hu]. unfold collect_step.
  destruct (order !! k) as [hk|] eqn:Hk; [|by split].
  destruct (is_dropped dropped k) eqn:Hd; [by split|].
  destruct (existsb _ ops) eqn:Hex; [by split|]. split; [|by exists [hk]].
  assert (dropped !! k = Some false) as Hdk.
  { destruct (lookup_lt_is_Some_2 dropped k) as [[] E]; [rewrite Hlen; by eapply lookup_lt_Some| |done].
    unfold is_dropped in Hd. by rewrite E in Hd. }
  split.
  - by apply indices_ok_insert.
  - intros h Hh. destruct k as [|k]; [lia|]. rewrite lookup_insert. case_decide as E.
    + exists k. done.
    + apply elem_of_app in Hh as [Hh|Hh%list_elem_of_singleton]; [by apply Ho|done].
  - intros x y [H|[Hx ->]]%sublist_pair_snoc; [by apply Hu|].
    apply not_true_iff_false. intros Hr. apply not_true_iff_false in Hex. apply Hex.
    apply existsb_exists. exists x. split; [by apply list_elem_of_In|done].
Qed.

Lemma collect_ok dropped ops indices l : length dropped = length order → (∀ k, k ∈ l → 0 < k) →
  collected dropped ops indices →
  let '(ops', indices') := foldl (collect_step c order dropped) (ops, indices) l in
  collected dropped ops' indices' ∧ ops `prefix_of` ops'.
Proof.
  intros Hlen. revert ops indices. induction l as [|k l IH]; intros ops indices Hl Hc; [by split|].
  cbn [foldl]. pose proof (collect_step_ok dropped ops indices k Hlen ltac:(apply Hl; left) Hc) as Hs.
  destruct (collect_step c order dropped (ops, indices) k) as [ops1 indices1]. destruct Hs as [Hc1 Hp1].
  specialize (IH ops1 indices1 ltac:(intros; apply Hl; by right) Hc1).
  destruct (foldl _ _ l) as [ops2 indices2]. destruct IH as [Hc2 Hp2]. split; [done|by etrans].
Qed.

Lemma mapM_known ops : (∀ h, h ∈ ops → h ∈ order) →
  ∃ vs, mapM (getVertex g) ops = Some vs ∧ hash <$> vs = ops ∧
    ∀ v, v ∈ vs → hash v ∈ order ∧ getVertex g (hash v) = Some v.
Proof.
  induction ops as [|h ops IH]; intros Hops.
  - exists []. split; [done|]. split; [done|]. by intros v []%elem_of_nil.
  - destruct (Hknown h) as (v & Hv & Eh); [apply Hops; left|].
    destruct IH as (vs & E & Eh' & Hvs); [intros; apply Hops; by right|].
    exists (v :: vs). simpl. rewrite Hv. simpl. rewrite E. split; [done|].
    split; [by rewrite <- Eh, <- Eh'|]. intros w [->|Hw]%elem_of_cons; [|by apply Hvs]. rewrite Eh. split; [apply Hops; left|done].
Qed.

(** Dropping the named hashes. *)
Lemma drop_hashes indices hs dropped : indices_ok indices →
  let dropped' := foldl (drop_hash indices) dropped hs in
  grows dropped dropped' ∧
  (∀ k, dropped' !! k = Some true → dropped !! k = Some true ∨ ∃ h, h ∈ hs ∧ order !! k = Some h) ∧
  (∀ h k, h ∈ hs → indices !! h = Some (S k) → S k < length dropped → dropped' !! S k = Some true).
Proof.
  intros Hi. revert dropped. induction hs as [|h hs IH]; intros dropped.
  { simpl. split; [done|]. split; [auto|]. by intros ? ? []%elem_of_nil. }
  cbn [foldl]. assert (grows dropped (drop_hash indices dropped h)) as Hg.
  { unfold drop_hash. destruct (indices !! h) as [[|k]|]; [done|apply grows_insert|done]. }
  destruct (IH (drop_hash indices dropped h)) as (H1 & H2 & H3). split; [by etrans|]. split.
  - intros k Hk. apply H2 in Hk as [Hk|(h' & Hh' & Hk)].
    + unfold drop_hash in Hk. destruct (indices !! h) as [[|k']|] eqn:E; auto.
      destruct (decide (k = S k')) as [->|Hne].
      * right. exists h. split; [left|by apply Hi].
      * rewrite list_lookup_insert_ne in Hk by done. auto.
    + right. exists h'. split; [by right|done].
  - intros h' k [->|Hh']%elem_of_cons Hk Hlt.
    + assert (drop_hash indices dropped h !! S k = Some true) as Hset.
      { unfold drop_hash. rewrite Hk. by apply list_lookup_insert_eq. }
      destruct (Forall2_lookup_l _ _ _ _ _ H1 Hset) as (b & Hb & Himp). rewrite Hb. by rewrite Himp.
    + apply (H3 h' k Hh' Hk). by rewrite <- (Forall2_length _ _ _ Hg).
Qed.

Record dropped_ok (dropped : list bool) (indices : gmap Hash nat) : Prop := {
  dk_length : length dropped = length order;
  dk_indices : indices_ok indices;
  dk_verdict : ∀ k h, dropped !! k = Some true → order !! k = Some h → drop_verdict h
}.

Section scan.
Variables (i : nat) (anchor : Hash).
Hypothesis Hi : order !! S i = Some anchor.

Record mscan_inv (s : multi_scan) : Prop := {
  mi_ok : dropped_ok (ms_dropped s) (ms_indices s);
  mi_after : S i < ms_j s;
  mi_open : ms_j s < length order → is_dropped (ms_dropped s) (S i) = false
}.

Definition mscan_measure (s : multi_scan) : nat :=
  S (length order) * undropped (ms_dropped s) + (length order - ms_j s).

(** One resolver call: the collected operations, and what a [Drop] does. *)
Lemma multi_resolve j dropped indices moving : mscan_inv (mkMultiScan j dropped indices) →
  order !! j = Some moving → rel anchor moving = false → is_dropped dropped j = false →
  let indices1 := <[moving := j]> (<[anchor := S i]> indices) in
  let '(ops, indices2) := foldl (collect_step c order dropped) ([anchor; moving], indices1)
                            (seq (S j) (length order - S j)) in
  ∃ vs, mapM (getVertex g) ops = Some vs ∧ indices_ok indices2 ∧
    (action (resolveConflicts g vs) = ActDrop →
     let dropped' := foldl (drop_hash indices2) dropped
                       (default [] (resolved_vertices (resolveConflicts g vs))) in
     dropped_ok dropped' indices2 ∧ undropped dropped' < undropped dropped).
Proof.
  intros [[Hlen Hix Hv] Hij Hopen] Hj Hrel Hdj. simpl in *. cbv zeta.
  assert (j < length order) as Hjl by (by eapply lookup_lt_Some).
  assert (∀ k, is_dropped dropped k = false → k < length order → dropped !! k = Some false) as Hfalse.
  { intros k Hk Hkl. destruct (lookup_lt_is_Some_2 dropped k) as [[] E]; [lia| |done].
    unfold is_dropped in Hk. by rewrite E in Hk. }
  assert (collected dropped [anchor; moving] (<[moving := j]> (<[anchor := S i]> indices))) as Hc0.
  { split.
    - by apply indices_ok_insert, indices_ok_insert.
    - intros h Hh. destruct j as [|j]; [lia|]. rewrite lookup_insert. case_decide as E.
      + exists j. split; [done|by apply Hfalse].
      + exists i. assert (h = anchor) as -> by set_solver. rewrite lookup_insert_eq. split; [done|].
        apply Hfalse; [by apply Hopen|by eapply lookup_lt_Some].
    - intros x y (a & b & Hab & Ha & Hb)%sublist_pair_lookup. destruct b as [|[|b]]; [lia|..|done].
      assert (a = 0) as -> by lia. by simplify_eq/=. }
  pose proof (collect_ok dropped [anchor; moving] _ (seq (S j) (length order - S j)) Hlen
                ltac:(intros k [Hk _]%elem_of_seq; lia) Hc0) as Hc.
  destruct (foldl _ _ _) as [ops indices2]. destruct Hc as [[Hi2 Ho2 Hu2] _].
  assert (∀ h, h ∈ ops → h ∈ order) as Hin.
  { intros h Hh. destruct (Ho2 h Hh) as (k & Hk & _). apply Hi2 in Hk. by eapply list_elem_of_lookup_2. }
  destruct (mapM_known ops Hin) as (vs & E & Eh & Hvs). exists vs. split; [done|]. split; [done|].
  intros Hact. destruct (drop_hashes indices2 (default [] (resolved_vertices (resolveConflicts g vs)))
                           dropped Hi2) as (Hg & Hnew & Hset).
  split.
  - split; [by rewrite <- (Forall2_length _ _ _ Hg)|done|]. intros k h Hk Hkh.
    destruct (Hnew k Hk) as [Hold|(h' & Hh' & Hk')]; [by eapply Hv|]. simplify_eq. exists vs.
    split; [done|]. split; [done|]. split; [done|]. intros u v Huv. apply Hu2.
    change [hash u; hash v] with (hash <$> [u; v]). by apply fmap_sublist.
  - destruct (Hresolver vs) as [?|(_ & h & Hh & Hhv)]; [congruence|]. rewrite Eh in Hhv.
    destruct (Ho2 h Hhv) as (k & Hk & Hkd). eapply undropped_strict; [exact Hg|exact Hkd|].
    apply (Hset h k); [done..|]. by eapply lookup_lt_Some.
Qed.

Lemma multi_scan_step_inv s : mscan_inv s →
  match multi_scan_step g c order (S i) anchor s with
  | Next s' => mscan_inv s' ∧ mscan_measure s' < mscan_measure s
  | Done r => ∃ s', r = Ok s' ∧ dropped_ok (ms_dropped s') (ms_indices s')
  end.
Proof.
  destruct s as [j dropped indices]. intros Hs. pose proof Hs as [Hok Hij Hopen]. simpl in *.
  destruct (order !! j) as [moving|] eqn:Hj; [|eauto].
  assert (j < length order) as Hjl by (by eapply lookup_lt_Some).
  destruct (rel anchor moving || is_dropped dropped j) eqn:Hor.
  { split; [split; simpl; [done|lia|auto with lia]|]. unfold mscan_measure. simpl. lia. }
  apply orb_false_iff in Hor as [Hrel Hdj].
  pose proof (multi_resolve j dropped indices moving Hs Hj Hrel Hdj) as Hres. cbv zeta in Hres.
  destruct (foldl (collect_step c order dropped) _ _) as [ops indices2].
  destruct Hres as (vs & -> & Hi2 & Hdrop).
  assert (dropped_ok dropped indices2) as Hok2 by (by destruct Hok).
  destruct (Hresolver vs) as [Hact|[Hact _]]; rewrite Hact.
  { split; [split; simpl; [done|lia|auto with lia]|]. unfold mscan_measure. simpl. lia. }
  destruct (Hdrop Hact) as [Hok' Hlt]. set (dropped' := foldl (drop_hash indices2) dropped _) in *.
  destruct (is_dropped dropped' (S i)) eqn:Hd.
  - split; [split; simpl; [done| |lia]|].
    + apply lookup_lt_Some in Hi. lia.
    + unfold mscan_measure. simpl. nia.
  - split; [split; simpl; [exact Hok'|done|by intros]|]. unfold mscan_measure. simpl. nia.
Qed.

Lemma multi_scan_total fuel dropped indices : dropped_ok dropped indices →
  is_dropped dropped (S i) = false → S (length order) * length order + length order < fuel →
  ∃ s, loop (multi_scan_step g c order (S i) anchor) fuel (mkMultiScan (S (S i)) dropped indices) = Some (Ok s) ∧
    dropped_ok (ms_dropped s) (ms_indices s).
Proof.
  intros Hok Hd Hf.
  destruct (loop_total (multi_scan_step g c order (S i) anchor) mscan_inv mscan_measure
              (λ r, ∃ s', r = Ok s' ∧ dropped_ok (ms_dropped s') (ms_indices s')))
    with (fuel := fuel) (s := mkMultiScan (S (S i)) dropped indices) as (r & E & s & -> & Hs);
    [apply multi_scan_step_inv| | |eauto].
  - split; simpl; [done|lia|done].
  - unfold mscan_measure, undropped. simpl.
    pose proof (length_filter (λ b, b = false) dropped). destruct Hok as [Hl _ _]. nia.
Qed.
End scan.

(** The outer loop, from the entry [S i] on: the result consists of entries
    before it, and every such entry that is missing was dropped. *)
Lemma multi_steps_total fuel n : ∀ i dropped indices l,
  S (length order) * length order + length order < fuel →
  S i + n = length order → dropped_ok dropped indices → (origin ∉ drop (S i) order) →
  l `sublist_of` take (S i) order → (origin ∉ l) →
  (∀ h, h ∈ take (S i) order → h ≠ origin → h ∉ l → drop_verdict h) →
  ∃ s l', foldl (λ acc i, s ← acc; multi_step g fuel origin c order s i)
            (Ok (mkMulti dropped indices (vertices_at g l))) (seq (S i) n) = Ok s ∧
    mu_result s = vertices_at g l' ∧ l' `sublist_of` order ∧ (origin ∉ l') ∧
    (∀ h, h ∈ order → h ≠ origin → h ∉ l' → drop_verdict h).
Proof.
  induction n as [|n IH]; intros i dropped indices l Hf Hn Hok Hod Hl Ho Hdr.
  { exists (mkMulti dropped indices (vertices_at g l)), l.
    rewrite take_ge in * by lia. done. }
  destruct (lookup_lt_is_Some_2 order (S i)) as [x Hx]; [lia|].
  rewrite (drop_S _ _ _ Hx) in Hod. apply not_elem_of_cons in Hod as [Hox Hod].
  cbn [seq foldl mbind res_bind]. unfold multi_step at 2. rewrite Hx, decide_False by done.
  pose proof (take_S_r _ _ _ Hx) as Ht.
  assert (∀ dropped' indices' l2, dropped_ok dropped' indices' → l2 `sublist_of` take (S (S i)) order →
    origin ∉ l2 → (∀ h, h ∈ l → h ∈ l2) → (x ∉ l2 → drop_verdict x) →
    ∃ s l', foldl (λ acc i, s ← acc; multi_step g fuel origin c order s i)
            (Ok (mkMulti dropped' indices' (vertices_at g l2))) (seq (S (S i)) n) = Ok s ∧
    mu_result s = vertices_at g l' ∧ l' `sublist_of` order ∧ (origin ∉ l') ∧
    (∀ h, h ∈ order → h ≠ origin → h ∉ l' → drop_verdict h)) as Hnext.
  { intros dropped' indices' l2 Hok' Hl2 Ho2 Hl2l Hx2. apply IH; [done|lia|done..|].
    intros h Hh Hne Hn2. rewrite Ht in Hh. apply elem_of_app in Hh as [Hh|Hh%list_elem_of_singleton].
    - apply Hdr; auto.
    - subst. auto. }
  assert (∀ d idx, dropped_ok d idx → is_dropped d (S i) = true → drop_verdict x) as Hverdict.
  { intros d idx Hd Hdx%is_dropped_true. by eapply (dk_verdict _ _ Hd). }
  assert (l `sublist_of` take (S (S i)) order) as Hl' by (rewrite Ht; by apply sublist_inserts_r).
  destruct (is_dropped dropped (S i)) eqn:Hd; [apply Hnext; eauto|].
  destruct (multi_scan_total i x Hx fuel dropped indices Hok Hd Hf) as ([j' d' idx'] & -> & Hok').
  simpl in *. destruct (is_dropped d' (S i)) eqn:Hd'; [apply Hnext; eauto|].
  rewrite push_vertex_spec. unfold vertices_at at 1 2. rewrite <- omap_app.
  apply (Hnext d' idx' (l ++ [x])); [done|rewrite Ht; by apply sublist_app|set_solver|set_solver|set_solver].
Qed.

End multi.

(** ** Properties *)

Lemma multi_skip_origin g fuel origin c order tail s : order = origin :: tail →
  foldl (λ acc i, s ← acc; multi_step g fuel origin c order s i) (Ok s) (seq 0 (length order)) =
  foldl (λ acc i, s ← acc; multi_step g fuel origin c order s i) (Ok s) (seq 1 (length tail)).
Proof.
  intros ->. destruct s. cbn [length seq foldl mbind res_bind]. f_equal. simpl. by rewrite decide_True.
Qed.

Lemma multi_result g origin sub order tail fuel : wf g → interval g origin sub →
  sorted g origin sub order → order = origin :: tail →
  (∀ vs, action (resolveConflicts g vs) = ActNop ∨
     action (resolveConflicts g vs) = ActDrop ∧
     ∃ h, h ∈ default [] (resolved_vertices (resolveConflicts g vs)) ∧ h ∈ hash <$> vs) →
  S (size sub) * size sub + size sub < fuel →
  ∃ l, (linearizeMultipleSemantics fuel g origin sub).2 = Ok (vertices_at g l) ∧
    l `sublist_of` order ∧ (origin ∉ l) ∧
    (∀ h, h ∈ order → h ≠ origin → h ∉ l → drop_verdict g order (LegacyCausalityMatrix.new g order) h).
Proof.
  intros Hg Hiv Hso E Hres Hf. pose proof (dfs_outcomes g origin sub) as Hout.
  pose proof (so_order _ _ _ _ Hso) as Hdfs. unfold linearizeMultipleSemantics.
  destruct (dfsTopologicalSortIterative g origin sub) as [g1 r]. destruct Hout as (_ & Eg1 & _).
  simpl in Hdfs. subst r. rewrite Eg1. set (g' := with_forwardEdges g (forwardEdges g1)). simpl.
  destruct (vertices_of_tail g origin sub order Hso tail E) as [Ho Hv].
  assert (length order = size sub) as Hlen by (by rewrite (so_perm _ _ _ _ Hso)).
  destruct (needsConflictResolution g' origin order) eqn:Hn; simpl; cycle 1.
  { exists tail. split; [by rewrite <- Hv|]. split; [rewrite E; by apply sublist_cons|].
    split; [done|]. intros h Hh Hne Hnt. rewrite E in Hh. set_solver. }
  change (LegacyCausalityMatrix.new g' order) with (LegacyCausalityMatrix.new g order).
  rewrite (multi_skip_origin g' fuel origin _ order tail _ E).
  destruct (multi_steps_total g' origin order (LegacyCausalityMatrix.new g order)
              (sorted_NoDup g origin sub order Hso) (sorted_known g origin sub Hg Hiv order Hso) Hres fuel
              (length tail) 0 (replicate (length order) false) ∅ [])
    as (s & l & Es & Hr & Hs & Hol & Hd).
  - by rewrite Hlen.
  - by rewrite E.
  - split; [apply length_replicate|done|]. intros k h [Hk _]%lookup_replicate. done.
  - by rewrite E.
  - apply sublist_nil_l.
  - apply not_elem_of_nil.
  - rewrite E. simpl. intros h Hh Hne. rewrite take_0 in Hh. set_solver.
  - exists l. simpl in Es. rewrite Es. simpl. rewrite Hr. done.
Qed.

(** C20 Multiple semantics: for a resolver that answers [Nop], or [Drop] naming
    at least one of the vertices it was given, [linearizeVertices] terminates on
    every interval of a well-formed graph with pairwise concurrent dependencies.
    The result has vertices of the interval without the origin, each at most
    once, none before a vertex of its causal past; a vertex of the interval is
    missing only if the resolver, called with pairwise concurrent vertices of
    the interval, named it in a [Drop]. *)
Theorem multi_linearization (g : HashGraph) (origin : Hash) (sub : gset Hash) (fuel : nat)
    (Hwf : wf g) (Hred : reduced g) (Hiv : interval g origin sub)
    (Hsem : semanticsTypeDRP g = Some SemMultiple)
    (Hres : ∀ vs, action (resolveConflicts g vs) = ActNop ∨
       action (resolveConflicts g vs) = ActDrop ∧
       ∃ h, h ∈ default [] (resolved_vertices (resolveConflicts g vs)) ∧ h ∈ hash <$> vs)
    (Hsz : (Z.of_nat (size sub) ≤ 2 ^ 35)%Z) (Hfuel : S (size sub) * size sub + size sub < fuel) :
  ∃ l, (linearizeVertices fuel g origin sub).2 = Ok l ∧ linearization g origin sub l ∧
    (∀ h v, h ∈ sub → h ≠ origin → getVertex g h = Some v → v ∉ l →
       ∃ vs, action (resolveConflicts g vs) = ActDrop ∧
         h ∈ default [] (resolved_vertices (resolveConflicts g vs)) ∧
         (∀ w, w ∈ vs → hash w ∈ sub ∧ getVertex g (hash w) = Some w) ∧
         (∀ u w, [u; w] `sublist_of` vs → hash u ≠ hash w → ¬ related g (hash u) (hash w))).
Proof.
  destruct (sorted_exists g origin sub Hwf Hred Hiv) as [order Hso].
  destruct (so_head _ _ _ _ Hso) as [tail E]. unfold linearizeVertices. rewrite Hsem.
  destruct (multi_result g origin sub order tail fuel Hwf Hiv Hso E Hres Hfuel) as (l & -> & Hl & Ho & Hd).
  destruct (sublist_linearization g origin sub Hwf Hiv order Hso l Hl Ho) as [Hlz _].
  eexists. split; [done|]. split; [done|]. intros h v Hh Hne Hv Hnin.
  apply (elem_of_sorted g origin sub order Hso) in Hh.
  destruct (Hd h Hh Hne) as (vs & Hact & Hin & Hmem & Hun).
  { intros Hhl. apply Hnin, list_elem_of_omap. eauto. }
  exists vs. split; [done|]. split; [done|]. split.
  - intros w Hw. destruct (Hmem w Hw) as [? ?]. split; [|done].
    by apply (elem_of_sorted g origin sub order Hso).
  - intros u w Huw Hneq Hrel.
    assert (hash u ∈ order ∧ hash w ∈ order) as [Hu Hw].
    { split; apply Hmem; (eapply elem_of_sublist; [|exact Huw]); set_solver. }
    apply (sorted_related g origin sub Hiv order Hso) in Hrel; [|done..].
    rewrite Hun in Hrel by done. done.
Qed.

(** Among concurrent operations, the vertex with the greatest hash wins. *)
Definition keep_one : ResolveConflictFn := λ vs,
  match vs with
  | u :: v :: _ => mkResolved ActDrop (Some [hash u])
  | _ => resolved ActNop
  end.

Definition multi_graph : HashGraph :=
  let g := new_HashGraph "peer" None (Some keep_one) (Some SemMultiple) in
  let g := addVertex g (sample_op "set" "x" [rootHash]) in
  let g := addVertex g (sample_op "set" "y" [rootHash]) in
  addVertex g (sample_op "set" "z" [rootHash]).

Lemma multi_graph_ok : wf multi_graph ∧ reduced multi_graph.
Proof.
  set (g0 := new_HashGraph "peer" None (Some keep_one) (Some SemMultiple)).
  set (g1 := addVertex g0 (sample_op "set" "x" [rootHash])).
  set (g2 := addVertex g1 (sample_op "set" "y" [rootHash])).
  assert (wf g0) as H0 by apply wf_new_HashGraph.
  assert (wf g1) as H1 by (apply wf_addVertex; [done|decide_by_compute]).
  assert (wf g2) as H2 by (apply wf_addVertex; [done|decide_by_compute]).
  change multi_graph with (addVertex g2 (sample_op "set" "z" [rootHash])).
  split; [apply wf_addVertex; [done|decide_by_compute]|].
  do 3 (apply reduced_addVertex; [done| |decide_by_compute|by apply antichain_singleton]).
  apply reduced_new_HashGraph.
Qed.

Lemma multi_linearization_witness :
  ∃ l, (linearizeVertices 30 multi_graph rootHash (vertex_keys multi_graph)).2 = Ok l ∧
    NoDup (hash <$> l) ∧ hash <$> l = ["z"]%string.
Proof.
  destruct multi_graph_ok as [H1 H2].
  destruct (multi_linearization multi_graph rootHash (vertex_keys multi_graph) 30) as (l & E & Hlz & _).
  - exact H1.
  - exact H2.
  - apply interval_whole, H1.
  - reflexivity.
  - intros vs. unfold resolveConflicts. case_bool_decide; [by left|]. simpl. unfold keep_one.
    destruct vs as [|u [|v vs]]; [by left..|]. right. split; [done|]. exists (hash u).
    split; [left|]. csimpl. left.
  - vm_compute. discriminate.
  - vm_compute. lia.
  - exists l. split; [exact E|]. split; [apply (lz_nodup _ _ _ _ Hlz)|].
    vm_compute in E. injection E as <-. reflexivity.
Defined.
