(* ===== verification/Convergence.v ===== *)
(** * Replicas that know the same vertices agree

    The topological sort, the linearizers and the lowest common ancestor read
    the graph only through vertex lookups, the set of children of a vertex and
    the distances: not through the order in which the vertices arrived. So two
    replicas that received the same vertices, in any causal order, linearize
    them identically. The system of replicas is a step relation (create a vertex
    locally, deliver a vertex to another replica) whose invariant is proved by
    induction on its steps. *)

From S2P Require Import Prelude JsMap JsNum Bits JsValue Types HashGraph Dag TopoSort Causality Lca.
From S2P Require Import LegacyCausality Linearize LinearizePair LinearizeMulti.

(** ** Functions of the content of a graph *)

Record same_content (g1 g2 : HashGraph) : Prop := {
  sc_vertices : ∀ h, getVertex g1 h = getVertex g2 h;
  sc_resolvers : resolvers g1 = resolvers g2;
  sc_semantics : semanticsTypeDRP g1 = semanticsTypeDRP g2
}.

#[global] Instance same_content_equivalence : Equivalence same_content.
Proof.
  split.
  - by intros g.
  - intros g1 g2 [H1 H2 H3]. by split.
  - intros g1 g2 g3 [H1 H2 H3] [H4 H5 H6]. split; [intros h; by rewrite H1|congruence..].
Qed.

Lemma same_content_edges g fe : same_content (with_forwardEdges g fe) g.
Proof. by split. Qed.

#[global] Instance getVertex_proper : Proper (same_content ==> (=) ==> (=)) getVertex.
Proof. intros g1 g2 H h ? <-. apply (sc_vertices _ _ H). Qed.

#[global] Instance getDependencies_proper : Proper (same_content ==> (=) ==> (=)) getDependencies.
Proof. intros g1 g2 H h ? <-. unfold getDependencies. by rewrite H. Qed.

#[global] Instance resolveConflicts_proper : Proper (same_content ==> (=) ==> (=)) resolveConflicts.
Proof. intros g1 g2 H vs ? <-. unfold resolveConflicts. by rewrite (sc_resolvers _ _ H). Qed.

#[global] Instance vertices_at_proper : Proper (same_content ==> (=) ==> (=)) vertices_at.
Proof.
  intros g1 g2 H l ? <-. unfold vertices_at. induction l as [|h l IH]; [done|]. simpl.
  rewrite H. destruct (getVertex g2 h); [f_equal|]; apply IH.
Qed.

#[global] Instance vertices_of_proper : Proper (same_content ==> (=) ==> (=) ==> (=)) vertices_of.
Proof.
  intros g1 g2 H o ? <- l ? <-. unfold vertices_of. induction l as [|h l IH]; [done|]. simpl.
  case_decide; [apply IH|]. rewrite H. destruct (getVertex g2 h); [f_equal|]; apply IH.
Qed.

#[global] Instance needsConflictResolution_proper :
  Proper (same_content ==> (=) ==> (=) ==> (=)) needsConflictResolution.
Proof.
  intros g1 g2 H o ? <- l ? <-. unfold needsConflictResolution. induction l as [|h l IH]; [done|].
  simpl. rewrite IH. unfold hasCustomConflictResolver.
  by rewrite (sc_vertices _ _ H), (sc_resolvers _ _ H).
Qed.

Lemma foldl_ext_all {A B} (f1 f2 : A → B → A) a l : (∀ a b, f1 a b = f2 a b) → foldl f1 a l = foldl f2 a l.
Proof. intros Hf. revert a. induction l as [|b l IH]; intros a; [done|]. simpl. by rewrite Hf, IH. Qed.

#[global] Instance causality_new_proper :
  Proper (same_content ==> (=) ==> (=)) LegacyCausalityMatrix.new.
Proof.
  intros g1 g2 H l ? <-. unfold LegacyCausalityMatrix.new. f_equal. apply foldl_ext_all. intros m ih.
  unfold LegacyCausalityMatrix.add_row. by rewrite H.
Qed.

#[global] Instance pair_step_proper :
  Proper (same_content ==> (=) ==> (=) ==> (=) ==> (=) ==> (=)) pair_step.
Proof.
  intros g1 g2 H fuel ? <- o ? <- [order dropped c result] ? <- i ? <-. unfold pair_step.
  destruct (order !! i) as [a|]; [|done]. do 2 (case_match; [done|]).
  rewrite (loop_ext (pair_scan_step g1 i) (pair_scan_step g2 i)).
  - destruct (loop _ _ _) as [[]|]; [|done]. unfold push_vertex. by rewrite (sc_vertices _ _ H).
  - intros [j anchor o' d c']. simpl. destruct (o' !! j) as [hj|]; [|done]. case_match; [done|].
    rewrite !(sc_vertices _ _ H). destruct (getVertex g2 anchor), (getVertex g2 hj); try done.
    by rewrite (resolveConflicts_proper g1 g2 H _ _ eq_refl).
Qed.

#[global] Instance multi_step_proper :
  Proper (same_content ==> (=) ==> (=) ==> (=) ==> (=) ==> (=) ==> (=) ==> (=)) multi_step.
Proof.
  intros g1 g2 H fuel ? <- o ? <- c ? <- order ? <- [dropped indices result] ? <- i ? <-. unfold multi_step.
  destruct (order !! i) as [a|]; [|done]. do 2 (case_match; [done|]).
  rewrite (loop_ext (multi_scan_step g1 c order i a) (multi_scan_step g2 c order i a)).
  - destruct (loop _ _ _) as [[]|]; [|done..]. simpl. unfold push_vertex. by rewrite (sc_vertices _ _ H).
  - intros [j d indices']. simpl. destruct (order !! j); [|done]. case_match; [done|].
    destruct (foldl _ _ _) as [ops indices2].
    assert (mapM (getVertex g1) ops = mapM (getVertex g2) ops) as ->.
    { clear -H. induction ops as [|h ops IH]; [done|]. simpl. by rewrite (sc_vertices _ _ H), IH. }
    destruct (mapM _ ops); [|done]. by rewrite (resolveConflicts_proper g1 g2 H _ _ eq_refl).
Qed.

(** ** The topological sort reads the edges up to their order *)

Lemma dfs_loop_proper sub fuel : ∀ s1 s2,
  dfs_visited s1 = dfs_visited s2 → dfs_processing s1 = dfs_processing s2 →
  dfs_result s1 = dfs_result s2 → dfs_stack s1 = dfs_stack s2 →
  edges_equiv (dfs_edges s1) (dfs_edges s2) →
  snd <$> loop (dfs_step sub) fuel s1 = snd <$> loop (dfs_step sub) fuel s2.
Proof.
  induction fuel as [|fuel IH]; intros [v1 p1 r1 k1 e1] [v2 p2 r2 k2 e2]; simpl; [done|].
  intros -> -> -> -> He. unfold dfs_step. simpl.
  case_decide; [|done]. destruct k2 as [|x rest]; [done|]. case_decide; [by apply IH|].
  rewrite (js_sort_proper _ _ (He x)). destruct (dfs_push _ _ _ _ _); [|done].
  apply IH; simpl; try done. by rewrite !edges_equiv_sort.
Qed.

Lemma dfs_proper g1 g2 origin sub : edges_equiv (forwardEdges g1) (forwardEdges g2) →
  (dfsTopologicalSortIterative g1 origin sub).2 = (dfsTopologicalSortIterative g2 origin sub).2.
Proof.
  intros He. unfold dfsTopologicalSortIterative. case_decide as Ho; [|done].
  destruct (dfs_reachability_check g1 origin sub Ho) as (X1 & -> & H1 & _).
  destruct (dfs_reachability_check g2 origin sub Ho) as (X2 & -> & H2 & _).
  assert (X1 = X2) as ->.
  { apply set_eq. intros h. rewrite H1, H2.
    split; (eapply rtc_subrel; intros x y [Hc Hs]; split; [|done]).
    - by rewrite <- (He x).
    - by rewrite (He x). }
  case_decide; [|done].
  pose proof (dfs_loop_proper sub (dfs_fuel sub) (dfs_init origin (forwardEdges g1))
                (dfs_init origin (forwardEdges g2)) eq_refl eq_refl eq_refl eq_refl He) as Hl.
  destruct (loop _ _ (dfs_init origin (forwardEdges g1))) as [[]|],
           (loop _ _ (dfs_init origin (forwardEdges g2))) as [[]|]; simplify_eq/=; done.
Qed.

(** ** Linearization *)

Lemma dfs_content g origin sub : same_content (dfsTopologicalSortIterative g origin sub).1 g.
Proof.
  pose proof (dfs_outcomes g origin sub) as H.
  destruct (dfsTopologicalSortIterative g origin sub) as [g' r]. destruct H as (_ & -> & _).
  apply same_content_edges.
Qed.

Section agree.
Variables (g1 g2 : HashGraph).
Hypothesis Hsame : same_content g1 g2.
Hypothesis Hedges : edges_equiv (forwardEdges g1) (forwardEdges g2).

Lemma linearizeVertices_agree fuel origin sub :
  (linearizeVertices fuel g1 origin sub).2 = (linearizeVertices fuel g2 origin sub).2.
Proof.
  unfold linearizeVertices. rewrite (sc_semantics _ _ Hsame).
  assert (same_content (dfsTopologicalSortIterative g1 origin sub).1
                       (dfsTopologicalSortIterative g2 origin sub).1) as Hs.
  { etrans; [apply dfs_content|]. etrans; [exact Hsame|]. symmetry. apply dfs_content. }
  pose proof (dfs_proper g1 g2 origin sub Hedges) as Hd.
  destruct (semanticsTypeDRP g2) as [[]|]; [| |done];
    unfold linearizePairSemantics, linearizeMultipleSemantics;
    destruct (dfsTopologicalSortIterative g1 origin sub) as [g1' r1],
             (dfsTopologicalSortIterative g2 origin sub) as [g2' r2]; simpl in *; subst r2;
    (destruct r1 as [order|e]; [|done]); simpl;
    rewrite (needsConflictResolution_proper g1' g2' Hs origin _ eq_refl order _ eq_refl);
    rewrite (vertices_of_proper g1' g2' Hs origin _ eq_refl order _ eq_refl);
    rewrite (causality_new_proper g1' g2' Hs order _ eq_refl); (case_match; [done|]);
    (erewrite foldl_ext_all; [done|]); intros acc i; (destruct acc as [s|e]; [|done]); simpl.
  - by apply pair_step_proper.
  - by apply multi_step_proper.
Qed.
End agree.

(** ** Two graphs with the same vertices *)

Section vertices.
Variables (g1 g2 : HashGraph).
Hypothesis Hwf1 : wf g1.
Hypothesis Hwf2 : wf g2.
Hypothesis Hsame : ∀ h, getVertex g1 h = getVertex g2 h.

Lemma same_parent h d : parent g1 h d ↔ parent g2 h d.
Proof. unfold parent, getDependencies. by rewrite Hsame. Qed.

Lemma same_keys h : h ∈ jm_keys (vertices g1) ↔ h ∈ jm_keys (vertices g2).
Proof.
  specialize (Hsame h). unfold getVertex in Hsame.
  destruct (decide (h ∈ jm_keys (vertices g1))) as [H1|H1], (decide (h ∈ jm_keys (vertices g2))) as [H2|H2];
    try tauto; exfalso.
  - apply jm_get_None in H2. rewrite H2 in Hsame. by apply jm_get_None in Hsame.
  - apply jm_get_None in H1. rewrite H1 in Hsame. symmetry in Hsame. by apply jm_get_None in Hsame.
Qed.

Lemma same_vertices_perm : vertices g1 ≡ₚ vertices g2.
Proof.
  assert (∀ g, wf g → NoDup (vertices g)) as Hnd.
  { intros g Hg. eapply (NoDup_fmap_1 fst), causal_NoDup. auto with dag. }
  apply NoDup_Permutation; auto. intros [h v].
  assert (∀ g, wf g → (h, v) ∈ vertices g ↔ getVertex g h = Some v) as Hin; [|by rewrite !Hin, Hsame].
  intros g Hg. split; [apply jm_get_In, causal_NoDup; auto with dag|apply jm_get_elem].
Qed.

Lemma same_edges : (∀ h, NoDup (getDependencies g1 h)) →
  edges_equiv (forwardEdges g1) (forwardEdges g2).
Proof.
  intros Hnd h. change (children g1 h ≡ₚ children g2 h). apply NoDup_Permutation.
  - by apply (wf_edges_nodup g1 Hwf1).
  - apply (wf_edges_nodup g2 Hwf2). intros h'. specialize (Hnd h').
    unfold getDependencies in *. by rewrite <- Hsame.
  - intros c. rewrite (wf_edges g1 Hwf1), (wf_edges g2 Hwf2). apply same_parent.
Qed.

Lemma same_causal_past a h : before g1 a h ↔ before g2 a h.
Proof. unfold before. split; apply tc_monotone; intros ??; apply same_parent. Qed.
End vertices.

(** ** Distances are a function of the content *)

Record dist_fix (g : HashGraph) : Prop := {
  df_root : vertexDistances g !! rootHash = Some (mkDistance 0 None);
  df_vertex : ∀ h v, getVertex g h = Some v → h ≠ rootHash →
    vertexDistances g !! h = Some (vertexDistance (vertexDistances g) (dependencies v));
  df_absent : ∀ h, getVertex g h = None → vertexDistances g !! h = None
}.

Lemma vertexDistance_ext ds1 ds2 deps : (∀ d, d ∈ deps → ds1 !! d = ds2 !! d) →
  vertexDistance ds1 deps = vertexDistance ds2 deps.
Proof.
  unfold vertexDistance. generalize (mkDistance MAX_VALUE (Some EmptyString)).
  induction deps as [|d deps IH]; intros vd Hd; [done|]. simpl. rewrite (Hd d) by left.
  apply IH. intros; apply Hd; by right.
Qed.

Lemma dist_fix_new peer acl drp sem : dist_fix (new_HashGraph peer acl drp sem).
Proof.
  split.
  - apply lookup_singleton_eq.
  - intros h v Hv Hne. unfold getVertex in Hv. simpl in Hv. by case_decide.
  - intros h Hh. unfold getVertex in Hh. simpl in *. case_decide; [done|]. by apply lookup_singleton_ne.
Qed.

Lemma dist_fix_addVertex g v : wf g → admissible g v → dist_fix g → dist_fix (addVertex g v).
Proof.
  intros Hg [Hf Hne Hk] [H1 H2 H3].
  assert (∀ deps, (∀ d, d ∈ deps → d ∈ jm_keys (vertices g)) →
    vertexDistance (vertexDistances g) deps = vertexDistance (vertexDistances (addVertex g v)) deps) as Hd.
  { intros deps Hdeps. apply vertexDistance_ext. intros d Hd%Hdeps. simpl.
    rewrite lookup_insert_ne; [done|]. by intros <-. }
  split.
  - simpl. rewrite lookup_insert_ne; [done|]. intros E. apply Hf. rewrite E.
    eapply jm_get_Some_keys, causal_root_vertex; auto with dag.
  - intros h w. rewrite getVertex_addVertex. case_decide as E.
    + intros [= <-] _. subst. simpl. rewrite lookup_insert_eq. f_equal. by apply Hd.
    + intros Hw Hr. simpl. rewrite lookup_insert_ne by done. rewrite (H2 h w Hw Hr). f_equal.
      apply Hd. intros d. eapply causal_deps; eauto with dag.
  - intros h. rewrite getVertex_addVertex. case_decide as E; [done|]. simpl.
    rewrite lookup_insert_ne by done. apply H3.
Qed.

Lemma same_distances g1 g2 : wf g1 → (∀ h, getVertex g1 h = getVertex g2 h) →
  dist_fix g1 → dist_fix g2 → vertexDistances g1 = vertexDistances g2.
Proof.
  intros Hg Hsame H1 H2. apply map_eq. intros h. remember (rank g1 h) as r eqn:Hr. revert h Hr.
  induction (lt_wf r) as [r _ IH]. intros h ->.
  destruct (decide (h = rootHash)) as [->|Hne]; [by rewrite (df_root _ H1), (df_root _ H2)|].
  destruct (getVertex g1 h) as [v|] eqn:Hv.
  - rewrite (df_vertex _ H1 h v Hv Hne). rewrite Hsame in Hv. rewrite (df_vertex _ H2 h v Hv Hne).
    f_equal. apply vertexDistance_ext. intros d Hd. eapply IH; [|done]. apply parent_rank; [done|].
    unfold parent, getDependencies. rewrite Hsame, Hv. done.
  - rewrite (df_absent _ H1 h Hv). rewrite Hsame in Hv. by rewrite (df_absent _ H2 h Hv).
Qed.

Lemma lca_agree g1 g2 hs V : wf g1 → wf g2 → (∀ h, getVertex g1 h = getVertex g2 h) →
  vertexDistances g1 = vertexDistances g2 →
  lowestCommonAncestorMultipleVertices g1 hs V = lowestCommonAncestorMultipleVertices g2 hs V.
Proof.
  intros Hg1 Hg2 Hsame Hd. unfold lowestCommonAncestorMultipleVertices.
  destruct hs as [|h [|h' hs]]; [done..|].
  pose proof (same_vertices_perm g1 g2 Hg1 Hg2 Hsame) as Hp.
  assert (∀ hs, lca_multi_fuel g1 hs = lca_multi_fuel g2 hs) as ->.
  { intros l. unfold lca_multi_fuel. by rewrite Hp. }
  f_equal. apply loop_ext. intros [i lca V' T]. unfold lca_multi_step.
  repeat case_match; try done.
  all: unfold lowestCommonAncestorPairVertices, lca_pair_fuel in *; rewrite Hp in *.
  all: rewrite (loop_ext (lca_pair_step g1) (lca_pair_step g2)) in *; try congruence.
  all: intros [a b V'' T'']; unfold lca_pair_step, lca_push, getDependencies;
    rewrite Hd, !Hsame; done.
Qed.

(** ** The system of replicas *)

Section system.
Variable sha256hex : string → Hash.

Definition replicas := nat → HashGraph.

Definition update (R : replicas) (r : nat) (g : HashGraph) : replicas :=
  λ s, if decide (s = r) then g else R s.

(** A replica creates a vertex on its own frontier, with a hash no replica has
    seen; or a vertex of one replica is delivered to another one that knows its
    dependencies. *)
Inductive sys_step : replicas → replicas → Prop :=
| sys_create R r op now :
    let v := hg_createVertex sha256hex (R r) op None now in
    (∀ s, hash v ∉ jm_keys (vertices (R s))) →
    sys_step R (update R r (addVertex (R r) v))
| sys_deliver R r s h v :
    getVertex (R r) h = Some v → admissible (R s) v →
    sys_step R (update R s (addVertex (R s) v)).

Definition sys_init (R : replicas) : Prop :=
  ∃ acl drp sem, ∀ r, ∃ peer, R r = new_HashGraph peer acl drp sem.

Record sys_inv (R : replicas) : Prop := {
  si_wf : ∀ r, wf (R r);
  si_reduced : ∀ r, reduced (R r);
  si_dist : ∀ r, dist_fix (R r);
  si_config : ∀ r s, resolvers (R r) = resolvers (R s) ∧ semanticsTypeDRP (R r) = semanticsTypeDRP (R s);
  si_agree : ∀ r s h v w, getVertex (R r) h = Some v → getVertex (R s) h = Some w → v = w
}.

Lemma sys_inv_init R : sys_init R → sys_inv R.
Proof.
  intros (acl & drp & sem & HR). split.
  - intros r. destruct (HR r) as [peer ->]. apply wf_new_HashGraph.
  - intros r. destruct (HR r) as [peer ->]. apply reduced_new_HashGraph.
  - intros r. destruct (HR r) as [peer ->]. apply dist_fix_new.
  - intros r s. destruct (HR r) as [peer ->], (HR s) as [peer' ->]. done.
  - intros r s h v w. destruct (HR r) as [peer ->], (HR s) as [peer' ->].
    unfold getVertex. simpl. case_decide; congruence.
Qed.

(** The causal past of a vertex is the same at all replicas that have it. *)
Lemma sys_past R r s d h : sys_inv R → h ∈ jm_keys (vertices (R r)) → before (R s) d h → before (R r) d h.
Proof.
  intros HR Hh Hb. unfold before in *. revert Hh.
  assert (∀ x y, parent (R s) x y → x ∈ jm_keys (vertices (R r)) → parent (R r) x y) as Hstep.
  { intros x y (v & Hv & Hy)%getDependencies_Some Hx.
    destruct (getVertex (R r) x) as [w|] eqn:Hw; [|by apply jm_get_None in Hw].
    rewrite <- (si_agree R HR s r x v w Hv Hw) in Hw.
    unfold parent, getDependencies. by rewrite Hw. }
  induction Hb as [x y Hxy|x y z Hxy _ IH]; intros Hx.
  - apply tc_once. by apply Hstep.
  - specialize (Hstep x y Hxy Hx). eapply tc_l; [exact Hstep|]. apply IH.
    by apply (parent_keys (R r) x y (si_wf R HR r)).
Qed.

(** Adding a vertex that agrees with what the others know. *)
Lemma sys_inv_add R r v : sys_inv R → admissible (R r) v → antichain (R r) (dependencies v) →
  (∀ s w, getVertex (R s) (hash v) = Some w → w = v) →
  sys_inv (update R r (addVertex (R r) v)).
Proof.
  intros [H1 H2 H3 H4 H5] Ha Hc Hag. unfold update. split.
  - intros s. case_decide; [by apply wf_addVertex|done].
  - intros s. case_decide; [by apply reduced_addVertex|done].
  - intros s. case_decide; [by apply dist_fix_addVertex|done].
  - intros s t. repeat case_decide; simpl; apply H4.
  - assert (∀ s h w, getVertex (if decide (s = r) then addVertex (R r) v else R s) h = Some w →
      (h = hash v ∧ w = v) ∨ ∃ q, getVertex (R q) h = Some w) as Hcase.
    { intros s h w. case_decide; [|eauto]. rewrite getVertex_addVertex. case_decide; [|eauto].
      intros [= <-]. by left. }
    intros s t h w1 w2 E1%Hcase E2%Hcase.
    destruct E1 as [[-> ->]|[q1 E1]], E2 as [[E ->]|[q2 E2]]; subst; eauto.
    symmetry. eauto.
Qed.

Lemma sys_inv_step R R' : sys_inv R → sys_step R R' → sys_inv R'.
Proof.
  intros HR Hstep. destruct Hstep as [R r op now v Hfresh|R r s h v Hv Ha].
  - apply sys_inv_add; [done| | |].
    + split; [apply Hfresh| |].
      * simpl. pose proof (si_wf R HR r) as Hg. intros E.
        pose proof (causal_root_vertex _ (wf_causal _ Hg)) as Hroot.
        destruct (getFrontier_nonempty (R r) Hg) as [x Hx]. unfold getFrontier in *. rewrite E in Hx.
        by apply elem_of_nil in Hx.
      * simpl. intros d Hd. by apply (wf_frontier (R r) (si_wf R HR r)) in Hd as [? _].
    + simpl. apply antichain_frontier. apply si_wf, HR.
    + intros s w Hw. destruct (Hfresh s). by eapply jm_get_Some_keys.
  - pose proof (causal_hash _ h v (wf_causal _ (si_wf R HR r)) Hv) as Eh.
    apply sys_inv_add; [done|done| |].
    + assert (getDependencies (R r) h = dependencies v) as Ed by (unfold getDependencies; by rewrite Hv).
      split.
      * rewrite <- Ed. apply (red_nodup _ (si_reduced R HR r)).
      * intros d1 d2 Hd1 Hd2 Hb. rewrite <- Ed in Hd1, Hd2.
        apply (red_antichain _ (si_reduced R HR r) h d1 d2 Hd1 Hd2).
        eapply sys_past; [done| |exact Hb]. by apply (parent_keys (R r) h d2 (si_wf R HR r)).
    + intros q w Hw. rewrite Eh in Hw. by eapply (si_agree R HR q r).
Qed.

Lemma sys_inv_reachable R0 R : sys_init R0 → rtc sys_step R0 R → sys_inv R.
Proof.
  intros H0%sys_inv_init Hr. induction Hr as [|R R' R'' Hs _ IH]; [done|].
  apply IH. by eapply sys_inv_step.
Qed.

(** Replicas with the same hashes have the same content and equivalent edges. *)
Lemma sys_same R r s : sys_inv R →
  (∀ h, h ∈ jm_keys (vertices (R r)) ↔ h ∈ jm_keys (vertices (R s))) →
  same_content (R r) (R s) ∧ edges_equiv (forwardEdges (R r)) (forwardEdges (R s)).
Proof.
  intros HR Hk. assert (∀ h, getVertex (R r) h = getVertex (R s) h) as Hsame.
  { intros h. specialize (Hk h). destruct (getVertex (R r) h) as [v|] eqn:E1, (getVertex (R s) h) as [w|] eqn:E2;
      [|exfalso..|done].
    - f_equal. by eapply (si_agree R HR r s).
    - apply jm_get_None in E2. by apply E2, Hk; eapply jm_get_Some_keys.
    - apply jm_get_None in E1. by apply E1, Hk; eapply jm_get_Some_keys. }
  destruct (si_config R HR r s) as [Hc1 Hc2]. split; [by split|].
  apply same_edges; [apply (si_wf R HR)..|done|]. apply (red_nodup _ (si_reduced R HR r)).
Qed.

(** C1 Strong eventual consistency: take replicas that start from fresh graphs
    with the same resolvers, create vertices on their own frontiers and deliver
    vertices to each other in any order that respects the dependencies. Whenever
    two of them know the same hashes, they linearize every subgraph identically,
    find the same lowest common ancestor and the same operations to replay for
    any dependencies, and have the same frontier up to order: the order of
    arrival leaves no trace. *)
Theorem strong_eventual_consistency (R0 R : replicas) (r s fuel : nat) (origin : Hash)
    (sub : gset Hash) (deps : list Hash)
    (Hinit : sys_init R0) (Hrun : rtc sys_step R0 R)
    (Hknow : ∀ h, h ∈ jm_keys (vertices (R r)) ↔ h ∈ jm_keys (vertices (R s))) :
  (linearizeVertices fuel (R r) origin sub).2 = (linearizeVertices fuel (R s) origin sub).2 ∧
  (getLCA fuel (R r) deps).2 = (getLCA fuel (R s) deps).2 ∧
  getFrontier (R r) ≡ₚ getFrontier (R s).
Proof.
  pose proof (sys_inv_reachable R0 R Hinit Hrun) as HR.
  destruct (sys_same R r s HR Hknow) as [Hc He].
  pose proof (sc_vertices _ _ Hc) as Hv. pose proof (si_wf R HR r) as W1. pose proof (si_wf R HR s) as W2.
  split; [by apply linearizeVertices_agree|]. split.
  - unfold getLCA. rewrite (lca_agree (R r) (R s) deps ∅ W1 W2 Hv)
      by (apply same_distances; auto; apply (si_dist R HR)).
    destruct deps as [|d [|d' deps]]; [done|done|].
    destruct (lowestCommonAncestorMultipleVertices (R s) _ _) as [[lca X]|e]; [|done].
    pose proof (linearizeVertices_agree (R r) (R s) Hc He fuel lca X) as Hl.
    destruct (linearizeVertices fuel (R r) lca X), (linearizeVertices fuel (R s) lca X). simpl in *.
    by subst.
  - apply NoDup_Permutation; [by apply wf_frontier_nodup..|]. intros h. unfold getFrontier.
    rewrite (wf_frontier _ W1), (wf_frontier _ W2), Hknow. by setoid_rewrite (same_parent _ _ Hv).
Qed.

End system.

(** Two replicas create one vertex each and exchange them. *)
Definition two_replicas : replicas := λ r,
  new_HashGraph (if decide (r = 0) then "alice" else "bob")%string None (Some reset_wins) (Some SemPair).

Definition alice_op : Operation := mkOperation DrpType_DRP "inc" [].
Definition bob_op : Operation := mkOperation DrpType_DRP "reset" [].

Definition exchanged : replicas :=
  let va := hg_createVertex (λ s, s) (two_replicas 0) alice_op None 1 in
  let vb := hg_createVertex (λ s, s) (two_replicas 1) bob_op None 1 in
  let R1 := update two_replicas 0 (addVertex (two_replicas 0) va) in
  let R2 := update R1 1 (addVertex (R1 1) vb) in
  let R3 := update R2 0 (addVertex (R2 0) vb) in
  update R3 1 (addVertex (R3 1) va).

Lemma exchanged_run : rtc (sys_step (λ s, s)) two_replicas exchanged.
Proof.
  set (va := hg_createVertex (λ s, s) (two_replicas 0) alice_op None 1).
  set (vb := hg_createVertex (λ s, s) (two_replicas 1) bob_op None 1).
  set (R1 := update two_replicas 0 (addVertex (two_replicas 0) va)).
  set (R2 := update R1 1 (addVertex (R1 1) vb)).
  set (R3 := update R2 0 (addVertex (R2 0) vb)).
  assert (∀ s, jm_keys (vertices (two_replicas s)) = [rootHash]) as Hkeys by done.
  assert (hash va ≠ rootHash ∧ hash vb ≠ rootHash ∧ hash vb ≠ hash va) as (N1 & N2 & N3).
  { split; [|split]; vm_compute; discriminate. }
  assert (jm_keys (vertices (addVertex (two_replicas 0) va)) = [rootHash; hash va]) as Ha
    by (vm_compute; reflexivity).
  apply (rtc_l _ _ R1); [|apply (rtc_l _ _ R2); [|apply (rtc_l _ _ R3); [|apply rtc_once]]].
  - apply (sys_create (λ s, s) two_replicas 0 alice_op 1). intros s. rewrite Hkeys.
    by intros ?%list_elem_of_singleton.
  - apply (sys_create (λ s, s) R1 1 bob_op 1). intros s. unfold R1 at 2, update.
    change (hg_createVertex _ (R1 1) _ _ _) with vb. destruct (decide (s = 0)).
    + rewrite Ha. by intros [?|[?|[]%elem_of_nil]%elem_of_cons]%elem_of_cons.
    + rewrite Hkeys. by intros ?%list_elem_of_singleton.
  - apply (sys_deliver (λ s, s) R2 1 0 (hash vb)); [vm_compute; reflexivity|decide_by_compute].
  - apply (sys_deliver (λ s, s) R3 0 1 (hash va)); [vm_compute; reflexivity|decide_by_compute].
Qed.

Lemma strong_eventual_consistency_witness :
  (linearizeVertices 5 (exchanged 0) rootHash (vertex_keys (exchanged 0))).2 =
  (linearizeVertices 5 (exchanged 1) rootHash (vertex_keys (exchanged 0))).2.
Proof.
  apply (strong_eventual_consistency (λ s, s) two_replicas exchanged 0 1 5 rootHash
           (vertex_keys (exchanged 0)) []).
  - exists None, (Some reset_wins), (Some SemPair). intros r. eexists. reflexivity.
  - exact exchanged_run.
  - intros h. assert (jm_keys (vertices (exchanged 0)) ≡ₚ jm_keys (vertices (exchanged 1))) as ->; [|reflexivity].
    decide_by_compute.
Defined.
