(* ===== verification/Validation.v ===== *)
(** * Validation of vertices ([packages/validation/src/vertex.ts])

    [validateVertex] runs its three checks in order and reports the first that
    throws. What the hash graph needs of a vertex before [addVertex]
    ([admissible]) is exactly what a successful validation establishes, given
    that the caller only adds vertices whose hash is not in the graph yet. *)

From S2P Require Import Prelude JsMap JsNum Bits JsValue Types HashGraph Dag TopoSort.

Definition DRP_VERTEX_FUTURE_TOLERANCE_MS : Z := 60000.

Inductive validation_error :=
| InvalidHashError (h : Hash)
| InvalidDependenciesError (h : Hash) (dep : option Hash)
| InvalidTimestampError (h : Hash) (a b : Z).

#[global] Instance validation_error_eq_dec : EqDecision validation_error.
Proof. solve_decision. Defined.

Section validation.
Variable sha256hex : string → Hash.

Definition validateVertexHash (v : Vertex) : res validation_error unit :=
  let correctHash := computeHash sha256hex (peerId v) (operation v) (dependencies v) (timestamp v) in
  if bool_decide (hash v ≠ correctHash) then Throw (InvalidHashError (hash v)) else Ok tt.

Definition validateVertexTimestamp (a b : Z) (h : Hash) : res validation_error unit :=
  if (DRP_VERTEX_FUTURE_TOLERANCE_MS <? a - b)%Z then Throw (InvalidTimestampError h a b) else Ok tt.

(** The [for] loop over the dependencies. *)
Fixpoint validate_deps (g : HashGraph) (h : Hash) (ts : Z) (deps : list Hash) :
    res validation_error unit :=
  match deps with
  | [] => Ok tt
  | dep :: deps =>
      match getVertex g dep with
      | None => Throw (InvalidDependenciesError h (Some dep))
      | Some depVertex =>
          _ ← validateVertexTimestamp (timestamp depVertex) ts h;
          validate_deps g h ts deps
      end
  end.

Definition validateVertexDependencies (v : Vertex) (g : HashGraph) : res validation_error unit :=
  match dependencies v with
  | [] => Throw (InvalidDependenciesError (hash v) None)
  | deps => validate_deps g (hash v) (timestamp v) deps
  end.

Record ValidationResult := mkValidation {
  success : bool;
  error : option validation_error
}.

Definition validateVertex (v : Vertex) (g : HashGraph) (now : Z) (skipHashValidation : bool) :
    ValidationResult :=
  let checks :=
    _ ← (if skipHashValidation then Ok tt else validateVertexHash v);
    _ ← validateVertexDependencies v g;
    validateVertexTimestamp (timestamp v) now (hash v) in
  match checks with
  | Ok _ => mkValidation true None
  | Throw e => mkValidation false (Some e)
  end.

(** ** What a successful validation says *)

Lemma validate_deps_ok g h ts deps : validate_deps g h ts deps = Ok tt ↔
  ∀ d, d ∈ deps → ∃ dv, getVertex g d = Some dv ∧
    (timestamp dv - ts ≤ DRP_VERTEX_FUTURE_TOLERANCE_MS)%Z.
Proof.
  induction deps as [|d deps IH]; simpl; [split; [intros _ d []%elem_of_nil|done]|].
  setoid_rewrite elem_of_cons. destruct (getVertex g d) as [dv|] eqn:Hd; cycle 1.
  { split; [done|]. intros H. destruct (H d) as (? & ? & _); [by left|congruence]. }
  unfold validateVertexTimestamp. destruct (Z.ltb_spec DRP_VERTEX_FUTURE_TOLERANCE_MS (timestamp dv - ts)).
  - simpl. split; [done|]. intros Hall. destruct (Hall d) as (? & ? & ?); [by left|]. simplify_eq. lia.
  - simpl. rewrite IH. split.
    + intros Hall d' [->|Hd']; [eauto|auto].
    + intros Hall d' Hd'. auto.
Qed.

Lemma validateVertexDependencies_ok g v : validateVertexDependencies v g = Ok tt ↔
  dependencies v ≠ [] ∧
  ∀ d, d ∈ dependencies v → ∃ dv, getVertex g d = Some dv ∧
    (timestamp dv - timestamp v ≤ DRP_VERTEX_FUTURE_TOLERANCE_MS)%Z.
Proof.
  unfold validateVertexDependencies. destruct (dependencies v) as [|d ds] eqn:E; [naive_solver|].
  rewrite validate_deps_ok. naive_solver.
Qed.

(** Validation accepts a vertex exactly when its hash is the hash of its
    contents (unless hash validation is skipped), it has at least one
    dependency, every dependency is in the graph and at most the tolerance ahead
    of it in time, and its own timestamp is at most the tolerance ahead of the
    clock; otherwise the result carries an error. *)
Theorem validateVertex_success (v : Vertex) (g : HashGraph) (now : Z) (skip : bool) :
  (success (validateVertex v g now skip) = true ↔
     (skip = false → hash v = computeHash sha256hex (peerId v) (operation v) (dependencies v) (timestamp v)) ∧
     dependencies v ≠ [] ∧
     (∀ d, d ∈ dependencies v → ∃ dv, getVertex g d = Some dv ∧
        (timestamp dv - timestamp v ≤ DRP_VERTEX_FUTURE_TOLERANCE_MS)%Z) ∧
     (timestamp v - now ≤ DRP_VERTEX_FUTURE_TOLERANCE_MS)%Z) ∧
  (success (validateVertex v g now skip) = false ↔ is_Some (error (validateVertex v g now skip))).
Proof.
  unfold validateVertex.
  assert (∀ r : res validation_error unit, r = Ok tt ∨ ∃ e, r = Throw e) as Hres
    by (intros [[]|e]; eauto).
  destruct (Hres (if skip then Ok tt else validateVertexHash v)) as [E1|[e1 E1]]; rewrite E1; simpl; cycle 1.
  { split; [|naive_solver]. split; [done|]. intros (Hh & _). destruct skip; [done|].
    unfold validateVertexHash in E1. rewrite bool_decide_false in E1 by naive_solver. done. }
  assert (skip = false → hash v = computeHash sha256hex (peerId v) (operation v) (dependencies v) (timestamp v))
    as Hh.
  { intros ->. unfold validateVertexHash in E1. case_bool_decide as Hb; [done|]. (done || by apply dec_stable). }
  destruct (Hres (validateVertexDependencies v g)) as [E2|[e2 E2]]; rewrite E2; simpl; cycle 1.
  { split; [|naive_solver]. split; [done|]. intros (_ & H2 & H3 & _).
    rewrite (proj2 (validateVertexDependencies_ok g v)) in E2; done. }
  apply validateVertexDependencies_ok in E2 as [H2 H3]. unfold validateVertexTimestamp.
  destruct (Z.ltb_spec DRP_VERTEX_FUTURE_TOLERANCE_MS (timestamp v - now)); simpl.
  - split; [|naive_solver]. split; [done|]. intros (_ & _ & _ & ?). lia.
  - split; [|split; [done|by intros [? ?]]]. naive_solver.
Qed.

Lemma validated_admissible v g now skip : success (validateVertex v g now skip) = true →
  getVertex g (hash v) = None → admissible g v.
Proof.
  intros Hs Hf. unfold validateVertex in Hs.
  destruct (if skip then Ok tt else validateVertexHash v) as [[]|e]; [|done]. simpl in Hs.
  destruct (validateVertexDependencies v g) as [[]|e] eqn:E; [|done].
  apply validateVertexDependencies_ok in E as [Hne Hd]. split; [by apply jm_get_None|done|].
  intros d (dv & Hdv & _)%Hd. by eapply jm_get_Some_keys.
Qed.

(** C24 Validation protects the graph: adding a vertex that passes validation and
    is not in a well-formed graph yet gives a well-formed graph again (its
    frontier, edges and causal order are right, see the graph invariant), with
    exactly that vertex added. *)
Theorem validated_vertex_keeps_invariant (v : Vertex) (g : HashGraph) (now : Z) (skip : bool)
    (Hwf : wf g) (Hok : success (validateVertex v g now skip) = true)
    (Hnew : getVertex g (hash v) = None) :
  wf (addVertex g v) ∧
  (∀ h, getVertex (addVertex g v) h = if decide (hash v = h) then Some v else getVertex g h).
Proof.
  split; [|apply getVertex_addVertex]. apply wf_addVertex; [done|]. by eapply validated_admissible.
Qed.

End validation.

Lemma validated_vertex_keeps_invariant_witness :
  wf (addVertex diamond (createVertex (λ s, s) "peer" (mkOperation DrpType_DRP "op" []) ["c"]%string 7 None)).
Proof.
  apply (validated_vertex_keeps_invariant (λ s, s) _ diamond 5 false wf_diamond);
    vm_compute; reflexivity.
Defined.
