(* ===== verification/Acl.v ===== *)
(** * The access control list of an object ([packages/object/src/acl/index.ts])

    [ObjectACL] as a state-passing component: a method call gives the new state
    next to its outcome, because a call that throws may already have changed
    the map ([grant] files an empty entry for an unknown peer before it looks
    at the group). [_authorizedPeers] keeps the insertion order of the [Map],
    which [query_getFinalitySigners] exposes to the finality component. *)

From S2P Require Import Prelude JsMap JsNum Bits JsValue Types.

Inductive ACLGroup := Admin | Finality | Writer.
#[global] Instance ACLGroup_eq_dec : EqDecision ACLGroup.
Proof. solve_decision. Defined.

(** The strings of the enumeration; any other string is no group. *)
Definition group_of_string (s : string) : option ACLGroup :=
  if String.eqb s "ADMIN" then Some Admin
  else if String.eqb s "FINALITY" then Some Finality
  else if String.eqb s "WRITER" then Some Writer
  else None.

Inductive ACLConflictResolution := GrantWins | RevokeWins.

Record PeerPermissions := mkPermissions {
  blsPublicKey : string;
  permissions : list ACLGroup
}.

Record ObjectACL := mkACL {
  caller : string;
  permissionless : bool;
  conflictResolution : ACLConflictResolution;
  authorizedPeers : list (string * PeerPermissions)
}.

Inductive acl_error :=
| OnlyAdminsGrant
| OnlyAdminsRevoke
| PermissionlessWriter
| RevokeFromAdmin
| InvalidGroup
| OnlySignersSetKey.

Definition with_peers (a : ObjectACL) (m : list (string * PeerPermissions)) : ObjectACL :=
  mkACL (caller a) (permissionless a) (conflictResolution a) m.

Definition as_caller (a : ObjectACL) (c : string) : ObjectACL :=
  mkACL c (permissionless a) (conflictResolution a) (authorizedPeers a).

Definition getPeerPermissions (key : option string) (perms : option (list ACLGroup)) : PeerPermissions :=
  mkPermissions (default EmptyString key) (default [] perms).

(** The constructor. *)
Definition new_ObjectACL (admins : list string) (pless : option bool)
    (resolution : option ACLConflictResolution) : ObjectACL :=
  let pless := default false pless in
  let adminPermissions := if pless then [Admin; Finality] else [Admin; Finality; Writer] in
  mkACL EmptyString pless (default RevokeWins resolution)
    (foldl (λ m a, jm_set m a (getPeerPermissions None (Some adminPermissions))) [] admins).

Definition createACL := new_ObjectACL.
Definition createPermissionlessACL (admins : list string) : ObjectACL :=
  createACL admins (Some true) None.

(** ** Queries *)

Definition has_group (a : ObjectACL) (peer : string) (group : ACLGroup) : bool :=
  default false ((λ p, js_has (permissions p) group) <$> jm_get (authorizedPeers a) peer).

Definition query_isAdmin (a : ObjectACL) (peer : string) : bool := has_group a peer Admin.
Definition query_isFinalitySigner (a : ObjectACL) (peer : string) : bool := has_group a peer Finality.
Definition query_isWriter (a : ObjectACL) (peer : string) : bool :=
  permissionless a || has_group a peer Writer.
Definition query_getPeerKey (a : ObjectACL) (peer : string) : option string :=
  blsPublicKey <$> jm_get (authorizedPeers a) peer.
Definition query_getFinalitySigners (a : ObjectACL) : list (string * string) :=
  (λ e, (e.1, blsPublicKey e.2)) <$>
  filter (λ e, js_has (permissions e.2) Finality = true) (authorizedPeers a).

(** ** Updates *)

Definition add_permission (a : ObjectACL) (peer : string) (p : PeerPermissions) (group : ACLGroup) :
    ObjectACL :=
  with_peers a (jm_set (authorizedPeers a) peer
                  (mkPermissions (blsPublicKey p) (js_add (permissions p) group))).

Definition grant (a : ObjectACL) (peer : string) (group : string) : ObjectACL * res acl_error unit :=
  if negb (query_isAdmin a (caller a)) then (a, Throw OnlyAdminsGrant)
  else
    let p := default (getPeerPermissions None None) (jm_get (authorizedPeers a) peer) in
    let a := with_peers a (jm_set (authorizedPeers a) peer p) in
    match group_of_string group with
    | Some Writer =>
        if permissionless a then (a, Throw PermissionlessWriter)
        else (add_permission a peer p Writer, Ok tt)
    | Some g => (add_permission a peer p g, Ok tt)
    | None => (a, Throw InvalidGroup)
    end.

Definition remove_permission (a : ObjectACL) (peer : string) (group : ACLGroup) : ObjectACL :=
  match jm_get (authorizedPeers a) peer with
  | Some p => with_peers a (jm_set (authorizedPeers a) peer
                              (mkPermissions (blsPublicKey p) (js_del (permissions p) group)))
  | None => a
  end.

Definition revoke (a : ObjectACL) (peer : string) (group : string) : ObjectACL * res acl_error unit :=
  if negb (query_isAdmin a (caller a)) then (a, Throw OnlyAdminsRevoke)
  else if query_isAdmin a peer then (a, Throw RevokeFromAdmin)
  else
    match group_of_string group with
    | Some Admin => (a, Ok tt)
    | Some g => (remove_permission a peer g, Ok tt)
    | None => (a, Throw InvalidGroup)
    end.

Definition setKey (a : ObjectACL) (key : string) : ObjectACL * res acl_error unit :=
  if negb (query_isFinalitySigner a (caller a)) then (a, Throw OnlySignersSetKey)
  else
    let p := match jm_get (authorizedPeers a) (caller a) with
             | None => getPeerPermissions (Some key) None
             | Some p => mkPermissions key (permissions p)
             end in
    (with_peers a (jm_set (authorizedPeers a) (caller a) p), Ok tt).

(** ** Conflict resolution *)

(** Called with at least two vertices (with fewer, [vertices[1].operation]
    throws a [TypeError]; both linearizers pass two or more). *)
Definition acl_resolveConflicts (resolution : ACLConflictResolution) : ResolveConflictFn := λ vs,
  match vs with
  | v0 :: v1 :: _ =>
      match operation v0, operation v1 with
      | Some o0, Some o1 =>
          if String.eqb (opType o0) "setKey" || String.eqb (opType o1) "setKey" then resolved ActNop
          else if String.eqb (opType o0) (opType o1)
                  || negb (strict_eq (arg (value o0) 0) (arg (value o1) 0))
          then resolved ActNop
          else
            match resolution with
            | GrantWins => resolved (if String.eqb (opType o0) "grant" then ActDropRight else ActDropLeft)
            | RevokeWins => resolved (if String.eqb (opType o0) "grant" then ActDropLeft else ActDropRight)
            end
      | _, _ => resolved ActNop
      end
  | _ => resolved ActNop
  end.

(** ** Invariant: keys and permission sets have no duplicates *)

Record acl_wf (a : ObjectACL) : Prop := {
  aw_keys : NoDup (jm_keys (authorizedPeers a));
  aw_perms : ∀ peer p, jm_get (authorizedPeers a) peer = Some p → NoDup (permissions p)
}.

Lemma acl_wf_set a peer p : acl_wf a → NoDup (permissions p) →
  acl_wf (with_peers a (jm_set (authorizedPeers a) peer p)).
Proof.
  intros [H1 H2] Hp. split; simpl; [by apply NoDup_jm_keys_set|].
  intros q pq. rewrite jm_get_set. case_decide; [by intros [= <-]|apply H2].
Qed.

Lemma acl_wf_new admins pless r : acl_wf (new_ObjectACL admins pless r).
Proof.
  unfold new_ObjectACL. set (perms := if default false pless then _ else _).
  assert (NoDup perms) as Hp.
  { unfold perms. destruct (default false pless); decide_by_compute. }
  assert (∀ m, acl_wf (mkACL EmptyString (default false pless) (default RevokeWins r) m) →
    acl_wf (mkACL EmptyString (default false pless) (default RevokeWins r)
      (foldl (λ m a, jm_set m a (getPeerPermissions None (Some perms))) m admins))) as Hfold.
  { induction admins as [|x admins IH]; intros m Hm; simpl; [done|]. apply IH.
    by apply (acl_wf_set _ x (getPeerPermissions None (Some perms)) Hm). }
  apply Hfold. split; simpl; [apply NoDup_nil_2|done].
Qed.

Inductive acl_call :=
| CallGrant (peer group : string)
| CallRevoke (peer group : string)
| CallSetKey (key : string).

(** A call by [c], as the object runs it: the caller is set, then the method. *)
Definition acl_run (a : ObjectACL) (c : string) (call : acl_call) : ObjectACL * res acl_error unit :=
  let a := as_caller a c in
  match call with
  | CallGrant p g => grant a p g
  | CallRevoke p g => revoke a p g
  | CallSetKey k => setKey a k
  end.

Lemma permissions_default_NoDup a peer : acl_wf a →
  NoDup (permissions (default (getPeerPermissions None None) (jm_get (authorizedPeers a) peer))).
Proof.
  intros [_ H]. destruct (jm_get (authorizedPeers a) peer) eqn:E; simpl; [by eapply H|apply NoDup_nil_2].
Qed.

Lemma acl_wf_run a c call : acl_wf a → acl_wf (acl_run a c call).1.
Proof.
  intros H. assert (acl_wf (as_caller a c)) as Ha by (by destruct H).
  clear H. unfold acl_run. revert Ha. generalize (as_caller a c). clear a. intros a Ha.
  pose proof (permissions_default_NoDup a) as Hd. destruct call as [p g|p g|k]; simpl.
  - unfold grant. destruct (query_isAdmin a (caller a)); simpl; [|done].
    set (q := default _ _). set (a1 := with_peers a _).
    assert (acl_wf a1) as H1 by (apply acl_wf_set; [done|by apply Hd]).
    assert (∀ g', acl_wf (add_permission a1 p q g')) as Hadd.
    { intros g'. apply acl_wf_set; [done|]. simpl. apply NoDup_js_add. by apply Hd. }
    destruct (group_of_string g) as [[]|]; simpl; [done|done|destruct (permissionless a); [exact H1|apply Hadd]|done].
  - unfold revoke. destruct (query_isAdmin a (caller a)); simpl; [|done].
    destruct (query_isAdmin a p); simpl; [done|]. destruct (group_of_string g) as [[]|]; simpl; try done.
    all: unfold remove_permission; destruct (jm_get (authorizedPeers a) p) eqn:E; [|done].
    all: apply acl_wf_set; [done|]; simpl; apply NoDup_js_del; by eapply aw_perms.
  - unfold setKey. destruct (query_isFinalitySigner a (caller a)); simpl; [|done]. apply acl_wf_set; [done|].
    destruct (jm_get (authorizedPeers a) (caller a)) eqn:E; simpl; [by eapply (aw_perms a Ha)|apply NoDup_nil_2].
Qed.

(** ** Effect of an update on the groups *)

Lemma has_group_set a peer p q g :
  has_group (with_peers a (jm_set (authorizedPeers a) peer p)) q g =
  if decide (peer = q) then js_has (permissions p) g else has_group a q g.
Proof. unfold has_group. simpl. rewrite jm_get_set. by case_decide. Qed.

Lemma has_group_default a peer g :
  js_has (permissions (default (getPeerPermissions None None) (jm_get (authorizedPeers a) peer))) g
  = has_group a peer g.
Proof. unfold has_group. by destruct (jm_get (authorizedPeers a) peer). Qed.

Lemma grant_groups a peer group q g : query_isAdmin a (caller a) = true →
  has_group (grant a peer group).1 q g =
  has_group a q g ||
  (bool_decide (q = peer ∧ group_of_string group = Some g) && negb (bool_decide (g = Writer) && permissionless a)).
Proof.
  intros Ha. unfold grant. rewrite Ha. simpl.
  set (p := default _ _). set (a1 := with_peers a _).
  assert (∀ q g, has_group a1 q g = has_group a q g) as H1.
  { intros q' g'. unfold a1. rewrite has_group_set. case_decide; [|done]. subst. apply has_group_default. }
  assert (∀ g', has_group (add_permission a1 peer p g') q g = has_group a q g || bool_decide (q = peer ∧ g = g')) as H2.
  { intros g'. unfold add_permission. rewrite has_group_set, H1. case_decide as E.
    - subst q. simpl. rewrite <- (has_group_default a peer g). fold p. unfold js_has.
      destruct (decide (g = g')) as [->|Hne].
      + rewrite bool_decide_true by (apply elem_of_js_add; auto).
        by rewrite (bool_decide_true (peer = peer ∧ g' = g')), orb_true_r.
      + rewrite (bool_decide_false (peer = peer ∧ g = g')) by naive_solver. rewrite orb_false_r.
        apply bool_decide_ext. rewrite elem_of_js_add. naive_solver.
    - rewrite bool_decide_false by naive_solver. by rewrite orb_false_r. }
  destruct (group_of_string group) as [g'|]; cycle 1.
  { rewrite H1, bool_decide_false by naive_solver. by rewrite orb_false_r. }
  assert (bool_decide (q = peer ∧ Some g' = Some g) = bool_decide (q = peer ∧ g = g')) as Eb
    by (apply bool_decide_ext; naive_solver).
  rewrite Eb. destruct (decide (q = peer ∧ g = g')) as [[-> ->]|Hn]; cycle 1.
  { rewrite bool_decide_false by done. rewrite orb_false_r.
    destruct g'; [| |change (permissionless a1) with (permissionless a); destruct (permissionless a)]; simpl; rewrite ?H1, ?H2, ?bool_decide_false by done;
      by rewrite ?orb_false_r. }
  rewrite bool_decide_true by done. change (permissionless a1) with (permissionless a).
  destruct g'; simpl; [| |destruct (permissionless a); simpl]; rewrite ?H1, ?H2, ?bool_decide_true by done;
    by rewrite ?orb_false_r.
Qed.

Lemma revoke_groups a peer group q g : acl_wf a → query_isAdmin a (caller a) = true →
  has_group (revoke a peer group).1 q g =
  has_group a q g &&
  negb (bool_decide (q = peer ∧ group_of_string group = Some g) && negb (query_isAdmin a peer)).
Proof.
  intros Hw Ha. unfold revoke. rewrite Ha. simpl. destruct (query_isAdmin a peer) eqn:Hp; simpl.
  { by rewrite andb_false_r, andb_true_r. }
  rewrite andb_true_r. destruct (group_of_string group) as [g'|]; cycle 1.
  { simpl. rewrite bool_decide_false by naive_solver. by rewrite andb_true_r. }
  assert (∀ g', has_group (remove_permission a peer g') q g =
    has_group a q g && negb (bool_decide (q = peer ∧ Some g' = Some g))) as Hrem.
  { intros g0. unfold remove_permission. destruct (jm_get (authorizedPeers a) peer) as [p|] eqn:E.
    - rewrite has_group_set. case_decide as Eq.
      + subst q. unfold has_group. rewrite E. simpl. unfold js_has.
        pose proof (elem_of_js_del (permissions p) g0 g (aw_perms a Hw peer p E)) as Hin.
        destruct (decide (g = g0)) as [->|Hne].
        * rewrite (bool_decide_true (peer = peer ∧ _)) by done. rewrite andb_false_r.
          apply bool_decide_eq_false. naive_solver.
        * rewrite (bool_decide_false (peer = peer ∧ _)) by naive_solver. rewrite andb_true_r.
          apply bool_decide_ext. naive_solver.
      + rewrite bool_decide_false by naive_solver. by rewrite andb_true_r.
    - case_bool_decide as Eq; [|by rewrite andb_true_r]. destruct Eq as [-> _].
      unfold has_group. by rewrite E. }
  destruct g'; simpl; [|apply Hrem..].
  case_bool_decide as Eq; [|by rewrite andb_true_r]. destruct Eq as [-> [= <-]].
  rewrite andb_false_r. done.
Qed.

Lemma setKey_groups a key q g : has_group (setKey a key).1 q g = has_group a q g.
Proof.
  unfold setKey. destruct (query_isFinalitySigner a (caller a)) eqn:Hs; simpl; [|done].
  rewrite has_group_set. case_decide as E; [|done]. subst q.
  unfold query_isFinalitySigner, has_group in *. by destruct (jm_get (authorizedPeers a) (caller a)).
Qed.

(** ** Properties *)

(** C25 What a call does to the groups, on every branch, thrown errors included:
    a grant adds the peer to the named group exactly when the caller is an admin
    and the group is not the writer group of a permissionless object; a revoke
    removes the peer from the named group exactly when the caller is an admin and
    the peer is not; [setKey] changes no group. Nothing else changes, and the map
    and the permission sets stay free of duplicates. *)
Theorem acl_call_effect (a : ObjectACL) (c : string) (call : acl_call) (q : string) (g : ACLGroup)
    (Hwf : acl_wf a) :
  acl_wf (acl_run a c call).1 ∧
  has_group (acl_run a c call).1 q g =
  match call with
  | CallGrant p s =>
      has_group a q g ||
      (query_isAdmin a c && (bool_decide (q = p ∧ group_of_string s = Some g) &&
                             negb (bool_decide (g = Writer) && permissionless a)))
  | CallRevoke p s =>
      has_group a q g &&
      negb (query_isAdmin a c && (bool_decide (q = p ∧ group_of_string s = Some g) &&
                                  negb (query_isAdmin a p)))
  | CallSetKey _ => has_group a q g
  end.
Proof.
  split; [by apply acl_wf_run|]. unfold acl_run.
  assert (acl_wf (as_caller a c)) as Hw by (by destruct Hwf).
  destruct (query_isAdmin a c) eqn:Ha.
  - destruct call as [p s|p s|k].
    + by rewrite (grant_groups (as_caller a c) p s q g Ha).
    + by rewrite (revoke_groups (as_caller a c) p s q g Hw Ha).
    + by rewrite setKey_groups.
  - destruct call as [p s|p s|k]; [| |by rewrite setKey_groups]; simpl.
    + unfold grant. change (query_isAdmin (as_caller a c) (caller (as_caller a c))) with (query_isAdmin a c).
      rewrite Ha. simpl. by rewrite orb_false_r.
    + unfold revoke. change (query_isAdmin (as_caller a c) (caller (as_caller a c))) with (query_isAdmin a c).
      rewrite Ha. simpl. by rewrite andb_true_r.
Qed.

Definition sample_acl : ObjectACL := createACL ["root"]%string None None.

Lemma acl_call_effect_witness :
  query_isWriter (acl_run sample_acl "root" (CallGrant "bob" "WRITER")).1 "bob" = true ∧
  acl_wf (acl_run sample_acl "root" (CallGrant "bob" "WRITER")).1.
Proof.
  destruct (acl_call_effect sample_acl "root" (CallGrant "bob" "WRITER") "bob" Writer) as [H1 H2].
  - apply acl_wf_new.
  - split; [|exact H1]. vm_compute. reflexivity.
Defined.

(** C26 No sequence of calls, by any callers, ever takes the admin group from a
    peer, and a call by a caller without the needed group (admin for grants and
    revocations, finality for keys) throws and leaves the list as it was. *)
Theorem acl_admins_permanent (a : ObjectACL) (calls : list (string * acl_call)) (p : string) (Hwf : acl_wf a) :
  (query_isAdmin a p = true →
     query_isAdmin (foldl (λ a c, (acl_run a c.1 c.2).1) a calls) p = true) ∧
  (∀ c call,
     match call with CallSetKey _ => query_isFinalitySigner a c | _ => query_isAdmin a c end = false →
     ∃ e, acl_run a c call = (as_caller a c, Throw e)).
Proof.
  split.
  - revert a Hwf. induction calls as [|[c call] calls IH]; intros a Hwf Hp; simpl; [done|].
    apply IH; [by apply acl_wf_run|]. unfold query_isAdmin in *.
    assert (acl_wf (as_caller a c)) as Hw by (by destruct Hwf).
    unfold acl_run. destruct call as [q s|q s|k]; [| |by rewrite setKey_groups].
    + destruct (query_isAdmin (as_caller a c) (caller (as_caller a c))) eqn:Ha.
      * rewrite grant_groups by done. change (has_group (as_caller a c) p Admin) with (has_group a p Admin).
        by rewrite Hp.
      * unfold grant. by rewrite Ha.
    + destruct (query_isAdmin (as_caller a c) (caller (as_caller a c))) eqn:Ha.
      * rewrite revoke_groups by done. change (has_group (as_caller a c) p Admin) with (has_group a p Admin).
        rewrite Hp. simpl. case_bool_decide as E; [|done]. destruct E as [-> _].
        unfold query_isAdmin. change (has_group (as_caller a c) q Admin) with (has_group a q Admin).
        by rewrite Hp.
      * unfold revoke. by rewrite Ha.
  - intros c [q s|q s|k] Hn; unfold acl_run, grant, revoke, setKey;
      change (query_isAdmin (as_caller a c) (caller (as_caller a c))) with (query_isAdmin a c);
      change (query_isFinalitySigner (as_caller a c) (caller (as_caller a c)))
        with (query_isFinalitySigner a c); rewrite Hn; simpl; eauto.
Qed.

Lemma acl_admins_permanent_witness :
  query_isAdmin (foldl (λ a c, (acl_run a c.1 c.2).1) sample_acl
    [("root", CallGrant "bob" "ADMIN"); ("bob", CallRevoke "root" "ADMIN")])%string "root" = true.
Proof.
  apply (proj1 (acl_admins_permanent sample_acl
    [("root", CallGrant "bob" "ADMIN"); ("bob", CallRevoke "root" "ADMIN")]%string "root" (acl_wf_new _ _ _))).
  vm_compute. reflexivity.
Defined.

(** An access control operation of the kind that can conflict. *)
Definition grant_or_revoke (v : Vertex) : Prop :=
  ∃ o, operation v = Some o ∧ (opType o = "grant" ∨ opType o = "revoke")%string.

Definition named_peer (v : Vertex) : jsvalue := default VUndefined ((λ o, arg (value o) 0) <$> operation v).

(** C32 For grants and revocations (an operation [setKey] never conflicts) the
    conflict resolver of the access control list does not depend on the order of
    its two arguments: it drops the left vertex of one order exactly when it drops
    the right vertex of the other. It drops one of the two exactly when one is a
    grant and the other a revocation that name the same peer, and then the one
    that loses under the policy: the grant under [RevokeWins], the revocation
    under [GrantWins]. *)
Theorem acl_resolver_symmetric (r : ACLConflictResolution) (u v : Vertex)
    (Hu : grant_or_revoke u) (Hv : grant_or_revoke v) :
  (action (acl_resolveConflicts r [u; v]) = ActDropLeft ↔
   action (acl_resolveConflicts r [v; u]) = ActDropRight) ∧
  (action (acl_resolveConflicts r [u; v]) = ActDropLeft ↔
   opType <$> operation u = Some (if r is RevokeWins then "grant" else "revoke")%string ∧
   opType <$> operation v = Some (if r is RevokeWins then "revoke" else "grant")%string ∧
   strict_eq (named_peer u) (named_peer v) = true) ∧
  (action (acl_resolveConflicts r [u; v]) = ActNop ∨
   action (acl_resolveConflicts r [u; v]) = ActDropLeft ∨
   action (acl_resolveConflicts r [u; v]) = ActDropRight).
Proof.
  destruct Hu as (ou & Eu & Hu), Hv as (ov & Ev & Hv). unfold named_peer. simpl. rewrite Eu, Ev. simpl.
  rewrite (strict_eq_sym (arg (value ov) 0)).
  destruct Hu as [-> | ->], Hv as [-> | ->], (strict_eq _ _), r; vm_compute; naive_solver.
Qed.

Definition acl_vertex (h op peer : string) (deps : list Hash) : Vertex :=
  mkVertex h "root" (Some (mkOperation DrpType_ACL op [VStr peer; VStr "WRITER"])) deps 1 [].

Lemma acl_resolver_symmetric_witness :
  action (acl_resolveConflicts RevokeWins [acl_vertex "x" "grant" "bob" []; acl_vertex "y" "revoke" "bob" []])
    = ActDropLeft ∧
  action (acl_resolveConflicts RevokeWins [acl_vertex "y" "revoke" "bob" []; acl_vertex "x" "grant" "bob" []])
    = ActDropRight.
Proof.
  split; [reflexivity|].
  apply (proj1 (acl_resolver_symmetric RevokeWins (acl_vertex "x" "grant" "bob" [])
                  (acl_vertex "y" "revoke" "bob" [])
                  ltac:(eexists; split; [reflexivity|left; reflexivity])
                  ltac:(eexists; split; [reflexivity|right; reflexivity]))).
  reflexivity.
Defined.
