(* ===== verification/Blueprints.v ===== *)
(** * The blueprint data types ([packages/blueprints/src/])

    [AddMulDRP], [MapDRP] and [SetDRP] as state-passing components, with their
    conflict resolvers. Numbers are integers (exact in JavaScript up to 2^53).
    The key type of a map and the element type of a set are parameters with a
    decidable equality, the one [Map] and [Set] use for primitive values. *)

From S2P Require Import Prelude JsMap JsNum Bits JsValue Types HashGraph Dag TopoSort Causality Lca.
From S2P Require Import LegacyCausality Linearize LinearizePair LinearizeMulti Acl.

(** ** Resolvers that never swap *)

(** What [pair_linearization] asks of the resolvers of a graph, as an interface
    that the components' resolvers implement. *)
Class NeverSwaps (r : ResolveConflictFn) : Prop := never_swaps : ∀ vs, action (r vs) ≠ ActSwap.

#[global] Instance never_swaps_none : NeverSwaps resolveNoConflicts.
Proof. done. Qed.

#[global] Instance never_swaps_acl r : NeverSwaps (acl_resolveConflicts r).
Proof.
  intros [|u [|v vs]]; simpl; try done. destruct (operation u), (operation v); try done.
  repeat case_match; done.
Qed.

Lemma never_swaps_graph g `{!NeverSwaps (resolveConflictsACL (resolvers g))}
    `{!NeverSwaps (resolveConflictsDRP (resolvers g))} vs : action (resolveConflicts g vs) ≠ ActSwap.
Proof. unfold resolveConflicts. case_bool_decide; apply never_swaps. Qed.

(** ** [AddMulDRP] *)

Module AddMulDRP.

Record t := mk { val : Z }.

(** [typeof initialValue === "number"] *)
Definition new (initialValue : jsvalue) : t :=
  match initialValue with VNum n => mk n | _ => mk 0 end.

Definition add (d : t) (v : jsvalue) : t :=
  match v with VNum n => mk (val d + n) | _ => d end.

Definition mul (d : t) (v : jsvalue) : t :=
  match v with VNum n => mk (val d * n) | _ => d end.

Definition query_value (d : t) : Z := val d.

Definition op_name (v : Vertex) : string := default EmptyString (opType <$> operation v).

Definition resolveConflicts : ResolveConflictFn := λ vs,
  match vs with
  | left_ :: right_ :: _ =>
      if String.eqb (hash left_) EmptyString || String.eqb (hash right_) EmptyString
         || String.eqb (hash left_) (hash right_) then resolved ActNop
      else if String.eqb (op_name left_) "mul" && String.eqb (op_name right_) "add" then resolved ActSwap
      else resolved ActNop
  | _ => resolved ActNop
  end.

(** Multiplications have the lower priority. *)
Definition priority (v : Vertex) : nat := if String.eqb (op_name v) "mul" then 1 else 0.

Lemma swap_priority u v : action (resolveConflicts [u; v]) = ActSwap → priority v < priority u.
Proof.
  unfold resolveConflicts, priority. case_match; [done|].
  destruct (String.eqb_spec (op_name u) "mul"); [|done].
  destruct (String.eqb_spec (op_name v) "add") as [E|]; [|done]. rewrite E. simpl. lia.
Qed.

End AddMulDRP.

(** An object that uses the add-multiply register always linearizes: its
    resolver swaps only a multiplication on the left with an addition on the
    right, so on every interval of a well-formed graph with pairwise concurrent
    dependencies the pair linearizer stops within twice the size of the interval
    plus two, per entry, and returns each vertex at most once. *)
Theorem addmul_linearization_terminates (g : HashGraph) (origin : Hash) (sub : gset Hash) (fuel : nat)
    (Hwf : wf g) (Hred : reduced g) (Hiv : interval g origin sub)
    (Hsem : semanticsTypeDRP g = Some SemPair)
    (Hdrp : resolveConflictsDRP (resolvers g) = AddMulDRP.resolveConflicts)
    (Hacl : ∃ r, resolveConflictsACL (resolvers g) = acl_resolveConflicts r)
    (Hfuel : 2 * size sub + 1 < fuel) :
  ∃ l, (linearizeVertices fuel g origin sub).2 = Ok l ∧ NoDup (hash <$> l) ∧
    ∀ v, v ∈ l → hash v ∈ sub ∧ hash v ≠ origin.
Proof.
  assert (∀ u v, action (resolveConflicts g [u; v]) = ActSwap →
            AddMulDRP.priority v < AddMulDRP.priority u) as Hprio.
  { intros u v. destruct Hacl as [r Hacl]. unfold resolveConflicts. rewrite Hacl, Hdrp.
    case_bool_decide; [|apply AddMulDRP.swap_priority].
    intros Hs. by destruct (never_swaps_acl r [u; v]). }
  destruct (pair_total_result g origin sub (λ h, default 0 (AddMulDRP.priority <$> getVertex g h)) 1 fuel)
    as (l & order & E & Ho & Hp & Hs); [done..| | |lia|].
  { intros h. destruct (getVertex g h); simpl; [|lia]. unfold AddMulDRP.priority. case_match; lia. }
  { intros x y. unfold act_of. destruct (getVertex g x), (getVertex g y); try done. apply Hprio. }
  unfold linearizeVertices. rewrite Hsem, E. eexists. split; [done|].
  assert (NoDup l) as Hnd by (eapply sublist_NoDup; [|exact Hs]; rewrite Hp; apply NoDup_elements).
  split; [by apply vertices_at_NoDup|]. intros v (h & Hh & Hv)%list_elem_of_omap.
  rewrite (causal_hash _ h v (wf_causal g Hwf) Hv). split; [|by intros ->].
  apply elem_of_elements. rewrite <- Hp. by eapply elem_of_sublist.
Qed.

Definition addmul_vertex (op h : string) (n : Z) : Vertex :=
  mkVertex h "peer" (Some (mkOperation DrpType_DRP op [VNum n])) [rootHash] 1 [].

Definition addmul_graph : HashGraph :=
  let g := new_HashGraph "peer" (Some (acl_resolveConflicts RevokeWins))
             (Some AddMulDRP.resolveConflicts) (Some SemPair) in
  let g := addVertex g (addmul_vertex "mul" "x" 3) in
  addVertex g (addmul_vertex "add" "y" 2).

Lemma addmul_linearization_terminates_witness :
  ∃ l, (linearizeVertices 10 addmul_graph rootHash (vertex_keys addmul_graph)).2 = Ok l ∧
    hash <$> l = ["y"; "x"]%string.
Proof.
  set (g0 := new_HashGraph "peer" (Some (acl_resolveConflicts RevokeWins))
               (Some AddMulDRP.resolveConflicts) (Some SemPair)).
  set (g1 := addVertex g0 (addmul_vertex "mul" "x" 3)).
  assert (wf g0) as H0 by apply wf_new_HashGraph.
  assert (wf g1) as H1 by (apply wf_addVertex; [exact H0|decide_by_compute]).
  assert (wf addmul_graph) as H2 by (apply (wf_addVertex g1); [exact H1|decide_by_compute]).
  destruct (addmul_linearization_terminates addmul_graph rootHash (vertex_keys addmul_graph) 10)
    as (l & E & _).
  - exact H2.
  - apply (reduced_addVertex g1); [exact H1| |decide_by_compute|by apply antichain_singleton].
    apply reduced_addVertex; [exact H0| |decide_by_compute|by apply antichain_singleton].
    apply reduced_new_HashGraph.
  - apply interval_whole, H2.
  - reflexivity.
  - reflexivity.
  - exists RevokeWins. reflexivity.
  - vm_compute. lia.
  - exists l. split; [exact E|]. vm_compute in E. injection E as <-. reflexivity.
Defined.

(** ** [MapDRP] *)

Inductive MapConflictResolution := SetWins | DeleteWins.

Module MapDRP.
Section map.
Context {K V : Type} `{EqDecision K}.

Record t := mk { conflictResolution : MapConflictResolution; map : list (K * V) }.

Definition new (r : option MapConflictResolution) : t := mk (default SetWins r) [].
Definition set (d : t) (k : K) (v : V) : t := mk (conflictResolution d) (jm_set (map d) k v).
Definition delete (d : t) (k : K) : t := mk (conflictResolution d) (jm_delete (map d) k).
Definition query_has (d : t) (k : K) : bool := jm_has (map d) k.
Definition query_get (d : t) (k : K) : option V := jm_get (map d) k.
Definition query_entries (d : t) : list (K * V) := map d.
Definition query_keys (d : t) : list K := jm_keys (map d).
Definition query_values (d : t) : list V := jm_values (map d).
End map.
Arguments t : clear implicits.

(** [hash = (hash << 5) - hash + char; hash |= 0] *)
Definition hash_step (h : Z) (c : Ascii.ascii) : Z :=
  to_int32 (js_shl h 5 - h + Z.of_nat (Ascii.nat_of_ascii c)).

Definition hash_number (data : string) : Z := foldl hash_step 0%Z (String.list_ascii_of_string data).

(** [n.toString(16)], for a number of at most 32 bits. *)
Fixpoint hex_digits (fuel : nat) (n : Z) (acc : string) : string :=
  match fuel with
  | O => acc
  | S fuel =>
      let acc := String (hex_digit (Z.to_nat (n mod 16))) acc in
      if (n / 16 =? 0)%Z then acc else hex_digits fuel (n / 16) acc
  end.

Definition to_string16 (n : Z) : string :=
  if (n <? 0)%Z then ("-" +:+ hex_digits 9 (- n) EmptyString)%string else hex_digits 9 n EmptyString.

Definition computeHash (data : string) : string := to_string16 (hash_number data).

Inductive error := TypeErrorUndefinedLength.

(** [this._computeHash(JSON.stringify(value))]: [JSON.stringify] gives
    [undefined] for [undefined] and for functions, and [undefined.length] throws. *)
Definition value_hash (v : jsvalue) : res error string :=
  match json_stringify v with
  | Some s => Ok (computeHash s)
  | None => Throw TypeErrorUndefinedLength
  end.

(** Called with at least two vertices, as for the access control list. *)
Definition resolveConflicts (r : MapConflictResolution) (vs : list Vertex) : res error ResolveConflictsType :=
  match vs with
  | v0 :: v1 :: _ =>
      match operation v0, operation v1 with
      | Some o0, Some o1 =>
          if negb (strict_eq (arg (value o0) 0) (arg (value o1) 0)) then Ok (resolved ActNop)
          else if String.eqb (opType o0) "delete" && String.eqb (opType o1) "delete"
          then Ok (resolved ActNop)
          else if String.eqb (opType o0) "set" && String.eqb (opType o1) "set" then
            hash0 ← value_hash (arg (value o0) 1);
            hash1 ← value_hash (arg (value o1) 1);
            if String.ltb hash1 hash0 then Ok (resolved ActDropRight)
            else if String.ltb hash0 hash1 then Ok (resolved ActDropLeft)
            else Ok (resolved ActNop)
          else
            match r with
            | SetWins => Ok (resolved (if String.eqb (opType o0) "set" then ActDropRight else ActDropLeft))
            | DeleteWins => Ok (resolved (if String.eqb (opType o0) "set" then ActDropLeft else ActDropRight))
            end
      | _, _ => Ok (resolved ActNop)
      end
  | _ => Ok (resolved ActNop)
  end.

End MapDRP.

(** ** [SetDRP] *)

Module SetDRP.
Section set.
Context {T : Type} `{EqDecision T}.

Record t := mk { set_ : list T }.
Definition new : t := mk [].
Definition add (d : t) (x : T) : t := mk (js_add (set_ d) x).
Definition delete (d : t) (x : T) : t := mk (js_del (set_ d) x).
Definition query_has (d : t) (x : T) : bool := js_has (set_ d) x.
Definition query_getValues (d : t) : list T := set_ d.
End set.
Arguments t : clear implicits.
End SetDRP.

(** ** Properties of the map *)

(** Primitive keys, on which [===], [Map] and structural equality agree. *)
Inductive prim := PUndefined | PNull | PBool (b : bool) | PNum (n : Z) | PStr (s : string).
#[global] Instance prim_eq_dec : EqDecision prim.
Proof. solve_decision. Defined.

Definition prim_of (v : jsvalue) : option prim :=
  match v with
  | VUndefined => Some PUndefined
  | VNull => Some PNull
  | VBool b => Some (PBool b)
  | VNum n => Some (PNum n)
  | VStr s => Some (PStr s)
  | _ => None
  end.

Lemma strict_eq_prim v w p q : prim_of v = Some p → prim_of w = Some q →
  strict_eq v w = bool_decide (p = q).
Proof.
  destruct v, w; simpl; intros [= <-] [= <-]; try (by rewrite bool_decide_false); try done.
  - destruct b, b0; reflexivity.
  - destruct (Z.eqb_spec n n0); subst; [by rewrite bool_decide_true|by rewrite bool_decide_false by congruence].
  - destruct (String.eqb_spec s s0); subst; [by rewrite bool_decide_true|by rewrite bool_decide_false by congruence].
Qed.

(** A set or delete operation of a map with primitive keys. *)
Record map_op (v : Vertex) (o : Operation) (k : prim) : Prop := {
  mo_operation : operation v = Some o;
  mo_name : (opType o = "set" ∨ opType o = "delete")%string;
  mo_key : prim_of (arg (value o) 0) = Some k;
  mo_value : opType o = "set"%string → is_Some (json_stringify (arg (value o) 1))
}.

Definition apply_map_op (o : Operation) (k : prim) (d : MapDRP.t prim jsvalue) : MapDRP.t prim jsvalue :=
  if String.eqb (opType o) "set" then MapDRP.set d k (arg (value o) 1) else MapDRP.delete d k.

Lemma ltb_antisym s t : String.ltb s t = true → String.ltb t s = false.
Proof. unfold String.ltb. rewrite String.compare_antisym. by destruct (String.compare t s). Qed.

(** The conflict resolver of the map never throws on set and delete
    operations whose values are defined, and its verdict does not depend on the
    order of the two vertices: it drops the left one of one order exactly when it
    drops the right one of the other; it never swaps. *)
Theorem map_resolver_symmetric (r : MapConflictResolution) (u v : Vertex) (ou ov : Operation) (ku kv : prim)
    (Hu : map_op u ou ku) (Hv : map_op v ov kv) :
  ∃ a b, MapDRP.resolveConflicts r [u; v] = Ok (resolved a) ∧
         MapDRP.resolveConflicts r [v; u] = Ok (resolved b) ∧
         (a = ActDropLeft ↔ b = ActDropRight) ∧ (a = ActDropRight ↔ b = ActDropLeft) ∧
         (a = ActNop ∨ a = ActDropLeft ∨ a = ActDropRight).
Proof.
  destruct Hu as [Eu Nu _ Vu], Hv as [Ev Nv _ Vv]. unfold MapDRP.resolveConflicts. rewrite Eu, Ev.
  rewrite (strict_eq_sym (arg (value ov) 0)).
  destruct (strict_eq _ _); simpl; [|exists ActNop, ActNop; naive_solver].
  destruct Nu as [Nu|Nu], Nv as [Nv|Nv]; rewrite Nu, Nv in *; simpl.
  - destruct Vu as [su Su]; [done|]. destruct Vv as [sv Sv]; [done|]. unfold MapDRP.value_hash.
    rewrite Su, Sv. simpl. set (hu := MapDRP.computeHash su). set (hv := MapDRP.computeHash sv).
    pose proof (ltb_antisym hu hv). pose proof (ltb_antisym hv hu).
    destruct (String.ltb hv hu) eqn:E1, (String.ltb hu hv) eqn:E2; simpl; try naive_solver.
  - destruct r; [exists ActDropRight, ActDropLeft|exists ActDropLeft, ActDropRight]; naive_solver.
  - destruct r; [exists ActDropLeft, ActDropRight|exists ActDropRight, ActDropLeft]; naive_solver.
  - exists ActNop, ActNop. naive_solver.
Qed.

Definition map_vertex (h op : string) (args : list jsvalue) : Vertex :=
  mkVertex h "peer" (Some (mkOperation DrpType_DRP op args)) [rootHash] 1 [].

Lemma map_resolver_symmetric_witness :
  ∃ a b, MapDRP.resolveConflicts SetWins
           [map_vertex "x" "set" [VStr "k"; VNum 1]; map_vertex "y" "delete" [VStr "k"]]%string = Ok (resolved a) ∧
         MapDRP.resolveConflicts SetWins
           [map_vertex "y" "delete" [VStr "k"]; map_vertex "x" "set" [VStr "k"; VNum 1]]%string = Ok (resolved b) ∧
         a = ActDropRight ∧ b = ActDropLeft.
Proof.
  destruct (map_resolver_symmetric SetWins (map_vertex "x" "set" [VStr "k"; VNum 1])
    (map_vertex "y" "delete" [VStr "k"]) (mkOperation DrpType_DRP "set" [VStr "k"; VNum 1])
    (mkOperation DrpType_DRP "delete" [VStr "k"]) (PStr "k") (PStr "k")) as (a & b & Ea & Eb & _).
  - split; [reflexivity|left; reflexivity|reflexivity|intros _; eexists; reflexivity].
  - split; [reflexivity|right; reflexivity|reflexivity|intros H; discriminate H].
  - exists a, b. split; [exact Ea|]. split; [exact Eb|].
    vm_compute in Ea, Eb. split; congruence.
Defined.

(** C31 When the resolver keeps two concurrent map operations, their order does
    not matter to any lookup: applying them in either order to any map gives the
    same value at every key. The one exception are two sets of the same key whose
    values have the same 32-bit hash. *)
Theorem map_kept_operations_commute (r : MapConflictResolution) (u v : Vertex) (ou ov : Operation)
    (ku kv : prim) (d : MapDRP.t prim jsvalue)
    (Hu : map_op u ou ku) (Hv : map_op v ov kv)
    (Hd : NoDup (MapDRP.query_keys d))
    (Hkeep : MapDRP.resolveConflicts r [u; v] = Ok (resolved ActNop)) :
  (∀ k, MapDRP.query_get (apply_map_op ov kv (apply_map_op ou ku d)) k =
        MapDRP.query_get (apply_map_op ou ku (apply_map_op ov kv d)) k) ∨
  (ku = kv ∧ opType ou = "set" ∧ opType ov = "set" ∧
   MapDRP.value_hash (arg (value ou) 1) = MapDRP.value_hash (arg (value ov) 1))%string.
Proof.
  destruct Hu as [Eu Nu Ku Vu], Hv as [Ev Nv Kv Vv]. unfold MapDRP.resolveConflicts in Hkeep.
  rewrite Eu, Ev, (strict_eq_prim _ _ ku kv Ku Kv) in Hkeep.
  unfold apply_map_op, MapDRP.query_get, MapDRP.set, MapDRP.delete, MapDRP.query_keys in *.
  assert (∀ (m : list (prim * jsvalue)) k x, NoDup (jm_keys m) → NoDup (jm_keys (jm_set m k x))) as Hs
    by (intros; by apply NoDup_jm_keys_set).
  assert (∀ (m : list (prim * jsvalue)) k, NoDup (jm_keys m) → NoDup (jm_keys (jm_delete m k))) as Hdl
    by (intros; by apply NoDup_jm_keys_delete).
  destruct (decide (ku = kv)) as [->|Hne].
  - rewrite bool_decide_true in Hkeep by done. simpl in Hkeep.
    destruct Nu as [Nu|Nu], Nv as [Nv|Nv]; rewrite Nu, Nv in *; simpl in *; [| | |].
    + right. do 3 (split; [done|]). destruct Vu as [su Su]; [done|]. destruct Vv as [sv Sv]; [done|].
      unfold MapDRP.value_hash in *. rewrite Su, Sv in *. simpl in Hkeep. f_equal.
      destruct (String.ltb _ _) eqn:E1; [done|]. destruct (String.ltb (MapDRP.computeHash su) _) eqn:E2; [done|].
      apply String.compare_eq_iff. unfold String.ltb in *.
      rewrite String.compare_antisym in E1. by destruct (String.compare _ _).
    + by destruct r.
    + by destruct r.
    + by left.
  - left. intros k. destruct Nu as [Nu|Nu], Nv as [Nv|Nv]; rewrite Nu, Nv; simpl;
      rewrite ?jm_get_set, ?jm_get_delete, ?jm_get_set, ?jm_get_delete by auto;
      repeat case_decide; congruence.
Qed.

Lemma map_kept_operations_commute_witness :
  MapDRP.resolveConflicts SetWins
    [map_vertex "x" "set" [VStr "k"; VNum 1]; map_vertex "y" "delete" [VStr "j"]]%string = Ok (resolved ActNop) ∧
  ∀ k, MapDRP.query_get (apply_map_op (mkOperation DrpType_DRP "delete" [VStr "j"]) (PStr "j")
         (apply_map_op (mkOperation DrpType_DRP "set" [VStr "k"; VNum 1]) (PStr "k") (MapDRP.new None))) k =
       MapDRP.query_get (apply_map_op (mkOperation DrpType_DRP "set" [VStr "k"; VNum 1]) (PStr "k")
         (apply_map_op (mkOperation DrpType_DRP "delete" [VStr "j"]) (PStr "j") (MapDRP.new None))) k.
Proof.
  split; [reflexivity|].
  destruct (map_kept_operations_commute SetWins (map_vertex "x" "set" [VStr "k"; VNum 1])
    (map_vertex "y" "delete" [VStr "j"]) (mkOperation DrpType_DRP "set" [VStr "k"; VNum 1])
    (mkOperation DrpType_DRP "delete" [VStr "j"]) (PStr "k") (PStr "j") (MapDRP.new None)) as [H|(H & _)].
  - split; [reflexivity|left; reflexivity|reflexivity|intros _; eexists; reflexivity].
  - split; [reflexivity|right; reflexivity|reflexivity|intros H; discriminate H].
  - apply NoDup_nil_2.
  - reflexivity.
  - exact H.
  - discriminate H.
Defined.

(** The comparison of two concurrent sets is on the hexadecimal strings of
    the hashes, not on the hashes: of the values 1000 and 9, the first has the
    higher hash and is the one that is dropped. *)
Theorem map_hash_order_is_textual :
  (MapDRP.hash_number "9" < MapDRP.hash_number "1000")%Z ∧
  MapDRP.resolveConflicts SetWins
    [map_vertex "x" "set" [VStr "k"; VNum 1000]; map_vertex "y" "set" [VStr "k"; VNum 9]]
  = Ok (resolved ActDropLeft).
Proof. by vm_compute. Qed.
