(* ===== verification/AclInterplay.v ===== *)
(** * Access control operations inside the linearizers

    [HashGraph.resolveConflicts] chooses the resolver by the type of the first
    vertex, and the linearizers hand it any two concurrent vertices. Three
    consequences: with pair semantics and no other resolver, revocations win as
    the policy says; the resolver of the object's data also judges access
    control operations it was not written for, so that a map write and a
    revocation exclude each other when the key is the peer's name; and with
    multiple semantics a conflict of the access control list never ends. *)

From S2P Require Import Prelude JsMap JsNum Bits JsValue Types HashGraph Dag TopoSort Causality Lca.
From S2P Require Import LegacyCausality Linearize LinearizePair LinearizeMulti Acl Blueprints.

Definition is_acl_op (v : Vertex) (op : string) (peer : jsvalue) : Prop :=
  ∃ o, operation v = Some o ∧ drpType o = DrpType_ACL ∧ opType o = op ∧ arg (value o) 0 = peer.

(** The verdict of a graph whose data has no resolver. *)
Lemma acl_only_action g u v :
  resolveConflictsACL (resolvers g) = acl_resolveConflicts RevokeWins →
  resolveConflictsDRP (resolvers g) = resolveNoConflicts →
  action (resolveConflicts g [u; v]) =
  if bool_decide (drpType_of u = Some DrpType_ACL) then action (acl_resolveConflicts RevokeWins [u; v]) else ActNop.
Proof. intros Hacl Hdrp. unfold resolveConflicts. simpl. rewrite Hacl, Hdrp. by case_bool_decide. Qed.

(** Under the revoke-wins policy nothing drops a revocation. *)
Lemma revocation_survives_left u v o : operation v = Some o → opType o = "revoke"%string →
  action (acl_resolveConflicts RevokeWins [v; u]) ≠ ActDropLeft.
Proof.
  intros Ev Nv. simpl. rewrite Ev, Nv. destruct (operation u) as [ou|]; [|done]. simpl.
  destruct (String.eqb (opType ou) "setKey"); [done|].
  destruct (match opType ou with EmptyString => _ | _ => _ end || _); done.
Qed.

Lemma revocation_survives_right u v o ou : operation v = Some o → opType o = "revoke"%string →
  operation u = Some ou → opType ou ∈ ["grant"; "revoke"; "setKey"]%string →
  action (acl_resolveConflicts RevokeWins [u; v]) ≠ ActDropRight.
Proof.
  intros Ev Nv Eu Hu. simpl. rewrite Ev, Nv, Eu.
  apply elem_of_cons in Hu as [-> |[-> |[-> |[]%elem_of_nil]%elem_of_cons]%elem_of_cons]; simpl; try done.
  by destruct (strict_eq _ _).
Qed.

(** A grant and a revocation of the same peer conflict in either order. *)
Lemma grant_revoke_conflict u v peer : is_acl_op u "grant" peer → is_acl_op v "revoke" peer →
  strict_eq peer peer = true →
  action (acl_resolveConflicts RevokeWins [u; v]) = ActDropLeft ∧
  action (acl_resolveConflicts RevokeWins [v; u]) = ActDropRight.
Proof.
  intros (ou & Eu & _ & Nu & Pu) (ov & Ev & _ & Nv & Pv) Hp. simpl.
  by rewrite Eu, Ev, Nu, Nv, Pu, Pv, Hp.
Qed.

Lemma is_acl_op_type v op peer : is_acl_op v op peer → drpType_of v = Some DrpType_ACL.
Proof. intros (o & E & T & _). unfold drpType_of. rewrite E. simpl. by rewrite T. Qed.

Lemma bfs_unrelated g h1 h2 : wf g → areCausallyRelatedUsingBFS g h1 h2 = Some false → ¬ related g h1 h2.
Proof.
  intros Hg E. destruct (bfs_spec g h1 h2 Hg) as (b & E' & Hb). simplify_eq. intros Hr. by apply Hb in Hr.
Qed.

Lemma two_members (l : list Vertex) u v : u ∈ l → v ∈ l → u ≠ v → [u; v] `sublist_of` l ∨ [v; u] `sublist_of` l.
Proof.
  intros [i Hi]%list_elem_of_lookup [j Hj]%list_elem_of_lookup Hne.
  destruct (decide (i < j)).
  - left. apply sublist_pair_lookup. eauto.
  - right. apply sublist_pair_lookup. exists j, i. split; [|done].
    assert (i ≠ j) by congruence. lia.
Qed.

(** C23 An object with pair semantics, the revoke-wins policy, data without a
    resolver of its own, and no operations on the access control list other than
    [grant], [revoke] and [setKey]: on every interval of a well-formed graph with
    pairwise concurrent dependencies the linearization terminates, keeps every
    revocation of the interval, and keeps no grant that is concurrent with a
    revocation of the same peer. *)
Theorem revocations_win (g : HashGraph) (origin : Hash) (sub : gset Hash) (fuel : nat) (u v : Vertex)
    (peer : jsvalue)
    (Hwf : wf g) (Hred : reduced g) (Hiv : interval g origin sub) (Hdef : default_resolvers g)
    (Hsem : semanticsTypeDRP g = Some SemPair)
    (Hacl : resolveConflictsACL (resolvers g) = acl_resolveConflicts RevokeWins)
    (Hdrp : resolveConflictsDRP (resolvers g) = resolveNoConflicts)
    (Hops : ∀ w o, getVertex g (hash w) = Some w → operation w = Some o → drpType o = DrpType_ACL →
       opType o ∈ ["grant"; "revoke"; "setKey"]%string)
    (Hsz : (Z.of_nat (size sub) ≤ 2 ^ 35)%Z) (Hfuel : size sub < fuel)
    (Hv : getVertex g (hash v) = Some v ∧ hash v ∈ sub ∧ hash v ≠ origin)
    (Hrevoke : is_acl_op v "revoke" peer) (Hgrant : is_acl_op u "grant" peer)
    (Hpeer : strict_eq peer peer = true) (Hconc : ¬ related g (hash u) (hash v)) :
  ∃ l, (linearizeVertices fuel g origin sub).2 = Ok l ∧ v ∈ l ∧ u ∉ l.
Proof.
  pose proof (λ a b, acl_only_action g a b Hacl Hdrp) as Hact. destruct Hv as (Hv1 & Hv2 & Hv3).
  destruct (pair_linearization_result g origin sub fuel Hwf Hred Hiv Hdef Hsem) as (l & E & Hlz & Hfree & Hdrop);
    [|done..|].
  { intros a b. rewrite Hact. case_bool_decide; [apply never_swaps_acl|done]. }
  assert (v ∈ l) as Hvl.
  { destruct (decide (hash v ∈ hash <$> l)) as [(w & Ew & Hw)%list_elem_of_fmap|Hnin].
    - destruct (lz_members _ _ _ _ Hlz w Hw) as [Hgw _]. congruence.
    - destruct (Hdrop (hash v) v Hv2 Hv3 Hv1) as (w & _ & Hw & _ & Ha).
      { intros Hin. apply Hnin. by apply list_elem_of_fmap_2. }
      exfalso. destruct Hrevoke as (o & Eo & To & No & _). rewrite !Hact in Ha.
      destruct Ha as [Ha|Ha]; case_bool_decide as Ht; try done.
      + by apply revocation_survives_left with (u := w) in Eo.
      + unfold drpType_of in Ht. destruct (operation w) as [ow|] eqn:Eow; simplify_eq/=.
        eapply revocation_survives_right; [exact Eo|exact No|exact Eow| |exact Ha]. by eapply Hops. }
  exists l. split; [done|]. split; [done|]. intros Hul.
  assert (u ≠ v) as Huv by (intros ->; apply Hconc; left; apply rtc_refl).
  destruct (grant_revoke_conflict u v peer Hgrant Hrevoke Hpeer) as [Ha1 Ha2].
  destruct (two_members l u v Hul Hvl Huv) as [Hs|Hs].
  - destruct (Hfree u v Hs Hconc) as [Hn _]. apply Hn. rewrite Hact.
    by rewrite bool_decide_true by (by eapply is_acl_op_type).
  - destruct (Hfree v u Hs) as [_ Hn]; [unfold related in *; tauto|]. apply Hn. rewrite Hact.
    by rewrite bool_decide_true by (by eapply is_acl_op_type).
Qed.

(** A grant and a revocation of the same peer, concurrent. *)
Definition acl_graph (drp : option ResolveConflictFn) (sem : SemanticsType) (other : Vertex) : HashGraph :=
  let g := new_HashGraph "root" (Some (acl_resolveConflicts RevokeWins)) drp (Some sem) in
  let g := addVertex g other in
  addVertex g (acl_vertex "y" "revoke" "bob" [rootHash]).

Definition grant_bob : Vertex := acl_vertex "x" "grant" "bob" [rootHash].

Lemma acl_graph_ok drp sem other :
  let g0 := new_HashGraph "root" (Some (acl_resolveConflicts RevokeWins)) drp (Some sem) in
  dependencies other = [rootHash] → admissible g0 other →
  admissible (addVertex g0 other) (acl_vertex "y" "revoke" "bob" [rootHash]) →
  let g := acl_graph drp sem other in wf g ∧ reduced g ∧ default_resolvers g.
Proof.
  cbv zeta. set (g0 := new_HashGraph "root" (Some (acl_resolveConflicts RevokeWins)) drp (Some sem)).
  intros Hd Ha Hy. assert (wf g0) as H0 by apply wf_new_HashGraph.
  assert (wf (addVertex g0 other)) as H1 by (by apply wf_addVertex).
  change (acl_graph drp sem other) with (addVertex (addVertex g0 other) (acl_vertex "y" "revoke" "bob" [rootHash])).
  split; [by apply wf_addVertex|]. split.
  - apply reduced_addVertex; [done| |done|by apply antichain_singleton].
    apply reduced_addVertex; [done|apply reduced_new_HashGraph|done|]. rewrite Hd. by apply antichain_singleton.
  - apply (default_resolvers_new "root" (Some (acl_resolveConflicts RevokeWins)) drp (Some sem)).
Qed.

Lemma revocations_win_witness :
  ∃ l, (linearizeVertices 5 (acl_graph None SemPair grant_bob) rootHash
          (vertex_keys (acl_graph None SemPair grant_bob))).2 = Ok l ∧
    (acl_vertex "y" "revoke" "bob" [rootHash] ∈ l) ∧ (grant_bob ∉ l).
Proof.
  destruct (acl_graph_ok None SemPair grant_bob) as (H1 & H2 & H3); [reflexivity|decide_by_compute..|].
  apply (revocations_win (acl_graph None SemPair grant_bob) rootHash
           (vertex_keys (acl_graph None SemPair grant_bob)) 5 grant_bob
           (acl_vertex "y" "revoke" "bob" [rootHash]) (VStr "bob")).
  - exact H1.
  - exact H2.
  - apply interval_whole, H1.
  - exact H3.
  - reflexivity.
  - reflexivity.
  - reflexivity.
  - intros w o Hw Ho Ht. apply jm_get_elem in Hw.
    apply elem_of_cons in Hw as [Hw|[Hw|[Hw|[]%elem_of_nil]%elem_of_cons]%elem_of_cons];
      injection Hw as _ ->; injection Ho as <-; try discriminate Ht; decide_by_compute.
  - vm_compute. discriminate.
  - vm_compute. lia.
  - split; [vm_compute; reflexivity|]. split; [decide_by_compute|vm_compute; discriminate].
  - eexists. split; [reflexivity|]. split; [reflexivity|]. split; reflexivity.
  - eexists. split; [reflexivity|]. split; [reflexivity|]. split; reflexivity.
  - reflexivity.
  - apply (bfs_unrelated _ _ _ H1). vm_compute. reflexivity.
Defined.

(** The resolver of a map whose operations all have values. *)
Definition map_resolver (r : MapConflictResolution) : ResolveConflictFn := λ vs,
  match MapDRP.resolveConflicts r vs with Ok a => a | Throw _ => resolved ActNop end.

#[global] Instance never_swaps_map r : NeverSwaps (map_resolver r).
Proof.
  intros [|v0 [|v1 vs]]; [done..|]. unfold map_resolver, MapDRP.resolveConflicts.
  destruct (operation v0) as [o0|]; [|done]. destruct (operation v1) as [o1|]; [|done].
  destruct (negb _); [done|]. destruct (_ && _); [done|]. destruct (_ && _).
  - destruct (MapDRP.value_hash (arg (value o0) 1)); simpl; [|discriminate].
    destruct (MapDRP.value_hash (arg (value o1) 1)); simpl; [|discriminate].
    destruct (String.ltb _ _); [done|]. by destruct (String.ltb _ _).
  - by destruct r, (String.eqb _ _).
Qed.

Definition is_map_write (v : Vertex) (key : jsvalue) : Prop :=
  ∃ o, operation v = Some o ∧ drpType o = DrpType_DRP ∧ opType o = "set"%string ∧ arg (value o) 0 = key.

(** The map's resolver judges the pair when the write comes first, the one of
    the access control list when the revocation does. *)
Lemma write_revoke_verdict g r u v key :
  resolveConflictsACL (resolvers g) = acl_resolveConflicts RevokeWins →
  resolveConflictsDRP (resolvers g) = map_resolver r →
  is_map_write u key → is_acl_op v "revoke" key → strict_eq key key = true →
  action (resolveConflicts g [u; v]) = (if r is SetWins then ActDropRight else ActDropLeft) ∧
  action (resolveConflicts g [v; u]) = ActDropRight.
Proof.
  intros Hacl Hdrp (ou & Eu & Tu & Nu & Ku) (ov & Ev & Tv & Nv & Kv) Hk.
  unfold resolveConflicts, map_resolver, drpType_of in *. simpl. rewrite Hacl, Hdrp, Eu, Ev. simpl.
  rewrite Tu, Tv. simpl. rewrite Eu, Ev, Nu, Nv, Ku, Kv, Hk. simpl. by destruct r.
Qed.

(** C36 The resolver of the data also decides about access control operations.
    In an object with pair semantics that holds a map (either policy of the map)
    under the revoke-wins policy, consider a map write whose key equals the peer
    named by a concurrent revocation. Whichever of the two comes first in the
    order, one of them is dropped: the revocation if the write comes first and
    sets win, the write otherwise. On an interval of a well-formed graph with
    pairwise concurrent dependencies the linearization therefore never keeps both. *)
Theorem map_write_excludes_revocation (g : HashGraph) (r : MapConflictResolution) (origin : Hash)
    (sub : gset Hash) (fuel : nat) (u v : Vertex) (key : jsvalue)
    (Hwf : wf g) (Hred : reduced g) (Hiv : interval g origin sub) (Hdef : default_resolvers g)
    (Hsem : semanticsTypeDRP g = Some SemPair)
    (Hacl : resolveConflictsACL (resolvers g) = acl_resolveConflicts RevokeWins)
    (Hdrp : resolveConflictsDRP (resolvers g) = map_resolver r)
    (Hsz : (Z.of_nat (size sub) ≤ 2 ^ 35)%Z) (Hfuel : size sub < fuel)
    (Hwrite : is_map_write u key) (Hrevoke : is_acl_op v "revoke" key)
    (Hkey : strict_eq key key = true) (Hconc : ¬ related g (hash u) (hash v)) :
  action (resolveConflicts g [u; v]) = (if r is SetWins then ActDropRight else ActDropLeft) ∧
  action (resolveConflicts g [v; u]) = ActDropRight ∧
  ∃ l, (linearizeVertices fuel g origin sub).2 = Ok l ∧ ¬ (u ∈ l ∧ v ∈ l).
Proof.
  destruct (write_revoke_verdict g r u v key Hacl Hdrp Hwrite Hrevoke Hkey) as [Ha1 Ha2].
  split_and!; [done..|].
  destruct (pair_linearization_result g origin sub fuel Hwf Hred Hiv Hdef Hsem) as (l & E & _ & Hfree & _); [|done..|].
  { intros a b. apply never_swaps_graph; [rewrite Hacl|rewrite Hdrp]; apply _. }
  exists l. split; [done|]. intros [Hu Hv].
  assert (u ≠ v) as Huv by (intros ->; apply Hconc; left; apply rtc_refl).
  destruct (two_members l u v Hu Hv Huv) as [Hs|Hs].
  - destruct (Hfree u v Hs Hconc) as [Hn1 Hn2]. by destruct r.
  - destruct (Hfree v u Hs) as [_ Hn]; [unfold related in *; tauto|done].
Qed.

Definition set_bob : Vertex :=
  mkVertex "x" "mallory" (Some (mkOperation DrpType_DRP "set" [VStr "bob"; VNum 1])) [rootHash] 1 [].

(** One run: the write of [bob] comes first and the revocation of [bob] is lost. *)
Example map_write_drops_revocation :
  let g := acl_graph (Some (map_resolver SetWins)) SemPair set_bob in
  ∃ l, (linearizeVertices 5 g rootHash (vertex_keys g)).2 = Ok l ∧ hash <$> l = ["x"]%string ∧
       is_Some (getVertex g "y").
Proof.
  eexists. split; [vm_compute; reflexivity|]. split; [reflexivity|]. eexists. vm_compute. reflexivity.
Qed.

Lemma map_write_excludes_revocation_witness :
  let g := acl_graph (Some (map_resolver SetWins)) SemPair set_bob in
  ∃ l, (linearizeVertices 5 g rootHash (vertex_keys g)).2 = Ok l ∧
    ¬ (set_bob ∈ l ∧ acl_vertex "y" "revoke" "bob" [rootHash] ∈ l).
Proof.
  destruct (acl_graph_ok (Some (map_resolver SetWins)) SemPair set_bob) as (H1 & H2 & H3);
    [reflexivity|decide_by_compute..|]. cbv zeta.
  apply (map_write_excludes_revocation (acl_graph (Some (map_resolver SetWins)) SemPair set_bob) SetWins rootHash
           (vertex_keys (acl_graph (Some (map_resolver SetWins)) SemPair set_bob)) 5 set_bob
           (acl_vertex "y" "revoke" "bob" [rootHash]) (VStr "bob")).
  - exact H1.
  - exact H2.
  - apply interval_whole, H1.
  - exact H3.
  - reflexivity.
  - reflexivity.
  - reflexivity.
  - vm_compute. discriminate.
  - vm_compute. lia.
  - eexists. split; [reflexivity|]. split; [reflexivity|]. split; reflexivity.
  - eexists. split; [reflexivity|]. split; [reflexivity|]. split; reflexivity.
  - reflexivity.
  - apply (bfs_unrelated _ _ _ H1). vm_compute. reflexivity.
Defined.

(** C37 With multiple semantics a conflict of the access control list never ends:
    its resolver answers [DropLeft] or [DropRight], which the multiple-semantics
    linearizer ignores without advancing. On the graph of a concurrent grant and
    revocation of the same peer, and nothing else, it loops forever: it returns
    for no fuel. *)
Theorem acl_conflict_diverges_multiple (fuel : nat) :
  let g := acl_graph None SemMultiple grant_bob in
  (linearizeVertices fuel g rootHash (vertex_keys g)).2 = Throw LinearizeOutOfFuel.
Proof.
  cbv zeta. set (g := acl_graph None SemMultiple grant_bob). unfold linearizeVertices.
  change (semanticsTypeDRP g) with (Some SemMultiple). cbv iota. unfold linearizeMultipleSemantics.
  rewrite (surjective_pairing (dfsTopologicalSortIterative g rootHash (vertex_keys g))).
  set (g1 := (dfsTopologicalSortIterative g rootHash (vertex_keys g)).1).
  set (order := [rootHash; "x"; "y"]%string).
  assert ((dfsTopologicalSortIterative g rootHash (vertex_keys g)).2 = Ok order) as ->
    by (vm_compute; reflexivity).
  cbn [snd mbind res_bind]. change (negb (needsConflictResolution g1 rootHash order)) with false. cbv iota.
  set (c := LegacyCausalityMatrix.new g1 order).
  set (s0 := mkMultiScan 2 (replicate 3 false) ∅).
  assert (∀ f, loop (multi_scan_step g1 c order 1 "x") f s0 = None) as Hloop.
  { pose (next := λ s, match multi_scan_step g1 c order 1 "x" s with Next s' => s' | Done _ => s end).
    assert (multi_scan_step g1 c order 1 "x" s0 = Next (next s0)) as E0 by (vm_compute; reflexivity).
    assert (multi_scan_step g1 c order 1 "x" (next s0) = Next (next s0)) as E1 by (vm_compute; reflexivity).
    intros [|f]; [done|]. cbn [loop]. rewrite E0. apply (loop_cycle _ _ _ f E1 E1). }
  set (init := mkMulti (replicate (length order) false) ∅ []).
  assert (multi_step g1 fuel rootHash c order init 0 = Ok init) as H0 by reflexivity.
  assert (multi_step g1 fuel rootHash c order init 1 = Throw LinearizeOutOfFuel) as H1.
  { unfold multi_step, init. cbn [lookup list_lookup order]. rewrite decide_False by done.
    change (is_dropped (replicate (length order) false) 1) with false. cbv iota.
    change (replicate (length order) false) with (replicate 3 false). by rewrite Hloop. }
  cbn [length seq foldl mbind res_bind order]. rewrite H0. cbn [mbind res_bind]. rewrite H1. reflexivity.
Qed.
