(* ===== verification/Finality.v ===== *)
(** * Finality ([packages/object/src/finality/index.ts])

    [FinalityState] collects, for one vertex, the BLS signatures of the peers
    that were finality signers when the vertex was created: a bit per signer,
    the aggregate of the signatures received, and their number. The
    [FinalityStore] holds a state per vertex and decides when a vertex is
    final. BLS, the base64 decoder and the UTF-8 encoder come from packages
    outside the repository: they are the class [BLS] (every function may
    throw) and [BLSLaws] states the aggregation laws the code relies on. A
    method that mutates its object and may throw returns the object it leaves
    behind and a [res]; [addSignature] and [merge] set bits before they call
    [aggregateSignatures], as the code does. *)

From Stdlib Require Import SpecFloat.
From S2P Require Import Prelude JsMap Bits.

Local Open Scope Z_scope.

Abbreviation bytes := (list Z) (only parsing).

(** ** The packages outside the repository *)

Class BLS := {
  from_base64 : string → res string bytes;
  from_utf8 : string → bytes;
  verify : bytes → bytes → bytes → res string bool;
  verifyAggregate : list bytes → bytes → bytes → res string bool;
  aggregateSignatures : list bytes → res string bytes
}.

(** One signature is an aggregate of one; the order of the keys is irrelevant;
    two valid aggregates over one message add up to a valid aggregate for the
    keys of both. *)
Class BLSLaws (bls : BLS) : Prop := {
  verify_single pk m s : verify pk m s = Ok true → verifyAggregate [pk] m s = Ok true;
  verify_perm pks pks' m s : pks ≡ₚ pks' → verifyAggregate pks m s = verifyAggregate pks' m s;
  aggregate_valid pks pks' m s s' :
    verifyAggregate pks m s = Ok true → verifyAggregate pks' m s' = Ok true →
    ∃ t, aggregateSignatures [s; s'] = Ok t ∧ verifyAggregate (pks ++ pks') m t = Ok true
}.

(** ** Numbers

    [n * threshold] is a multiplication of doubles; [Math.ceil] gives an
    integer, an infinity or NaN. *)

Inductive jsnum := JInt (z : Z) | JPosInf | JNegInf | JNaN.
#[global] Instance jsnum_eq_dec : EqDecision jsnum.
Proof. solve_decision. Defined.

Definition f64_of_Z (n : Z) : spec_float := binary_normalize 53 1024 n 0 false.

Definition math_ceil (x : spec_float) : jsnum :=
  match x with
  | S754_zero _ => JInt 0
  | S754_infinity false => JPosInf
  | S754_infinity true => JNegInf
  | S754_nan => JNaN
  | S754_finite s m e =>
      let v := if s then Z.neg m else Z.pos m in
      JInt (if 0 <=? e then v * 2 ^ e else - ((- v) / 2 ^ (- e)))
  end.

(** [n >= x] *)
Definition js_geb (n : Z) (x : jsnum) : bool :=
  match x with
  | JInt z => z <=? n
  | JNegInf => true
  | JPosInf | JNaN => false
  end.

(** 0.51 *)
Definition DEFAULT_FINALITY_THRESHOLD : spec_float := S754_finite false 4593671619917906 (-53).

(** [array.filter((_, i) => p(i))] *)
Fixpoint sel {A} (p : nat → bool) (l : list A) : list A :=
  match l with
  | [] => []
  | x :: l => if p 0%nat then x :: sel (λ i, p (S i)) l else sel (λ i, p (S i)) l
  end.

(** [array.map(f)] with an [f] that may throw *)
Fixpoint map_res {E A B} (f : A → res E B) (l : list A) : res E (list B) :=
  match l with
  | [] => Ok []
  | x :: l => y ← f x; ys ← map_res f l; Ok (y :: ys)
  end.

(** ** [FinalityState] *)

Record FinalityState := mkFinalityState {
  fs_data : string;
  signerCredentials : list string;
  signerIndices : list (string * Z);
  aggregation_bits : BitSet.t;
  fs_signature : option bytes;
  numberOfSignatures : Z
}.

Record AggregatedAttestation := mkAggregatedAttestation {
  agg_data : string;
  agg_bits : bytes;
  agg_signature : bytes
}.

Record Attestation := mkAttestation { att_data : string; att_signature : bytes }.

Inductive finality_error :=
| PeerNotFound
| CredentialsNotFound
| InvalidSignature
| HashMismatch
| BitsError (e : BitSet.error)
| LibError (e : string).

Definition lib {A} (m : res string A) : res finality_error A :=
  match m with Ok a => Ok a | Throw e => Throw (LibError e) end.

(** The constructor. *)
Definition newFinalityState (hash : string) (signers : list (string * string)) : FinalityState :=
  let peerIds := js_sort (jm_keys signers) in
  mkFinalityState hash
    (omap (jm_get signers) peerIds)
    (foldl (λ m '(i, p), jm_set m p (Z.of_nat i)) [] (imap pair peerIds))
    (BitSet.new (Z.of_nat (length peerIds)))
    None 0.

Definition bit_at (b : BitSet.t) (i : nat) : bool := BitSet.get b (Z.of_nat i).

Section state.
Context `{BLS}.

Definition with_signature (st : FinalityState) (bits : BitSet.t) (s : option bytes) (n : Z) :
    FinalityState :=
  mkFinalityState (fs_data st) (signerCredentials st) (signerIndices st) bits s n.

(** The two statements at the end of [addSignature] and of the disjoint case
    of [merge]: the bits are stored, then the signatures are aggregated. *)
Definition store_aggregate (st : FinalityState) (bits : BitSet.t) (old new : bytes) (count : Z) :
    FinalityState * res finality_error unit :=
  match aggregateSignatures [old; new] with
  | Ok s => (with_signature st bits (Some s) (numberOfSignatures st + count), Ok tt)
  | Throw e => (with_signature st bits (Some old) (numberOfSignatures st), Throw (LibError e))
  end.

Definition verify_signer (st : FinalityState) (credential : string) (signature : bytes) :
    res finality_error unit :=
  publicKey ← lib (from_base64 credential);
  ok ← lib (verify publicKey (from_utf8 (fs_data st)) signature);
  if ok : bool then Ok tt else Throw InvalidSignature.

Definition addSignature (st : FinalityState) (peerId : string) (signature : bytes) (verify : bool) :
    FinalityState * res finality_error unit :=
  match jm_get (signerIndices st) peerId with
  | None => (st, Throw PeerNotFound)
  | Some index =>
      match signerCredentials st !! Z.to_nat index with
      | None | Some EmptyString => (st, Throw CredentialsNotFound)
      | Some credential =>
          if BitSet.get (aggregation_bits st) index then (st, Ok tt)
          else
            match (if verify then verify_signer st credential signature else Ok tt) with
            | Throw e => (st, Throw e)
            | Ok _ =>
                let bits := BitSet.set (aggregation_bits st) index true in
                match fs_signature st with
                | None => (with_signature st bits (Some signature) (numberOfSignatures st + 1), Ok tt)
                | Some old => store_aggregate st bits old signature 1
                end
            end
      end
  end.

(** [for (let i = from; i < to; i++) bits.set(i, false)] *)
Definition clear_range (b : BitSet.t) (from to : nat) : BitSet.t :=
  foldl (λ b i, BitSet.set b (Z.of_nat i) false) b (seq from (to - from)).

(** The received bits, those beyond the signers cleared. *)
Definition remote_bits (st : FinalityState) (received : bytes) : res finality_error BitSet.t :=
  let n := Z.of_nat (length (signerCredentials st)) in
  match BitSet.of_bytes n received with
  | Throw e => Throw (BitsError e)
  | Ok b => Ok (clear_range b (length (signerCredentials st)) (length received * 8))
  end.

(** Everything [merge] does before it touches the state. *)
Definition check_attestation (st : FinalityState) (a : AggregatedAttestation) :
    res finality_error (BitSet.t * Z) :=
  if bool_decide (fs_data st ≠ agg_data a) then Throw HashMismatch
  else
    bits ← remote_bits st (agg_bits a);
    publicKeys ← lib (map_res from_base64 (sel (bit_at bits) (signerCredentials st)));
    ok ← lib (verifyAggregate publicKeys (from_utf8 (fs_data st)) (agg_signature a));
    if ok : bool then Ok (bits, Z.of_nat (length publicKeys)) else Throw InvalidSignature.

(** The loop that counts the signers in both aggregates. *)
Definition overlap (st : FinalityState) (bits : BitSet.t) : Z :=
  foldl (λ c i, if bit_at (aggregation_bits st) i && bit_at bits i then c + 1 else c) 0
    (seq 0 (length (signerCredentials st))).

Definition merge (st : FinalityState) (a : AggregatedAttestation) :
    FinalityState * res finality_error unit :=
  match check_attestation st a with
  | Throw e => (st, Throw e)
  | Ok (bits, remoteCount) =>
      let adopted := with_signature st bits (Some (agg_signature a)) remoteCount in
      match fs_signature st with
      | None => (adopted, Ok tt)
      | Some old =>
          let overlapCount := overlap st bits in
          if overlapCount =? 0
          then store_aggregate st (BitSet.or (aggregation_bits st) bits) old (agg_signature a) remoteCount
          else if (overlapCount =? numberOfSignatures st)
                  || ((overlapCount <? remoteCount) && (numberOfSignatures st <? remoteCount))
          then (adopted, Ok tt)
          else (st, Ok tt)
      end
  end.

(** ** [FinalityStore] *)

Record FinalityStore := mkFinalityStore {
  states : gmap string FinalityState;
  finalityThreshold : spec_float
}.

Definition newFinalityStore (threshold : option spec_float) : FinalityStore :=
  mkFinalityStore ∅ (default DEFAULT_FINALITY_THRESHOLD threshold).

Definition with_states (fs : FinalityStore) (m : gmap string FinalityState) : FinalityStore :=
  mkFinalityStore m (finalityThreshold fs).

Definition initializeState (fs : FinalityStore) (hash : string) (signers : list (string * string)) :
    FinalityStore :=
  match states fs !! hash with
  | Some _ => fs
  | None => with_states fs (<[hash := newFinalityState hash signers]> (states fs))
  end.

Definition quorum (signers : nat) (threshold : spec_float) : jsnum :=
  math_ceil (SFmul 53 1024 (f64_of_Z (Z.of_nat signers)) threshold).

Definition getQuorum (fs : FinalityStore) (hash : string) : option jsnum :=
  match states fs !! hash with
  | None => None
  | Some st => Some (quorum (length (signerCredentials st)) (finalityThreshold fs))
  end.

Definition getNumberOfSignatures (fs : FinalityStore) (hash : string) : option Z :=
  numberOfSignatures <$> states fs !! hash.

Definition isFinalized (fs : FinalityStore) (hash : string) : option bool :=
  match getNumberOfSignatures fs hash, getQuorum fs hash with
  | Some n, Some q => Some (js_geb n q)
  | _, _ => None
  end.

Definition canSign (fs : FinalityStore) (peerId hash : string) : option bool :=
  (λ st, jm_has (signerIndices st) peerId) <$> states fs !! hash.

Definition signed (fs : FinalityStore) (peerId hash : string) : option bool :=
  st ← states fs !! hash;
  index ← jm_get (signerIndices st) peerId;
  Some (BitSet.get (aggregation_bits st) index).

Definition addSignatures_step (peerId : string) (verify : bool)
    (acc : FinalityStore * list Attestation) (a : Attestation) : FinalityStore * list Attestation :=
  let '(fs, added) := acc in
  match states fs !! att_data a with
  | None => (fs, added ++ [a])
  | Some st =>
      let '(st', r) := addSignature st peerId (att_signature a) verify in
      let fs' := with_states fs (<[att_data a := st']> (states fs)) in
      match r with
      | Ok _ => (fs', added ++ [a])
      | Throw _ => (fs', added)
      end
  end.

Definition addSignatures (fs : FinalityStore) (peerId : string) (attestations : list Attestation)
    (verify : bool) : FinalityStore * list Attestation :=
  foldl (addSignatures_step peerId verify) (fs, []) attestations.

Definition getAttestation (fs : FinalityStore) (hash : string) : option AggregatedAttestation :=
  match states fs !! hash with
  | Some st =>
      match fs_signature st with
      | Some s => Some (mkAggregatedAttestation (fs_data st) (BitSet.toBytes (aggregation_bits st)) s)
      | None => None
      end
  | None => None
  end.

Definition mergeSignatures_step (acc : FinalityStore * (Z * Z)) (a : AggregatedAttestation) :
    FinalityStore * (Z * Z) :=
  let '(fs, (accepted, discarded)) := acc in
  match states fs !! agg_data a with
  | None => (fs, (accepted, discarded + 1))
  | Some st =>
      let '(st', r) := merge st a in
      let fs' := with_states fs (<[agg_data a := st']> (states fs)) in
      match r with
      | Ok _ => (fs', (accepted + 1, discarded))
      | Throw _ => (fs', (accepted, discarded + 1))
      end
  end.

(** [mergeSignatures], without its optional tracing span; the counts are the
    ones reported to the span. *)
Definition mergeSignaturesUntraced (fs : FinalityStore) (attestations : list AggregatedAttestation) :
    FinalityStore * (Z * Z) :=
  foldl mergeSignatures_step (fs, (0, 0)) attestations.

End state.

(** ** Selecting by index *)

Section sel.
Context {A : Type}.
Implicit Types (p q : nat → bool) (l : list A).

Lemma sel_ext p q l : (∀ i, (i < length l)%nat → p i = q i) → sel p l = sel q l.
Proof.
  revert p q. induction l as [|x l IH]; intros p q Hpq; [done|]. simpl.
  rewrite (Hpq 0%nat) by (simpl; lia). rewrite (IH _ (λ i, q (S i))); [done|].
  intros i Hi. apply Hpq. simpl. lia.
Qed.

Lemma sel_none p l : (∀ i, (i < length l)%nat → p i = false) → sel p l = [].
Proof.
  revert p. induction l as [|x l IH]; intros p Hp; [done|]. simpl.
  rewrite (Hp 0%nat) by (simpl; lia). apply IH. intros i Hi. apply Hp. simpl. lia.
Qed.

Lemma sel_single l i x : l !! i = Some x → sel (λ j, bool_decide (j = i)) l = [x].
Proof.
  revert i. induction l as [|y l IH]; intros [|i] Hi; simplify_eq/=.
  - f_equal. by apply sel_none.
  - rewrite <- (IH i Hi). apply sel_ext. intros j _. apply bool_decide_ext. lia.
Qed.

Lemma sel_or p q l : (∀ i, (i < length l)%nat → p i && q i = false) →
  sel (λ i, p i || q i) l ≡ₚ sel p l ++ sel q l.
Proof.
  revert p q. induction l as [|x l IH]; intros p q Hpq; [done|]. simpl.
  pose proof (Hpq 0%nat ltac:(simpl; lia)) as H0.
  specialize (IH (λ i, p (S i)) (λ i, q (S i))).
  assert (∀ i, (i < length l)%nat → p (S i) && q (S i) = false) as Hpq'
    by (intros i Hi; apply Hpq; simpl; lia).
  destruct (p 0%nat), (q 0%nat); simplify_eq/=; rewrite IH by done;
    [done|apply Permutation_middle|done].
Qed.

(** Selecting by [p] splits into what [q] also selects and what it does not. *)
Lemma sel_split p q l :
  sel p l ≡ₚ sel (λ i, p i && q i) l ++ sel (λ i, p i && negb (q i)) l.
Proof.
  rewrite <- sel_or; [|intros i _; by destruct (p i), (q i)].
  erewrite sel_ext; [done|]. intros i _. simpl. by destruct (p i), (q i).
Qed.

Lemma sel_nil_inv p l i : sel p l = [] → (i < length l)%nat → p i = false.
Proof.
  revert p i. induction l as [|x l IH]; intros p i Hs Hi; simpl in *; [lia|].
  destruct (p 0%nat) eqn:E; [done|]. destruct i as [|i]; [done|].
  apply (IH (λ i, p (S i))); [done|lia].
Qed.

Lemma sel_nonempty p l : sel p l ≠ [] → ∃ i, (i < length l)%nat ∧ p i = true.
Proof.
  revert p. induction l as [|x l IH]; intros p Hs; simpl in *; [done|].
  destruct (p 0%nat) eqn:E; [exists 0%nat; split; [lia|done]|].
  destruct (IH (λ i, p (S i)) Hs) as (i & ? & ?). exists (S i). split; [lia|done].
Qed.

Lemma sel_and_le p q l :
  (length (sel (λ i, p i && q i) l) ≤ length (sel p l))%nat ∧
  (length (sel (λ i, p i && q i) l) ≤ length (sel q l))%nat.
Proof.
  rewrite (sel_split p q l), (sel_split q p l), !length_app.
  rewrite (sel_ext (λ i, q i && p i) (λ i, p i && q i)) by (intros; apply andb_comm). lia.
Qed.

Lemma sel_length p l : (length (sel p l) ≤ length l)%nat.
Proof. revert p. induction l as [|x l IH]; intros p; simpl; [lia|]. case_match; simpl; specialize (IH (λ i, p (S i))); lia. Qed.

(** The counting loop over the indices counts the selected entries. *)
Lemma count_sel p l (c : Z) k :
  foldl (λ c i, if p i then c + 1 else c) c (seq k (length l)) =
  c + Z.of_nat (length (sel (λ i, p (k + i)%nat) l)).
Proof.
  revert c k. induction l as [|x l IH]; intros c k; simpl; [lia|].
  rewrite IH, Nat.add_0_r.
  rewrite (sel_ext (λ i, p (S k + i)%nat) (λ i, p (k + S i)%nat)) by (intros; f_equal; lia).
  destruct (p k); simpl; lia.
Qed.

End sel.

Lemma map_res_Ok {E A B} (f : A → res E B) l k :
  map_res f l = Ok k ↔ Forall2 (λ x y, f x = Ok y) l k.
Proof.
  revert k. induction l as [|x l IH]; intros k; simpl.
  - split; [intros [= <-]; constructor|by inversion 1].
  - rewrite bind_Ok. split.
    + intros (y & Hy & Hk). apply bind_Ok in Hk as (ys & Hys & [= <-]).
      constructor; [done|]. by apply IH.
    + inversion 1; subst. eexists. split; [done|]. apply bind_Ok. eexists. split; [by apply IH|done].
Qed.

(** ** The invariant of a finality state

    The bits are those of the signers; the number of signatures is the number
    of set bits; the stored aggregate verifies against exactly the keys of the
    signers whose bits are set. *)

Section invariant.
Context `{Hlaws : BLSLaws}.

Definition n_signers (st : FinalityState) : nat := length (signerCredentials st).
Definition signers (st : FinalityState) : list string :=
  sel (bit_at (aggregation_bits st)) (signerCredentials st).

(** [bits] fits [n] signers. *)
Record bits_fit (n : nat) (b : BitSet.t) : Prop := {
  bf_wf : BitSet.wf b;
  bf_capacity : BitSet.capacity b = BitSet.capacity (BitSet.new (Z.of_nat n));
  bf_high : ∀ j, Z.of_nat n ≤ j < BitSet.capacity b → BitSet.bit b j = false
}.

(** [s] is a valid aggregate, over [data], of the keys of the credentials [cs]. *)
Definition valid_aggregate (cs : list string) (data : string) (s : bytes) : Prop :=
  ∃ keys, Forall2 (λ c k, from_base64 c = Ok k) cs keys ∧
    verifyAggregate keys (from_utf8 data) s = Ok true.

Record fs_wf (st : FinalityState) : Prop := {
  fw_small : Z.of_nat (n_signers st) ≤ 2 ^ 36;
  fw_indices : ∀ p i, jm_get (signerIndices st) p = Some i → 0 ≤ i < Z.of_nat (n_signers st);
  fw_bits : bits_fit (n_signers st) (aggregation_bits st);
  fw_count : numberOfSignatures st = Z.of_nat (length (signers st));
  fw_valid : match fs_signature st with
             | None => signers st = []
             | Some s => valid_aggregate (signers st) (fs_data st) s
             end
}.

Lemma bits_fit_range n b i : bits_fit n b → (i < n)%nat → 0 ≤ Z.of_nat i < BitSet.capacity b.
Proof.
  intros [_ Hc _] Hi. rewrite Hc. pose proof (BitSet.capacity_new (Z.of_nat n)). lia.
Qed.

Lemma bit_at_bit n b i : bits_fit n b → (i < n)%nat → bit_at b i = BitSet.bit b (Z.of_nat i).
Proof. intros Hb Hi. apply BitSet.get_bit; [apply Hb|by eapply bits_fit_range]. Qed.

Lemma bits_fit_new n : Z.of_nat n ≤ 2 ^ 36 → bits_fit n (BitSet.new (Z.of_nat n)).
Proof.
  intros Hn. split; [by apply BitSet.wf_new|done|]. intros. apply BitSet.bit_new.
Qed.

Lemma bits_fit_set n b i : bits_fit n b → (i < n)%nat →
  bits_fit n (BitSet.set b (Z.of_nat i) true) ∧
  ∀ j, (j < n)%nat → bit_at (BitSet.set b (Z.of_nat i) true) j = bit_at b j || bool_decide (j = i).
Proof.
  intros Hb Hi. pose proof (bits_fit_range n b i Hb Hi) as Hr.
  destruct (BitSet.set_spec b (Z.of_nat i) true (bf_wf _ _ Hb) Hr) as (Hw & Hc & Hbit).
  assert (bits_fit n (BitSet.set b (Z.of_nat i) true)) as Hb'.
  { split; [done|by rewrite Hc; apply Hb|]. intros j Hj. rewrite Hc in Hj.
    rewrite Hbit by lia. rewrite decide_False by lia. by apply Hb. }
  split; [done|]. intros j Hj. rewrite !(bit_at_bit n) by done.
  rewrite Hbit by (by eapply bits_fit_range). case_bool_decide as E.
  - subst. by rewrite decide_True, orb_true_r.
  - rewrite decide_False by lia. by rewrite orb_false_r.
Qed.

Lemma bits_fit_or n a b : bits_fit n a → bits_fit n b →
  bits_fit n (BitSet.or a b) ∧ ∀ j, (j < n)%nat → bit_at (BitSet.or a b) j = bit_at a j || bit_at b j.
Proof.
  intros Ha Hb. destruct (BitSet.or_spec a b (bf_wf _ _ Ha)) as (Hw & Hc & Hbit).
  assert (BitSet.capacity a = BitSet.capacity b) as Hcap by (rewrite (bf_capacity n a), (bf_capacity n b); done).
  assert (bits_fit n (BitSet.or a b)) as Hab.
  { split; [done|by rewrite Hc; apply Ha|]. intros j Hj. rewrite Hc in Hj.
    rewrite Hbit by lia. rewrite (bf_high n a), (bf_high n b) by (done || lia). done. }
  split; [done|]. intros j Hj. rewrite !(bit_at_bit n) by done.
  apply Hbit. by eapply bits_fit_range.
Qed.

(** Clearing the bits from [n] on. *)
Lemma clear_from b n k : BitSet.wf b → Z.of_nat (n + k) = BitSet.capacity b →
  let b' := foldl (λ b i, BitSet.set b (Z.of_nat i) false) b (seq n k) in
  BitSet.wf b' ∧ BitSet.capacity b' = BitSet.capacity b ∧
  ∀ j, 0 ≤ j < BitSet.capacity b →
    BitSet.bit b' j = if decide (Z.of_nat n ≤ j) then false else BitSet.bit b j.
Proof.
  cbv zeta. revert n b. induction k as [|k IH]; intros n b Hb Hn; cbn [seq foldl].
  - split; [done|split; [done|]]. intros j Hj. by rewrite decide_False by lia.
  - destruct (BitSet.set_spec b (Z.of_nat n) false Hb) as (Hw & Hc & Hbit); [lia|].
    destruct (IH (S n) (BitSet.set b (Z.of_nat n) false)) as (Hw' & Hc' & Hbit'); [done|lia|].
    split; [done|split; [congruence|]]. intros j Hj. rewrite Hbit' by lia. rewrite Hbit by lia.
    repeat case_decide; (done || lia).
Qed.

Lemma clear_range_fit n m b : Z.of_nat n ≤ 2 ^ 36 → BitSet.wf b →
  BitSet.capacity b = BitSet.capacity (BitSet.new (Z.of_nat n)) → Z.of_nat m = BitSet.capacity b →
  bits_fit n (clear_range b n m) ∧
  ∀ i, (i < n)%nat → bit_at (clear_range b n m) i = BitSet.bit b (Z.of_nat i).
Proof.
  intros Hn Hb Hc Hm. pose proof (BitSet.capacity_new (Z.of_nat n) ltac:(lia)).
  destruct (clear_from b n (m - n)) as (Hw' & Hc' & Hbit); [done|lia|].
  fold (clear_range b n m) in *.
  assert (bits_fit n (clear_range b n m)) as Hfit.
  { split; [done|congruence|]. intros j Hj. rewrite Hc' in Hj. rewrite Hbit by lia.
    by rewrite decide_True by lia. }
  split; [done|]. intros i Hi. rewrite (bit_at_bit n) by done.
  rewrite Hbit by lia. by rewrite decide_False by lia.
Qed.

Lemma remote_bits_fit st received b : Z.of_nat (n_signers st) ≤ 2 ^ 36 →
  Forall (λ x, 0 ≤ x < 2 ^ 8) received → remote_bits st received = Ok b →
  bits_fit (n_signers st) b.
Proof.
  intros Hn Hby. unfold remote_bits. fold (n_signers st).
  destruct (BitSet.of_bytes _ _) as [b0|e] eqn:E; [|done]. intros <-%Ok_inj.
  destruct (BitSet.of_bytes_wf _ _ _ Hn ltac:(lia) Hby E) as (Hw & Hc & Hl).
  apply clear_range_fit; (done || lia).
Qed.

(** A bit set that fits is read back from its bytes. *)
Lemma remote_bits_toBytes st b : Z.of_nat (n_signers st) ≤ 2 ^ 36 → bits_fit (n_signers st) b →
  ∃ b', remote_bits st (BitSet.toBytes b) = Ok b' ∧ bits_fit (n_signers st) b' ∧
    ∀ i, (i < n_signers st)%nat → bit_at b' i = bit_at b i.
Proof.
  intros Hn Hb. pose proof (bf_capacity _ _ Hb) as Hc.
  assert ((Z.of_nat (n_signers st) + 31) / 32 = Z.of_nat (length (BitSet.data b))) as Hs.
  { unfold BitSet.capacity, BitSet.new in Hc. simpl in Hc. rewrite length_replicate in Hc.
    assert (0 ≤ (Z.of_nat (n_signers st) + 31) / 32) by (apply Z.div_pos; lia). lia. }
  unfold remote_bits. fold (n_signers st).
  rewrite (BitSet.of_bytes_toBytes b) by (done || apply Hb). eexists. split; [done|].
  pose proof (BitSet.length_toBytes b) as Hlen.
  destruct (clear_range_fit (n_signers st) (length (BitSet.toBytes b) * 8) b) as [Hfit Hbit];
    [done|apply Hb|done|unfold BitSet.capacity; lia|].
  split; [done|]. intros i Hi. by rewrite Hbit, (bit_at_bit (n_signers st)).
Qed.

(** ** The operations keep the invariant *)

Lemma valid_aggregate_perm cs cs' d s :
  cs ≡ₚ cs' → valid_aggregate cs d s → valid_aggregate cs' d s.
Proof.
  intros Hp (keys & Hk & Hv).
  destruct (Permutation_Forall2 Hp Hk) as (keys' & Hp' & Hk'). exists keys'. split; [done|].
  by rewrite <- (verify_perm _ _ _ _ Hp').
Qed.

Lemma valid_aggregate_app cs cs' d s s' : valid_aggregate cs d s → valid_aggregate cs' d s' →
  ∃ t, aggregateSignatures [s; s'] = Ok t ∧ valid_aggregate (cs ++ cs') d t.
Proof.
  intros (k & Hk & Hv) (k' & Hk' & Hv').
  destruct (aggregate_valid _ _ _ _ _ Hv Hv') as (t & Ht & Hvt).
  exists t. split; [done|]. exists (k ++ k'). split; [by apply Forall2_app|done].
Qed.

Lemma verify_signer_valid st c s : verify_signer st c s = Ok tt → valid_aggregate [c] (fs_data st) s.
Proof.
  unfold verify_signer. intros (k & Hk & Hv)%bind_Ok. apply bind_Ok in Hv as (ok & Hok & Ht).
  destruct (from_base64 c) as [k'|] eqn:Ek; simplify_eq/=.
  destruct (verify _ _ _) as [ok'|] eqn:Ev; simplify_eq/=. destruct ok; [|done].
  exists [k]. split; [by repeat constructor|]. by apply verify_single.
Qed.

(** Replacing the bits, the aggregate and the count by a consistent triple. *)
Lemma fs_wf_update st b s n : fs_wf st → bits_fit (n_signers st) b →
  n = Z.of_nat (length (sel (bit_at b) (signerCredentials st))) →
  valid_aggregate (sel (bit_at b) (signerCredentials st)) (fs_data st) s →
  fs_wf (with_signature st b (Some s) n).
Proof. intros Hst Hb Hn Hv. split; [apply Hst..|done|done|done]. Qed.

(** Storing a second, disjoint aggregate. *)
Lemma store_aggregate_spec st b q old new n : fs_wf st → fs_signature st = Some old →
  bits_fit (n_signers st) b →
  (∀ i, (i < n_signers st)%nat → bit_at b i = bit_at (aggregation_bits st) i || q i) →
  (∀ i, (i < n_signers st)%nat → bit_at (aggregation_bits st) i && q i = false) →
  valid_aggregate (sel q (signerCredentials st)) (fs_data st) new →
  n = Z.of_nat (length (sel q (signerCredentials st))) →
  ∃ t, store_aggregate st b old new n =
         (with_signature st b (Some t) (numberOfSignatures st + n), Ok tt) ∧
       fs_wf (with_signature st b (Some t) (numberOfSignatures st + n)).
Proof.
  intros Hst Hs Hb Hor Hdis Hnew ->. pose proof (fw_valid st Hst) as Hold. rewrite Hs in Hold.
  destruct (valid_aggregate_app _ _ _ _ _ Hold Hnew) as (t & Ht & Hv).
  assert (sel (bit_at b) (signerCredentials st) ≡ₚ signers st ++ sel q (signerCredentials st)) as Hp.
  { rewrite (sel_ext _ (λ i, bit_at (aggregation_bits st) i || q i)) by done. by apply sel_or. }
  exists t. unfold store_aggregate. rewrite Ht. split; [done|]. apply fs_wf_update; [done..| |].
  - rewrite (fw_count st Hst), Hp, length_app. lia.
  - by eapply valid_aggregate_perm.
Qed.

(** A signature that the caller vouches for ([verify = false]) must be valid. *)
Definition vouched (st : FinalityState) (peerId : string) (s : bytes) : Prop :=
  ∀ i c, jm_get (signerIndices st) peerId = Some i → signerCredentials st !! Z.to_nat i = Some c →
    verify_signer st c s = Ok tt.

Definition same_signers (st st' : FinalityState) : Prop :=
  fs_data st' = fs_data st ∧ signerCredentials st' = signerCredentials st ∧
  signerIndices st' = signerIndices st.

Lemma addSignature_spec st p s v : fs_wf st → v = true ∨ vouched st p s →
  let '(st', r) := addSignature st p s v in
  fs_wf st' ∧ same_signers st st' ∧
  match r with
  | Throw _ => st' = st
  | Ok _ => ∃ i, jm_get (signerIndices st) p = Some (Z.of_nat i) ∧ (i < n_signers st)%nat ∧
      ∀ j, (j < n_signers st)%nat →
        bit_at (aggregation_bits st') j = bit_at (aggregation_bits st) j || bool_decide (j = i)
  end.
Proof.
  intros Hst Hv. unfold addSignature.
  destruct (jm_get (signerIndices st) p) as [i0|] eqn:Hi; [|done].
  pose proof (fw_indices st Hst p i0 Hi) as Hr.
  assert (∃ i, i0 = Z.of_nat i) as [i ->] by (exists (Z.to_nat i0); lia).
  assert (i < n_signers st)%nat as Hin by lia. rewrite Nat2Z.id.
  destruct (lookup_lt_is_Some_2 _ _ Hin) as [c Hc]. rewrite Hc.
  destruct c as [|a c']; [done|]. set (c := String a c') in *.
  destruct (BitSet.get _ _) eqn:Hg.
  { split; [done|split; [done|]]. exists i. split; [done|split; [done|]]. intros j Hj.
    case_bool_decide; subst; [|by rewrite orb_false_r].
    unfold bit_at. by rewrite Hg. }
  destruct (if v then verify_signer st c s else Ok tt) as [[]|e] eqn:Ev; [|done].
  assert (verify_signer st c s = Ok tt) as Hok.
  { destruct v; [done|]. destruct Hv as [|Hv]; [done|]. eapply Hv; [done|]. by rewrite Nat2Z.id. }
  apply verify_signer_valid in Hok.
  destruct (bits_fit_set _ _ i (fw_bits st Hst) Hin) as [Hfit Hbit].
  assert (∀ j, (j < n_signers st)%nat → bit_at (aggregation_bits st) j && bool_decide (j = i) = false) as Hdis.
  { intros j Hj. case_bool_decide; subst; [|apply andb_false_r]. unfold bit_at. by rewrite Hg. }
  pose proof (sel_single _ _ _ Hc) as Hsel.
  destruct (fs_signature st) as [old|] eqn:Hs.
  - destruct (store_aggregate_spec st (BitSet.set (aggregation_bits st) (Z.of_nat i) true)
      (λ j, bool_decide (j = i)) old s 1) as (t & -> & Hwf); try done; [by rewrite Hsel..|].
    split; [done|split; [done|]]. by exists i.
  - pose proof (fw_valid st Hst) as Hnone. rewrite Hs in Hnone. pose proof (fw_count st Hst) as Hcnt.
    assert (sel (bit_at (BitSet.set (aggregation_bits st) (Z.of_nat i) true)) (signerCredentials st) = [c]) as Hnew.
    { rewrite <- Hsel. apply sel_ext. intros j Hj. rewrite Hbit by done.
      rewrite (sel_nil_inv _ _ _ Hnone Hj). done. }
    split; [|split; [done|by exists i]]. apply fs_wf_update; [done..| |]; rewrite Hnew; [|done].
    rewrite Hcnt, Hnone. done.
Qed.

Definition wire_bytes (a : AggregatedAttestation) : Prop := Forall (λ x, 0 ≤ x < 2 ^ 8) (agg_bits a).

Lemma lib_Ok {A} (m : res string A) a : lib m = Ok a → m = Ok a.
Proof. by destruct m as [?|?]; intros [= <-]. Qed.

Lemma check_attestation_spec st a bits c : fs_wf st → wire_bytes a →
  check_attestation st a = Ok (bits, c) →
  bits_fit (n_signers st) bits ∧ c = Z.of_nat (length (sel (bit_at bits) (signerCredentials st))) ∧
  valid_aggregate (sel (bit_at bits) (signerCredentials st)) (fs_data st) (agg_signature a).
Proof.
  intros Hst Hw. unfold check_attestation. case_bool_decide; [done|].
  intros (b & Hb & Hk)%bind_Ok. apply bind_Ok in Hk as (keys & Hkeys%lib_Ok%map_res_Ok & Hv).
  apply bind_Ok in Hv as ([] & Hok%lib_Ok & Hc); [|done]. simplify_eq/=.
  split; [by eapply remote_bits_fit; [apply Hst|..]|].
  split; [by rewrite (Forall2_length _ _ _ Hkeys)|]. by exists keys.
Qed.

Lemma overlap_count st bits : overlap st bits =
  Z.of_nat (length (sel (λ i, bit_at (aggregation_bits st) i && bit_at bits i) (signerCredentials st))).
Proof. unfold overlap. by rewrite (count_sel (λ i, bit_at (aggregation_bits st) i && bit_at bits i)). Qed.

(** What a merge leaves: the union of two disjoint sets of signers; the received
    set when it covers the stored one or is larger; the stored set otherwise. *)
Definition merged (n : nat) (old remote new : nat → bool) : Prop :=
  ((∀ i, (i < n)%nat → old i && remote i = false) ∧ (∀ i, (i < n)%nat → new i = old i || remote i)) ∨
  (∀ i, (i < n)%nat → new i = remote i) ∨
  ((∀ i, (i < n)%nat → new i = old i) ∧
   ∃ i, (i < n)%nat ∧ old i = true ∧ remote i = false).

Lemma merge_spec st a : fs_wf st → wire_bytes a →
  let '(st', r) := merge st a in
  fs_wf st' ∧ same_signers st st' ∧
  match check_attestation st a with
  | Throw e => st' = st ∧ r = Throw e
  | Ok (bits, remoteCount) => r = Ok tt ∧
      merged (n_signers st) (bit_at (aggregation_bits st)) (bit_at bits) (bit_at (aggregation_bits st')) ∧
      numberOfSignatures st ≤ numberOfSignatures st' ∧ remoteCount ≤ numberOfSignatures st'
  end.
Proof.
  intros Hst Hw. unfold merge. destruct (check_attestation st a) as [[bits c]|e] eqn:Hc; [|done].
  destruct (check_attestation_spec st a bits c Hst Hw Hc) as (Hfit & -> & Hv).
  pose proof (fw_count st Hst) as Hcnt. pose proof (fw_valid st Hst) as Hval.
  pose proof (fs_wf_update st bits _ _ Hst Hfit eq_refl Hv) as Hadopt.
  destruct (sel_and_le (bit_at (aggregation_bits st)) (bit_at bits) (signerCredentials st)) as [Hle1 Hle2].
  destruct (fs_signature st) as [old|] eqn:Hs.
  2:{ split; [done|split; [done|split; [done|split; [by right; left|]]]].
      simpl. rewrite Hcnt, Hval. simpl. lia. }
  rewrite overlap_count. fold (signers st) in Hle1. destruct (Z.eqb_spec (Z.of_nat (length (sel
    (λ i, bit_at (aggregation_bits st) i && bit_at bits i) (signerCredentials st)))) 0) as [E0|E0].
  { assert (sel (λ i, bit_at (aggregation_bits st) i && bit_at bits i) (signerCredentials st) = []) as Hn
      by (apply nil_length_inv; lia).
    destruct (bits_fit_or _ _ _ (fw_bits st Hst) Hfit) as [Hor Hbit].
    assert (∀ i, (i < n_signers st)%nat → bit_at (aggregation_bits st) i && bit_at bits i = false) as Hdis
      by (intros i Hi; by apply (sel_nil_inv _ _ i Hn)).
    destruct (store_aggregate_spec st (BitSet.or (aggregation_bits st) bits) (bit_at bits) old
      (agg_signature a) _ Hst Hs Hor Hbit Hdis Hv eq_refl) as (t & -> & Hwf).
    split; [done|split; [done|split; [done|split; [by left|]]]]. simpl. lia. }
  destruct (orb _ _) eqn:Hcond.
  - split; [done|split; [done|split; [done|split; [by right; left|]]]]. simpl. lia.
  - apply orb_false_iff in Hcond as [C1 C2]. split; [done|split; [done|split; [done|]]].
    split; [|lia]. right. right. split; [done|].
    destruct (decide (sel (λ i, bit_at (aggregation_bits st) i && negb (bit_at bits i))
      (signerCredentials st) = [])) as [En|En].
    { pose proof (Permutation_length (sel_split (bit_at (aggregation_bits st)) (bit_at bits)
        (signerCredentials st))) as Hp. rewrite En, app_nil_r in Hp. unfold signers in Hcnt. lia. }
    by apply sel_nonempty in En as (i & Hi & [? ?%negb_true_iff]%andb_true_iff); eauto.
Qed.

(** ** The store *)

Inductive finality_event :=
| Initialize (hash : string) (signers : list (string * string))
| Sign (peerId : string) (attestations : list Attestation) (verify : bool)
| Merge (attestations : list AggregatedAttestation).

Definition finality_step (fs : FinalityStore) (ev : finality_event) : FinalityStore :=
  match ev with
  | Initialize h signers => initializeState fs h signers
  | Sign p atts v => (addSignatures fs p atts v).1
  | Merge atts => (mergeSignaturesUntraced fs atts).1
  end.

(** What the callers guarantee: a signer map has distinct keys, unverified
    signatures are the peer's own valid ones, bit fields are bytes. *)
Definition event_ok (fs : FinalityStore) (ev : finality_event) : Prop :=
  match ev with
  | Initialize h signers => NoDup (jm_keys signers) ∧ Z.of_nat (length signers) ≤ 2 ^ 36
  | Sign p atts v => v = true ∨
      ∀ a st, a ∈ atts → states fs !! att_data a = Some st → vouched st p (att_signature a)
  | Merge atts => Forall wire_bytes atts
  end.

Inductive finality_reach (fs0 : FinalityStore) : FinalityStore → Prop :=
| reach_refl : finality_reach fs0 fs0
| reach_step fs ev : finality_reach fs0 fs → event_ok fs ev →
    finality_reach fs0 (finality_step fs ev).

Definition store_wf (fs : FinalityStore) : Prop :=
  ∀ h st, states fs !! h = Some st → fs_data st = h ∧ fs_wf st.

(** [fs'] knows at least the states of [fs], with the same signers and no fewer
    signatures. *)
Definition store_le (fs fs' : FinalityStore) : Prop :=
  finalityThreshold fs' = finalityThreshold fs ∧
  ∀ h st, states fs !! h = Some st → ∃ st', states fs' !! h = Some st' ∧ same_signers st st' ∧
    numberOfSignatures st ≤ numberOfSignatures st'.

#[local] Instance store_le_preorder : PreOrder store_le.
Proof.
  split.
  - intros fs. split; [done|]. intros h st Hst. exists st. split; [done|split; [done|lia]].
  - intros f1 f2 f3 [T1 H1] [T2 H2]. split; [congruence|]. intros h st Hst.
    destruct (H1 h st Hst) as (st2 & Hst2 & (? & ? & ?) & ?).
    destruct (H2 h st2 Hst2) as (st3 & Hst3 & (? & ? & ?) & ?).
    exists st3. repeat split; (congruence || lia).
Qed.

(** One state replaced. *)
Lemma store_update fs h st st' : store_wf fs → states fs !! h = Some st →
  fs_wf st' → same_signers st st' → numberOfSignatures st ≤ numberOfSignatures st' →
  let fs' := with_states fs (<[h := st']> (states fs)) in
  store_wf fs' ∧ store_le fs fs' ∧ dom (states fs') = dom (states fs).
Proof.
  intros Hfs Hst Hwf Hsame Hn. cbv zeta. destruct (Hfs h st Hst) as [Hd _]. split; [|split].
  - intros h' st1. simpl. rewrite lookup_insert. case_decide; [|apply Hfs].
    intros [= <-]. subst. destruct Hsame as [-> _]. done.
  - split; [done|]. intros h' st1 Hst1. simpl. rewrite lookup_insert.
    case_decide; [simplify_eq; eauto|]. exists st1. split; [done|split; [done|lia]].
  - simpl. apply dom_insert_lookup_L. eauto.
Qed.

Lemma addSignature_count st p s v : fs_wf st → v = true ∨ vouched st p s →
  numberOfSignatures st ≤ numberOfSignatures (addSignature st p s v).1.
Proof.
  intros Hst Hv. pose proof (addSignature_spec st p s v Hst Hv) as H1.
  destruct (addSignature st p s v) as [st' r]. destruct H1 as (Hwf & (Hd & Hc & Hi) & Hr).
  simpl. destruct r; [|subst; lia]. destruct Hr as (i & _ & _ & Hbit).
  rewrite (fw_count st Hst), (fw_count st' Hwf). unfold signers. rewrite Hc.
  destruct (sel_and_le (bit_at (aggregation_bits st)) (bit_at (aggregation_bits st'))
    (signerCredentials st)) as [_ Hle].
  rewrite (sel_ext (λ i, bit_at (aggregation_bits st) i && bit_at (aggregation_bits st') i)
    (bit_at (aggregation_bits st))) in Hle; [lia|].
  intros j Hj. rewrite Hbit by done. by destruct (bit_at _ j).
Qed.

Lemma vouched_same st st' p s : same_signers st st' → vouched st p s → vouched st' p s.
Proof.
  intros (Hd & Hc & Hi) Hv i c. rewrite Hi, Hc. intros H1 H2. specialize (Hv i c H1 H2).
  unfold verify_signer in *. by rewrite Hd.
Qed.

Lemma sign_step_spec fs added p v a : store_wf fs →
  v = true ∨ (∀ st, states fs !! att_data a = Some st → vouched st p (att_signature a)) →
  let fs' := (addSignatures_step p v (fs, added) a).1 in
  store_wf fs' ∧ store_le fs fs' ∧ dom (states fs') = dom (states fs).
Proof.
  intros Hfs Hv. unfold addSignatures_step.
  destruct (states fs !! att_data a) as [st|] eqn:Hst; [|done].
  destruct (Hfs _ _ Hst) as [_ Hwf].
  assert (v = true ∨ vouched st p (att_signature a)) as Hv' by (destruct Hv; eauto).
  pose proof (addSignature_spec st p (att_signature a) v Hwf Hv') as H1.
  pose proof (addSignature_count st p (att_signature a) v Hwf Hv') as H2.
  destruct (addSignature _ _ _ _) as [st' r]. destruct H1 as (Hwf' & Hsame & _).
  destruct r; simpl; by eapply store_update.
Qed.

Lemma sign_spec fs p v atts added : store_wf fs →
  v = true ∨ (∀ a st, a ∈ atts → states fs !! att_data a = Some st → vouched st p (att_signature a)) →
  let fs' := (foldl (addSignatures_step p v) (fs, added) atts).1 in store_wf fs' ∧ store_le fs fs'.
Proof.
  cbv zeta. revert fs added. induction atts as [|a atts IH]; intros fs added Hfs Hv; cbn [foldl fst]; [done|].
  pose proof (sign_step_spec fs added p v a Hfs) as Hstep. cbv zeta in Hstep.
  destruct (addSignatures_step p v (fs, added) a) as [fs1 added1]. cbn [fst] in Hstep.
  destruct Hstep as (Hfs1 & Hle1 & Hdom); [destruct Hv as [|Hv]; [by left|right; intros; eapply Hv; [left|done]]|].
  destruct (IH fs1 added1 Hfs1) as [Hwf Hle]; [|split; [done|by etrans]].
  destruct Hv as [|Hv]; [by left|right]. intros a' st1 Ha' Hst1.
  destruct (proj1 (elem_of_dom (states fs) (att_data a'))) as [st Hst].
  { rewrite <- Hdom. by eapply elem_of_dom_2. }
  destruct (proj2 Hle1 _ _ Hst) as (st1' & Hst1' & Hsame & _). simplify_eq.
  eapply vouched_same; [done|]. eapply Hv; [by right|done].
Qed.

Lemma merge_step_spec fs counts a : store_wf fs → wire_bytes a →
  let fs' := (mergeSignatures_step (fs, counts) a).1 in store_wf fs' ∧ store_le fs fs'.
Proof.
  intros Hfs Ha. unfold mergeSignatures_step. destruct counts as [acc dis].
  destruct (states fs !! agg_data a) as [st|] eqn:Hst; [|done].
  destruct (Hfs _ _ Hst) as [_ Hwf]. pose proof (merge_spec st a Hwf Ha) as H1.
  destruct (merge st a) as [st' r]. destruct H1 as (Hwf' & Hsame & Hr).
  assert (numberOfSignatures st ≤ numberOfSignatures st') as Hn.
  { destruct (check_attestation st a) as [[b c]|e]; [by destruct Hr as (? & ? & ? & ?)|].
    destruct Hr as [-> _]. lia. }
  destruct (store_update fs _ st st' Hfs Hst Hwf' Hsame Hn) as (? & ? & ?). by destruct r.
Qed.

Lemma merge_all_spec fs counts atts : store_wf fs → Forall wire_bytes atts →
  let fs' := (foldl mergeSignatures_step (fs, counts) atts).1 in store_wf fs' ∧ store_le fs fs'.
Proof.
  cbv zeta. intros Hfs Ha. revert fs counts Hfs.
  induction Ha as [|a atts Ha Hatts IH]; intros fs counts Hfs; cbn [foldl fst]; [done|].
  destruct (merge_step_spec fs counts a Hfs Ha) as [Hfs1 Hle1].
  destruct (mergeSignatures_step (fs, counts) a) as [fs1 counts1]. cbn [fst] in *.
  destruct (IH fs1 counts1 Hfs1). split; [done|by etrans].
Qed.

(** ** The signers of a new state *)

(** Peer [i] of the sorted list has index [i], and no other peer has one. *)
Lemma indices_lookup (l : list string) p (i : Z) : NoDup l →
  jm_get (foldl (λ m '(i, p), jm_set m p (Z.of_nat i)) [] (imap pair l)) p = Some i ↔
  ∃ k, i = Z.of_nat k ∧ l !! k = Some p.
Proof.
  induction l as [|x l IH] using rev_ind; [intros _; split; [done|by intros (? & ? & ?)]|].
  intros (Hl & Hx & _)%NoDup_app. rewrite imap_app, foldl_app. simpl.
  rewrite jm_get_set, Nat.add_0_r. case_decide as Hxp.
  - subst. split.
    + intros [= <-]. exists (length l). split; [done|]. by rewrite lookup_app_r, Nat.sub_diag.
    + intros (k & -> & Hk). apply lookup_app_Some in Hk as [Hk|[Hge Hk]].
      * exfalso. apply list_elem_of_lookup_2 in Hk. set_solver.
      * apply list_lookup_singleton_Some in Hk as [Hk _]. do 2 f_equal. lia.
  - rewrite IH by done. split; intros (k & -> & Hk); exists k; (split; [done|]).
    + by apply lookup_app_l_Some.
    + apply lookup_app_Some in Hk as [Hk|[Hge Hk]]; [done|].
      by apply list_lookup_singleton_Some in Hk as [_ ->].
Qed.

Lemma new_credentials (signers : list (string * string)) :
  length (omap (jm_get signers) (js_sort (jm_keys signers))) = length signers.
Proof.
  assert (length signers = length (js_sort (jm_keys signers))) as ->
    by (rewrite js_sort_perm; unfold jm_keys; by rewrite length_fmap).
  assert (Forall (λ p, is_Some (jm_get signers p)) (js_sort (jm_keys signers))) as Hall.
  { apply Forall_forall. intros p Hp. rewrite elem_of_js_sort in Hp.
    destruct (jm_get signers p) eqn:E; [eauto|]. apply jm_get_None in E. done. }
  induction Hall as [|p l [c Hc] _ IH]; [done|]. cbn. rewrite Hc. cbn. f_equal. exact IH.
Qed.

Lemma newFinalityState_wf h sgs : NoDup (jm_keys sgs) → Z.of_nat (length sgs) ≤ 2 ^ 36 →
  fs_wf (newFinalityState h sgs).
Proof.
  intros Hnd Hsmall. pose proof (new_credentials sgs) as Hlen.
  assert (length (js_sort (jm_keys sgs)) = length sgs) as Hs
    by (rewrite js_sort_perm; unfold jm_keys; by rewrite length_fmap).
  assert (signers (newFinalityState h sgs) = []) as Hnone.
  { apply sel_none. intros i Hi. simpl in *. rewrite Hs.
    rewrite (bit_at_bit (length sgs)); [apply BitSet.bit_new|by apply bits_fit_new|lia]. }
  split; unfold n_signers; simpl; rewrite ?Hlen; [done| | |by rewrite Hnone|done].
  - intros p i (k & -> & Hk)%indices_lookup; [|by rewrite js_sort_perm].
    apply lookup_lt_Some in Hk. lia.
  - rewrite Hs. by apply bits_fit_new.
Qed.

Lemma event_spec fs ev : store_wf fs → event_ok fs ev →
  store_wf (finality_step fs ev) ∧ store_le fs (finality_step fs ev).
Proof.
  intros Hfs Hok. destruct ev as [h signers|p atts v|atts]; simpl in *.
  - unfold initializeState. destruct (states fs !! h) eqn:Hh; [done|]. destruct Hok as [Hnd Hn].
    split.
    + intros h' st. simpl. rewrite lookup_insert. case_decide; [|apply Hfs].
      intros [= <-]. subst. split; [done|by apply newFinalityState_wf].
    + split; [done|]. intros h' st Hst. exists st. simpl.
      rewrite lookup_insert_ne by congruence. split; [done|split; [done|lia]].
  - by apply sign_spec.
  - by apply merge_all_spec.
Qed.

Lemma reach_spec fs0 fs : store_wf fs0 → finality_reach fs0 fs → store_wf fs ∧ store_le fs0 fs.
Proof.
  intros H0. induction 1 as [|fs ev _ [IH1 IH2] Hok]; [done|].
  destruct (event_spec fs ev IH1 Hok). split; [done|by etrans].
Qed.

End invariant.

(** ** A model of the BLS laws: a signature is the list of the keys that signed *)
Module ToyBLS.

Definition sortZ (l : list Z) : list Z := merge_sort Z.le l.

Lemma sortZ_perm l k : sortZ l = sortZ k ↔ l ≡ₚ k.
Proof.
  split.
  - intros E. rewrite <- (merge_sort_Permutation Z.le l), <- (merge_sort_Permutation Z.le k).
    by unfold sortZ in E; rewrite E.
  - intros Hp. apply (Sorted_unique Z.le); try apply (Sorted_merge_sort Z.le).
    by unfold sortZ; rewrite !merge_sort_Permutation.
Qed.

Definition bls : BLS := {|
  from_base64 c := Ok [Z.of_nat (String.length c)];
  from_utf8 _ := [];
  verify pk _ s := Ok (bool_decide (s = pk));
  verifyAggregate pks _ s := Ok (bool_decide (sortZ s = sortZ (mjoin pks)));
  aggregateSignatures l := Ok (mjoin l)
|}.

Lemma laws : BLSLaws bls.
Proof.
  split; simpl.
  - intros pk m s [= Hs%bool_decide_eq_true]. subst. f_equal. apply bool_decide_eq_true. by rewrite app_nil_r.
  - intros pks pks' m s Hp. f_equal. apply bool_decide_ext. rewrite !sortZ_perm.
    assert (mjoin pks ≡ₚ mjoin pks') as ->; [|done]. by apply join_Permutation.
  - intros pks pks' m s s' [= H1%bool_decide_eq_true] [= H2%bool_decide_eq_true].
    eexists. split; [done|]. f_equal. apply bool_decide_eq_true. apply sortZ_perm in H1, H2.
    apply sortZ_perm. by rewrite app_nil_r, join_app, H1, H2.
Qed.

End ToyBLS.

(** ** Properties *)

Section properties.
Context `{Hlaws : BLSLaws}.

Lemma new_store_wf t : store_wf (newFinalityStore t).
Proof. intros h st. simpl. by rewrite lookup_empty. Qed.

Lemma wire_toBytes b d s : wire_bytes (mkAggregatedAttestation d (BitSet.toBytes b) s).
Proof.
  unfold wire_bytes, BitSet.toBytes. simpl. apply Forall_join, Forall_fmap, Forall_true.
  intros w. repeat constructor; simpl; apply Z.mod_pos_bound; lia.
Qed.

(** A stored aggregate passes the checks of every state with the same signers. *)
Lemma attestation_checks st st' s : fs_wf st → fs_wf st' → fs_data st = fs_data st' →
  signerCredentials st = signerCredentials st' → fs_signature st = Some s →
  ∃ bits, check_attestation st' (mkAggregatedAttestation (fs_data st)
            (BitSet.toBytes (aggregation_bits st)) s) = Ok (bits, numberOfSignatures st).
Proof.
  intros Hst Hst' Hd Hc Hs. pose proof (fw_valid st Hst) as Hv. rewrite Hs in Hv.
  assert (n_signers st' = n_signers st) as Hn by (unfold n_signers; by rewrite Hc).
  destruct (remote_bits_toBytes st' (aggregation_bits st)) as (b & Hb & Hfit & Hbit);
    [apply Hst'|rewrite Hn; apply Hst|].
  destruct Hv as (keys & Hk & Hver). exists b. unfold check_attestation. cbn [agg_data agg_bits agg_signature].
  rewrite bool_decide_false by (intros E; by apply E). rewrite Hb. cbn.
  assert (sel (bit_at b) (signerCredentials st') = signers st) as Hsel.
  { unfold signers. rewrite Hc. by apply sel_ext. }
  rewrite Hsel, (proj2 (map_res_Ok _ _ _) Hk). cbn. rewrite <- Hd, Hver. cbn.
  rewrite (fw_count st Hst). by rewrite (Forall2_length _ _ _ Hk).
Qed.

Lemma js_geb_mono n m q : n ≤ m → js_geb n q = true → js_geb m q = true.
Proof. destruct q; simpl; [|done..]. lia. Qed.

(** The default quorum: 51 percent of the signers, rounded up. *)
Definition quorum_exact (n : nat) : bool :=
  bool_decide (quorum n DEFAULT_FINALITY_THRESHOLD = JInt ((51 * Z.of_nat n + 99) / 100)).

Lemma quorum_exact_all : forallb quorum_exact (seq 0 (Z.to_nat 10001)) = true.
Proof. vm_compute. reflexivity. Qed.

Lemma default_quorum n : Z.of_nat n ≤ 10000 →
  quorum n DEFAULT_FINALITY_THRESHOLD = JInt ((51 * Z.of_nat n + 99) / 100).
Proof.
  intros Hn. pose proof quorum_exact_all as Hall. rewrite forallb_forall in Hall.
  specialize (Hall n). rewrite in_seq in Hall. unfold quorum_exact in Hall.
  eapply bool_decide_eq_true, Hall. lia.
Qed.

(** C13 In every finality store reached by initialising states, verified or
    vouched-for signatures and merges of received aggregates: each state counts
    exactly the signers whose bits are set (never one twice), and its
    aggregate verifies against exactly the keys of those signers. *)
Theorem finality_invariant t fs h st :
  finality_reach (newFinalityStore t) fs → states fs !! h = Some st →
  fs_data st = h ∧ numberOfSignatures st = Z.of_nat (length (signers st)) ∧
  match fs_signature st with
  | None => signers st = []
  | Some s => valid_aggregate (signers st) h s
  end.
Proof.
  intros Hr Hst. destruct (reach_spec _ _ (new_store_wf t) Hr) as [Hwf _].
  destruct (Hwf h st Hst) as [<- Hfs]. split; [done|split; apply Hfs].
Qed.

(** C14 Finality is stable: once a vertex is final in a store, every sequence of
    further signatures and merges, of overlapping aggregates too, keeps it
    final, and its number of signatures never goes down. *)
Theorem finality_stable t fs fs' h n :
  finality_reach (newFinalityStore t) fs → finality_reach fs fs' →
  getNumberOfSignatures fs h = Some n →
  (∃ n', getNumberOfSignatures fs' h = Some n' ∧ n ≤ n') ∧
  (isFinalized fs h = Some true → isFinalized fs' h = Some true).
Proof.
  intros Hr Hr' Hn. destruct (reach_spec _ _ (new_store_wf t) Hr) as [Hwf _].
  destruct (reach_spec _ _ Hwf Hr') as [_ [Ht Hle]].
  unfold isFinalized, getQuorum, getNumberOfSignatures in *.
  destruct (states fs !! h) as [st|] eqn:Hst; simplify_eq/=.
  destruct (Hle h st Hst) as (st' & -> & (_ & Hc & _) & Hcnt). simpl. split; [eauto|].
  rewrite Hc, Ht. intros [= Hge]. f_equal. by eapply js_geb_mono.
Qed.

(** C15 What one replica hands out is accepted by another: the attestation of a
    vertex, its bits encoded as bytes, passes the checks of every store that
    has a state with the same signers, counts as one accepted attestation, and
    leaves that store with at least as many signatures as either had. *)
Theorem attestation_accepted t t' fs fs' h a st st' :
  finality_reach (newFinalityStore t) fs → finality_reach (newFinalityStore t') fs' →
  states fs !! h = Some st → states fs' !! h = Some st' →
  signerCredentials st = signerCredentials st' → getAttestation fs h = Some a →
  ∃ fs2 st2, mergeSignaturesUntraced fs' [a] = (fs2, (1, 0)) ∧ states fs2 !! h = Some st2 ∧
    numberOfSignatures st ≤ numberOfSignatures st2 ∧ numberOfSignatures st' ≤ numberOfSignatures st2.
Proof.
  intros Hr Hr' Hst Hst' Hc Ha. destruct (reach_spec _ _ (new_store_wf t) Hr) as [Hwf _].
  destruct (reach_spec _ _ (new_store_wf t') Hr') as [Hwf' _].
  destruct (Hwf h st Hst) as [Hd Hs]. destruct (Hwf' h st' Hst') as [Hd' Hs'].
  unfold getAttestation in Ha. rewrite Hst in Ha. destruct (fs_signature st) as [s|] eqn:Es; simplify_eq/=.
  destruct (attestation_checks st st' s Hs Hs' (eq_sym Hd') Hc Es) as [b Hb].
  pose proof (merge_spec st' _ Hs' (wire_toBytes (aggregation_bits st) (fs_data st) s)) as Hm.
  unfold mergeSignaturesUntraced, mergeSignatures_step. cbn [foldl agg_data]. rewrite Hst'.
  destruct (merge st' _) as [st2 r]. rewrite Hb in Hm. destruct Hm as (_ & _ & -> & _ & H1 & H2).
  eexists _, st2. split; [done|]. simpl. by rewrite lookup_insert_eq.
Qed.

(** C16 With the default threshold and between 1 and 10000 signers the quorum is
    exactly 51 percent rounded up (the product of doubles introduces no error),
    so two replicas that have the same list of signers for a vertex and both hold
    it for final share a signer. *)
Theorem finalized_replicas_intersect fs fs' h st st' :
  finality_reach (newFinalityStore None) fs → finality_reach (newFinalityStore None) fs' →
  states fs !! h = Some st → states fs' !! h = Some st' →
  signerCredentials st = signerCredentials st' → 0 < Z.of_nat (n_signers st) ≤ 10000 →
  isFinalized fs h = Some true → isFinalized fs' h = Some true →
  getQuorum fs h = Some (JInt ((51 * Z.of_nat (n_signers st) + 99) / 100)) ∧
  ∃ i, (i < n_signers st)%nat ∧ bit_at (aggregation_bits st) i = true ∧ bit_at (aggregation_bits st') i = true.
Proof.
  intros Hr Hr' Hst Hst' Hc Hn Hf Hf'. destruct (reach_spec _ _ (new_store_wf None) Hr) as [Hwf [Ht _]].
  destruct (reach_spec _ _ (new_store_wf None) Hr') as [Hwf' [Ht' _]].
  destruct (Hwf h st Hst) as [_ Hs]. destruct (Hwf' h st' Hst') as [_ Hs'].
  unfold isFinalized, getQuorum, getNumberOfSignatures in *. rewrite Hst in *. rewrite Hst' in Hf'.
  cbn in Hf, Hf'. rewrite <- Hc in Hf'. fold (n_signers st) in *. rewrite Ht in *. rewrite Ht' in Hf'. simpl in *.
  rewrite default_quorum in * by lia. split; [done|]. injection Hf as Hf. injection Hf' as Hf'.
  apply Z.leb_le in Hf, Hf'.
  rewrite (fw_count st Hs) in Hf. rewrite (fw_count st' Hs') in Hf'. unfold signers in *. rewrite <- Hc in Hf'.
  set (p := bit_at (aggregation_bits st)) in *. set (q := bit_at (aggregation_bits st')) in *.
  destruct (decide (sel (λ i, p i && q i) (signerCredentials st) = [])) as [E|E].
  - assert (Z.of_nat (n_signers st) < 2 * ((51 * Z.of_nat (n_signers st) + 99) / 100)) as Hmaj
      by (pose proof (Z.div_mod (51 * Z.of_nat (n_signers st) + 99) 100);
          pose proof (Z.mod_pos_bound (51 * Z.of_nat (n_signers st) + 99) 100); lia).
    pose proof (sel_length (λ i, p i || q i) (signerCredentials st)) as Hle.
    rewrite sel_or, length_app in Hle by (intros i Hi; by apply (sel_nil_inv _ _ i E)).
    unfold n_signers in *. lia.
  - apply sel_nonempty in E as (i & Hi & [? ?]%andb_true_iff). by exists i.
Qed.

(** [addSignatures] reports attestations it did not add: one for a vertex
    without a state, and one from a peer whose bit is already set, whatever
    its signature bytes are (they are not verified); the store is unchanged. *)
Theorem addSignatures_reports_unadded fs p a v st i c :
  (states fs !! att_data a = None → addSignatures fs p [a] v = (fs, [a])) ∧
  (states fs !! att_data a = Some st → jm_get (signerIndices st) p = Some i →
   signerCredentials st !! Z.to_nat i = Some c → c ≠ EmptyString →
   BitSet.get (aggregation_bits st) i = true → addSignatures fs p [a] v = (fs, [a])).
Proof.
  unfold addSignatures. simpl. split; [by intros ->|]. intros Hst Hi Hc Hne Hb.
  rewrite Hst. unfold addSignature. rewrite Hi, Hc. destruct c; [done|]. rewrite Hb. simpl.
  unfold with_states. rewrite insert_id by done. by destruct fs.
Qed.

End properties.

(** ** Witnesses: two signers, one vertex *)
Section witnesses.
#[local] Existing Instance ToyBLS.bls.
#[local] Existing Instance ToyBLS.laws.

Definition w_signers : list (string * string) := [("bob", "kk"); ("ann", "k")].
Definition w_store : FinalityStore :=
  finality_step (finality_step (newFinalityStore None) (Initialize "h" w_signers))
    (Sign "ann" [mkAttestation "h" [1]] true).
Definition w_final : FinalityStore := finality_step w_store (Sign "bob" [mkAttestation "h" [2]] true).

Lemma w_store_reach : finality_reach (newFinalityStore None) w_store.
Proof.
  unfold w_store. apply reach_step; [apply reach_step; [apply reach_refl|]|by left].
  split; [|simpl; lia]. decide_by_compute.
Qed.

Lemma w_final_reach : finality_reach w_store w_final.
Proof. apply reach_step; [apply reach_refl|by left]. Qed.

Definition w_state (fs : FinalityStore) : FinalityState := default (newFinalityState "" []) (states fs !! "h").

Lemma w_lookup fs : is_Some (states fs !! "h") → states fs !! "h" = Some (w_state fs).
Proof. intros [st E]. unfold w_state. by rewrite E. Qed.

Lemma finality_invariant_witness :
  numberOfSignatures (w_state w_final) = 2 ∧
  numberOfSignatures (w_state w_final) = Z.of_nat (length (signers (w_state w_final))).
Proof.
  split; [vm_compute; reflexivity|].
  apply (finality_invariant None w_final "h" (w_state w_final)).
  - apply reach_step; [apply w_store_reach|by left].
  - apply w_lookup. vm_compute. by eexists.
Defined.

Lemma finality_stable_witness : isFinalized w_final "h" = Some true ∧
  ∃ n', getNumberOfSignatures w_final "h" = Some n' ∧ 1 ≤ n'.
Proof.
  split; [vm_compute; reflexivity|].
  refine (proj1 (finality_stable None w_store w_final "h" 1 w_store_reach w_final_reach _)).
  vm_compute. reflexivity.
Defined.

Lemma attestation_accepted_witness : ∃ a fs2 st2, getAttestation w_store "h" = Some a ∧
  mergeSignaturesUntraced w_store [a] = (fs2, (1, 0)) ∧ states fs2 !! "h" = Some st2.
Proof.
  eexists.
  destruct (attestation_accepted None None w_store w_store "h"
    (mkAggregatedAttestation "h" [1; 0; 0; 0] [1]) (w_state w_store) (w_state w_store)
    w_store_reach w_store_reach) as (fs2 & st2 & H1 & H2 & _);
    [apply w_lookup; vm_compute; by eexists|apply w_lookup; vm_compute; by eexists|done
    |vm_compute; reflexivity|].
  exists fs2, st2. split; [vm_compute; reflexivity|]. split; [exact H1|exact H2].
Defined.

Lemma finalized_replicas_intersect_witness : getQuorum w_final "h" = Some (JInt 2).
Proof.
  assert (finality_reach (newFinalityStore None) w_final) as Hr
    by (apply reach_step; [apply w_store_reach|by left]).
  assert (states w_final !! "h" = Some (w_state w_final)) as Hs
    by (apply w_lookup; vm_compute; by eexists).
  assert (n_signers (w_state w_final) = 2%nat) as Hn by (vm_compute; reflexivity).
  pose proof (proj1 (finalized_replicas_intersect w_final w_final "h" (w_state w_final) (w_state w_final)
    Hr Hr Hs Hs eq_refl ltac:(rewrite Hn; lia) ltac:(vm_compute; reflexivity)
    ltac:(vm_compute; reflexivity))) as Hq.
  rewrite Hn in Hq. exact Hq.
Defined.

Lemma addSignatures_reports_unadded_witness :
  addSignatures w_final "ann" [mkAttestation "h" [99]] true = (w_final, [mkAttestation "h" [99]]).
Proof.
  refine (proj2 (addSignatures_reports_unadded w_final "ann" (mkAttestation "h" [99]) true
    (w_state w_final) 0 "k") _ _ _ _ _); try (vm_compute; reflexivity); done.
Defined.

End witnesses.
