(* ===== verification/Pipeline.v ===== *)
(** * Pipelines ([packages/object/src/pipeline/])

    A step takes an operation and returns it with a [stop] flag; it may change
    the object it belongs to and may throw. Effects are a state and error
    monad, [eff]: unlike an error monad over a state monad it keeps the state
    that a throwing step leaves behind, as JavaScript does. The chain of
    [Step]s linked by [_setNextHandler] is the list of their handlers, in
    order; handlers that return promises are run to completion. *)

From S2P Require Import Prelude.

(** ** Effects *)

Definition eff (S E A : Type) : Type := S → S * res E A.

Definition eff_ret {S E A} (a : A) : eff S E A := λ s, (s, Ok a).
Definition eff_bind {S E A B} (m : eff S E A) (f : A → eff S E B) : eff S E B := λ s,
  match m s with
  | (s, Ok a) => f a s
  | (s, Throw e) => (s, Throw e)
  end.
Definition eff_throw {S E A} (e : E) : eff S E A := λ s, (s, Throw e).
Definition eff_get {S E} : eff S E S := λ s, (s, Ok s).
Definition eff_put {S E} (s : S) : eff S E unit := λ _, (s, Ok tt).
Definition eff_modify {S E} (f : S → S) : eff S E unit := λ s, (f s, Ok tt).
Definition eff_res {S E A} (r : res E A) : eff S E A := λ s, (s, r).

(** [try { m } catch (e) { h(e) }] *)
Definition eff_catch {S E A} (m : eff S E A) (h : E → eff S E A) : eff S E A := λ s,
  match m s with
  | (s, Ok a) => (s, Ok a)
  | (s, Throw e) => h e s
  end.

Notation "'let!' x ':=' m 'in' k" := (eff_bind m (λ x, k))
  (at level 10, x pattern, m at level 100, k at level 200) : drp_scope.

(** A loop over an array whose body has effects. *)
Fixpoint eff_iter {S E A B} (f : B → A → eff S E B) (b : B) (l : list A) : eff S E B :=
  match l with
  | [] => eff_ret b
  | x :: l => let! b := f b x in eff_iter f b l
  end.

(** ** The pipeline *)

Record HandlerReturn (A : Type) := mkReturn { stop : bool; result : A }.
Arguments mkReturn {A}.
Arguments stop {A}.
Arguments result {A}.

Section pipeline.
Context {S E Op : Type}.

Definition StepOptions : Type := Op → eff S E (HandlerReturn Op).

Definition Pipeline : Type := list StepOptions.

Definition createPipeline (handler : StepOptions) : Pipeline := [handler].

Definition setNext (p : Pipeline) (handler : StepOptions) : Pipeline := p ++ [handler].

(** [Step._execute]: the handler, then the next step unless it stopped. *)
Fixpoint execute_steps (p : Pipeline) (input : Op) : eff S E (HandlerReturn Op) :=
  match p with
  | [] => eff_ret (mkReturn false input)
  | handler :: next =>
      let! r := handler input in
      if stop r then eff_ret r
      else match next with
           | [] => eff_ret r
           | _ => execute_steps next (result r)
           end
  end.

(** [Pipeline.execute] *)
Definition execute (p : Pipeline) (input : Op) : eff S E Op :=
  let! r := execute_steps p input in eff_ret (result r).

End pipeline.

(** ** Rules

    [eff_ok P m Q R]: started in a state satisfying [P], [m] ends in a state
    satisfying [Q a] if it returns [a], and [R e] if it throws [e]. *)
Definition eff_ok {S E A} (P : S → Prop) (m : eff S E A) (Q : A → S → Prop) (R : E → S → Prop) : Prop :=
  ∀ s, P s → match m s with
             | (s', Ok a) => Q a s'
             | (s', Throw e) => R e s'
             end.

Section rules.
Context {S E : Type}.
Implicit Types (P : S → Prop) (R : E → S → Prop).

Lemma ok_ret {A} (a : A) P Q R : (∀ s, P s → Q a s) → eff_ok P (eff_ret a) Q R.
Proof. intros H s Hs. simpl. auto. Qed.

Lemma ok_throw {A} (e : E) P (Q : A → S → Prop) R : (∀ s, P s → R e s) → eff_ok P (eff_throw e) Q R.
Proof. intros H s Hs. simpl. auto. Qed.

Lemma ok_get P Q R : (∀ s, P s → Q s s) → eff_ok P eff_get Q R.
Proof. intros H s Hs. simpl. auto. Qed.

Lemma ok_modify f P Q R : (∀ s, P s → Q tt (f s)) → eff_ok P (eff_modify f) Q R.
Proof. intros H s Hs. simpl. auto. Qed.

Lemma ok_res {A} (r : res E A) P Q R :
  (∀ s, P s → match r with Ok a => Q a s | Throw e => R e s end) → eff_ok P (eff_res r) Q R.
Proof. intros H s Hs. simpl. specialize (H s Hs). by destruct r. Qed.

Lemma ok_bind {A B} (m : eff S E A) (f : A → eff S E B) P Q' Q R :
  eff_ok P m Q' R → (∀ a, eff_ok (Q' a) (f a) Q R) → eff_ok P (eff_bind m f) Q R.
Proof.
  intros Hm Hf s Hs. unfold eff_bind. specialize (Hm s Hs).
  destruct (m s) as [s' [a|e]]; [|done]. by apply Hf.
Qed.

Lemma ok_catch {A} (m : eff S E A) (h : E → eff S E A) P Q R' R :
  eff_ok P m Q R' → (∀ e, eff_ok (R' e) (h e) Q R) → eff_ok P (eff_catch m h) Q R.
Proof.
  intros Hm Hh s Hs. unfold eff_catch. specialize (Hm s Hs).
  destruct (m s) as [s' [a|e]]; [done|]. by apply Hh.
Qed.

Lemma ok_weaken {A} (m : eff S E A) (P P' : S → Prop) (Q Q' : A → S → Prop) (R R' : E → S → Prop) :
  eff_ok P' m Q' R' → (∀ s, P s → P' s) → (∀ a s, Q' a s → Q a s) → (∀ e s, R' e s → R e s) →
  eff_ok P m Q R.
Proof.
  intros Hm HP HQ HR s Hs. specialize (Hm s (HP s Hs)). destruct (m s) as [s' [a|e]]; auto.
Qed.

(** The invariant rule for loops. *)
Lemma ok_iter {A B} (f : B → A → eff S E B) (I : B → S → Prop) R l b :
  (∀ x b, x ∈ l → eff_ok (I b) (f b x) I R) → eff_ok (I b) (eff_iter f b l) I R.
Proof.
  revert b. induction l as [|x l IH]; intros b Hf; simpl; [by apply ok_ret|].
  eapply ok_bind; [apply Hf; left|]. intros b'. apply IH. intros y b'' Hy. apply Hf. by right.
Qed.

(** The same with an invariant that speaks of the elements passed so far. *)
Lemma ok_iter_prefix {A B} (f : B → A → eff S E B) (I : list A → B → S → Prop) R l pre b :
  (∀ pre x b, x ∈ l → eff_ok (I pre b) (f b x) (I (pre ++ [x])) R) →
  eff_ok (I pre b) (eff_iter f b l) (I (pre ++ l)) R.
Proof.
  revert pre b. induction l as [|x l IH]; intros pre b Hf; simpl; [rewrite app_nil_r; by apply ok_ret|].
  eapply ok_bind; [apply Hf; left|]. intros b'.
  replace (pre ++ x :: l) with ((pre ++ [x]) ++ l) by (by rewrite <- app_assoc).
  apply IH. intros pre' y b'' Hy. apply Hf. by right.
Qed.

(** The same, when the invariant needs that the elements passed so far and the
    next one are, in this order, among those of a list [all]. *)
Lemma ok_iter_sublist {A B} (f : B → A → eff S E B) (I : list A → B → S → Prop) R all l pre b :
  (∀ pre x b, pre ++ [x] `sublist_of` all → eff_ok (I pre b) (f b x) (I (pre ++ [x])) R) →
  pre ++ l `sublist_of` all →
  eff_ok (I pre b) (eff_iter f b l) (I (pre ++ l)) R.
Proof.
  intros Hf. revert pre b. induction l as [|x l IH]; intros pre b Hs; simpl; [rewrite app_nil_r; by apply ok_ret|].
  replace (pre ++ x :: l) with ((pre ++ [x]) ++ l) in * by (by rewrite <- app_assoc).
  eapply ok_bind; [apply Hf; etrans; [by apply sublist_inserts_r|exact Hs]|]. intros b'. by apply IH.
Qed.

(** A pipeline all of whose steps preserve [I]. *)
Lemma ok_execute {Op} (p : @Pipeline S E Op) (I : Op → S → Prop) R op :
  (∀ f, f ∈ p → ∀ op, eff_ok (I op) (f op) (λ r, I (result r)) R) →
  eff_ok (I op) (execute p op) I R.
Proof.
  intros Hp. unfold execute. apply ok_bind with (λ r, I (result r)); [|intros r; by apply ok_ret].
  revert op Hp. induction p as [|f p IH]; intros op Hp; [by apply ok_ret|]. simpl.
  eapply ok_bind; [apply Hp; left|]. intros r. simpl. destruct (stop r); [by apply ok_ret|].
  destruct p as [|g p]; [by apply ok_ret|]. apply IH. intros f' Hf'. apply Hp. by right.
Qed.

End rules.
