(* ===== verification/State.v ===== *)
(** * Snapshots of objects ([packages/object/src/state.ts])

    An object of the application (a DRP or its ACL) is its own properties: the
    values of the application, the calling context, and functions. A snapshot
    ([DRPState]) holds every property that is not a function; restoring one
    assigns its entries to a fresh object. Deep copies are the identity on
    these immutable values. The manager keeps, per vertex hash, the snapshots of
    the DRP and of the ACL. *)

From S2P Require Import Prelude JsMap JsValue Types HashGraph.

Inductive property (V : Type) :=
| PValue (v : V)
| PContext (caller : string)
| PFunction.
Arguments PValue {V} v.
Arguments PContext {V} caller.
Arguments PFunction {V}.

#[global] Instance property_eq_dec {V} `{EqDecision V} : EqDecision (property V).
Proof. solve_decision. Defined.

Abbreviation object V := (list (string * property V)) (only parsing).
Abbreviation DRPState V := (list (string * property V)) (only parsing).

Definition is_function {V} (p : property V) : bool :=
  match p with PFunction => true | _ => false end.

Inductive state_error := StateNotFound (h : Hash).

Section manager.
Context {V : Type}.
Implicit Types (o : object V) (st : DRPState V).

(** [stateFromDRP]: the own properties in order, without the functions;
    an absent object has the empty state. *)
Definition stateFromDRP (drp : option (object V)) : DRPState V :=
  match drp with
  | None => []
  | Some o => List.filter (λ kv, negb (is_function kv.2)) o
  end.

(** [Object.assign(target, source)], also the loop of [applyState]. *)
Definition object_assign (target source : object V) : object V :=
  foldl (λ o kv, jm_set o kv.1 kv.2) target source.

Definition applyState (instance : object V) (st : DRPState V) : object V := object_assign instance st.

Record DRPObjectStateManager := mkStates {
  drpStates : gmap Hash (DRPState V);
  aclStates : gmap Hash (DRPState V);
  hasDRP : bool   (* [drpConstructor] is set *)
}.

(** The constructor. *)
Definition newStateManager (acl : object V) (drp : option (object V)) : DRPObjectStateManager :=
  mkStates {[ rootHash := stateFromDRP drp ]} {[ rootHash := stateFromDRP (Some acl) ]}
    (bool_decide (is_Some drp)).

Definition getDRPState (m : DRPObjectStateManager) (h : Hash) : option (DRPState V) := drpStates m !! h.
Definition getACLState (m : DRPObjectStateManager) (h : Hash) : option (DRPState V) := aclStates m !! h.

Definition setDRPState (m : DRPObjectStateManager) (h : Hash) (st : DRPState V) : DRPObjectStateManager :=
  mkStates (<[h := st]> (drpStates m)) (aclStates m) (hasDRP m).

Definition setACLState (m : DRPObjectStateManager) (h : Hash) (st : DRPState V) : DRPObjectStateManager :=
  mkStates (drpStates m) (<[h := st]> (aclStates m)) (hasDRP m).

(** [fromStates]: fresh objects, [Object.create(prototype)], filled from the snapshots. *)
Definition fromStates (m : DRPObjectStateManager) (drpState aclState : DRPState V) :
    option (object V) * object V :=
  (if hasDRP m then Some (applyState [] drpState) else None, applyState [] aclState).

Definition fromHash (m : DRPObjectStateManager) (h : Hash) :
    res state_error (option (object V) * object V) :=
  match getDRPState m h, getACLState m h with
  | Some d, Some a => Ok (fromStates m d a)
  | _, _ => Throw (StateNotFound h)
  end.

Definition fromHashACL (m : DRPObjectStateManager) (h : Hash) : res state_error (object V) :=
  match getACLState m h with
  | Some a => Ok (applyState [] a)
  | None => Throw (StateNotFound h)
  end.

(** [prune] *)
Definition prune (m : DRPObjectStateManager) (hashes : gset Hash) : DRPObjectStateManager :=
  mkStates (filter (λ kv, kv.1 ∈ hashes) (drpStates m)) (filter (λ kv, kv.1 ∈ hashes) (aclStates m))
    (hasDRP m).

(** ** Restoring a snapshot *)

Lemma object_assign_get (target source : object V) k :
  NoDup (jm_keys source) →
  jm_get (object_assign target source) k =
  match jm_get source k with Some v => Some v | None => jm_get target k end.
Proof.
  revert target. induction source as [|[k' v] source IH]; intros target Hnd; simpl; [done|].
  apply NoDup_cons in Hnd as [Hk Hnd]. unfold object_assign in *. simpl. rewrite IH by done.
  case_decide; subst; [|by rewrite jm_get_set_ne].
  simpl in Hk. fold (jm_keys source) in Hk. apply jm_get_None in Hk. rewrite Hk. apply jm_get_set_eq.
Qed.

Lemma object_assign_fresh (pre source : object V) :
  NoDup (jm_keys (pre ++ source)) → object_assign pre source = pre ++ source.
Proof.
  revert pre. induction source as [|[k v] source IH]; intros pre Hnd; simpl; [by rewrite app_nil_r|].
  unfold object_assign in *. simpl. rewrite jm_keys_set_new.
  - rewrite IH; [by rewrite <- app_assoc|]. by rewrite <- app_assoc.
  - apply jm_get_None. unfold jm_keys in *. rewrite fmap_app in Hnd.
    apply NoDup_app in Hnd as (_ & Hd & _). intros Hk. apply (Hd k Hk). by left.
Qed.

Lemma NoDup_stateFromDRP (o : object V) : NoDup (jm_keys o) → NoDup (jm_keys (stateFromDRP (Some o))).
Proof.
  intros Hnd. unfold jm_keys. simpl. induction o as [|[k p] o IH]; simpl; [constructor|].
  apply NoDup_cons in Hnd as [Hk Hnd]. destruct (is_function p); simpl; [by apply IH|].
  apply NoDup_cons. split; [|by apply IH]. intros Hin. apply Hk.
  apply list_elem_of_fmap in Hin as ([k' p'] & -> & Hin). apply list_elem_of_filter_bool in Hin as [Hin _].
  apply list_elem_of_fmap. by exists (k', p').
Qed.

Lemma restore_state (o : object V) : NoDup (jm_keys o) →
  applyState [] (stateFromDRP (Some o)) = List.filter (λ kv, negb (is_function kv.2)) o.
Proof.
  intros Hnd. unfold applyState. rewrite object_assign_fresh; [done|]. by apply NoDup_stateFromDRP.
Qed.

Lemma NoDup_object_assign (target source : object V) :
  NoDup (jm_keys target) → NoDup (jm_keys (object_assign target source)).
Proof.
  unfold object_assign. revert target. induction source as [|[k v] source IH]; intros target Ht; simpl; [done|].
  apply IH. by apply NoDup_jm_keys_set.
Qed.

(** Snapshots round-trip: an object rebuilt from its own snapshot has exactly
    the non-function properties of the original, in the same order, and its
    snapshot is the same again. *)
Theorem snapshot_roundtrip (m : DRPObjectStateManager) (drp acl : object V) (h : Hash) :
  NoDup (jm_keys drp) → NoDup (jm_keys acl) → hasDRP m = true →
  let m' := setACLState (setDRPState m h (stateFromDRP (Some drp))) h (stateFromDRP (Some acl)) in
  ∃ drp' acl', fromHash m' h = Ok (Some drp', acl') ∧
    drp' = List.filter (λ kv, negb (is_function kv.2)) drp ∧
    acl' = List.filter (λ kv, negb (is_function kv.2)) acl ∧
    stateFromDRP (Some drp') = stateFromDRP (Some drp) ∧
    stateFromDRP (Some acl') = stateFromDRP (Some acl).
Proof.
  intros Hd Ha Hm. cbv zeta. unfold fromHash, getDRPState, getACLState, fromStates, setACLState, setDRPState.
  cbn [drpStates aclStates hasDRP]. rewrite !lookup_insert_eq, Hm, !restore_state by done.
  assert (∀ o : object V, List.filter (λ kv, negb (is_function kv.2))
    (List.filter (λ kv, negb (is_function kv.2)) o) = List.filter (λ kv, negb (is_function kv.2)) o) as Hf.
  { intros o. induction o as [|[k p] o IH]; simpl; [done|].
    destruct (is_function p) eqn:E; simpl; [done|]. rewrite E. simpl. by rewrite IH. }
  eexists _, _. repeat split; simpl; apply Hf.
Qed.

End manager.
Arguments DRPObjectStateManager : clear implicits.

Lemma snapshot_roundtrip_witness : ∃ drp' acl',
  fromHash (setACLState (setDRPState (newStateManager [] (Some [])) "h"
    (stateFromDRP (Some [("n", PValue 3%Z); ("f", PFunction)]))) "h" (stateFromDRP (Some []))) "h" =
  Ok (Some drp', acl') ∧ drp' = [("n", PValue 3%Z)].
Proof.
  destruct (snapshot_roundtrip (newStateManager [] (Some [])) [("n", PValue 3%Z); ("f", PFunction)] [] "h")
    as (d & a & H & Hd & _); [decide_by_compute|decide_by_compute|reflexivity|].
  exists d, a. split; [exact H|]. rewrite Hd. reflexivity.
Defined.
