(* ===== verification/Applier.v ===== *)
(** * Applying vertices ([packages/object/src/drp-applier.ts], [operation.ts], [proxy.ts])

    [DRPVertexApplier] validates vertices, rebuilds the state they were created
    on, runs their operation on it, and commits the result to the hash graph, the
    snapshots and the finality store; [applyVertices] does so for a batch
    received from other replicas and then replays the whole graph into the live
    objects. Replays start from checkpoints.

    The methods of a DRP are application code: the class [Application] gives,
    for a call, the writes the method makes to its object, in order, and how it
    ends. Promises are run to completion: the model covers applications without
    interleaved asynchronous methods. [Date.now()] is the sequence [date_now] of
    the values of successive calls. *)

From S2P Require Import Prelude JsMap JsNum Bits JsValue Types HashGraph Dag TopoSort Causality Lca.
From S2P Require Import LegacyCausality Linearize Validation Finality Pipeline State.

(** ** Application code *)

(** How a write reaches the object: by an operation whose effect
    [trackMutations] compares with the old value, by one that always counts (a
    collection method it does not know, [Object.defineProperty]), or by one
    through the [context] property, which it ignores. *)
Inductive write_kind := WCompared | WConservative | WContext.

(** A write that a method makes: the object after it. *)
Record write (V : Type) := mkWrite { w_after : object V; w_kind : write_kind }.
Arguments mkWrite {V}.
Arguments w_after {V}.
Arguments w_kind {V}.

Class Application (V E : Type) := {
  run_method : string → list jsvalue → object V → list (write V) * res E V;
  query_isWriter : object V → string → bool;
  query_getFinalitySigners : object V → list (string * string)
}.

(** ** Constants and configuration *)

Definition MAX_KNOWN_INVALID_VERTEX_HASHES : nat := Z.to_nat 10000.
Definition DEFAULT_CHECKPOINT_SUFFIX_SIZE : nat := 256.
Definition MAX_CHECKPOINTS : nat := 32.

(** [Number(configured)] of the environment variable; [None]: not a safe integer. *)
Definition checkpointSuffixSizeFromEnvironment (configured : option (option Z)) : nat :=
  match configured with
  | Some (Some parsed) =>
      if (0 <? parsed)%Z then Z.to_nat parsed else DEFAULT_CHECKPOINT_SUFFIX_SIZE
  | _ => DEFAULT_CHECKPOINT_SUFFIX_SIZE
  end.

Inductive applier_error (E : Type) :=
| EValidation (e : validation_error)
| EState (e : state_error)
| EGraph (e : graph_error)
| EApplication (e : E)
| ENotWriter (peer : string)
| EOperationUndefined
| ENoCheckpoint
| ERootSnapshots
| ETypeError
| EWalkOutOfFuel.
Arguments EValidation {E}.
Arguments EState {E}.
Arguments EGraph {E}.
Arguments EApplication {E}.
Arguments ENotWriter {E}.
Arguments EOperationUndefined {E}.
Arguments ENoCheckpoint {E}.
Arguments ERootSnapshots {E}.
Arguments ETypeError {E}.
Arguments EWalkOutOfFuel {E}.

(** ** Splitting a replay *)

(** [splitOperation]: DRP vertices and the others; a vertex without operation
    is skipped. *)
Definition splitOperation (vs : list Vertex) : list Vertex * list Vertex :=
  foldl (λ acc v,
    match operation v with
    | None => acc
    | Some op =>
        if bool_decide (drpType op = DrpType_DRP) then (acc.1 ++ [v], acc.2) else (acc.1, acc.2 ++ [v])
    end) ([], []) vs.

(** ** Checkpoint walks *)

(** The search of [dependenciesCover] from one dependency: the boundary
    hashes still to be found, the visited hashes, the stack. *)
Record cover := mkCover { cv_remaining : gset Hash; cv_visited : gset Hash; cv_stack : list Hash }.

Definition cover_step (g : HashGraph) (c : cover) : iter cover bool :=
  if decide (size (cv_remaining c) = 0) then Done true
  else
    match cv_stack c with
    | [] => Done false
    | h :: stack =>
        if decide (h ∈ cv_visited c) then Next (mkCover (cv_remaining c) (cv_visited c) stack)
        else Next (mkCover (cv_remaining c ∖ {[h]}) ({[h]} ∪ cv_visited c)
                     (reverse (getDependencies g h) ++ stack))
    end.

Definition graph_walk_fuel (g : HashGraph) : nat :=
  walk_fuel (getDependencies g) (jm_keys (vertices g)) [rootHash].

Definition covers_from (g : HashGraph) (boundary : list Hash) (descendant : Hash) : option bool :=
  loop (cover_step g) (graph_walk_fuel g) (mkCover (list_to_set boundary) ∅ [descendant]).

Fixpoint covers_all (g : HashGraph) (boundary deps : list Hash) : option bool :=
  match deps with
  | [] => Some true
  | d :: deps =>
      r ← covers_from g boundary d;
      if r : bool then covers_all g boundary deps else Some false
  end.

Definition dependenciesCover (g : HashGraph) (deps boundary : list Hash) : option bool :=
  let dependencySet : gset Hash := list_to_set deps in
  if bool_decide (size dependencySet = length boundary)
     && forallb (λ h, bool_decide (h ∈ dependencySet)) boundary
  then Some true
  else covers_all g boundary deps.

(** The dependencies of a hash, and none at the boundary. *)
Definition suffix_deps (g : HashGraph) (boundary : list Hash) (h : Hash) : list Hash :=
  if decide (h ∈ boundary) then [] else getDependencies g h.

(** The children of a hash inside the boundary and the suffix. *)
Definition suffix_children (g : HashGraph) (boundary : list Hash) (subgraph : gset Hash) (h : Hash) :
    list Hash :=
  filter (λ c, c ∈ boundary ∨ c ∈ subgraph) (children g h).

Fixpoint heads_reach (g : HashGraph) (boundary : list Hash) (subgraph members : gset Hash)
    (heads : list Hash) : option bool :=
  match heads with
  | [] => Some true
  | head :: heads =>
      reachable ← walk_from (suffix_children g boundary subgraph) (jm_keys (vertices g)) [head];
      if bool_decide (members ⊆ reachable) then heads_reach g boundary subgraph members heads
      else Some false
  end.

(** [collectSuffixSubgraph]; the outer [None] is a walk out of fuel. *)
Definition collectSuffixSubgraph (g : HashGraph) (deps boundary : list Hash) (origin : Hash) :
    option (option (gset Hash)) :=
  visited ← walk_from (suffix_deps g boundary) (jm_keys (vertices g)) deps;
  let subgraph : gset Hash := {[origin]} ∪ filter (λ h, h ∉ boundary) visited in
  ok ← heads_reach g boundary subgraph (subgraph ∖ {[origin]}) boundary;
  Some (if ok : bool then Some subgraph else None).

(** ** State of the applier *)

Section applier.
Context {V E : Type} `{EqDecision V} `{Application V E}.
Context (sha256hex : string → Hash) (date_now : nat → Z) (linearize_fuel : nat).

Record ReplayState := mkReplay { drpState : DRPState V; aclState : DRPState V }.

Record LinearizationCheckpoint := mkCheckpoint {
  cp_frontier : list Hash;
  cp_origin : Hash;
  cp_vertexCount : nat;
  cp_state : ReplayState
}.

Record DRPVertexApplier := mkApplier {
  hashGraph : HashGraph;
  states_ : DRPObjectStateManager V;
  drp : option (object V);       (* the target of [_proxyDRP] *)
  acl : object V;                (* the target of [_proxyACL] *)
  finalityStore : FinalityStore;
  knownInvalidVertexHashes : list Hash;
  checkpoints : list LinearizationCheckpoint;
  checkpointSuffixSize : nat;
  ticks : nat;                   (* calls of [Date.now()] so far *)
  notifications : list (string * list Vertex)
}.

Abbreviation M A := (eff DRPVertexApplier (applier_error E) A) (only parsing).

Definition with_graph (a : DRPVertexApplier) (g : HashGraph) : DRPVertexApplier :=
  mkApplier g (states_ a) (drp a) (acl a) (finalityStore a) (knownInvalidVertexHashes a)
    (checkpoints a) (checkpointSuffixSize a) (ticks a) (notifications a).
Definition with_states_ (a : DRPVertexApplier) (s : DRPObjectStateManager V) : DRPVertexApplier :=
  mkApplier (hashGraph a) s (drp a) (acl a) (finalityStore a) (knownInvalidVertexHashes a)
    (checkpoints a) (checkpointSuffixSize a) (ticks a) (notifications a).
Definition with_live (a : DRPVertexApplier) (d : option (object V)) (l : object V) : DRPVertexApplier :=
  mkApplier (hashGraph a) (states_ a) d l (finalityStore a) (knownInvalidVertexHashes a)
    (checkpoints a) (checkpointSuffixSize a) (ticks a) (notifications a).
Definition with_finality (a : DRPVertexApplier) (f : FinalityStore) : DRPVertexApplier :=
  mkApplier (hashGraph a) (states_ a) (drp a) (acl a) f (knownInvalidVertexHashes a)
    (checkpoints a) (checkpointSuffixSize a) (ticks a) (notifications a).
Definition with_invalid (a : DRPVertexApplier) (l : list Hash) : DRPVertexApplier :=
  mkApplier (hashGraph a) (states_ a) (drp a) (acl a) (finalityStore a) l
    (checkpoints a) (checkpointSuffixSize a) (ticks a) (notifications a).
Definition with_checkpoints (a : DRPVertexApplier) (l : list LinearizationCheckpoint) : DRPVertexApplier :=
  mkApplier (hashGraph a) (states_ a) (drp a) (acl a) (finalityStore a) (knownInvalidVertexHashes a)
    l (checkpointSuffixSize a) (ticks a) (notifications a).
Definition tick (a : DRPVertexApplier) : DRPVertexApplier :=
  mkApplier (hashGraph a) (states_ a) (drp a) (acl a) (finalityStore a) (knownInvalidVertexHashes a)
    (checkpoints a) (checkpointSuffixSize a) (S (ticks a)) (notifications a).
Definition with_notification (a : DRPVertexApplier) (n : string * list Vertex) : DRPVertexApplier :=
  mkApplier (hashGraph a) (states_ a) (drp a) (acl a) (finalityStore a) (knownInvalidVertexHashes a)
    (checkpoints a) (checkpointSuffixSize a) (ticks a) (notifications a ++ [n]).

(** The constructor. *)
Definition newApplier (d : option (object V)) (l : object V) (g : HashGraph)
    (s : DRPObjectStateManager V) (f : FinalityStore) (suffixSize : nat) :
    res (applier_error E) DRPVertexApplier :=
  match getDRPState s rootHash, getACLState s rootHash with
  | Some ds, Some ls =>
      Ok (mkApplier g s d l f [] [mkCheckpoint [rootHash] rootHash 1 (mkReplay ds ls)] suffixSize 0 [])
  | _, _ => Throw ERootSnapshots
  end.

(** [createDRPVertexApplier], with the states it makes by default. *)
Definition createDRPVertexApplier (d : option (object V)) (l : object V) (g : HashGraph)
    (f : FinalityStore) (suffixSize : nat) : res (applier_error E) DRPVertexApplier :=
  newApplier d l g (newStateManager l d) f suffixSize.

Definition date_now_ : M Z := λ a, (tick a, Ok (date_now (ticks a))).

(** ** Calling the application *)

(** [if (drp.context) drp.context.caller = caller] *)
Definition set_caller (o : object V) (caller : string) : object V :=
  match jm_get o "context" with
  | Some (PContext _) => jm_set o "context" (PContext caller)
  | _ => o
  end.

Definition write_counts (o : object V) (w : write V) : bool :=
  match w_kind w with
  | WCompared => bool_decide (o ≠ w_after w)
  | WConservative => true
  | WContext => false
  end.

(** [trackMutations] over the writes of a method: the object after them, and
    [hasChanges()]. *)
Fixpoint trackMutations (o : object V) (ws : list (write V)) : object V * bool :=
  match ws with
  | [] => (o, false)
  | w :: ws =>
      let '(o', changed) := trackMutations (w_after w) ws in
      (o', write_counts o w || changed)
  end.

(** [callDRP]: the object after the call, whether it was changed, the result. *)
Definition callDRP (o : object V) (caller method : string) (args : list jsvalue) :
    object V * bool * res E V :=
  let o := set_caller o caller in
  let '(ws, r) := run_method method args o in
  let '(o', changed) := trackMutations o ws in
  (o', changed, r).

Definition applyVertex (o : object V) (v : Vertex) : res (applier_error E) (object V) :=
  match operation v with
  | None => Throw EOperationUndefined
  | Some op =>
      let '(o', _, r) := callDRP o (peerId v) (opType op) (value op) in
      match r with
      | Ok _ => Ok o'
      | Throw e => Throw (EApplication e)
      end
  end.

(** [applyVertices(drp, vertices)], by [processSequentially]. *)
Fixpoint apply_vertices (o : object V) (vs : list Vertex) : res (applier_error E) (object V) :=
  match vs with
  | [] => Ok o
  | v :: vs => o' ← applyVertex o v; apply_vertices o' vs
  end.

(** ** Operations in the pipeline

    [BaseOperation], [PostLCAOperation], [PostSplitOperation], [Operation] and
    [PostOperation] are one record; what a step adds is absent before it.
    [currentDRP] is the very object [acl] or [drp]. *)
Record Op := mkOp {
  o_vertex : Vertex;
  o_isACL : bool;
  o_isLocal : bool;
  o_lca : Hash;
  o_linearizedVertices : list Vertex;
  o_replayState : option ReplayState;
  o_drpVertices : list Vertex;
  o_aclVertices : list Vertex;
  o_acl : option (object V);
  o_drp : option (object V);
  o_result : option V;
  o_stateChanged : bool
}.

Definition base_op (v : Vertex) (isACL isLocal : bool) : Op :=
  mkOp v isACL isLocal EmptyString [] None [] [] None None None false.

Definition o_current (op : Op) : option (object V) := if o_isACL op then o_acl op else o_drp op.

Definition next (op : Op) : M (HandlerReturn Op) := eff_ret (mkReturn false op).

(** ** Checkpoints *)

Definition pruneSnapshots (a : DRPVertexApplier) : DRPVertexApplier :=
  let retained : gset Hash := {[rootHash]} ∪ list_to_set (mjoin (cp_frontier <$> checkpoints a)) in
  let latest := default 0 (cp_vertexCount <$> last (checkpoints a)) in
  let hashes := jm_keys (vertices (hashGraph a)) in
  with_states_ a (prune (states_ a) (retained ∪ list_to_set (drop latest hashes))).

Definition advanceCheckpointIfNeeded (a : DRPVertexApplier) : DRPVertexApplier :=
  let latest := default 0 (cp_vertexCount <$> last (checkpoints a)) in
  let count := length (vertices (hashGraph a)) in
  if decide (count - latest < checkpointSuffixSize a) then a
  else
    let fr := getFrontier (hashGraph a) in
    let checkpoint := mkCheckpoint fr (default EmptyString (head (js_sort fr))) count
                        (mkReplay (stateFromDRP (drp a)) (stateFromDRP (Some (acl a)))) in
    let cps := checkpoints a ++ [checkpoint] in
    let cps := if decide (MAX_CHECKPOINTS < length cps) then take 1 cps ++ drop 2 cps else cps in
    pruneSnapshots (with_checkpoints a cps).

(** [getReplay]: the latest checkpoint that the dependencies cover and whose
    suffix is separated from it. [cps] is the list of checkpoints, latest first. *)
Fixpoint find_checkpoint (g : HashGraph) (deps : list Hash) (cps : list LinearizationCheckpoint) :
    res (applier_error E) (LinearizationCheckpoint * gset Hash) :=
  match cps with
  | [] => Throw ENoCheckpoint
  | cp :: cps =>
      match dependenciesCover g deps (cp_frontier cp) with
      | None => Throw EWalkOutOfFuel
      | Some false => find_checkpoint g deps cps
      | Some true =>
          match collectSuffixSubgraph g deps (cp_frontier cp) (cp_origin cp) with
          | None => Throw EWalkOutOfFuel
          | Some None => find_checkpoint g deps cps
          | Some (Some subgraph) => Ok (cp, subgraph)
          end
      end
  end.

Definition linearize (origin : Hash) (subgraph : gset Hash) : M (list Vertex) := λ a,
  let '(g, r) := linearizeVertices linearize_fuel (hashGraph a) origin subgraph in
  (with_graph a g, match r with Ok vs => Ok vs | Throw e => Throw (EGraph e) end).

Definition getReplay (deps : list Hash) : M (LinearizationCheckpoint * list Vertex) :=
  let! a := eff_get in
  let! found := eff_res (find_checkpoint (hashGraph a) deps (reverse (checkpoints a))) in
  let! vs := linearize (cp_origin found.1) found.2 in
  eff_ret (found.1, vs).

(** ** The steps *)

Definition createVertex_step (opType_ : string) (args : list jsvalue) (type : string) : M Op :=
  let! now := date_now_ in
  let! a := eff_get in
  let v := hg_createVertex sha256hex (hashGraph a) (mkOperation type opType_ args) None now in
  eff_ret (base_op v (bool_decide (type = DrpType_ACL)) true).

Definition validateVertex_step (op : Op) : M (HandlerReturn Op) :=
  let! now := date_now_ in
  let! a := eff_get in
  match error (validateVertex sha256hex (o_vertex op) (hashGraph a) now (o_isLocal op)) with
  | Some e => eff_throw (EValidation e)
  | None => next op
  end.

Definition with_lca (op : Op) (lca : Hash) (vs : list Vertex) (rs : option ReplayState) : Op :=
  mkOp (o_vertex op) (o_isACL op) (o_isLocal op) lca vs rs (o_drpVertices op) (o_aclVertices op)
    (o_acl op) (o_drp op) (o_result op) (o_stateChanged op).

Definition getLCA_step (op : Op) : M (HandlerReturn Op) :=
  if o_isLocal op then
    let! _ := eff_modify advanceCheckpointIfNeeded in
    next (with_lca op rootHash [] None)
  else
    let! a := eff_get in
    let replay :=
      let! r := getReplay (dependencies (o_vertex op)) in
      next (with_lca op (cp_origin r.1) r.2 (Some (cp_state r.1))) in
    match dependencies (o_vertex op) with
    | [d] =>
        if bool_decide (is_Some (getDRPState (states_ a) d))
           && bool_decide (is_Some (getACLState (states_ a) d))
        then next (with_lca op d [] None)
        else replay
    | _ => replay
    end.

Definition splitLCAOperation (op : Op) : M (HandlerReturn Op) :=
  let '(d, l) := splitOperation (o_linearizedVertices op) in
  next (mkOp (o_vertex op) (o_isACL op) (o_isLocal op) (o_lca op) (o_linearizedVertices op)
          (o_replayState op) d l (o_acl op) (o_drp op) (o_result op) (o_stateChanged op)).

Definition with_objects (op : Op) (l : object V) (d : option (object V)) : Op :=
  mkOp (o_vertex op) (o_isACL op) (o_isLocal op) (o_lca op) (o_linearizedVertices op)
    (o_replayState op) (o_drpVertices op) (o_aclVertices op) (Some l) d (o_result op)
    (o_stateChanged op).

Definition computeOperation (op : Op) : M (HandlerReturn Op) :=
  let! a := eff_get in
  let! objs := eff_res (
    if o_isLocal op
    then Ok (fromStates (states_ a) (stateFromDRP (drp a)) (stateFromDRP (Some (acl a))))
    else match o_replayState op with
         | Some rs => Ok (fromStates (states_ a) (drpState rs) (aclState rs))
         | None =>
             match fromHash (states_ a) (o_lca op) with
             | Ok objs => Ok objs
             | Throw e => Throw (EState e)
             end
         end) in
  let! l := eff_res (apply_vertices objs.2 (o_aclVertices op)) in
  match objs.1 with
  | None => next (with_objects op l None)
  | Some d =>
      let! d := eff_res (apply_vertices d (o_drpVertices op)) in
      next (with_objects op l (Some d))
  end.

Definition validateWriterPermission (op : Op) : M (HandlerReturn Op) :=
  if o_isACL op then next op
  else
    match o_acl op with
    | None => eff_throw ETypeError
    | Some l =>
        if query_isWriter l (peerId (o_vertex op)) then next op
        else eff_throw (ENotWriter (peerId (o_vertex op)))
    end.

Definition with_result (op : Op) (o : object V) (r : option V) (changed : bool) : Op :=
  mkOp (o_vertex op) (o_isACL op) (o_isLocal op) (o_lca op) (o_linearizedVertices op)
    (o_replayState op) (o_drpVertices op) (o_aclVertices op)
    (if o_isACL op then Some o else o_acl op) (if o_isACL op then o_drp op else Some o) r changed.

Definition applyFn (op : Op) : M (HandlerReturn Op) :=
  match operation (o_vertex op) with
  | None => eff_throw EOperationUndefined
  | Some vop =>
      match o_current op with
      | None =>
          next (mkOp (o_vertex op) (o_isACL op) (o_isLocal op) (o_lca op) (o_linearizedVertices op)
                  (o_replayState op) (o_drpVertices op) (o_aclVertices op) (o_acl op) (o_drp op)
                  None false)
      | Some o =>
          let '(o', changed, r) := callDRP o (peerId (o_vertex op)) (opType vop) (value vop) in
          match r with
          | Ok v => next (with_result op o' (Some v) changed)
          | Throw e => eff_throw (EApplication e)
          end
      end
  end.

Definition equal (op : Op) : M (HandlerReturn Op) :=
  match o_current op with
  | None => next op
  | Some _ => eff_ret (mkReturn (negb (o_stateChanged op)) op)
  end.

Definition assign (op : Op) : M (HandlerReturn Op) :=
  let! _ := eff_modify (λ a,
    let source := default [] (o_current op) in
    match o_isACL op, drp a with
    | false, Some d => with_live a (Some (object_assign d source)) (acl a)
    | _, _ => with_live a (drp a) (object_assign (acl a) source)
    end) in
  next op.

Definition assignState (op : Op) : M (HandlerReturn Op) :=
  let h := hash (o_vertex op) in
  let! _ := eff_modify (λ a, with_states_ a
    (setDRPState (setACLState (states_ a) h (stateFromDRP (o_acl op))) h (stateFromDRP (o_drp op)))) in
  next op.

Definition addVertexToHashGraph (op : Op) : M (HandlerReturn Op) :=
  let! _ := eff_modify (λ a, with_graph a (addVertex (hashGraph a) (o_vertex op))) in
  next op.

Definition initializeFinalityStore (op : Op) : M (HandlerReturn Op) :=
  match o_acl op with
  | None => eff_throw ETypeError
  | Some l =>
      let! _ := eff_modify (λ a, with_finality a
        (initializeState (finalityStore a) (hash (o_vertex op)) (query_getFinalitySigners l))) in
      next op
  end.

Definition notify (op : Op) : M (HandlerReturn Op) :=
  let! _ := eff_modify (λ a, with_notification a ("callFn"%string, [o_vertex op])) in
  next op.

(** ** The two pipelines *)

Definition callFnPipeline : Pipeline :=
  foldl setNext (createPipeline validateVertex_step)
    [getLCA_step; splitLCAOperation; computeOperation; validateWriterPermission; applyFn; equal;
     assign; assignState; addVertexToHashGraph; initializeFinalityStore; notify].

Definition applyVertexPipeline : Pipeline :=
  foldl setNext (createPipeline validateVertex_step)
    [getLCA_step; splitLCAOperation; computeOperation; validateWriterPermission; applyFn;
     assignState; initializeFinalityStore; addVertexToHashGraph].

(** The function that [DRPProxy] puts in the place of a method: the whole
    local pipeline. *)
Definition callFn (type method : string) (args : list jsvalue) : M (option V) :=
  let! op := createVertex_step method args type in
  let! op := execute callFnPipeline op in
  eff_ret (o_result op).

(** The methods that [DRPProxy] does not replace. *)
Definition bypasses (prop : string) : bool :=
  String.prefix "query_" prop || String.eqb prop "resolveConflicts".

(** The original method, run on the target of the proxy. *)
Definition callTarget (type method : string) (args : list jsvalue) : M (option V) := λ a,
  let run o :=
    let '(ws, r) := run_method method args o in
    (foldl (λ _ w, w_after w) o ws, match r with Ok x => Ok (Some x) | Throw e => Throw (EApplication e) end) in
  if bool_decide (type = DrpType_ACL) then
    let '(o, r) := run (acl a) in (with_live a (drp a) o, r)
  else
    match drp a with
    | None => (a, Throw ETypeError)
    | Some o => let '(o, r) := run o in (with_live a (Some o) (acl a), r)
    end.

(** A method called through [DRPProxy]. *)
Definition proxyCall (type method : string) (args : list jsvalue) : M (option V) :=
  if bypasses method then callTarget type method args else callFn type method args.

(** ** [applyVertices] *)

Definition rememberInvalidVertexHash (l : list Hash) (h : Hash) : list Hash :=
  if decide (h ∈ l) then l
  else
    let l := js_add l h in
    if decide (length l ≤ MAX_KNOWN_INVALID_VERTEX_HASHES) then l
    else match l with
         | [] => l
         | oldest :: _ => js_del l oldest
         end.

Definition unresolved (g : HashGraph) (v : Vertex) : list Hash :=
  List.filter (λ d, negb (jm_has (vertices g) d)) (dependencies v).

Record Batch := mkBatch {
  b_missing : list Hash;
  b_invalid : list Hash;
  b_missingVertices : list (Hash * Vertex);
  b_invalidHashes : list Hash;
  b_newVertices : list Vertex
}.

Definition is_dependency_error (e : validation_error) : bool :=
  match e with InvalidDependenciesError _ _ => true | _ => false end.

(** The [catch] clause. *)
Definition reject_vertex (b : Batch) (v : Vertex) (e : applier_error E) : M Batch :=
  match e with
  | EValidation ve =>
      let! a := eff_get in
      let deps := unresolved (hashGraph a) v in
      let allInvalid := bool_decide (deps ≠ [])
        && forallb (λ d, js_has (knownInvalidVertexHashes a) d) deps in
      if is_dependency_error ve && bool_decide (deps ≠ []) && negb allInvalid
      then eff_ret (mkBatch (b_missing b ++ [hash v]) (b_invalid b)
                      (jm_set (b_missingVertices b) (hash v) v) (b_invalidHashes b) (b_newVertices b))
      else
        let! _ := eff_modify (λ a, with_invalid a
          (rememberInvalidVertexHash (knownInvalidVertexHashes a) (hash v))) in
        eff_ret (mkBatch (b_missing b) (b_invalid b ++ [hash v]) (b_missingVertices b)
                   (js_add (b_invalidHashes b) (hash v)) (b_newVertices b))
  | _ => eff_throw e
  end.

(** The body of the loop over the received vertices. *)
Definition apply_one (b : Batch) (v : Vertex) : M Batch :=
  match operation v with
  | None => eff_ret b
  | Some op =>
      if bool_decide (opType op = OperationType_NOP) then eff_ret b
      else
        let! a := eff_get in
        if jm_has (vertices (hashGraph a)) (hash v) then eff_ret b
        else
          eff_catch
            (let! _ := execute applyVertexPipeline
                         (base_op v (bool_decide (drpType op = DrpType_ACL)) false) in
             eff_ret (mkBatch (b_missing b) (b_invalid b) (b_missingVertices b) (b_invalidHashes b)
                        (b_newVertices b ++ [v])))
            (reject_vertex b v)
  end.

(** A missing vertex becomes invalid when all its absent dependencies are. *)
Definition newly_invalid (a : DRPVertexApplier) (b : Batch) (h : Hash) : bool :=
  match jm_get (b_missingVertices b) h with
  | None => false
  | Some v =>
      let deps := unresolved (hashGraph a) v in
      bool_decide (deps ≠ [])
      && forallb (λ d, js_has (knownInvalidVertexHashes a) d || js_has (b_invalidHashes b) d) deps
  end.

Definition invalidate (b : Batch) (l : list Hash) : Batch :=
  mkBatch (List.filter (λ h, negb (js_has l h)) (b_missing b)) (b_invalid b ++ l)
    (foldl (λ m h, jm_delete m h) (b_missingVertices b) l)
    (foldl js_add (b_invalidHashes b) l) (b_newVertices b).

(** The propagation loop, at most [vertices.length] rounds. *)
Fixpoint propagate_invalid (rounds : nat) (b : Batch) : M Batch :=
  match rounds with
  | O => eff_ret b
  | S rounds =>
      let! a := eff_get in
      let newlyInvalid := List.filter (newly_invalid a b) (b_missing b) in
      match newlyInvalid with
      | [] => eff_ret b
      | _ =>
          let! _ := eff_modify (λ a, with_invalid a
            (foldl rememberInvalidVertexHash (knownInvalidVertexHashes a) newlyInvalid)) in
          propagate_invalid rounds (invalidate b newlyInvalid)
      end
  end.

Record ApplyResult := mkApplyResult { applied : bool; missing : list Hash; invalid : list Hash }.

(** The replay of the whole graph into the live objects. *)
Definition replay_live : M unit :=
  let! a := eff_get in
  let! r := getReplay (getFrontier (hashGraph a)) in
  let '(drpVertices, aclVertices) := splitOperation r.2 in
  let '(d, l) := fromStates (states_ a) (drpState (cp_state r.1)) (aclState (cp_state r.1)) in
  let! l := eff_res (apply_vertices l aclVertices) in
  let! _ := eff_modify (λ a, with_live a (drp a) (object_assign (acl a) l)) in
  match d, drp a with
  | Some d, Some _ =>
      let! d := eff_res (apply_vertices d drpVertices) in
      eff_modify (λ a, with_live a ((λ live, object_assign live d) <$> drp a) (acl a))
  | _, _ => eff_ret tt
  end.

Definition applyVertices (vs : list Vertex) : M ApplyResult :=
  let! b := eff_iter apply_one (mkBatch [] [] [] [] []) vs in
  let! b := propagate_invalid (length vs) b in
  let! _ := replay_live in
  let! _ := eff_modify advanceCheckpointIfNeeded in
  let! _ := eff_modify (λ a, with_notification a ("merge"%string, b_newVertices b)) in
  eff_ret (mkApplyResult (bool_decide (b_missing b = []) && bool_decide (b_invalid b = []))
             (b_missing b) (b_invalid b)).

End applier.
