(* ===== verification/Replay.v ===== *)
(** * The causal walks of the checkpoints ([drp-applier.ts])

    What [dependenciesCover] and [collectSuffixSubgraph] compute, in terms of
    the causal order; that the walks never run out of fuel; and that the
    checkpoint of the root always qualifies, so that a replay is always found. *)

From S2P Require Import Prelude JsMap JsNum Bits JsValue Types HashGraph Dag TopoSort Causality Lca.
From S2P Require Import LegacyCausality Linearize Validation Finality Pipeline State Applier.

(** ** Linearizing changes only the order of edge lists *)

Lemma linearize_frame fuel g origin sub :
  let g' := (linearizeVertices fuel g origin sub).1 in
  edges_equiv (forwardEdges g') (forwardEdges g) ∧ g' = with_forwardEdges g (forwardEdges g').
Proof.
  cbv zeta. unfold linearizeVertices.
  assert (g = with_forwardEdges g (forwardEdges g)) as Hg by (by destruct g).
  pose proof (dfs_outcomes g origin sub) as Hout.
  destruct (semanticsTypeDRP g) as [[]|]; [..|done];
    unfold linearizePairSemantics, linearizeMultipleSemantics;
    destruct (dfsTopologicalSortIterative g origin sub) as [g' r]; destruct Hout as (He & Eg & _);
    by split.
Qed.

Lemma linearize_wf fuel g origin sub : wf g → wf (linearizeVertices fuel g origin sub).1.
Proof.
  intros Hg. destruct (linearize_frame fuel g origin sub) as [He Eg].
  destruct (linearizeVertices fuel g origin sub) as [g' r]. simpl in *.
  assert (vertices g' = vertices g ∧ frontier g' = frontier g) as [Hv Hf] by (by rewrite Eg).
  by eapply wf_same.
Qed.

(** ** [dependenciesCover] *)

Section cover.
Context (g : HashGraph) (Hwf : wf g).

Definition known (h : Hash) : Prop := h ∈ jm_keys (vertices g).

Lemma walked_ancestor d h : walked (getDependencies g) [d] h ↔ ancestor g d h.
Proof.
  split.
  - by intros (s & ->%list_elem_of_singleton & Hr).
  - intros Hr. exists d. split; [by apply list_elem_of_singleton|done].
Qed.

Lemma walked_known d h : known d → walked (getDependencies g) [d] h → known h.
Proof. intros Hd Hw%walked_ancestor. by eapply ancestor_keys. Qed.

Record cover_inv (boundary : list Hash) (d : Hash) (c : cover) : Prop := {
  ci_walk : walk_inv (getDependencies g) [d] (mkWalk (cv_visited c) (cv_stack c));
  ci_remaining : ∀ h, h ∈ cv_remaining c ↔ h ∈ boundary ∧ h ∉ cv_visited c
}.

Definition cover_measure (c : cover) : nat :=
  length (cv_stack c) + pending (getDependencies g) (jm_keys (vertices g)) (cv_visited c).

Lemma cover_step_inv boundary d c : known d → cover_inv boundary d c →
  match cover_step g c with
  | Next c' => cover_inv boundary d c' ∧ cover_measure c' < cover_measure c
  | Done b => b = true ↔ ∀ h, h ∈ boundary → ancestor g d h
  end.
Proof.
  intros Hd [Hw Hrem]. destruct c as [rem vis stack]. simpl in *.
  pose proof (walk_step_inv (getDependencies g) (jm_keys (vertices g)) [d]
    (λ h, walked_known d h Hd) _ Hw) as Hstep.
  unfold cover_step, cover_measure. simpl. case_decide as Hz.
  { split; [|done]. intros _ h Hh. apply walked_ancestor, (wi_sound _ _ _ Hw). left. simpl.
    apply size_empty_inv in Hz. destruct (decide (h ∈ vis)); [done|]. set_solver. }
  destruct stack as [|x stack]; unfold walk_step in Hstep; simpl in *.
  - split; [done|]. intros Hall. exfalso. apply Hz, size_empty_iff.
    intros h. split; [|set_solver]. intros [Hb Hv]%Hrem. destruct Hv. by apply Hstep, walked_ancestor, Hall.
  - case_decide as Hx; simpl in *; destruct Hstep as [Hw' Hlt]; (split; [|done]); split; simpl; try done.
    intros h. rewrite elem_of_difference, Hrem. set_solver.
Qed.

Lemma covers_from_spec boundary d : known d →
  ∃ b, covers_from g boundary d = Some b ∧ (b = true ↔ ∀ h, h ∈ boundary → ancestor g d h).
Proof.
  intros Hd. unfold covers_from.
  apply (loop_total _ (cover_inv boundary d) cover_measure); [by intros; apply cover_step_inv| |].
  - split; simpl; [|set_solver]. split; simpl; [|set_solver..].
    intros h [[]%elem_of_empty|Hh]. exists h. split; [set_solver|apply rtc_refl].
  - unfold graph_walk_fuel, walk_fuel, cover_measure. simpl.
    pose proof (pending_le (getDependencies g) (jm_keys (vertices g)) ∅). unfold out in *. lia.
Qed.

Lemma covers_all_spec boundary deps : (∀ d, d ∈ deps → known d) →
  ∃ b, covers_all g boundary deps = Some b ∧
    (b = true ↔ ∀ d h, d ∈ deps → h ∈ boundary → ancestor g d h).
Proof.
  induction deps as [|d deps IH]; intros Hk; simpl; [eexists; split; [done|]; set_solver|].
  destruct (covers_from_spec boundary d) as (b & -> & Hb); [apply Hk; left|]. simpl.
  destruct b.
  - destruct IH as (b & -> & Hb'); [intros; apply Hk; by right|]. exists b. split; [done|].
    rewrite Hb'. setoid_rewrite elem_of_cons. naive_solver.
  - exists false. split; [done|]. split; [done|]. intros Hall. apply Hb. intros h Hh.
    apply Hall; [left|done].
Qed.

Lemma dependenciesCover_spec deps boundary : (∀ d, d ∈ deps → known d) →
  ∃ b, dependenciesCover g deps boundary = Some b ∧
    (b = true ↔ (size (list_to_set deps : gset Hash) = length boundary ∧ ∀ h, h ∈ boundary → h ∈ deps) ∨
                ∀ d h, d ∈ deps → h ∈ boundary → ancestor g d h).
Proof.
  intros Hk. unfold dependenciesCover.
  assert ((bool_decide (size (list_to_set deps : gset Hash) = length boundary) &&
     forallb (λ h, bool_decide (h ∈ (list_to_set deps : gset Hash))) boundary) = true ↔
     size (list_to_set deps : gset Hash) = length boundary ∧ ∀ h, h ∈ boundary → h ∈ deps) as Heq.
  { rewrite andb_true_iff, bool_decide_eq_true, forallb_forall. f_equiv.
    setoid_rewrite bool_decide_eq_true. setoid_rewrite elem_of_list_to_set.
    by setoid_rewrite list_elem_of_In. }
  destruct (andb _ _).
  - exists true. split; [done|]. naive_solver.
  - destruct (covers_all_spec boundary deps Hk) as (b & -> & Hb). exists b. split; [done|].
    rewrite Hb. naive_solver.
Qed.

(** ** [collectSuffixSubgraph] *)

(** [h] is reached from a dependency without passing through the boundary. *)
Definition in_suffix (deps boundary : list Hash) (h : Hash) : Prop :=
  (h ∉ boundary) ∧ walked (suffix_deps g boundary) deps h.

Lemma suffix_walked_ancestor deps boundary h : walked (suffix_deps g boundary) deps h →
  ∃ d, d ∈ deps ∧ ancestor g d h.
Proof.
  intros (d & Hd & Hr). exists d. split; [done|]. eapply rtc_subrel; [|done].
  intros x y. unfold succ, suffix_deps. case_decide; [by intros []%elem_of_nil|done].
Qed.

Lemma forward_walk boundary sub head : known head →
  ∃ X, walk_from (suffix_children g boundary sub) (jm_keys (vertices g)) [head] = Some X ∧
    ∀ h, h ∈ X ↔ rtc (λ x y, parent g y x ∧ (y ∈ boundary ∨ y ∈ sub)) head h.
Proof.
  intros Hh.
  assert (∀ x y, succ (suffix_children g boundary sub) x y ↔ parent g y x ∧ (y ∈ boundary ∨ y ∈ sub)) as Hs.
  { intros x y. unfold succ, suffix_children. rewrite list_elem_of_filter, (wf_edges g Hwf). tauto. }
  assert (∀ h, walked (suffix_children g boundary sub) [head] h ↔
               rtc (λ x y, parent g y x ∧ (y ∈ boundary ∨ y ∈ sub)) head h) as Hw.
  { intros h. split.
    - intros (s & ->%list_elem_of_singleton & Hr). eapply rtc_subrel; [|exact Hr]. intros ??. apply Hs.
    - intros Hr. exists head. split; [set_solver|]. eapply rtc_subrel; [|exact Hr]. intros ??. apply Hs. }
  destruct (walk_from_spec (suffix_children g boundary sub) (jm_keys (vertices g)) [head]) as (X & HX & Hspec).
  - intros h [->|(y & _ & Hp & _)]%Hw%rtc_inv_r; [done|]. by apply parent_keys in Hp as [? ?].
  - exists X. split; [done|]. intros h. by rewrite Hspec.
Qed.

Lemma heads_reach_spec boundary sub members heads : (∀ h, h ∈ heads → known h) →
  ∃ b, heads_reach g boundary sub members heads = Some b ∧
    (b = true ↔ ∀ head m, head ∈ heads → m ∈ members →
       rtc (λ x y, parent g y x ∧ (y ∈ boundary ∨ y ∈ sub)) head m).
Proof.
  induction heads as [|head heads IH]; intros Hk; simpl; [eexists; split; [done|]; set_solver|].
  destruct (forward_walk boundary sub head) as (X & -> & HX); [apply Hk; left|]. simpl.
  case_bool_decide as Hm.
  - destruct IH as (b & -> & Hb); [intros; apply Hk; by right|]. exists b. split; [done|].
    rewrite Hb. setoid_rewrite elem_of_cons. split; [|naive_solver].
    intros Hall h m [->|Hh] Hmm; [|by apply Hall]. by apply HX, Hm.
  - exists false. split; [done|]. split; [done|]. intros Hall. destruct Hm. intros m Hmm.
    apply HX, Hall; [left|done].
Qed.

Lemma rtc_forward_ancestor (boundary : list Hash) (sub : gset Hash) x y :
  rtc (λ x y, parent g y x ∧ (y ∈ boundary ∨ y ∈ sub)) x y → ancestor g y x.
Proof.
  induction 1 as [|x y z [Hp _] _ IH]; [apply rtc_refl|]. eapply rtc_r; [exact IH|exact Hp].
Qed.

Lemma collectSuffixSubgraph_spec deps boundary origin :
  (∀ d, d ∈ deps → known d) → (∀ h, h ∈ boundary → known h) →
  ∃ sub : gset Hash, (∀ h, h ∈ sub ↔ h = origin ∨ in_suffix deps boundary h) ∧
    ∃ b, collectSuffixSubgraph g deps boundary origin = Some (if b : bool then Some sub else None) ∧
    (b = true ↔ ∀ head m, head ∈ boundary → m ∈ sub ∖ {[origin]} →
       rtc (λ x y, parent g y x ∧ (y ∈ boundary ∨ y ∈ sub)) head m).
Proof.
  intros Hd Hb.
  destruct (walk_from_spec (suffix_deps g boundary) (jm_keys (vertices g)) deps) as (X & HX & Hspec).
  { intros h (d & Hin & Hr)%suffix_walked_ancestor. eapply ancestor_keys; [done| |done]. by apply Hd. }
  exists ({[origin]} ∪ filter (λ h, h ∉ boundary) X). split.
  { intros h. rewrite elem_of_union, elem_of_singleton, elem_of_filter, Hspec. done. }
  destruct (heads_reach_spec boundary ({[origin]} ∪ filter (λ h, h ∉ boundary) X)
    (({[origin]} ∪ filter (λ h, h ∉ boundary) X) ∖ {[origin]}) boundary Hb) as (b & Hh & Hiff).
  exists b. unfold collectSuffixSubgraph. rewrite HX. simpl. rewrite Hh. by split.
Qed.

(** ** The checkpoint of the root *)

Lemma root_covered deps : (∀ d, d ∈ deps → known d) → dependenciesCover g deps [rootHash] = Some true.
Proof.
  intros Hk. destruct (dependenciesCover_spec deps [rootHash] Hk) as (b & -> & Hb). f_equal.
  apply Hb. right. intros d h Hd ->%list_elem_of_singleton.
  apply ancestor_root; [done|by apply Hk].
Qed.

(** Above the root nothing cuts the walk. *)
Lemma in_suffix_root deps h : (∀ d, d ∈ deps → known d) →
  in_suffix deps [rootHash] h ↔ h ≠ rootHash ∧ ∃ d, d ∈ deps ∧ ancestor g d h.
Proof.
  intros Hk. unfold in_suffix. rewrite list_elem_of_singleton. f_equiv. split.
  - apply suffix_walked_ancestor.
  - intros (d & Hd & Hr). exists d. split; [done|]. clear Hd. induction Hr as [|x y z Hp _ IH]; [apply rtc_refl|].
    eapply rtc_l; [|exact IH]. unfold succ, suffix_deps. case_decide as Hx; [|done].
    apply list_elem_of_singleton in Hx. subst. by apply not_parent_root in Hp.
Qed.

Lemma ancestors_reached (sub : gset Hash) m : known m →
  (∀ h, h ≠ rootHash → ancestor g m h → h ∈ sub) →
  rtc (λ x y, parent g y x ∧ (y ∈ [rootHash] ∨ y ∈ sub)) rootHash m.
Proof.
  intros Hm Hsub. pose proof (ancestor_root g m Hwf Hm) as Hr.
  revert Hsub. revert m Hm Hr. intros m _ Hr. pattern m. revert m Hr.
  apply (rtc_ind_l (R := parent g)).
  { intros _. apply rtc_refl. }
  intros x y Hp _ IH Hsub. eapply rtc_r; [apply IH|].
  - intros h Hne Hh. apply Hsub; [done|]. by eapply rtc_l.
  - split; [done|]. destruct (decide (x = rootHash)) as [->|Hx]; [left; set_solver|].
    right. apply Hsub; [done|apply rtc_refl].
Qed.

Lemma root_suffix deps : (∀ d, d ∈ deps → known d) →
  ∃ sub, collectSuffixSubgraph g deps [rootHash] rootHash = Some (Some sub).
Proof.
  intros Hk. destruct (collectSuffixSubgraph_spec deps [rootHash] rootHash Hk) as (sub & Hsub & b & -> & Hb).
  { intros h ->%list_elem_of_singleton. destruct (getFrontier_nonempty g Hwf) as [f Hf].
    eapply ancestor_keys; [done| |]; [|apply ancestor_root; [done|]]; by apply (wf_frontier g Hwf) in Hf as [? _]. }
  exists sub. assert (b = true) as ->; [|done]. apply Hb. intros head m ->%list_elem_of_singleton Hm.
  apply elem_of_difference in Hm as [[->|Hm]%Hsub Hne]; [set_solver|].
  apply in_suffix_root in Hm as (Hr & d & Hd & Hdm); [|done].
  apply ancestors_reached; [eapply ancestor_keys; [done|by apply Hk|done]|].
  intros h Hh Hmh. apply Hsub. right. apply in_suffix_root; [done|]. split; [done|].
  exists d. split; [done|]. by etrans.
Qed.

End cover.
