(* ===== verification/ApplierInv.v ===== *)
(** * The applier keeps its invariant ([drp-applier.ts])

    The invariant of [DRPVertexApplier] (a well-formed graph, usable
    checkpoints, bounded memory of rejected hashes), that every step of the two
    pipelines and the batch loop keep it, whether they return or throw, and
    what one pass of a pipeline does to the object. *)

From S2P Require Import Prelude JsMap JsNum Bits JsValue Types HashGraph Dag TopoSort Causality Lca.
From S2P Require Import LegacyCausality Linearize Validation Finality Pipeline State Applier Replay.

Section invariant.
Context {V E : Type} `{EqDecision V} `{Application V E}.

Abbreviation applier := (@DRPVertexApplier V) (only parsing).
Abbreviation checkpoint := (@LinearizationCheckpoint V) (only parsing).

(** A checkpoint of [g]: its frontier is an antichain of known vertices. *)
Record cp_ok (g : HashGraph) (cp : checkpoint) : Prop := {
  co_known : ∀ h, h ∈ cp_frontier cp → known g h;
  co_origin : cp_origin cp ∈ cp_frontier cp;
  co_antichain : ∀ h1 h2, h1 ∈ cp_frontier cp → h2 ∈ cp_frontier cp → ¬ before g h1 h2;
  co_count : cp_vertexCount cp ≤ length (vertices g)
}.

Definition root_cp (cp : checkpoint) : Prop := cp_frontier cp = [rootHash] ∧ cp_origin cp = rootHash.

Record ainv (a : applier) : Prop := {
  ai_wf : wf (hashGraph a);
  ai_root : ∃ cp, head (checkpoints a) = Some cp ∧ root_cp cp;
  ai_cps : Forall (cp_ok (hashGraph a)) (checkpoints a);
  ai_len : length (checkpoints a) ≤ MAX_CHECKPOINTS;
  ai_invalid : NoDup (knownInvalidVertexHashes a) ∧
               length (knownInvalidVertexHashes a) ≤ MAX_KNOWN_INVALID_VERTEX_HASHES;
  ai_snapshots : is_Some (getDRPState (states_ a) rootHash) ∧ is_Some (getACLState (states_ a) rootHash)
}.

(** ** Finding a checkpoint *)

Lemma find_checkpoint_spec g deps (cps : list checkpoint) : wf g → Forall (cp_ok g) cps →
  (∃ cp, cp ∈ cps ∧ root_cp cp) → (∀ d, d ∈ deps → known g d) →
  ∃ cp sub, @find_checkpoint V E g deps cps = Ok (cp, sub) ∧ cp ∈ cps ∧
    dependenciesCover g deps (cp_frontier cp) = Some true ∧
    collectSuffixSubgraph g deps (cp_frontier cp) (cp_origin cp) = Some (Some sub).
Proof.
  intros Hg Hall Hroot Hk. induction cps as [|cp cps IH]; [by destruct Hroot as (? & []%elem_of_nil & _)|].
  apply Forall_cons in Hall as [Hcp Hall]. simpl.
  destruct (decide (cp_frontier cp = [rootHash] ∧ cp_origin cp = rootHash)) as [[Ef Eo]|Hnr].
  { rewrite Ef, Eo, root_covered by done. destruct (root_suffix g Hg deps Hk) as [sub Hs]. rewrite Hs.
    exists cp, sub. rewrite Ef, Eo, root_covered by done. split; [done|]. split; [left|done]. }
  assert (∃ cp, cp ∈ cps ∧ root_cp cp) as Hroot'.
  { destruct Hroot as (cp' & [->|?]%elem_of_cons & Hr); [by destruct Hnr|eauto]. }
  destruct (IH Hall Hroot') as (cp' & sub' & Hf & Hin & Hc1 & Hc2).
  destruct (dependenciesCover_spec g Hg deps (cp_frontier cp) Hk) as (b & Hb & _). rewrite Hb.
  destruct (collectSuffixSubgraph_spec g Hg deps (cp_frontier cp) (cp_origin cp) Hk (co_known _ _ Hcp))
    as (sub & _ & b' & Hc & _). rewrite Hc.
  destruct b, b'; (exists cp, sub; split; [done|]; split; [left|done]) ||
    (exists cp', sub'; split; [done|]; split; [by right|done]).
Qed.

(** The suffix of a checkpoint passes the checks of the topological sort. *)
Lemma suffix_reachable g deps (cp : checkpoint) sub : wf g → cp_ok g cp → (∀ d, d ∈ deps → known g d) →
  collectSuffixSubgraph g deps (cp_frontier cp) (cp_origin cp) = Some (Some sub) →
  cp_origin cp ∈ sub ∧ ∀ h, h ∈ sub → rtc (sub_child (forwardEdges g) sub) (cp_origin cp) h.
Proof.
  intros Hg Hcp Hk Hc.
  destruct (collectSuffixSubgraph_spec g Hg deps (cp_frontier cp) (cp_origin cp) Hk (co_known _ _ Hcp))
    as (sub' & Hsub & b & Hc' & Hb). rewrite Hc' in Hc. destruct b; [|done]. simplify_eq.
  assert (cp_origin cp ∈ sub) as Ho by (apply Hsub; by left). split; [done|]. intros h Hh.
  destruct (decide (h = cp_origin cp)) as [->|Hne]; [apply rtc_refl|].
  assert (rtc (λ x y, parent g y x ∧ (y ∈ cp_frontier cp ∨ y ∈ sub)) (cp_origin cp) h) as Hr.
  { apply Hb; [done|apply Hcp|set_solver]. }
  assert (∀ x y, ancestor g x (cp_origin cp) → rtc (λ x y, parent g y x ∧ (y ∈ cp_frontier cp ∨ y ∈ sub)) x y →
    rtc (sub_child (forwardEdges g) sub) x y) as Hpath; [|by apply Hpath; [apply rtc_refl|]].
  clear Hr Hne Hh h. intros x y Hx. induction 1 as [|x y z [Hp Hin] _ IH]; [apply rtc_refl|].
  assert (before g (cp_origin cp) y) as Hby by (eapply tc_rtc_r; [by apply tc_once|exact Hx]).
  eapply rtc_l; [|apply IH; by apply before_ancestor]. split; [by apply (wf_edges g Hg)|].
  destruct Hin as [Hin|]; [|done]. destruct (co_antichain _ _ Hcp (cp_origin cp) y); [apply Hcp|done|done].
Qed.

(** ** What the steps before the commit leave alone *)

Abbreviation result_op := (HandlerReturn (@Op V)) (only parsing).

(** [a'] differs from [a] at most in the order of edge lists and the clock. *)
Record same_data (a a' : applier) : Prop := {
  sd_edges : edges_equiv (forwardEdges (hashGraph a')) (forwardEdges (hashGraph a));
  sd_graph : hashGraph a' = with_forwardEdges (hashGraph a) (forwardEdges (hashGraph a'));
  sd_states : states_ a' = states_ a;
  sd_drp : drp a' = drp a;
  sd_acl : acl a' = acl a;
  sd_finality : finalityStore a' = finalityStore a;
  sd_invalid : knownInvalidVertexHashes a' = knownInvalidVertexHashes a;
  sd_checkpoints : checkpoints a' = checkpoints a;
  sd_notifications : notifications a' = notifications a
}.

Lemma same_data_refl a : same_data a a.
Proof. split; try done. by destruct (hashGraph a). Qed.

Lemma same_data_trans a b c : same_data a b → same_data b c → same_data a c.
Proof.
  intros [E1 G1 S1 D1 L1 F1 I1 C1 N1] [E2 G2 S2 D2 L2 F2 I2 C2 N2].
  split; try congruence; [by etrans|]. rewrite G2 at 1. rewrite G1. by destruct (hashGraph a).
Qed.

Lemma same_data_vertices a a' : same_data a a' → vertices (hashGraph a') = vertices (hashGraph a).
Proof. intros Hs. by rewrite (sd_graph _ _ Hs). Qed.

Lemma same_data_wf a a' : same_data a a' → wf (hashGraph a) → wf (hashGraph a').
Proof.
  intros Hs Hw. pose proof (sd_graph _ _ Hs) as Hg.
  eapply wf_same; [by apply same_data_vertices|apply Hs| |done]. by rewrite Hg.
Qed.

Lemma cp_ok_vertices g g' cp : vertices g' = vertices g → cp_ok g cp → cp_ok g' cp.
Proof.
  intros Hv [H1 H2 H3 H4]. split; [| |intros h1 h2; rewrite (before_same g g' Hv); auto|by rewrite Hv];
    unfold known in *; rewrite ?Hv; auto.
Qed.

Lemma same_data_ainv a a' : same_data a a' → ainv a → ainv a'.
Proof.
  intros Hs [H1 H2 H3 H4 H5 H6]. pose proof Hs as [_ _ S _ _ _ I C _].
  split; rewrite ?C, ?I, ?S; try done; [by eapply same_data_wf|].
  eapply Forall_impl; [exact H3|]. intros cp. by apply cp_ok_vertices, same_data_vertices.
Qed.

(** A pipeline of two or more steps, and of one. *)
Lemma ok_execute_cons {St Er O : Type} (f : @StepOptions St Er O) p op P Q Q' R : p ≠ [] →
  eff_ok P (f op) (λ r s, stop r = false ∧ Q (result r) s) R →
  (∀ op', eff_ok (Q op') (execute p op') Q' R) → eff_ok P (execute (f :: p) op) Q' R.
Proof.
  intros Hp Hf Hrest s Hs. specialize (Hf s Hs). unfold execute, eff_bind in *. simpl. unfold eff_bind.
  destruct (f op s) as [s' [r|e]]; [|done]. destruct Hf as [-> Hq].
  specialize (Hrest (result r) s' Hq). by destruct p.
Qed.

Lemma ok_execute_last {St Er O : Type} (f : @StepOptions St Er O) op P Q R :
  eff_ok P (f op) (λ r s, Q (result r) s) R → eff_ok P (execute [f] op) Q R.
Proof.
  intros Hf s Hs. specialize (Hf s Hs). unfold execute, eff_bind in *. simpl. unfold eff_bind.
  destruct (f op s) as [s' [r|e]]; [|done]. by destruct (stop r).
Qed.

(** ** The steps of the pipeline for received vertices *)

Context (sha256hex : string → Hash) (date_now : nat → Z) (linearize_fuel : nat).

Section received.
Context (a0 : applier) (v : Vertex) (isACL : bool).

Record stage (op : @Op V) (a : applier) : Prop := {
  sg_data : same_data a0 a;
  sg_vertex : o_vertex op = v;
  sg_isACL : o_isACL op = isACL;
  sg_isLocal : o_isLocal op = false
}.

Definition rolled_back (e : applier_error E) (a : applier) : Prop := same_data a0 a.

Definition validated : Prop :=
  ∃ now, success (validateVertex sha256hex v (hashGraph a0) now false) = true.

(** The author is a writer in the ACL the vertex was created on. *)
Definition permitted (op : @Op V) : Prop :=
  isACL = false → ∃ l, o_acl op = Some l ∧ query_isWriter l (peerId v) = true.

Lemma same_data_tick a : same_data a0 a → same_data a0 (tick a).
Proof. by intros [? ? ? ? ? ? ? ? ?]; split. Qed.

Lemma validateVertex_same g g' now skip : vertices g' = vertices g →
  validateVertex sha256hex v g' now skip = validateVertex sha256hex v g now skip.
Proof.
  intros Hg. unfold validateVertex, validateVertexDependencies.
  assert (∀ h ts deps, validate_deps g' h ts deps = validate_deps g h ts deps) as Hd.
  { intros h ts deps. induction deps as [|d deps IH]; simpl; [done|].
    unfold getVertex. rewrite Hg. destruct (jm_get _ d); [|done]. by rewrite IH. }
  destruct (dependencies v); [done|]. by rewrite Hd.
Qed.

Lemma validate_ok op :
  eff_ok (stage op) (@validateVertex_step V E sha256hex date_now op)
    (λ r a, stop r = false ∧ (stage (result r) a ∧ validated)) rolled_back.
Proof.
  intros a [Hd Hv Ha Hl]. unfold validateVertex_step, date_now_, eff_bind, eff_get. simpl.
  rewrite Hv, Hl, (validateVertex_same (hashGraph a0)) by (by apply same_data_vertices). destruct (error _) as [e|] eqn:He; simpl; [by apply same_data_tick|].
  split; [done|]. split; [by split; [apply same_data_tick|..]|]. exists (date_now (ticks a)).
  unfold validateVertex in *. by destruct (_ ≫= _).
Qed.

Lemma same_data_linearize a origin sub : same_data a0 a →
  let '(a', r) := @linearize V E linearize_fuel origin sub a in same_data a0 a'.
Proof.
  intros Hd. unfold linearize. destruct (linearize_frame linearize_fuel (hashGraph a) origin sub) as [He Hg].
  destruct (linearizeVertices _ _ _ _) as [g' r]. simpl in *. eapply same_data_trans; [exact Hd|].
  by split.
Qed.

Lemma getReplay_ok deps :
  eff_ok (same_data a0) (@getReplay V E linearize_fuel deps) (λ _, same_data a0) rolled_back.
Proof.
  unfold getReplay. apply ok_bind with (λ _, same_data a0); [by apply ok_get|]. intros a1.
  apply ok_bind with (λ _, same_data a0); [apply ok_res; intros s Hs; by case_match|]. intros [cp sub].
  apply ok_bind with (λ _, same_data a0); [|intros vs; by apply ok_ret].
  intros a Ha. pose proof (same_data_linearize a (cp_origin cp) sub Ha) as Hl.
  simpl. by destruct (linearize _ _ _ _) as [a' [vs|e]].
Qed.

(** A step that ends the chain of [next] in a stage. *)
Lemma next_ok op (P : applier → Prop) (F : @Op V → Prop) : (∀ a, P a → stage op a ∧ F op) →
  eff_ok P (next op) (λ r a, stop r = false ∧ stage (result r) a ∧ F (result r)) rolled_back.
Proof. intros HP. apply ok_ret. intros a Ha. split; [done|]. by apply HP. Qed.

Lemma getLCA_ok op (F : Prop) :
  eff_ok (λ a, stage op a ∧ F) (@getLCA_step V E linearize_fuel op)
    (λ r a, stop r = false ∧ stage (result r) a ∧ F) rolled_back.
Proof.
  intros a [Hs HF]. pose proof Hs as [Hd Hv Ha Hl]. unfold getLCA_step. rewrite Hl.
  assert (eff_ok (same_data a0)
    (let! r := @getReplay V E linearize_fuel (dependencies (o_vertex op)) in
     next (with_lca op (cp_origin r.1) r.2 (Some (cp_state r.1))))
    (λ r a, stop r = false ∧ stage (result r) a ∧ F) rolled_back) as Hreplay.
  { eapply ok_bind; [apply getReplay_ok|]. intros r. apply (next_ok _ _ (λ _, F)).
    intros a' Ha'. split; [by split|done]. }
  unfold eff_bind at 1, eff_get. specialize (Hreplay a Hd).
  destruct (dependencies (o_vertex op)) as [|d [|]]; try done.
  destruct (bool_decide _ && bool_decide _); [|done]. split; [done|]. split; [by split|done].
Qed.

Lemma split_ok op (F : Prop) :
  eff_ok (λ a, stage op a ∧ F) (@splitLCAOperation V E op)
    (λ r a, stop r = false ∧ stage (result r) a ∧ F) rolled_back.
Proof.
  unfold splitLCAOperation. destruct (splitOperation _) as [d l]. apply (next_ok _ _ (λ _, F)).
  intros a [[? ? ? ?] ?]. split; [by split|done].
Qed.

Lemma compute_ok op (F : Prop) :
  eff_ok (λ a, stage op a ∧ F) (@computeOperation V E _ _ op)
    (λ r a, stop r = false ∧ stage (result r) a ∧ (F ∧ is_Some (o_acl (result r)))) rolled_back.
Proof.
  assert (∀ l d a, stage op a ∧ F → stage (with_objects op l d) a ∧ (F ∧ is_Some (o_acl (with_objects op l d))))
    as Hw by (intros l d a [[? ? ? ?] ?]; split; [by split|]; split; [done|by eexists]).
  unfold computeOperation.
  apply ok_bind with (λ _ a, stage op a ∧ F); [by apply ok_get|]. intros a1.
  eapply ok_bind; [apply ok_res; intros s Hs; instantiate (1 := λ _ a, stage op a ∧ F);
    case_match; [done|apply Hs]|].
  intros [od ol].
  eapply ok_bind; [apply ok_res; intros s Hs; instantiate (1 := λ _ a, stage op a ∧ F);
    case_match; [done|apply Hs]|].
  intros l. simpl. destruct od as [d|].
  - eapply ok_bind; [apply ok_res; intros s Hs; instantiate (1 := λ _ a, stage op a ∧ F);
      case_match; [done|apply Hs]|].
    intros d'. apply (next_ok _ _ (λ op, F ∧ is_Some (o_acl op))). apply Hw.
  - apply (next_ok _ _ (λ op, F ∧ is_Some (o_acl op))). apply Hw.
Qed.

Lemma writer_ok op (F : Prop) :
  eff_ok (λ a, stage op a ∧ (F ∧ is_Some (o_acl op))) (@validateWriterPermission V E _ op)
    (λ r a, stop r = false ∧ stage (result r) a ∧ (F ∧ is_Some (o_acl (result r)) ∧ permitted (result r)))
    rolled_back.
Proof.
  intros a [Hs [HF [l Hl]]]. pose proof Hs as [Hd Hv Ha Hloc]. unfold validateWriterPermission.
  rewrite Ha, Hl, Hv. destruct isACL eqn:Ei.
  - split; [done|]. split; [done|]. split; [done|]. split; [by eexists|]. unfold permitted. by rewrite Ei.
  - destruct (query_isWriter l (peerId v)) eqn:Hw; [|apply Hd].
    split; [done|]. split; [done|]. split; [done|]. split; [by eexists|]. intros _. by exists l.
Qed.

Lemma applyFn_ok op (F : Prop) :
  eff_ok (λ a, stage op a ∧ (F ∧ is_Some (o_acl op) ∧ permitted op)) (@applyFn V E _ _ op)
    (λ r a, stop r = false ∧ stage (result r) a ∧ (F ∧ is_Some (o_acl (result r)) ∧ permitted (result r)))
    rolled_back.
Proof.
  intros a [Hs [HF [[l Hl] Hp]]]. pose proof Hs as [Hd Hv Ha Hloc]. unfold applyFn.
  destruct (operation (o_vertex op)) as [vop|]; [|apply Hd].
  destruct (o_current op) as [o|] eqn:Ho.
  - destruct (callDRP _ _ _ _) as [[o' ch] [r|e]]; [|apply Hd]. split; [done|]. split; [by split|].
    split; [done|]. unfold permitted in *. simpl. rewrite Ha. destruct isACL; [by split; [eexists|]|].
    split; [by eexists|done].
  - split; [done|]. split; [by split|]. split; [done|]. split; [by eexists|done].
Qed.

(** What a successful pass commits: the vertex, the snapshots of the two
    objects, the signers of its ACL; nothing else. *)
Record committed (a : applier) : Prop := {
  cm_objects : ∃ l d,
    (isACL = false → query_isWriter l (peerId v) = true) ∧
    states_ a = setDRPState (setACLState (states_ a0) (hash v) (stateFromDRP (Some l))) (hash v) d ∧
    finalityStore a = initializeState (finalityStore a0) (hash v) (query_getFinalitySigners l);
  cm_graph : ∃ fe, edges_equiv fe (forwardEdges (hashGraph a0)) ∧
    hashGraph a = addVertex (with_forwardEdges (hashGraph a0) fe) v;
  cm_live : drp a = drp a0 ∧ acl a = acl a0;
  cm_rest : knownInvalidVertexHashes a = knownInvalidVertexHashes a0 ∧ checkpoints a = checkpoints a0 ∧
    notifications a = notifications a0
}.

Lemma commit_ok op :
  eff_ok (λ a, stage op a ∧ (validated ∧ is_Some (o_acl op) ∧ permitted op))
    (execute [@assignState V E; @initializeFinalityStore V E _; @addVertexToHashGraph V E] op)
    (λ _ a, validated ∧ committed a) rolled_back.
Proof.
  intros a [Hs (HF & [l Hl] & Hp)]. pose proof Hs as [Hd Hv Ha Hloc].
  cbv [execute execute_steps assignState initializeFinalityStore addVertexToHashGraph next eff_bind
    eff_modify eff_ret result stop]. rewrite Hl. split; [done|]. destruct Hd as [He Hg Hst Hdr Hac Hfi Hin Hcp Hno].
  split; simpl; rewrite ?Hv, ?Hl, ?Hst, ?Hfi; try done.
  - exists l, (stateFromDRP (o_drp op)). split; [|done]. intros E0. destruct (Hp E0) as (l' & Hl' & ?). congruence.
  - exists (forwardEdges (hashGraph a)). split; [done|]. by rewrite <- Hg.
Qed.

Lemma pipeline_ok :
  eff_ok (λ a, a = a0)
    (execute (@applyVertexPipeline V E _ _ sha256hex date_now linearize_fuel) (base_op v isACL false))
    (λ _ a, validated ∧ committed a) rolled_back.
Proof.
  unfold applyVertexPipeline. cbn [foldl setNext createPipeline app].
  eapply ok_weaken with (P' := stage (base_op v isACL false));
    [| |intros ? ? HQ; exact HQ|intros ? ? HR; exact HR].
  2:{ intros a ->. split; [apply same_data_refl|done..]. }
  apply ok_execute_cons with (λ op a, stage op a ∧ validated); [done|apply validate_ok|intros op1].
  apply ok_execute_cons with (λ op a, stage op a ∧ validated); [done|apply getLCA_ok|intros op2].
  apply ok_execute_cons with (λ op a, stage op a ∧ validated); [done|apply split_ok|intros op3].
  apply ok_execute_cons with (λ op a, stage op a ∧ (validated ∧ is_Some (o_acl op))); [done|apply compute_ok|intros op4].
  apply ok_execute_cons with (λ op a, stage op a ∧ (validated ∧ is_Some (o_acl op) ∧ permitted op)); [done|apply writer_ok|intros op5].
  apply ok_execute_cons with (λ op a, stage op a ∧ (validated ∧ is_Some (o_acl op) ∧ permitted op)); [done|apply applyFn_ok|intros op6].
  apply commit_ok.
Qed.

End received.

(** ** The invariant through a batch *)

Lemma cp_ok_addVertex g v cp : wf g → admissible g v → cp_ok g cp → cp_ok (addVertex g v) cp.
Proof.
  intros Hg Hv [H1 H2 H3 H4]. pose proof (adm_fresh _ _ Hv) as Hf.
  pose proof (addVertex_vertices g v Hf) as Hvs. split; [|done| |].
  - intros h Hh. unfold known. rewrite Hvs. unfold jm_keys. rewrite fmap_app. apply elem_of_app. left. by apply H1.
  - intros h1 h2 Hh1 Hh2 Hb. apply (H3 h1 h2 Hh1 Hh2). eapply before_addVertex_old; [done|done| |done]. by apply H1.
  - rewrite Hvs, length_app. lia.
Qed.

Lemma admissible_same g g' v : vertices g' = vertices g → admissible g v → admissible g' v.
Proof. intros Hg [H1 H2 H3]. by split; rewrite ?Hg. Qed.

Lemma committed_ainv a0 v isACL a : validated a0 v → committed a0 v isACL a →
  getVertex (hashGraph a0) (hash v) = None → ainv a0 → ainv a.
Proof.
  intros [now Hval] [(l & d & _ & Hst & _) (fe & He & Hg) _ (Hin & Hcp & _)] Hnew [H1 H2 H3 H4 H5 H6].
  pose proof (validated_admissible _ _ _ _ _ Hval Hnew) as Hadm.
  assert (wf (with_forwardEdges (hashGraph a0) fe)) as Hw
    by (exact (wf_same (hashGraph a0) (with_forwardEdges (hashGraph a0) fe) eq_refl He eq_refl H1)).
  pose proof (admissible_same (hashGraph a0) (with_forwardEdges (hashGraph a0) fe) v eq_refl Hadm) as Hadm'.
  split; rewrite ?Hcp, ?Hin; try done.
  - rewrite Hg. by apply wf_addVertex.
  - eapply Forall_impl; [exact H3|]. intros cp Hok. rewrite Hg. apply cp_ok_addVertex; [done..|].
    exact (cp_ok_vertices (hashGraph a0) (with_forwardEdges (hashGraph a0) fe) cp eq_refl Hok).
  - rewrite Hst. unfold getDRPState, getACLState, setDRPState, setACLState. simpl.
    destruct H6. split; rewrite lookup_insert; (case_decide; [by eexists|done]).
Qed.

(** The root is in every graph, so no fresh vertex has its hash. *)
Lemma root_not_fresh g v : wf g → getVertex g (hash v) = None → hash v ≠ rootHash.
Proof.
  intros Hg Hn Hr. unfold getVertex in Hn. rewrite Hr, (causal_root_vertex _ (wf_causal g Hg)) in Hn. done.
Qed.

(** ** Rejected hashes *)

Lemma remember_ok l h : NoDup l → length l ≤ MAX_KNOWN_INVALID_VERTEX_HASHES →
  NoDup (rememberInvalidVertexHash l h) ∧
  length (rememberInvalidVertexHash l h) ≤ MAX_KNOWN_INVALID_VERTEX_HASHES.
Proof.
  intros Hnd Hl. unfold rememberInvalidVertexHash. case_decide as Hh; [done|].
  case_decide as Hm; [split; [by apply NoDup_js_add|done]|].
  unfold js_add in *. rewrite decide_False in * by done. rewrite length_app in Hm. simpl in Hm.
  destruct l as [|x l]; [unfold MAX_KNOWN_INVALID_VERTEX_HASHES in Hm; simpl in Hm; lia|].
  cbn [app js_del]. rewrite decide_True by done. simpl in *. rewrite length_app. simpl. split; [|lia].
  apply NoDup_cons in Hnd as [_ Hnd]. apply NoDup_app. split; [done|]. split; [set_solver|apply NoDup_singleton].
Qed.

Lemma remember_all_ok l hs : NoDup l → length l ≤ MAX_KNOWN_INVALID_VERTEX_HASHES →
  NoDup (foldl rememberInvalidVertexHash l hs) ∧
  length (foldl rememberInvalidVertexHash l hs) ≤ MAX_KNOWN_INVALID_VERTEX_HASHES.
Proof.
  revert l. induction hs as [|h hs IH]; intros l Hnd Hl; [done|]. simpl.
  destruct (remember_ok l h Hnd Hl). by apply IH.
Qed.

Lemma ainv_invalid a l : ainv a → NoDup l → length l ≤ MAX_KNOWN_INVALID_VERTEX_HASHES →
  ainv (with_invalid a l).
Proof. intros [H1 H2 H3 H4 H5 H6] Hnd Hl. by split. Qed.

(** ** Advancing the checkpoints *)

Lemma new_checkpoint_ok g (rs : @ReplayState V) : wf g →
  cp_ok g (mkCheckpoint (getFrontier g) (default EmptyString (head (js_sort (getFrontier g))))
             (length (vertices g)) rs).
Proof.
  intros Hg. destruct (getFrontier_nonempty g Hg) as [h Hh]. split; simpl; [| | |done].
  - intros h' Hh'. by apply (wf_frontier g Hg) in Hh' as [? _].
  - destruct (js_sort (getFrontier g)) as [|x l] eqn:Es.
    + rewrite <- elem_of_js_sort, Es in Hh. by apply elem_of_nil in Hh.
    + simpl. rewrite <- elem_of_js_sort, Es. left.
  - intros h1 h2 H1 H2. by apply (antichain_frontier g Hg).
Qed.

Lemma prune_root_acl (a : applier) :
  getACLState (states_ (pruneSnapshots a)) rootHash = getACLState (states_ a) rootHash.
Proof.
  unfold getACLState, pruneSnapshots. simpl. destruct (aclStates (states_ a) !! rootHash) eqn:Hx.
  - apply map_lookup_filter_Some. split; [done|]. simpl. set_solver.
  - apply map_lookup_filter_None. by left.
Qed.

Lemma prune_root (a : applier) : is_Some (getDRPState (states_ a) rootHash) ∧ is_Some (getACLState (states_ a) rootHash) →
  is_Some (getDRPState (states_ (pruneSnapshots a)) rootHash) ∧
  is_Some (getACLState (states_ (pruneSnapshots a)) rootHash).
Proof.
  unfold getDRPState, getACLState, pruneSnapshots. simpl. intros [[x Hx] [y Hy]].
  split; eexists; apply map_lookup_filter_Some; (split; [done|simpl; set_solver]).
Qed.

Lemma bounded_checkpoints (cps : list checkpoint) cp : length cps ≤ MAX_CHECKPOINTS →
  (∃ r, head cps = Some r ∧ root_cp r) →
  let cps' := if decide (MAX_CHECKPOINTS < length (cps ++ [cp]))
              then take 1 (cps ++ [cp]) ++ drop 2 (cps ++ [cp]) else cps ++ [cp] in
  length cps' ≤ MAX_CHECKPOINTS ∧ (∃ r, head cps' = Some r ∧ root_cp r) ∧
  (∀ c, c ∈ cps' → c ∈ cps ∨ c = cp).
Proof.
  intros Hlen (r & Hr & Hroot). cbv zeta. destruct cps as [|c cps]; [done|]. simplify_eq/=.
  case_decide as Hd; simpl.
  - rewrite length_drop, length_app in *. simpl in *. split; [lia|]. split; [by eexists|].
    intros x [->|Hx]%elem_of_cons; [left; left|].
    apply (subseteq_drop 1) in Hx. apply elem_of_app in Hx. set_solver.
  - split; [lia|]. split; [by eexists|]. intros x. rewrite elem_of_cons, elem_of_app. set_solver.
Qed.

Lemma advance_root_acl (a : applier) :
  getACLState (states_ (advanceCheckpointIfNeeded a)) rootHash = getACLState (states_ a) rootHash.
Proof. unfold advanceCheckpointIfNeeded. case_decide; [done|]. exact (prune_root_acl (with_checkpoints a _)). Qed.

Lemma advance_ainv (a : applier) : ainv a → ainv (advanceCheckpointIfNeeded a) ∧
  hashGraph (advanceCheckpointIfNeeded a) = hashGraph a.
Proof.
  intros Ha. pose proof Ha as [H1 H2 H3 H4 H5 H6]. unfold advanceCheckpointIfNeeded. case_decide; [done|].
  split; [|done].
  destruct (bounded_checkpoints (checkpoints a) (mkCheckpoint (getFrontier (hashGraph a))
    (default EmptyString (head (js_sort (getFrontier (hashGraph a))))) (length (vertices (hashGraph a)))
    (mkReplay (stateFromDRP (drp a)) (stateFromDRP (Some (acl a))))) H4 H2) as (Hl & Hr & Hin).
  split; simpl; try done.
  - apply Forall_forall. intros c [Hc| ->]%Hin; [|by apply new_checkpoint_ok].
    rewrite Forall_forall in H3. by apply H3.
  - by apply (prune_root (with_checkpoints a _)).
Qed.

(** ** The batch *)

Section batch.
Context (a0 : applier) (vs : list Vertex).

(** The graph kept its vertices and gained only received ones. *)
Record grown (a : applier) : Prop := {
  gr_inv : ainv a;
  gr_old : ∀ h w, getVertex (hashGraph a0) h = Some w → getVertex (hashGraph a) h = Some w;
  gr_new : ∀ h w, getVertex (hashGraph a) h = Some w → getVertex (hashGraph a0) h = Some w ∨ w ∈ vs;
  gr_root : getACLState (states_ a) rootHash = getACLState (states_ a0) rootHash
}.

Definition relevant (w : Vertex) : Prop :=
  ∃ op, operation w = Some op ∧ opType op ≠ OperationType_NOP.

(** Every vertex passed so far is in the graph or reported. *)
Definition accounted (a : applier) (missing invalid : list Hash) (w : Vertex) : Prop :=
  relevant w → is_Some (getVertex (hashGraph a) (hash w)) ∨ hash w ∈ missing ∨ hash w ∈ invalid.

Definition batch_inv (pre : list Vertex) (b : Batch) (a : applier) : Prop :=
  grown a ∧ ∀ w, w ∈ pre → accounted a (b_missing b) (b_invalid b) w.

Lemma grown_same a a' : same_data a a' → grown a → grown a'.
Proof.
  intros Hs [H1 H2 H3 H4]. pose proof (same_data_vertices _ _ Hs) as Hv.
  split; [by eapply same_data_ainv| | |by rewrite (sd_states _ _ Hs)];
    unfold getVertex in *; rewrite Hv; auto.
Qed.

Lemma grown_committed a v isACL a' : v ∈ vs → validated a v → committed a v isACL a' →
  getVertex (hashGraph a) (hash v) = None → grown a →
  grown a' ∧ (∀ h, getVertex (hashGraph a') h = if decide (hash v = h) then Some v else getVertex (hashGraph a) h).
Proof.
  intros Hin Hval Hc Hnew [H1 H2 H3 H4].
  assert (∀ h, getVertex (hashGraph a') h = if decide (hash v = h) then Some v else getVertex (hashGraph a) h) as Hget.
  { intros h. destruct (cm_graph _ _ _ _ Hc) as (fe & _ & ->).
    exact (getVertex_addVertex (with_forwardEdges (hashGraph a) fe) v h). }
  split; [|done]. split.
  - by eapply committed_ainv.
  - intros h w Hw%H2. rewrite Hget. by rewrite decide_False by congruence.
  - intros h w. rewrite Hget. case_decide; [intros [= <-]; by right|apply H3].
  - rewrite <- H4. destruct (cm_objects _ _ _ _ Hc) as (l & d & _ & -> & _).
    unfold getACLState. simpl. apply lookup_insert_ne. by eapply root_not_fresh; [apply H1|].
Qed.

Lemma accounted_same a a' b w : vertices (hashGraph a') = vertices (hashGraph a) →
  accounted a (b_missing b) (b_invalid b) w → accounted a' (b_missing b) (b_invalid b) w.
Proof. intros Hv Ha Hr. unfold getVertex in *. rewrite Hv. by apply Ha. Qed.

Lemma jm_has_getVertex g h : jm_has (vertices g) h = bool_decide (is_Some (getVertex g h)).
Proof. done. Qed.

(** A rejected vertex is reported as missing or invalid. *)
Lemma reject_ok pre b v e :
  eff_ok (batch_inv pre b) (@reject_vertex V E b v e) (batch_inv (pre ++ [v])) (λ _, grown).
Proof.
  intros a [Hg Hacc]. unfold reject_vertex. destruct e; try exact Hg.
  assert (∀ m i, accounted a m i v → (∀ h, h ∈ b_missing b → h ∈ m) → (∀ h, h ∈ b_invalid b → h ∈ i) →
    ∀ w, w ∈ pre ++ [v] → accounted a m i w) as Hext.
  { intros m i Hv Hm Hi w [Hw| ->%list_elem_of_singleton]%elem_of_app; [|done].
    intros Hr. destruct (Hacc w Hw Hr) as [?|[?|?]]; auto. }
  unfold eff_bind, eff_get. destruct (_ && _ && _); simpl.
  - split; [done|]. apply Hext; simpl; [intros _; right; left; set_solver|set_solver|done].
  - destruct Hg as [H1 H2 H3 H4]. destruct (remember_ok (knownInvalidVertexHashes a) (hash v)) as [Hnd Hl];
      [apply H1..|].
    split; [split; [by apply ainv_invalid|done..]|].
    apply Hext; simpl; [intros _; right; right; set_solver|done|set_solver].
Qed.

Lemma apply_one_ok pre b v : v ∈ vs →
  eff_ok (batch_inv pre b) (@apply_one V E _ _ sha256hex date_now linearize_fuel b v)
    (batch_inv (pre ++ [v])) (λ _, grown).
Proof.
  intros Hin a Hb. pose proof Hb as [Hg Hacc]. unfold apply_one.
  assert (∀ a' b', grown a' → accounted a' (b_missing b') (b_invalid b') v →
    (∀ w, w ∈ pre → accounted a' (b_missing b') (b_invalid b') w) → batch_inv (pre ++ [v]) b' a') as Hdone.
  { intros a' b' Hg' Hv Hpre. split; [done|]. intros w [Hw| ->%list_elem_of_singleton]%elem_of_app; auto. }
  destruct (operation v) as [op|] eqn:Hop; [|apply Hdone; [done| |done]; intros (? & ? & _); congruence].
  case_bool_decide as Hnop; [apply Hdone; [done| |done]; intros (? & ? & ?); congruence|].
  unfold eff_bind at 1, eff_get. rewrite jm_has_getVertex. case_bool_decide as Hhas.
  { apply Hdone; [done| |done]. intros _. by left. }
  assert (getVertex (hashGraph a) (hash v) = None) as Hnew by (by apply eq_None_not_Some).
  unfold eff_catch, eff_bind. pose proof (pipeline_ok a v (bool_decide (drpType op = DrpType_ACL)) a eq_refl) as Hp.
  destruct (execute _ _ a) as [a' [op'|e]].
  - destruct Hp as [Hval Hc]. destruct (grown_committed a v _ a' Hin Hval Hc Hnew Hg) as [Hg' Hget].
    simpl. apply Hdone; [done| |].
    + intros _. left. rewrite Hget, decide_True by done. by eexists.
    + intros w Hw Hr. destruct (Hacc w Hw Hr) as [[x Hx]|?]; [left|by right].
      rewrite Hget, Hx. destruct (decide _); by eapply mk_is_Some.
  - apply (reject_ok pre b v e). split; [by apply (grown_same a)|].
    intros w Hw. apply (accounted_same a); [by apply same_data_vertices|auto].
Qed.

Lemma propagate_ok rounds b :
  eff_ok (batch_inv vs b) (@propagate_invalid V E rounds b) (batch_inv vs) (λ _, grown).
Proof.
  revert b. induction rounds as [|rounds IH]; intros b a Hb; simpl; [done|].
  unfold eff_bind, eff_get. destruct (List.filter _ _) as [|x l] eqn:Hf; [done|]. cbn [eff_modify].
  apply IH. destruct Hb as [[H1 H2 H3 H4] Hacc].
  destruct (remember_all_ok (knownInvalidVertexHashes a) (x :: l)) as [Hnd Hl]; [apply H1..|].
  split; [split; [by apply ainv_invalid|done..]|]. intros w Hw Hr.
  destruct (Hacc w Hw Hr) as [?|[Hm|Hi]]; [by left|right|right; right; simpl; set_solver].
  unfold invalidate. cbn [b_missing b_invalid]. destruct (decide (hash w ∈ x :: l)) as [Hx|Hx].
  - right. apply elem_of_app. by right.
  - left. apply list_elem_of_filter_bool. split; [done|]. unfold js_has. by rewrite bool_decide_false.
Qed.

(** The replay into the live objects changes nothing else. *)
Lemma replay_live_ok b :
  eff_ok (batch_inv vs b) (@replay_live V E _ _ linearize_fuel) (λ _, batch_inv vs b) (λ _, grown).
Proof.
  intros a Hb. unfold replay_live, eff_bind, eff_get.
  pose proof (getReplay_ok a (getFrontier (hashGraph a)) a (same_data_refl a)) as Hr.
  destruct (getReplay _ _ a) as [a1 [[cp rvs]|e]]; [|apply (grown_same a); [exact Hr|apply Hb]].
  assert (batch_inv vs b a1) as Hb1.
  { destruct Hb as [Hg Hacc]. split; [by apply (grown_same a)|]. intros w Hw.
    apply (accounted_same a); [by apply same_data_vertices|auto]. }
  destruct (splitOperation _) as [dvs avs], (fromStates _ _ _) as [od ol].
  assert (∀ a' d l, batch_inv vs b a' → batch_inv vs b (with_live a' d l)) as Hlive.
  { intros a' d l [[[? ? ? ? ? ?] ? ? ?] ?]. by split; [split; [split|..]|]. }
  unfold eff_res. destruct (apply_vertices ol avs) as [l|e]; [|apply Hb1]. cbn [eff_modify].
  destruct od as [d|]; [|by apply Hlive]. destruct (drp a) as [dl|]; [|by apply Hlive].
  destruct (apply_vertices d dvs) as [d'|e]; [by do 2 apply Hlive|by apply Hlive].
Qed.

Lemma applyVertices_ok :
  eff_ok grown (@applyVertices V E _ _ sha256hex date_now linearize_fuel vs)
    (λ r a, grown a ∧ (applied r = true ↔ missing r = [] ∧ invalid r = []) ∧
       ∀ w, w ∈ vs → accounted a (missing r) (invalid r) w) (λ _, grown).
Proof.
  unfold applyVertices.
  apply ok_bind with (batch_inv vs).
  { eapply ok_weaken; [apply (ok_iter_prefix _ batch_inv _ vs []); intros pre v b Hv; by apply apply_one_ok
      | |by intros b a Hb|by intros].
    intros a Ha. split; [done|]. by intros w []%elem_of_nil. }
  intros b. apply ok_bind with (batch_inv vs); [apply propagate_ok|]. intros b'.
  apply ok_bind with (λ _, batch_inv vs b'); [apply replay_live_ok|]. intros _ a [[H1 H2 H3 H4] Hacc].
  destruct (advance_ainv a H1) as [Hinv Hg]. unfold eff_bind. cbn [eff_modify eff_ret].
  split; [|split; [simpl; by rewrite andb_true_iff, !bool_decide_eq_true|]].
  - destruct Hinv as [? ? ? ? ? ?]. split; simpl; rewrite ?Hg; [by split|done..|].
    by rewrite <- H4, <- (advance_root_acl a).
  - intros w Hw. apply (accounted_same a _ b'); [simpl; by rewrite Hg|auto].
Qed.

End batch.

(** ** What a batch shows to the outside *)

Section merging.
Context (a0 : applier) (vs : list Vertex).

(** The graph has the vertices [news] on top; live objects, checkpoints and
    subscribers are as before the batch. *)
Record merging (news : list Vertex) (a : applier) : Prop := {
  mg_vertices : vertices (hashGraph a) = vertices (hashGraph a0) ++ ((λ v, (hash v, v)) <$> news);
  mg_drp : drp a = drp a0;
  mg_checkpoints : checkpoints a = checkpoints a0;
  mg_notifications : notifications a = notifications a0
}.

Definition batch_merging (pre : list Vertex) (b : Batch) (a : applier) : Prop :=
  merging (b_newVertices b) a ∧ b_newVertices b `sublist_of` pre.

Definition merge_aborted (_ : applier_error E) (a : applier) : Prop :=
  ∃ news, news `sublist_of` vs ∧ merging news a.

Lemma merging_same news a a' : same_data a a' → merging news a → merging news a'.
Proof.
  intros Hs [H1 H2 H3 H4]. pose proof (same_data_vertices _ _ Hs). destruct Hs. split; congruence.
Qed.

Lemma merging_committed news a v isACL a' : committed a v isACL a' →
  getVertex (hashGraph a) (hash v) = None → merging news a → merging (news ++ [v]) a'.
Proof.
  intros [_ (fe & _ & Hg) [Hd _] (_ & Hc & Hn)] Hnew [H1 H2 H3 H4]. split; [|congruence..].
  rewrite Hg. simpl. rewrite jm_keys_set_new by done. rewrite H1, fmap_app. simpl. by rewrite <- app_assoc.
Qed.

Lemma reject_merging pre b v e : pre ++ [v] `sublist_of` vs →
  eff_ok (batch_merging pre b) (@reject_vertex V E b v e) (batch_merging (pre ++ [v])) merge_aborted.
Proof.
  intros Hpre a [Hm Hs]. assert (b_newVertices b `sublist_of` pre ++ [v]) as Hs' by (by apply sublist_inserts_r).
  unfold reject_vertex. destruct e; try (exists (b_newVertices b); split; [by etrans|done]).
  unfold eff_bind, eff_get. destruct (_ && _ && _); simpl; [done|]. split; [|done]. by destruct Hm.
Qed.

Lemma apply_one_merging pre b v : pre ++ [v] `sublist_of` vs →
  eff_ok (batch_merging pre b) (@apply_one V E _ _ sha256hex date_now linearize_fuel b v)
    (batch_merging (pre ++ [v])) merge_aborted.
Proof.
  intros Hpre a [Hm Hs]. assert (b_newVertices b `sublist_of` pre ++ [v]) as Hs' by (by apply sublist_inserts_r).
  unfold apply_one. destruct (operation v) as [op|]; [|done]. case_bool_decide; [done|].
  unfold eff_bind at 1, eff_get. rewrite jm_has_getVertex. case_bool_decide as Hhas; [done|].
  apply eq_None_not_Some in Hhas.
  unfold eff_catch, eff_bind. pose proof (pipeline_ok a v (bool_decide (drpType op = DrpType_ACL)) a eq_refl) as Hp.
  destruct (execute _ _ a) as [a' [op'|e]].
  - destruct Hp as [_ Hc]. split; simpl; [by eapply merging_committed|by apply sublist_app].
  - apply reject_merging; [done|]. split; [by apply (merging_same _ a)|done].
Qed.

Lemma propagate_merging rounds b :
  eff_ok (batch_merging vs b) (@propagate_invalid V E rounds b) (batch_merging vs) merge_aborted.
Proof.
  revert b. induction rounds as [|rounds IH]; intros b a Hb; simpl; [done|].
  unfold eff_bind, eff_get. destruct (List.filter _ _) as [|x l]; [done|]. cbn [eff_modify].
  apply IH. destruct Hb as [[H1 H2 H3 H4] Hs]. by split.
Qed.

(** The replay assigns the data object last, after everything that can throw. *)
Lemma replay_live_merging b :
  eff_ok (batch_merging vs b) (@replay_live V E _ _ linearize_fuel)
    (λ _ a, vertices (hashGraph a) = vertices (hashGraph a0) ++ ((λ v, (hash v, v)) <$> b_newVertices b) ∧
       b_newVertices b `sublist_of` vs ∧ notifications a = notifications a0) merge_aborted.
Proof.
  intros a [Hm Hs]. unfold replay_live, eff_bind, eff_get.
  pose proof (getReplay_ok a (getFrontier (hashGraph a)) a (same_data_refl a)) as Hr.
  destruct (getReplay _ _ a) as [a1 [[cp rvs]|e]];
    [|exists (b_newVertices b); split; [done|by apply (merging_same _ a)]].
  assert (merging (b_newVertices b) a1) as Hm1 by (by apply (merging_same _ a)). pose proof Hm1 as [M1 M2 M3 M4].
  destruct (splitOperation _) as [dvs avs], (fromStates _ _ _) as [od ol].
  unfold eff_res. destruct (apply_vertices ol avs) as [l|e]; [|by exists (b_newVertices b)]. cbn [eff_modify].
  destruct od as [d|]; [|done]. destruct (drp a) as [dl|]; [|done].
  destruct (apply_vertices d dvs) as [d'|e]; [done|]. exists (b_newVertices b). split; [done|]. by split.
Qed.

Lemma applyVertices_merging :
  eff_ok (λ a, a = a0) (@applyVertices V E _ _ sha256hex date_now linearize_fuel vs)
    (λ _ a, ∃ news, news `sublist_of` vs ∧
       vertices (hashGraph a) = vertices (hashGraph a0) ++ ((λ v, (hash v, v)) <$> news) ∧
       notifications a = notifications a0 ++ [("merge"%string, news)]) merge_aborted.
Proof.
  unfold applyVertices. apply ok_bind with (batch_merging vs).
  { eapply ok_weaken; [apply (ok_iter_sublist _ batch_merging _ vs vs []); [|done]; intros pre v b Hv; by apply apply_one_merging
      | |by intros b a Hb|by intros].
    intros a ->. split; [split; simpl; by rewrite ?app_nil_r|done]. }
  intros b. apply ok_bind with (batch_merging vs); [apply propagate_merging|]. intros b'.
  eapply ok_bind; [apply (replay_live_merging b')|]. intros _ a (H1 & H2 & H3). unfold eff_bind. cbn.
  assert (hashGraph (advanceCheckpointIfNeeded a) = hashGraph a ∧
          notifications (advanceCheckpointIfNeeded a) = notifications a) as [E1 E2].
  { unfold advanceCheckpointIfNeeded. by case_decide. }
  exists (b_newVertices b'). rewrite E1, E2, H3. done.
Qed.

End merging.

(** ** Local calls *)

Definition local_vertex (a : applier) (type method : string) (args : list jsvalue) : Vertex :=
  hg_createVertex sha256hex (hashGraph a) (mkOperation type method args) None (date_now (ticks a)).

(** The ACL a local operation is checked against: a copy of the live one. *)
Definition staged_acl (a : applier) : object V := applyState [] (stateFromDRP (Some (acl a))).

(** Nothing that the application or another replica can see has changed; the
    checkpoints, and the snapshots pruned with them, may have advanced. *)
Record untouched (a a' : applier) : Prop := {
  un_vertices : hashGraph a' = hashGraph a;
  un_live : drp a' = drp a ∧ acl a' = acl a;
  un_finality : finalityStore a' = finalityStore a;
  un_notifications : notifications a' = notifications a;
  un_root : getACLState (states_ a') rootHash = getACLState (states_ a) rootHash
}.

(** The operation became a vertex on top of the whole graph. *)
Record recorded (type : string) (v : Vertex) (a a' : applier) : Prop := {
  rc_deps : dependencies v = getFrontier (hashGraph a);
  rc_graph : hashGraph a' = addVertex (hashGraph a) v;
  rc_writer : type ≠ DrpType_ACL → query_isWriter (staged_acl a) (peerId v) = true;
  rc_snapshots : is_Some (getDRPState (states_ a') (hash v)) ∧ is_Some (getACLState (states_ a') (hash v));
  rc_notified : notifications a' = notifications a ++ [("callFn"%string, [v])];
  rc_root : getACLState (states_ a') rootHash = getACLState (states_ a) rootHash
}.

Lemma advance_untouched a : untouched a (advanceCheckpointIfNeeded (tick (tick a))).
Proof.
  pose proof (advance_root_acl (tick (tick a))) as Hr. unfold advanceCheckpointIfNeeded in *.
  case_decide; by split.
Qed.

Lemma ticked_ainv a : ainv a → ainv (advanceCheckpointIfNeeded (tick (tick a))).
Proof. intros [? ? ? ? ? ?]. by apply advance_ainv; split. Qed.

(** The commit of a local operation. *)
Lemma local_commit_ok a op type v : o_vertex op = v → o_isACL op = bool_decide (type = DrpType_ACL) →
  is_Some (o_acl op) → (type ≠ DrpType_ACL → query_isWriter (staged_acl a) (peerId v) = true) →
  dependencies v = getFrontier (hashGraph a) → admissible (hashGraph a) v →
  eff_ok (λ a1, ainv a1 ∧ untouched a a1)
    (execute [@assign V E; @assignState V E; @addVertexToHashGraph V E; @initializeFinalityStore V E _;
              @notify V E] op)
    (λ _ a', ainv a' ∧ recorded type v a a') (λ _ _, False).
Proof.
  intros Hv Hty [l Hl] Hw Hd Hadm a1 [[H1 H2 H3 H4 H5 H6] [U1 U2 U3 U4 U5]].
  assert (hash v ≠ rootHash) as Hne.
  { rewrite U1 in H1. apply (root_not_fresh (hashGraph a)); [done|]. apply jm_get_None, Hadm. }
  cbv [execute execute_steps assign assignState addVertexToHashGraph initializeFinalityStore notify
    Applier.next eff_bind eff_modify eff_ret result stop]. rewrite Hl.
  rewrite U1 in H1, H3. destruct (o_isACL op), (drp a1); (split;
    [split; simpl; rewrite ?U1, ?Hv; try done;
      [by apply wf_addVertex
      |eapply Forall_impl; [exact H3|]; intros cp; by apply cp_ok_addVertex
      |unfold getDRPState, getACLState in *; simpl; destruct H6; split; rewrite lookup_insert;
       (destruct (decide (hash v = rootHash)); [by eapply mk_is_Some|done])]
    |split; simpl; rewrite ?U1, ?U4, ?Hv; try done; unfold getDRPState, getACLState in *; simpl;
     [rewrite !lookup_insert_eq; split; by eapply mk_is_Some|by rewrite lookup_insert_ne]]).
Qed.

(** A step that may stop the pipeline. *)
Lemma ok_execute_stop {St Er O : Type} (f : @StepOptions St Er O) p op P Q Q' R : p ≠ [] →
  eff_ok P (f op) (λ r s, if stop r then Q' (result r) s else Q (result r) s) R →
  (∀ op', eff_ok (Q op') (execute p op') Q' R) → eff_ok P (execute (f :: p) op) Q' R.
Proof.
  intros Hp Hf Hrest s Hs. specialize (Hf s Hs). unfold execute, eff_bind in *. simpl. unfold eff_bind.
  destruct (f op s) as [s' [r|e]]; [|done]. destruct (stop r); [done|].
  specialize (Hrest (result r) s' Hf). by destruct p.
Qed.

Section local.
Context (a : applier) (type method : string) (args : list jsvalue).
Hypothesis Hinv : ainv a.
Let v : Vertex := local_vertex a type method args.
Let adv : applier := advanceCheckpointIfNeeded (tick (tick a)).
Hypothesis Hfresh : getVertex (hashGraph a) (hash v) = None.

Record local_stage (op : @Op V) : Prop := {
  ls_vertex : o_vertex op = v;
  ls_isACL : o_isACL op = bool_decide (type = DrpType_ACL);
  ls_isLocal : o_isLocal op = true;
  ls_replay : o_linearizedVertices op = []
}.

Definition local_end (a' : applier) : Prop := ainv a' ∧ (untouched a a' ∨ recorded type v a a').

Definition unchanged (e : applier_error E) (a' : applier) : Prop := ainv a' ∧ untouched a a'.

Lemma adv_end : ainv adv ∧ untouched a adv.
Proof. split; [by apply ticked_ainv|apply advance_untouched]. Qed.

Lemma local_validate_ok op : local_stage op →
  eff_ok (λ a1, a1 = tick a) (@validateVertex_step V E sha256hex date_now op)
    (λ r a1, stop r = false ∧ (local_stage (result r) ∧ a1 = tick (tick a) ∧ admissible (hashGraph a) v))
    unchanged.
Proof.
  intros [Hv Ha Hl Hr] a1 ->. unfold validateVertex_step, date_now_, eff_bind, eff_get. simpl. rewrite Hv, Hl.
  destruct (error _) as [e|] eqn:He; simpl; [by destruct Hinv; split; split|].
  split; [done|]. split; [by split|]. split; [done|].
  apply (validated_admissible sha256hex v (hashGraph a) (date_now (S (ticks a))) true); [|done].
  unfold validateVertex in *. by destruct (_ ≫= _).
Qed.

Lemma local_lca_ok op (F : Prop) :
  eff_ok (λ a1, local_stage op ∧ a1 = tick (tick a) ∧ F) (@getLCA_step V E linearize_fuel op)
    (λ r a1, stop r = false ∧ (local_stage (result r) ∧ a1 = adv ∧ F)) unchanged.
Proof.
  intros a1 ([Hv Ha Hl Hr] & -> & HF). unfold getLCA_step. rewrite Hl. simpl. split; [done|]. split; [by split|done].
Qed.

Lemma local_split_ok op (F : Prop) :
  eff_ok (λ a1, local_stage op ∧ a1 = adv ∧ F) (@splitLCAOperation V E op)
    (λ r a1, stop r = false ∧ (local_stage (result r) ∧ a1 = adv ∧ (F ∧ o_aclVertices (result r) = [])))
    unchanged.
Proof.
  intros a1 ([Hv Ha Hl Hr] & -> & HF). unfold splitLCAOperation. rewrite Hr. simpl. split; [done|]. split; [by split|done].
Qed.

Lemma local_compute_ok op (F : Prop) :
  eff_ok (λ a1, local_stage op ∧ a1 = adv ∧ (F ∧ o_aclVertices op = [])) (@computeOperation V E _ _ op)
    (λ r a1, stop r = false ∧ (local_stage (result r) ∧ a1 = adv ∧ (F ∧ o_acl (result r) = Some (staged_acl a))))
    unchanged.
Proof.
  intros a1 ([Hv Ha Hl Hr] & -> & HF & Hnil). unfold computeOperation, eff_bind, eff_get, eff_res.
  rewrite Hl, Hnil. simpl. destruct adv_end as [_ [_ [_ Hacl] _ _ _]].
  assert (applyState [] (List.filter (λ kv, negb (is_function kv.2)) (acl adv)) = staged_acl a) as Est
    by (unfold staged_acl; by rewrite Hacl).
  destruct (hasDRP _); [|rewrite Est; split; [done|]; split; [by split|done]].
  destruct (apply_vertices _ _) as [d|e]; [|by apply adv_end].
  rewrite Est. split; [done|]. split; [by split|done].
Qed.

Lemma local_writer_ok op (F : Prop) :
  eff_ok (λ a1, local_stage op ∧ a1 = adv ∧ (F ∧ o_acl op = Some (staged_acl a))) (@validateWriterPermission V E _ op)
    (λ r a1, stop r = false ∧ (local_stage (result r) ∧ a1 = adv ∧ (F ∧ is_Some (o_acl (result r)) ∧
       (type ≠ DrpType_ACL → query_isWriter (staged_acl a) (peerId v) = true)))) unchanged.
Proof.
  intros a1 (Hs & -> & HF & Hl). pose proof Hs as [Hv Ha Hloc Hr]. unfold validateWriterPermission.
  rewrite Ha, Hl, Hv. case_bool_decide.
  - split; [done|]. split; [done|]. split; [done|]. split; [done|]. simpl. split; [by rewrite Hl; eexists|done].
  - destruct (query_isWriter _ _) eqn:Hw; [|by apply adv_end].
    split; [done|]. split; [done|]. split; [done|]. split; [done|]. simpl. split; [by rewrite Hl; eexists|done].
Qed.

Lemma local_applyFn_ok op (F : Prop) :
  eff_ok (λ a1, local_stage op ∧ a1 = adv ∧ (F ∧ is_Some (o_acl op) ∧
       (type ≠ DrpType_ACL → query_isWriter (staged_acl a) (peerId v) = true))) (@applyFn V E _ _ op)
    (λ r a1, stop r = false ∧ (local_stage (result r) ∧ a1 = adv ∧ (F ∧ is_Some (o_acl (result r)) ∧
       (type ≠ DrpType_ACL → query_isWriter (staged_acl a) (peerId v) = true)))) unchanged.
Proof.
  intros a1 (Hs & -> & HF & [l Hl] & Hw). pose proof Hs as [Hv Ha Hloc Hr]. unfold applyFn.
  destruct (operation (o_vertex op)) as [vop|]; [|by apply adv_end].
  destruct (o_current op) as [o|] eqn:Ho.
  - destruct (callDRP _ _ _ _) as [[o' ch] [r|e]]; [|by apply adv_end]. split; [done|]. split; [by split|].
    split; [done|]. split; [done|]. split; [|done]. simpl. destruct (o_isACL op); rewrite ?Hl; by eexists.
  - split; [done|]. split; [by split|]. split; [done|]. split; [done|]. split; [|done]. simpl. rewrite Hl. by eexists.
Qed.

Lemma callFn_pipeline_ok op : local_stage op →
  eff_ok (λ a1, a1 = tick a) (execute (@callFnPipeline V E _ _ sha256hex date_now linearize_fuel) op)
    (λ _, local_end) unchanged.
Proof.
  intros Hop. unfold callFnPipeline. cbn [foldl setNext createPipeline app].
  apply ok_execute_cons with (λ op a1, local_stage op ∧ a1 = tick (tick a) ∧ admissible (hashGraph a) v);
    [done|by apply local_validate_ok|intros op1].
  apply ok_execute_cons with (λ op a1, local_stage op ∧ a1 = adv ∧ admissible (hashGraph a) v);
    [done|apply local_lca_ok|intros op2].
  apply ok_execute_cons with (λ op a1, local_stage op ∧ a1 = adv ∧ (admissible (hashGraph a) v ∧ o_aclVertices op = []));
    [done|apply local_split_ok|intros op3].
  apply ok_execute_cons with (λ op a1, local_stage op ∧ a1 = adv ∧
    (admissible (hashGraph a) v ∧ o_acl op = Some (staged_acl a))); [done|apply local_compute_ok|intros op4].
  apply ok_execute_cons with (λ op a1, local_stage op ∧ a1 = adv ∧ (admissible (hashGraph a) v ∧ is_Some (o_acl op) ∧
    (type ≠ DrpType_ACL → query_isWriter (staged_acl a) (peerId v) = true))); [done|apply local_writer_ok|intros op5].
  apply ok_execute_cons with (λ op a1, local_stage op ∧ a1 = adv ∧ (admissible (hashGraph a) v ∧ is_Some (o_acl op) ∧
    (type ≠ DrpType_ACL → query_isWriter (staged_acl a) (peerId v) = true))); [done|apply local_applyFn_ok|intros op6].
  apply ok_execute_stop with (λ op a1, local_stage op ∧ a1 = adv ∧ (admissible (hashGraph a) v ∧ is_Some (o_acl op) ∧
    (type ≠ DrpType_ACL → query_isWriter (staged_acl a) (peerId v) = true))); [done| |intros op7].
  - intros a1 (Hs & -> & HF). unfold equal. destruct (o_current op6); simpl; [|done].
    destruct (o_stateChanged op6); simpl; [done|]. destruct adv_end. split; [done|by left].
  - intros a1 (Hs & -> & Hadm & Hacl & Hw). destruct Hs as [Hv Ha Hl Hr].
    pose proof (local_commit_ok a op7 type v Hv Ha Hacl Hw eq_refl Hadm adv adv_end) as Hc.
    destruct (execute _ op7 adv) as [a' [op'|e]]; [|done]. destruct Hc. split; [done|by right].
Qed.

End local.

End invariant.
