(* ===== verification/ApplierProps.v ===== *)
(** * What the applier guarantees ([drp-applier.ts])

    The theorems about [DRPVertexApplier]: the states it can reach by receiving
    batches and by local calls, what a batch does to the graph and reports,
    what one vertex commits, and which part of the graph a replay covers. *)

From S2P Require Import Prelude JsMap JsNum Bits JsValue Types HashGraph Dag TopoSort Causality Lca.
From S2P Require Import LegacyCausality Linearize Validation Finality Pipeline State Applier Replay.
From S2P Require Import ApplierInv.

(** ** Coverage and suffixes *)

(** Everything in the past of the dependencies is in the suffix or in the past
    of the boundary. *)
Lemma suffix_complete g deps boundary d h : d ∈ deps → ancestor g d h →
  in_suffix g deps boundary h ∨ ∃ b, b ∈ boundary ∧ ancestor g b h.
Proof.
  intros Hd Hr. destruct (decide (h ∈ boundary)) as [Hb|Hb]; [right; exists h; split; [done|apply rtc_refl]|].
  assert (∀ x, walked (suffix_deps g boundary) deps x → ancestor g x h →
    in_suffix g deps boundary h ∨ ∃ b, b ∈ boundary ∧ ancestor g b h) as Hgen.
  { clear Hr. intros x Hx Hxh. induction Hxh as [x|x y z Hp Hyz IH]; [by left; split|].
    destruct (decide (x ∈ boundary)) as [Hxb|Hxb].
    - right. exists x. split; [done|]. by eapply rtc_l.
    - apply IH; [done|]. destruct Hx as (s & Hs & Hsx). exists s. split; [done|].
      eapply rtc_r; [exact Hsx|]. unfold succ, suffix_deps. by rewrite decide_False. }
  apply (Hgen d); [|done]. exists d. split; [done|apply rtc_refl].
Qed.

(** C12 The suffix of a checkpoint is separated from what the checkpoint has
    baked in: the collected subgraph is the origin and the vertices reached
    from the dependencies without crossing the frontier; all of these descend
    from every vertex of the frontier; and every other vertex in the past of
    the dependencies is in the past of the frontier. *)
Theorem suffix_barrier (g : HashGraph) (deps boundary : list Hash) (origin : Hash) (sub : gset Hash)
    (Hwf : wf g) (Hd : ∀ d, d ∈ deps → is_Some (getVertex g d))
    (Hb : ∀ h, h ∈ boundary → is_Some (getVertex g h))
    (Hc : collectSuffixSubgraph g deps boundary origin = Some (Some sub)) :
  origin ∈ sub ∧
  (∀ m head, m ∈ sub → m ≠ origin → head ∈ boundary → (m ∉ boundary) ∧ before g head m) ∧
  (∀ m, m ∈ sub → m ≠ origin → ∃ d, d ∈ deps ∧ ancestor g d m) ∧
  (∀ d h, d ∈ deps → ancestor g d h → h ∈ sub ∨ ∃ b, b ∈ boundary ∧ ancestor g b h).
Proof.
  assert (∀ h, is_Some (getVertex g h) → known g h) as Hk.
  { intros h [w Hw]. by eapply jm_get_Some_keys. }
  destruct (collectSuffixSubgraph_spec g Hwf deps boundary origin) as (sub' & Hsub & b & Hc' & Hiff); [eauto..|].
  rewrite Hc' in Hc. destruct b; [|done]. simplify_eq. split; [apply Hsub; by left|]. split; [|split].
  - intros m head Hm Hne Hh. pose proof Hm as [->|[Hmb _]]%Hsub; [done|]. split; [done|].
    assert (ancestor g m head) as Ha.
    { eapply rtc_forward_ancestor. apply (proj1 Hiff eq_refl); [exact Hh|set_solver]. }
    apply ancestor_cases in Ha as [->|?]; done.
  - intros m [->|[_ Hw]]%Hsub Hne; [done|]. by apply suffix_walked_ancestor in Hw.
  - intros d h Hdd Ha. destruct (suffix_complete g deps boundary d h Hdd Ha); [left; apply Hsub; by right|by right].
Qed.

(** [dependenciesCover] terminates and decides coverage: it answers yes exactly
    when the dependencies are the boundary, or every boundary vertex is in the
    past of (or is) every dependency. *)
Theorem dependencies_cover_decides (g : HashGraph) (deps boundary : list Hash) (Hwf : wf g)
    (Hd : ∀ d, d ∈ deps → is_Some (getVertex g d)) :
  ∃ b, dependenciesCover g deps boundary = Some b ∧
    (b = true ↔ (size (list_to_set deps : gset Hash) = length boundary ∧ ∀ h, h ∈ boundary → h ∈ deps) ∨
                ∀ d h, d ∈ deps → h ∈ boundary → ancestor g d h).
Proof.
  apply dependenciesCover_spec; [done|]. intros d [w Hw]%Hd. by eapply jm_get_Some_keys.
Qed.

Section properties.
Context {V E : Type} `{EqDecision V} `{Application V E}.
Context (sha256hex : string → Hash) (date_now : nat → Z) (linearize_fuel : nat).

Abbreviation applier := (@DRPVertexApplier V) (only parsing).
Abbreviation receive := (@applyVertices V E _ _ sha256hex date_now linearize_fuel).
Abbreviation call := (@callFn V E _ _ sha256hex date_now linearize_fuel).
Abbreviation created := (local_vertex sha256hex date_now).

(** The states of an applier: made for a new graph, after any batch (also one
    whose processing threw), after any local call whose vertex hash is new. *)
Inductive applier_reach : applier → Prop :=
| reach_new peer aclResolver drpResolver semantics d l f n a :
    @createDRPVertexApplier V E d l (new_HashGraph peer aclResolver drpResolver semantics) f n = Ok a →
    applier_reach a
| reach_receive a vs : applier_reach a → applier_reach (receive vs a).1
| reach_call a type method args : applier_reach a →
    getVertex (hashGraph a) (hash (created a type method args)) = None →
    applier_reach (call type method args a).1.

Lemma new_ainv peer aclResolver drpResolver semantics d l f n a :
  @createDRPVertexApplier V E d l (new_HashGraph peer aclResolver drpResolver semantics) f n = Ok a → ainv a.
Proof.
  unfold createDRPVertexApplier, newApplier, getDRPState, getACLState, newStateManager. simpl.
  rewrite !lookup_singleton_eq. intros <-%Ok_inj.
  pose proof (wf_new_HashGraph peer aclResolver drpResolver semantics) as Hwf.
  split; simpl; [done|by eexists| |unfold MAX_CHECKPOINTS; lia| |].
  - apply Forall_singleton. split; simpl; [|by left| |lia].
    + intros h ->%list_elem_of_singleton. by left.
    + intros h1 h2 ->%list_elem_of_singleton ->%list_elem_of_singleton. by apply before_irreflexive.
  - split; [constructor|]. simpl. unfold MAX_KNOWN_INVALID_VERTEX_HASHES. lia.
  - unfold getDRPState, getACLState. simpl. rewrite !lookup_singleton_eq. split; by eapply mk_is_Some.
Qed.

Lemma grown_refl (a : applier) vs : ainv a → grown a vs a.
Proof. intros Ha. split; [done|by intros|by left|done]. Qed.

Lemma call_end (a : applier) type method args : ainv a →
  getVertex (hashGraph a) (hash (created a type method args)) = None →
  let '(a', r) := call type method args a in
  ainv a' ∧
  match r with
  | Throw _ => untouched a a'
  | Ok _ => untouched a a' ∨ recorded type (created a type method args) a a'
  end.
Proof.
  intros Ha Hf. unfold callFn, createVertex_step, date_now_, eff_bind, eff_get, eff_ret. simpl.
  pose proof (callFn_pipeline_ok sha256hex date_now linearize_fuel a type method args Ha Hf
    (base_op (created a type method args) (bool_decide (type = DrpType_ACL)) true)
    ltac:(by split) (tick a) eq_refl) as Hp.
  unfold local_vertex in Hp at 1. simpl in Hp.
  destruct (execute _ _ _) as [a' [op|e]]; exact Hp.
Qed.

Lemma reach_ainv a : applier_reach a → ainv a.
Proof.
  induction 1 as [? ? ? ? ? ? ? ? ? Hn|a vs _ IH|a type method args _ IH Hf].
  - by eapply new_ainv.
  - pose proof (applyVertices_ok sha256hex date_now linearize_fuel a vs a (grown_refl a vs IH)) as Hr.
    destruct (receive vs a) as [a' [r|e]]; [apply Hr|apply Hr].
  - pose proof (call_end a type method args IH Hf) as Hr.
    destruct (call type method args a) as [a' r]. by destruct Hr.
Qed.

(** C10 Whatever is received or called, the applier keeps a well-formed graph, at
    most 32 checkpoints of which the first is the root's and each frontier is
    an antichain of known vertices, the root snapshots, and at most 10000
    distinct rejected hashes. *)
Theorem applier_invariant (a : applier) (Hr : applier_reach a) :
  wf (hashGraph a) ∧
  (∃ cp, head (checkpoints a) = Some cp ∧ cp_frontier cp = [rootHash] ∧ cp_origin cp = rootHash) ∧
  (∀ cp, cp ∈ checkpoints a → cp_origin cp ∈ cp_frontier cp ∧
     ∀ h, h ∈ cp_frontier cp → is_Some (getVertex (hashGraph a) h) ∧
       ∀ h', h' ∈ cp_frontier cp → ¬ before (hashGraph a) h h') ∧
  length (checkpoints a) ≤ MAX_CHECKPOINTS ∧
  (is_Some (getDRPState (states_ a) rootHash) ∧ is_Some (getACLState (states_ a) rootHash)) ∧
  (NoDup (knownInvalidVertexHashes a) ∧
   length (knownInvalidVertexHashes a) ≤ MAX_KNOWN_INVALID_VERTEX_HASHES).
Proof.
  destruct (reach_ainv a Hr) as [H1 H2 H3 H4 H5 H6]. split; [done|]. split; [done|]. split; [|done].
  intros cp Hcp. rewrite Forall_forall in H3. destruct (H3 cp Hcp) as [K1 K2 K3 _]. split; [done|].
  intros h Hh. split; [|by intros; apply K3]. apply K1 in Hh. unfold known in Hh. unfold getVertex.
  destruct (jm_get (vertices (hashGraph a)) h) eqn:E0; [by eexists|]. by apply jm_get_None in E0.
Qed.

(** C9 A batch never removes or replaces a vertex and adds only received ones,
    also when it throws; when it returns, every received vertex that carries
    an operation is in the graph or reported as missing or invalid, and
    [applied] says exactly that nothing is missing or invalid. *)
Theorem apply_batch_accounts (a : applier) (vs : list Vertex) (Hr : applier_reach a) :
  let '(a', r) := receive vs a in
  (∀ h w, getVertex (hashGraph a) h = Some w → getVertex (hashGraph a') h = Some w) ∧
  (∀ h w, getVertex (hashGraph a') h = Some w → getVertex (hashGraph a) h = Some w ∨ w ∈ vs) ∧
  match r with
  | Throw _ => True
  | Ok r =>
      (applied r = true ↔ missing r = [] ∧ invalid r = []) ∧
      ∀ w op, w ∈ vs → operation w = Some op → opType op ≠ OperationType_NOP →
        is_Some (getVertex (hashGraph a') (hash w)) ∨ hash w ∈ missing r ∨ hash w ∈ invalid r
  end.
Proof.
  pose proof (applyVertices_ok sha256hex date_now linearize_fuel a vs a
    (grown_refl a vs (reach_ainv a Hr))) as Hp.
  destruct (receive vs a) as [a' [r|e]]; [|by destruct Hp as [_ ? ? _]].
  destruct Hp as ([_ H1 H2 _] & Happ & Hacc). split; [done|]. split; [done|]. split; [done|].
  intros w op Hw Hop Hnop. apply (Hacc w Hw). by exists op.
Qed.

(** C8 A received vertex is applied atomically: the pipeline either commits it,
    which takes a successful validation and, for a data operation, an author
    who is a writer in the ACL state stored for the vertex, or throws and
    leaves graph, snapshots, live objects, finality states, checkpoints and
    rejected hashes as they were. *)
Theorem received_vertex_atomic (a : applier) (v : Vertex) (isACL : bool) :
  match execute (@applyVertexPipeline V E _ _ sha256hex date_now linearize_fuel) (base_op v isACL false) a with
  | (a', Ok _) =>
      (∃ now, success (validateVertex sha256hex v (hashGraph a) now false) = true) ∧
      (∃ l, getACLState (states_ a') (hash v) = Some (stateFromDRP (Some l)) ∧
        (isACL = false → query_isWriter l (peerId v) = true)) ∧
      (∀ h, getVertex (hashGraph a') h = if decide (hash v = h) then Some v else getVertex (hashGraph a) h) ∧
      is_Some (getDRPState (states_ a') (hash v)) ∧ is_Some (states (finalityStore a') !! hash v) ∧
      drp a' = drp a ∧ acl a' = acl a
  | (a', Throw _) => same_data a a'
  end.
Proof.
  pose proof (pipeline_ok sha256hex date_now linearize_fuel a v isACL a eq_refl) as Hp.
  destruct (execute _ _ a) as [a' [op|e]]; [|exact Hp].
  destruct Hp as [Hval [(l & d & Hw & Hst & Hfin) (fe & _ & Hg) [Hd Ha] _]]. split; [done|].
  rewrite Hst, Hg, Hfin. unfold getDRPState, getACLState. cbn [drpStates aclStates setDRPState setACLState].
  rewrite !lookup_insert_eq. split; [by exists l|].
  split; [intros h; exact (getVertex_addVertex (with_forwardEdges (hashGraph a) fe) v h)|].
  split; [by eexists|]. split; [|done]. unfold initializeState.
  destruct (states (finalityStore a) !! hash v) eqn:Ef; [by rewrite Ef; eexists|].
  cbn. rewrite lookup_insert_eq. by eexists.
Qed.

(** C11 A replay is always possible: for any known dependencies a checkpoint is
    found (the walks terminate and the error "No valid linearization
    checkpoint" never happens), and when no vertex lists a redundant
    dependency the topological sort accepts its suffix and orders all of it. *)
Theorem replay_total (a : applier) (deps : list Hash) (Hr : applier_reach a)
    (Hk : ∀ d, d ∈ deps → is_Some (getVertex (hashGraph a) d)) :
  ∃ cp sub, @find_checkpoint V E (hashGraph a) deps (reverse (checkpoints a)) = Ok (cp, sub) ∧
    cp ∈ checkpoints a ∧
    (reduced (hashGraph a) → ∃ order,
       (dfsTopologicalSortIterative (hashGraph a) (cp_origin cp) sub).2 = Ok order ∧ order ≡ₚ elements sub).
Proof.
  destruct (reach_ainv a Hr) as [H1 (rcp & Hhd & Hroot) H3 _ _ _].
  assert (∀ d, d ∈ deps → known (hashGraph a) d) as Hk'.
  { intros d [w Hw]%Hk. by eapply jm_get_Some_keys. }
  destruct (find_checkpoint_spec (E := E) (hashGraph a) deps (reverse (checkpoints a)) H1)
    as (cp & sub & Hf & Hin & _ & Hc); [by apply Forall_reverse| |done|].
  { exists rcp. split; [|done]. apply elem_of_reverse. destruct (checkpoints a); simplify_eq/=. by left. }
  rewrite elem_of_reverse in Hin. exists cp, sub. split; [done|]. split; [done|]. intros Hred.
  rewrite Forall_forall in H3.
  destruct (suffix_reachable (hashGraph a) deps cp sub H1 (H3 cp Hin) Hk' Hc) as [Ho Hreach].
  destruct (dfs_reduced_order (hashGraph a) (cp_origin cp) sub H1 Ho Hreach Hred) as (l & Hl & Hp & _).
  by exists l.
Qed.



End properties.

(** ** A small application: a counter whose ACL bars one peer *)
Module Counter.

Definition get_n (o : object Z) : Z :=
  match jm_get o "n" with Some (PValue n) => n | _ => 0%Z end.

#[global] Instance app : Application Z string := {|
  run_method method args o :=
    match method, args with
    | "add"%string, [VNum k] => ([mkWrite (jm_set o "n" (PValue (get_n o + k)%Z)) WCompared], Ok (get_n o + k)%Z)
    | _, _ => ([], Throw "not a function"%string)
    end;
  query_isWriter _ peer := negb (String.eqb peer "mallory");
  query_getFinalitySigners _ := []
|}.

Definition sha (s : string) : Hash := s.
Definition now (_ : nat) : Z := 10.

Definition add (peer : string) (k : Z) : Vertex :=
  createVertex sha peer (mkOperation DrpType_DRP "add" [VNum k]) [rootHash] 5 None.

Definition fresh : @DRPVertexApplier Z :=
  mkApplier (new_HashGraph "me" None None (Some SemPair))
    (newStateManager [] (Some [("n"%string, PValue 0%Z)])) (Some [("n"%string, PValue 0%Z)]) []
    (newFinalityStore None) []
    [mkCheckpoint [rootHash] rootHash 1 (mkReplay [("n"%string, PValue 0%Z)] [])] 256 0 [].

Abbreviation receive := (@applyVertices Z string _ _ sha now 100).
Abbreviation call := (@callFn Z string _ _ sha now 100).

Lemma fresh_reach : applier_reach (E := string) sha now 100 fresh.
Proof.
  apply (reach_new sha now 100 "me" None None (Some SemPair) (Some [("n"%string, PValue 0%Z)]) []
    (newFinalityStore None) 256). vm_compute. reflexivity.
Qed.

(** The counter in a snapshot. *)
Definition snapshot_n (a : @DRPVertexApplier Z) (h : Hash) : option Z :=
  match getDRPState (states_ a) h with Some o => Some (get_n o) | None => None end.

(** The state of a local call made in [a], as its counter and the snapshot of
    the vertex it creates. *)
Definition after_add (a : @DRPVertexApplier Z) (k : Z) : option Z * option Z :=
  let v := local_vertex sha now a DrpType_DRP "add" [VNum k] in
  let a' := (call DrpType_DRP "add" [VNum k] a).1 in
  (get_n <$> drp a', snapshot_n a' (hash v)).

End Counter.

(** One run of a batch that fails half-way: a valid vertex (which adds 1) and one
    whose author is not a writer. The merge throws; the first vertex is in the
    graph, but the live counter does not have its effect, and a local operation
    that adds 10 is recorded on top of it with the snapshot 10, where a replica
    that received only the first vertex records 11 for the same operation. *)
Example aborted_merge_leaves_stale_state :
  let good := Counter.add "bob" 1 in
  let '(a, r) := Counter.receive [good; Counter.add "mallory" 1] Counter.fresh in
  let '(b, r') := Counter.receive [good] Counter.fresh in
  r = Throw (ENotWriter "mallory") ∧ getVertex (hashGraph a) (hash good) = Some good ∧
  getFrontier (hashGraph a) = [hash good] ∧ getFrontier (hashGraph b) = [hash good] ∧
  Counter.get_n <$> drp a = Some 0%Z ∧ Counter.get_n <$> drp b = Some 1%Z ∧
  Counter.after_add a 10 = (Some 10%Z, Some 10%Z) ∧ Counter.after_add b 10 = (Some 11%Z, Some 11%Z).
Proof. vm_compute. repeat split; reflexivity. Qed.

(** ** Witnesses *)

Definition counter_after : @DRPVertexApplier Z := (Counter.receive [Counter.add "bob" 1] Counter.fresh).1.

Lemma counter_after_reach : applier_reach (E := string) Counter.sha Counter.now 100 counter_after.
Proof. apply reach_receive, Counter.fresh_reach. Qed.

Lemma applier_invariant_witness : length (checkpoints counter_after) ≤ MAX_CHECKPOINTS ∧
  length (vertices (hashGraph counter_after)) = 2.
Proof.
  split; [|vm_compute; reflexivity].
  apply (applier_invariant Counter.sha Counter.now 100 counter_after counter_after_reach).
Defined.

Lemma apply_batch_accounts_witness :
  match Counter.receive [Counter.add "bob" 1] Counter.fresh with
  | (a', Ok r) => applied r = true ↔ missing r = [] ∧ invalid r = []
  | _ => False
  end.
Proof.
  pose proof (apply_batch_accounts Counter.sha Counter.now 100 Counter.fresh [Counter.add "bob" 1]
    Counter.fresh_reach) as Hb.
  assert ((Counter.receive [Counter.add "bob" 1] Counter.fresh).2 = Ok (mkApplyResult true [] [])) as Hr
    by (vm_compute; reflexivity).
  destruct (Counter.receive [Counter.add "bob" 1] Counter.fresh) as [a' r]. simpl in Hr. subst r.
  destruct Hb as (_ & _ & Happ & _). exact Happ.
Defined.

Lemma replay_total_witness : ∃ cp sub,
  @find_checkpoint Z string (hashGraph counter_after) [hash (Counter.add "bob" 1)]
    (reverse (checkpoints counter_after)) = Ok (cp, sub).
Proof.
  destruct (replay_total Counter.sha Counter.now 100 counter_after [hash (Counter.add "bob" 1)]
    counter_after_reach) as (cp & sub & Hf & _).
  - intros d ->%list_elem_of_singleton. vm_compute. by eexists.
  - exists cp, sub. exact Hf.
Defined.

Lemma suffix_barrier_witness : ∃ sub,
  collectSuffixSubgraph diamond ["c"%string] ["a"%string; "b"%string] "a" = Some (Some sub) ∧ "a"%string ∈ sub.
Proof.
  assert (∀ h, h ∈ ["a"%string; "b"%string; "c"%string] → is_Some (getVertex diamond h)) as Hk.
  { intros h Hh. rewrite !elem_of_cons, elem_of_nil in Hh.
    destruct Hh as [->|[->|[->|[]]]]; vm_compute; by eexists. }
  eexists. split; [vm_compute; reflexivity|].
  eapply (suffix_barrier diamond ["c"%string] ["a"%string; "b"%string] "a" _ wf_diamond);
    [..|vm_compute; reflexivity]; intros h Hh; apply Hk; set_solver.
Defined.

Lemma dependencies_cover_decides_witness : ∃ b,
  dependenciesCover diamond ["c"%string] ["a"%string] = Some b ∧ b = true.
Proof.
  destruct (dependencies_cover_decides diamond ["c"%string] ["a"%string] wf_diamond) as (b & Hb & _).
  - intros d ->%list_elem_of_singleton. vm_compute. by eexists.
  - exists b. split; [exact Hb|].
    assert (dependenciesCover diamond ["c"%string] ["a"%string] = Some true) as Ht by (vm_compute; reflexivity).
    congruence.
Defined.

