(* ===== verification/DrpObject.v ===== *)
(** * Objects ([packages/object/src/index.ts])

    [DRPObject] ties the hash graph, the applier, the snapshots and the finality
    store together. Its id commits to the peer that created it, and the ACL every
    replica starts from is derived from the id. [acl_object] gives the own
    properties of an ACL instance; the random salt of a new id is an argument. *)

From Stdlib Require Import Ascii.
From S2P Require Import Prelude JsMap JsNum Bits JsValue Types HashGraph Dag TopoSort Causality Lca Acl.
From S2P Require Import LegacyCausality Linearize Validation Finality Pipeline State Applier Replay.
From S2P Require Import ApplierInv ApplierProps.

(** ** Object ids *)

Definition OBJECT_ID_SEPARATOR : Ascii.ascii := ":"%char.

Definition defaultIDFromPeerID (peerId salt : string) : string :=
  (peerId +:+ String OBJECT_ID_SEPARATOR salt)%string.

(** [id.lastIndexOf(":")] *)
Fixpoint lastIndexOf (s : string) : option nat :=
  match s with
  | EmptyString => None
  | String c s =>
      match lastIndexOf s with
      | Some i => Some (S i)
      | None => if Ascii.eqb c OBJECT_ID_SEPARATOR then Some 0 else None
      end
  end.

Definition creatorFromObjectID (id : string) : option string :=
  match lastIndexOf id with
  | None | Some 0 => None
  | Some separatorIndex => Some (String.substring 0 separatorIndex id)
  end.

Definition genesisACL (peerId : string) (id : option string) : Acl.ObjectACL :=
  match id with
  | None => Acl.createPermissionlessACL [peerId]
  | Some id =>
      match creatorFromObjectID id with
      | None => Acl.createPermissionlessACL []
      | Some creator => Acl.createPermissionlessACL [creator]
      end
  end.

(** ** [DRPObject] *)

Section object.
Context {V E : Type} `{EqDecision V} `{Application V E}.
Context (sha256hex : string → Hash) (date_now : nat → Z) (linearize_fuel : nat).
Context (acl_object : Acl.ObjectACL → object V).

Inductive object_error :=
| RootACLState
| ApplierError (e : applier_error E).

Record DRPObject := mkObject {
  id : string;
  applier : @DRPVertexApplier V;
  subscriptions : list nat;                       (* the callbacks, as identifiers *)
  delivered : list (nat * string * list Vertex)   (* the calls of callbacks so far *)
}.

Record DRPObjectOptions := mkOptions {
  opt_peerId : string;
  opt_id : option string;
  opt_acl : option Acl.ObjectACL;
  opt_drp : option (object V);
  opt_resolveConflicts : option ResolveConflictFn;
  opt_semanticsType : option SemanticsType;
  opt_finalityThreshold : option SpecFloat.spec_float
}.

(** The constructor; [suffixSize] is the applier's configuration. *)
Definition newDRPObject (options : DRPObjectOptions) (salt : string) (suffixSize : nat) :
    res object_error DRPObject :=
  let peer := opt_peerId options in
  let acl := default (genesisACL peer (opt_id options)) (opt_acl options) in
  let hashGraph := new_HashGraph peer (Some (Acl.acl_resolveConflicts (Acl.conflictResolution acl)))
    (match opt_drp options with Some _ => opt_resolveConflicts options | None => None end)
    (match opt_drp options, opt_semanticsType options with
     | Some _, Some s => Some s
     | _, _ => Some SemPair     (* [acl.semanticsType] *)
     end) in
  match createDRPVertexApplier (opt_drp options) (acl_object acl) hashGraph
          (newFinalityStore (opt_finalityThreshold options)) suffixSize with
  | Throw e => Throw (ApplierError e)
  | Ok a => Ok (mkObject (default (defaultIDFromPeerID peer salt) (opt_id options)) a [] [])
  end.

(** [createObject]: the creator as the only admin. *)
Definition createObject (options : DRPObjectOptions) (salt : string) (suffixSize : nat) :
    res object_error DRPObject :=
  newDRPObject (mkOptions (opt_peerId options) (opt_id options)
    (Some (Acl.createPermissionlessACL [opt_peerId options])) (opt_drp options)
    (opt_resolveConflicts options) (opt_semanticsType options) None) salt suffixSize.

(** [vertices] and [getStates] *)
Definition object_vertices (o : DRPObject) : list Vertex := getAllVertices (hashGraph (applier o)).
Definition getStates (o : DRPObject) (h : Hash) : option (DRPState V) * option (DRPState V) :=
  (getACLState (states_ (applier o)) h, getDRPState (states_ (applier o)) h).

Definition with_applier (o : DRPObject) (a : @DRPVertexApplier V) : DRPObject :=
  mkObject (id o) a (subscriptions o) (delivered o).

Definition object_setACLState (o : DRPObject) (h : Hash) (st : DRPState V) : DRPObject * res object_error unit :=
  if bool_decide (h = rootHash) then (o, Throw RootACLState)
  else (with_applier o (with_states_ (applier o) (setACLState (states_ (applier o)) h st)), Ok tt).

Definition object_setDRPState (o : DRPObject) (h : Hash) (st : DRPState V) : DRPObject :=
  with_applier o (with_states_ (applier o) (setDRPState (states_ (applier o)) h st)).

(** [_notify]: the notifications made since [n] reach every subscription, in order. *)
Definition object_notify (o : DRPObject) (n : nat) : DRPObject :=
  mkObject (id o) (applier o) (subscriptions o)
    (delivered o ++ mjoin ((λ nv : string * list Vertex, (λ s, (s, nv.1, nv.2)) <$> subscriptions o)
                            <$> drop n (notifications (applier o)))).

Definition run_applier {A} (o : DRPObject) (m : eff (@DRPVertexApplier V) (applier_error E) A) :
    DRPObject * res object_error A :=
  let n := length (notifications (applier o)) in
  let '(a, r) := m (applier o) in
  (object_notify (with_applier o a) n, match r with Ok x => Ok x | Throw e => Throw (ApplierError e) end).

Definition object_applyVertices (o : DRPObject) (vs : list Vertex) : DRPObject * res object_error ApplyResult :=
  run_applier o (applyVertices sha256hex date_now linearize_fuel vs).

Definition object_merge (o : DRPObject) (vs : list Vertex) (rootACLState : option (DRPState V)) :
    DRPObject * res object_error (bool * list Hash * list Hash) :=
  match rootACLState with
  | Some _ => (o, Throw RootACLState)
  | None =>
      let '(o, r) := object_applyVertices o vs in
      (o, match r with Ok r => Ok (applied r, missing r, invalid r) | Throw e => Throw e end)
  end.

Definition object_subscribe (o : DRPObject) (callback : nat) : DRPObject :=
  mkObject (id o) (applier o) (subscriptions o ++ [callback]) (delivered o).

(** A method call through [object.drp] or [object.acl]. *)
Definition object_call (o : DRPObject) (type method : string) (args : list jsvalue) :
    DRPObject * res object_error (option V) :=
  run_applier o (proxyCall sha256hex date_now linearize_fuel type method args).

(** ** What the outside can do to an object *)

Inductive object_event :=
| OApply (vs : list Vertex)
| OMerge (vs : list Vertex) (rootACLState : option (DRPState V))
| OSetACL (h : Hash) (st : DRPState V)
| OSetDRP (h : Hash) (st : DRPState V)
| OSubscribe (callback : nat)
| OCall (type method : string) (args : list jsvalue).

Definition object_step (o : DRPObject) (ev : object_event) : DRPObject :=
  match ev with
  | OApply vs => (object_applyVertices o vs).1
  | OMerge vs st => (object_merge o vs st).1
  | OSetACL h st => (object_setACLState o h st).1
  | OSetDRP h st => object_setDRPState o h st
  | OSubscribe c => object_subscribe o c
  | OCall type method args => (object_call o type method args).1
  end.

(** A local call makes a vertex with a hash that is not in the graph yet. *)
Definition event_fresh (o : DRPObject) (ev : object_event) : Prop :=
  match ev with
  | OCall type method args => bypasses method = false →
      getVertex (hashGraph (applier o)) (hash (local_vertex sha256hex date_now (applier o) type method args)) = None
  | _ => True
  end.

Inductive object_run : DRPObject → DRPObject → Prop :=
| run_refl o : object_run o o
| run_step o o' ev : object_run o o' → event_fresh o' ev → object_run o (object_step o' ev).

Definition root_acl (o : DRPObject) : option (DRPState V) := getACLState (states_ (applier o)) rootHash.

(** A method that bypasses the pipeline can only change the live objects. *)
Lemma callTarget_live (a : DRPVertexApplier (V := V)) type method args :
  ∃ d l, (callTarget (E := E) type method args a).1 = with_live a d l.
Proof.
  unfold callTarget. case_bool_decide.
  - destruct (run_method method args (acl a)) as [ws r]. by eexists _, _.
  - destruct (drp a) as [o|] eqn:Ed.
    + destruct (run_method method args o) as [ws r]. by eexists _, _.
    + exists (drp a), (acl a). by destruct a.
Qed.

(** Every event keeps the applier's invariant and the ACL snapshot of the root. *)
Lemma step_root o ev : ainv (applier o) → event_fresh o ev →
  ainv (applier (object_step o ev)) ∧ root_acl (object_step o ev) = root_acl o.
Proof.
  intros Ha Hf.
  assert (∀ vs, ainv (applier (object_applyVertices o vs).1) ∧
    root_acl (object_applyVertices o vs).1 = root_acl o) as Happly.
  { intros vs. pose proof (applyVertices_ok (E := E) sha256hex date_now linearize_fuel (applier o) vs
      (applier o) (grown_refl (applier o) vs Ha)) as Hg.
    unfold object_applyVertices, run_applier.
    destruct (applyVertices _ _ _ _ _) as [a' [r|e]]; [destruct Hg as [Hg _]|]; by destruct Hg. }
  destruct ev as [vs|vs [st|]|h st|h st|c|type method args]; simpl.
  - apply Happly.
  - done.
  - specialize (Happly vs). unfold object_merge. by destruct (object_applyVertices o vs) as [o' r].
  - unfold object_setACLState. case_bool_decide as Hr; [done|].
    unfold root_acl, getACLState. simpl. rewrite lookup_insert_ne by done. split; [|done].
    destruct Ha as [H1 H2 H3 H4 H5 [H6 H7]]. split; try done. simpl. split; [done|].
    unfold getACLState. simpl. by rewrite lookup_insert_ne.
  - split; [|done]. destruct Ha as [H1 H2 H3 H4 H5 [H6 H7]]. split; try done. simpl. split; [|done].
    unfold getDRPState in *. simpl. rewrite lookup_insert.
    destruct (decide (h = rootHash)); [by eapply mk_is_Some|done].
  - done.
  - unfold object_call, run_applier, proxyCall. destruct (bypasses method) eqn:Hb.
    { pose proof (callTarget_live (applier o) type method args) as Hl.
      destruct (callTarget _ _ _ _) as [a' r]. simpl in Hl. destruct Hl as (d & l & ->). by destruct Ha. }
    pose proof (call_end (E := E) sha256hex date_now linearize_fuel (applier o) type method args Ha (Hf Hb)) as Hc.
    destruct (callFn _ _ _ _ _ _ _) as [a' r]. destruct Hc as [Hinv Hr].
    split; [done|]. unfold root_acl. simpl.
    destruct r; [destruct Hr as [Hr|Hr]|]; [apply (un_root _ _ Hr)|apply (rc_root _ _ _ _ Hr)|apply (un_root _ _ Hr)].
Qed.

Lemma run_root o o' : ainv (applier o) → object_run o o' →
  ainv (applier o') ∧ root_acl o' = root_acl o.
Proof.
  intros Ha. induction 1 as [|o o' ev _ IH Hf]; [done|]. destruct (IH Ha) as [IH1 IH2].
  destruct (step_root o' ev IH1 Hf) as [S1 S2]. split; [done|congruence].
Qed.

(** C21 The genesis authority of an object is fixed: whatever vertices, states,
    root ACLs or calls reach it, the ACL snapshot at the root stays the one
    derived at construction; a root ACL offered by [setACLState] or [merge] is
    refused and changes nothing. *)
Theorem genesis_acl_fixed options salt n o o' st vs :
  newDRPObject options salt n = Ok o → object_run o o' →
  getACLState (states_ (applier o')) rootHash =
    Some (stateFromDRP (Some (acl_object (default (genesisACL (opt_peerId options) (opt_id options))
                                            (opt_acl options))))) ∧
  object_setACLState o' rootHash st = (o', Throw RootACLState) ∧
  object_merge o' vs (Some st) = (o', Throw RootACLState).
Proof.
  intros Hn Hrun. unfold newDRPObject in Hn. destruct (createDRPVertexApplier _ _ _ _ _) as [a|e] eqn:Hc; [|done].
  apply Ok_inj in Hn. pose proof (new_ainv _ _ _ _ _ _ _ _ _ Hc) as Ha. subst o.
  destruct ((λ Hi, run_root _ _ Hi Hrun) Ha) as [_ Hroot]. split; [|by unfold object_setACLState; rewrite bool_decide_true].
  unfold root_acl in Hroot. rewrite Hroot. simpl.
  unfold createDRPVertexApplier, newApplier, getDRPState, getACLState, newStateManager in *. simpl in *.
  rewrite !lookup_singleton_eq in Hc. apply Ok_inj in Hc. subst a. simpl. apply lookup_singleton_eq.
Qed.

End object.

(** ** Ids *)

Lemma lastIndexOf_app p salt : lastIndexOf salt = None →
  lastIndexOf (defaultIDFromPeerID p salt) = Some (String.length p).
Proof.
  intros Hs. unfold defaultIDFromPeerID. induction p as [|c p IH]; simpl; [by rewrite Hs|]. by rewrite IH.
Qed.

Lemma substring_prefix p s : String.substring 0 (String.length p) (p +:+ s) = p.
Proof. induction p as [|c p IH]; simpl; [by destruct s|]. by rewrite IH. Qed.

(** C22 An object id names its creator: from the id of an object created by [p]
    (a nonempty peer id, any salt without a separator) every replica recovers
    [p] and derives the ACL the creator started with, in which [p] is the only
    admin; from an id without a creator it derives an ACL with no admin. *)
Theorem genesis_derivation (p salt joiner id q : string) :
  p ≠ EmptyString → lastIndexOf salt = None →
  creatorFromObjectID (defaultIDFromPeerID p salt) = Some p ∧
  genesisACL joiner (Some (defaultIDFromPeerID p salt)) = genesisACL p None ∧
  (Acl.query_isAdmin (genesisACL p None) q = true ↔ q = p) ∧
  (creatorFromObjectID id = None → Acl.query_isAdmin (genesisACL joiner (Some id)) q = false).
Proof.
  intros Hp Hs.
  assert (creatorFromObjectID (defaultIDFromPeerID p salt) = Some p) as Hc.
  { unfold creatorFromObjectID. rewrite lastIndexOf_app by done.
    destruct (String.length p) eqn:El; [by destruct p|]. rewrite <- El.
    f_equal. unfold defaultIDFromPeerID. apply substring_prefix. }
  split; [done|]. split; [simpl; by rewrite Hc|]. split.
  - unfold Acl.query_isAdmin, Acl.has_group. simpl. case_decide; [subst; done|]. simpl. naive_solver.
  - intros Hn. simpl. by rewrite Hn.
Qed.

Lemma genesis_derivation_witness :
  creatorFromObjectID (defaultIDFromPeerID "12D3KooW" "a0b1") = Some "12D3KooW"%string ∧
  genesisACL "bob" (Some "12D3KooW:a0b1"%string) = genesisACL "12D3KooW" None.
Proof.
  destruct (genesis_derivation "12D3KooW" "a0b1" "bob" "x" "q") as (H1 & H2 & _); [done|reflexivity|].
  split; [exact H1|exact H2].
Defined.

Lemma genesis_acl_fixed_witness : ∃ o : @DRPObject Z,
  newDRPObject (E := string) (λ _, []) (mkOptions "me" None None None None None None) "00" 256 = Ok o ∧
  object_setACLState (E := string) o rootHash [] = (o, Throw RootACLState).
Proof.
  eexists. split; [vm_compute; reflexivity|].
  eapply (genesis_acl_fixed (E := string) Counter.sha Counter.now 100 (λ _, [])
    (mkOptions "me" None None None None None None) "00" 256 _ _ [] []);
    [vm_compute; reflexivity|apply run_refl].
Defined.
