(* ===== verification/Channel.v ===== *)
(** * Channels ([packages/message-queue/src/channel.ts])

    A [Channel] hands values from senders to receivers through a bounded
    buffer. A promise a caller waits on ([Deferred]) is a numbered signal; an
    operation gives back the signals it settles. [undefined] values are [None]. *)

From S2P Require Import Prelude.

Section channel.
Context {T : Type}.

Record Channel := mkChannel {
  values : list T;
  sends : list (T * nat);
  receives : list nat;
  capacity : nat;
  isClosed : bool;
  signals : nat          (* the next signal *)
}.

Inductive channel_error := ChannelClosedError | UndefinedValue.

Inductive settled :=
| ResolveReceive (signal : nat) (v : T)
| RejectReceive (signal : nat)
| ResolveSend (signal : nat)
| RejectSend (signal : nat).

Definition newChannel (cap : option nat) : Channel := mkChannel [] [] [] (default 1000 cap) false 0.

Inductive send_outcome := Sent | SendWaits (signal : nat).
Inductive receive_outcome := Received (v : T) | ReceiveWaits (signal : nat).

Definition send (c : Channel) (value : option T) : Channel * list settled * res channel_error send_outcome :=
  if isClosed c then (c, [], Throw ChannelClosedError)
  else
    match value with
    | None => (c, [], Throw UndefinedValue)
    | Some v =>
        match receives c with
        | recv :: rest =>
            (mkChannel (values c) (sends c) rest (capacity c) false (signals c), [ResolveReceive recv v], Ok Sent)
        | [] =>
            if length (values c) <? capacity c
            then (mkChannel (values c ++ [v]) (sends c) [] (capacity c) false (signals c), [], Ok Sent)
            else (mkChannel (values c) (sends c ++ [(v, signals c)]) [] (capacity c) false (S (signals c)), [],
                  Ok (SendWaits (signals c)))
        end
    end.

Definition receive (c : Channel) : Channel * list settled * res channel_error receive_outcome :=
  if isClosed c then (c, [], Throw ChannelClosedError)
  else
    match values c with
    | v :: rest =>
        (mkChannel rest (sends c) (receives c) (capacity c) false (signals c), [], Ok (Received v))
    | [] =>
        match sends c with
        | (v, signal) :: rest =>
            (mkChannel [] rest (receives c) (capacity c) false (signals c), [ResolveSend signal], Ok (Received v))
        | [] =>
            (mkChannel [] [] (receives c ++ [signals c]) (capacity c) false (S (signals c)), [],
             Ok (ReceiveWaits (signals c)))
        end
    end.

Definition close (c : Channel) : Channel * list settled :=
  (mkChannel [] [] [] (capacity c) true (signals c),
   ((λ s : T * nat, RejectSend s.2) <$> sends c) ++ (RejectReceive <$> receives c)).

Definition start (c : Channel) : Channel :=
  if isClosed c then mkChannel [] [] [] (capacity c) false (signals c) else c.

(** ** Runs: who sent what, who got what *)

Inductive channel_event := ESend (v : T) | EReceive | EClose | EStart.

Record history := mkHistory {
  h_channel : Channel;
  h_accepted : list T;     (* values whose [send] did not throw *)
  h_delivered : list T;    (* values that reached a receiver, in order *)
  h_discarded : list T     (* values dropped by [close] *)
}.

Definition receipts (l : list settled) : list T :=
  omap (λ s, match s with ResolveReceive _ v => Some v | _ => None end) l.

Definition channel_step (h : history) (e : channel_event) : history :=
  let c := h_channel h in
  match e with
  | ESend v =>
      let '(c', settled, r) := send c (Some v) in
      mkHistory c' (match r with Ok _ => h_accepted h ++ [v] | Throw _ => h_accepted h end)
        (h_delivered h ++ receipts settled) (h_discarded h)
  | EReceive =>
      let '(c', settled, r) := receive c in
      mkHistory c' (h_accepted h)
        (match r with Ok (Received v) => h_delivered h ++ [v] | _ => h_delivered h end) (h_discarded h)
  | EClose =>
      mkHistory (close c).1 (h_accepted h) (h_delivered h) (h_discarded h ++ values c ++ (sends c).*1)
  | EStart => mkHistory (start c) (h_accepted h) (h_delivered h) (h_discarded h)
  end.

Definition channel_run (cap : option nat) (es : list channel_event) : history :=
  foldl channel_step (mkHistory (newChannel cap) [] [] []) es.

(** Receivers wait only on an empty channel; the buffer is bounded; a closed
    channel holds nothing. *)
Record channel_wf (c : Channel) : Prop := {
  cw_waiting : receives c ≠ [] → values c = [] ∧ sends c = [];
  cw_bounded : length (values c) ≤ capacity c;
  cw_closed : isClosed c = true → values c = [] ∧ sends c = [] ∧ receives c = []
}.

Record history_ok (h : history) : Prop := {
  ho_wf : channel_wf (h_channel h);
  ho_conserved : h_accepted h ≡ₚ h_delivered h ++ h_discarded h ++ values (h_channel h) ++ (sends (h_channel h)).*1
}.

Lemma channel_step_ok h e : history_ok h → history_ok (channel_step h e).
Proof.
  intros [Hw Hc]. pose proof Hw as [W1 W2 W3]. destruct h as [c acc del dis]. simpl in *.
  destruct e as [v| | |]; simpl.
  - unfold send. destruct (isClosed c) eqn:Ecl; [simpl; rewrite app_nil_r; by split|].
    destruct (receives c) as [|recv rest] eqn:Er; simpl.
    + destruct (Nat.ltb_spec (length (values c)) (capacity c)) as [Hlt|Hge]; split; simpl;
        rewrite ?app_nil_r; try (split; simpl; [done|rewrite ?length_app; simpl; lia|done]).
      * rewrite Hc, <- !app_assoc. do 3 apply Permutation_app_head. apply Permutation_app_comm.
      * rewrite fmap_app, Hc, <- !app_assoc. done.
    + destruct W1 as [V1 V2]; [done|]. split; simpl.
      * split; simpl; [done|lia|done].
      * rewrite Hc, V1, V2. simpl. rewrite !app_nil_r, <- !app_assoc. apply Permutation_app_head, Permutation_app_comm.
  - unfold receive. destruct (isClosed c) eqn:Ecl; [by split|].
    destruct (values c) as [|x rest] eqn:Ev; simpl in *.
    + destruct (sends c) as [|[y s] rest] eqn:Es; simpl in *; split; simpl.
      * split; simpl; [done|lia|done].
      * done.
      * split; simpl; [intros Hr; by destruct (W1 Hr)|lia|done].
      * rewrite Hc, <- !app_assoc. apply Permutation_app_head. simpl. symmetry. apply Permutation_middle.
    + split; simpl.
      * split; simpl; [intros Hr; by destruct (W1 Hr)|lia|done].
      * rewrite Hc, <- !app_assoc. apply Permutation_app_head. simpl. symmetry. apply Permutation_middle.
  - split; simpl; [split; simpl; [done|lia|done]|]. by rewrite !app_nil_r, Hc.
  - unfold start. destruct (isClosed c) eqn:Ecl; [|by split].
    destruct (W3 eq_refl) as (V1 & V2 & V3). split; simpl; [split; simpl; [done|lia|done]|].
    by rewrite Hc, V1, V2.
Qed.

Lemma channel_run_ok cap es : history_ok (channel_run cap es).
Proof.
  unfold channel_run. assert (history_ok (mkHistory (newChannel cap) [] [] [])) as H0.
  { split; [split; simpl; [done|lia|done]|done]. }
  revert H0. generalize (mkHistory (newChannel cap) [] [] []). induction es as [|e es IH]; intros h Hh; [done|].
  simpl. apply IH. by apply channel_step_ok.
Qed.

(** C19 A channel loses and duplicates nothing: after any sequence of sends,
    receives, closes and restarts, the accepted values are exactly those
    delivered, those discarded by a close, those buffered and those of waiting
    senders; the buffer never exceeds the capacity, and a receiver waits only
    when nothing is buffered or waiting to be sent. *)
Theorem channel_conserves (cap : option nat) (es : list channel_event) :
  let h := channel_run cap es in
  let c := h_channel h in
  h_accepted h ≡ₚ h_delivered h ++ h_discarded h ++ values c ++ (sends c).*1 ∧
  length (values c) ≤ capacity c ∧
  (receives c ≠ [] → values c = [] ∧ sends c = []).
Proof. destruct (channel_run_ok cap es) as [[H1 H2 H3] H4]. done. Qed.

(** A step of a run in which no sender waits keeps the order. *)
Lemma channel_step_fifo h e : e ≠ EClose → e ≠ EStart → history_ok h → isClosed (h_channel h) = false →
  sends (h_channel (channel_step h e)) = [] → sends (h_channel h) = [] →
  h_accepted h = h_delivered h ++ values (h_channel h) →
  isClosed (h_channel (channel_step h e)) = false ∧
  h_accepted (channel_step h e) = h_delivered (channel_step h e) ++ values (h_channel (channel_step h e)).
Proof.
  intros Hc1 Hc2 [[W1 W2 W3] _] Hcl. destruct h as [c acc del dis]. simpl in *.
  destruct e as [v| | |]; [| |done|done]; simpl; unfold send, receive; rewrite Hcl.
  - destruct (receives c) as [|recv rest] eqn:Er; simpl.
    + destruct (_ <? _); simpl.
      * intros _ _ ->. by rewrite app_nil_r, app_assoc.
      * intros Hs%app_nil. by destruct Hs.
    + intros _ _ ->. destruct W1 as [-> _]; [done|]. by rewrite !app_nil_r.
  - destruct (values c) as [|x rest] eqn:Ev; simpl.
    + destruct (sends c) as [|[y s] rest] eqn:Es; simpl; [|done]. by intros _ _ ->.
    + intros _ _ ->. by rewrite <- app_assoc.
Qed.

Fixpoint never_blocks (h : history) (es : list channel_event) : Prop :=
  match es with
  | [] => True
  | e :: es =>
      e ≠ EClose ∧ e ≠ EStart ∧ sends (h_channel (channel_step h e)) = [] ∧ never_blocks (channel_step h e) es
  end.

(** C34 As long as no sender has to wait, a channel is first in, first out: the
    delivered values followed by the buffered ones are the accepted values in
    the order they were sent. *)
Theorem channel_fifo (cap : option nat) (es : list channel_event) :
  never_blocks (mkHistory (newChannel cap) [] [] []) es →
  let h := channel_run cap es in h_accepted h = h_delivered h ++ values (h_channel h).
Proof.
  unfold channel_run. assert (history_ok (mkHistory (newChannel cap) [] [] [])) as H0 by apply (channel_run_ok cap []).
  assert (isClosed (h_channel (mkHistory (newChannel cap) [] [] [])) = false) as Hcl by done.
  assert (sends (h_channel (mkHistory (newChannel cap) [] [] [])) = []) as Hs by done.
  assert (∀ h, h = mkHistory (newChannel cap) [] [] [] → h_accepted h = h_delivered h ++ values (h_channel h)) as Hi
    by (by intros h ->).
  specialize (Hi _ eq_refl). revert H0 Hcl Hs Hi. generalize (mkHistory (newChannel cap) [] [] []).
  induction es as [|e es IH]; intros h H0 Hcl Hs Hi; [done|]. simpl. intros (H1 & H2 & H3 & H4).
  destruct (channel_step_fifo h e H1 H2 H0 Hcl H3 Hs Hi) as [Hcl' Hi']. apply IH; try done.
  by apply channel_step_ok.
Qed.

(** Receives take the buffered values first, in order. *)
Lemma receive_buffered vs h rest : isClosed (h_channel h) = false → values (h_channel h) = vs ++ rest →
  let h' := foldl channel_step h (replicate (length vs) EReceive) in
  h_delivered h' = h_delivered h ++ vs ∧ h_accepted h' = h_accepted h ∧
  values (h_channel h') = rest ∧ sends (h_channel h') = sends (h_channel h).
Proof.
  revert h. induction vs as [|v vs IH]; intros h Hcl Hv; [by rewrite app_nil_r|]. simpl.
  destruct (IH (channel_step h EReceive)) as (E1 & E2 & E3 & E4);
    destruct h as [c acc del dis]; simpl in *; unfold receive in *; rewrite Hcl, Hv in *; simpl in *; [done..|].
  rewrite E1, <- app_assoc. done.
Qed.

(** C39 A sender that has to wait is overtaken: take any reachable state of an open
    channel of any capacity in which values are buffered and some sender waits.
    After one receive, a new send goes into the freed slot; it is delivered as
    soon as the buffer has been received, while every sender that waited before
    it, whose value was accepted earlier, still waits. *)
Theorem waiting_sender_overtaken (cap : option nat) (es : list channel_event) (x w : T) :
  let h := channel_run cap es in
  isClosed (h_channel h) = false → values (h_channel h) ≠ [] → w ∈ (sends (h_channel h)).*1 →
  let h' := channel_step (channel_step h EReceive) (ESend x) in
  let h'' := foldl channel_step h' (replicate (length (values (h_channel h))) EReceive) in
  w ∈ h_accepted h ∧ h_accepted h'' = h_accepted h ++ [x] ∧
  h_delivered h'' = h_delivered h ++ values (h_channel h) ++ [x] ∧
  sends (h_channel h'') = sends (h_channel h).
Proof.
  cbv zeta. destruct (channel_run_ok cap es) as [[W1 W2 W3] Hc].
  destruct (channel_run cap es) as [c acc del dis]. cbn [h_channel h_accepted h_delivered h_discarded] in *.
  intros Hcl Hv Hw. destruct (values c) as [|v rest] eqn:Ev; [done|].
  assert (receives c = []) as Er.
  { destruct (receives c); [done|]. by destruct (W1 ltac:(done)). }
  set (h' := mkHistory (mkChannel (rest ++ [x]) (sends c) [] (capacity c) false (signals c))
               (acc ++ [x]) (del ++ [v]) dis).
  assert (channel_step (channel_step (mkHistory c acc del dis) EReceive) (ESend x) = h') as ->.
  { simpl in *. unfold receive. rewrite Hcl, Ev. simpl. unfold send. simpl. rewrite Er.
    destruct (Nat.ltb_spec (length rest) (capacity c)); [|lia]. simpl. by rewrite app_nil_r. }
  replace (length (v :: rest)) with (length (rest ++ [x])) by (rewrite length_app; simpl; lia).
  destruct (receive_buffered (rest ++ [x]) h' []) as (E1 & E2 & _ & E4); [done|by rewrite app_nil_r|].
  rewrite E1, E2, E4. simpl. split_and!; [|done|by rewrite <- app_assoc|done].
  rewrite Hc, !elem_of_app. auto.
Qed.

End channel.
Arguments Channel : clear implicits.
Arguments channel_event : clear implicits.
Arguments settled : clear implicits.

(** One run: with capacity 1, the values sent as 1, 2, 3 arrive as 1, 3, 2. *)
Example channel_reorders :
  let h := channel_run (Some 1) [ESend 1; ESend 2; EReceive; ESend 3; EReceive; EReceive] in
  h_accepted h = [1; 2; 3] ∧ h_delivered h = [1; 3; 2].
Proof. vm_compute. split; reflexivity. Qed.

Lemma waiting_sender_overtaken_witness :
  let h := channel_run (Some 1) [ESend 1; ESend 2] in
  let h'' := foldl channel_step (channel_step (channel_step h EReceive) (ESend 3)) [EReceive] in
  (sends (h_channel h)).*1 = [2] ∧ h_delivered h'' = [1; 3] ∧ sends (h_channel h'') = sends (h_channel h).
Proof.
  cbv zeta. split; [reflexivity|].
  destruct (waiting_sender_overtaken (Some 1) [ESend 1; ESend 2] 3 2) as (_ & _ & H1 & H2);
    [reflexivity|discriminate|left|]. split; [exact H1|exact H2].
Defined.

Lemma channel_fifo_witness :
  h_accepted (channel_run (Some 2) [ESend 1; ESend 2; EReceive; ESend 3]) = [1; 2; 3] ∧
  h_accepted (channel_run (Some 2) [ESend 1; ESend 2; EReceive; ESend 3]) =
  h_delivered (channel_run (Some 2) [ESend 1; ESend 2; EReceive; ESend 3]) ++
  values (h_channel (channel_run (Some 2) [ESend 1; ESend 2; EReceive; ESend 3])).
Proof.
  split; [reflexivity|]. apply (channel_fifo (Some 2) [ESend 1; ESend 2; EReceive; ESend 3]).
  vm_compute. repeat split; (reflexivity || discriminate).
Defined.
