(* ===== verification/MessageQueue.v ===== *)
(** * Message queues ([packages/message-queue/src/message-queue.ts], [message-queue-manager.ts])

    A [MessageQueue] owns a channel and an asynchronous loop that hands every
    message to all subscribers. Closing and starting again replaces the channel
    and starts a new loop, which waits for the previous one ([fanoutLoopDone]).
    The loops are threads: each has its channel and its program point, and the
    queue is a transition system in which the calls of the outside and the
    steps of the loops interleave. A [Channel] object is an index into the
    channels made so far, so that [channel === this.channel] compares indices.
    A handler call is one step; what handlers throw is caught and logged. *)

From S2P Require Import Prelude JsMap Channel.

Section queue.
Context {T : Type}.

(** Where a loop is: waiting for the previous loop; at the loop condition;
    waiting for the promise of [receive]; about to call subscriber [i] with a
    message; finished. *)
Inductive point :=
| WaitPrevious
| AtTop
| Awaiting (signal : nat)
| Delivering (message : T) (i : nat)
| Finished.

Record fanout := mkFanout { fl_channel : nat; fl_point : point }.

Record MessageQueue := mkQueue {
  maxSize : nat;
  channels : list (Channel T);
  current : nat;                       (* [this.channel] *)
  isActive : bool;
  subscribers : list nat;
  fanoutLoopStarted : bool;
  loops : list fanout;
  promises : list (nat * settled T);     (* settled signals, with their channel *)
  (* histories *)
  handled : list (T * nat);            (* calls of handlers: message and subscriber, in order *)
  taken : list (T * nat);              (* messages the loops received, each with the number
                                          of subscribers at that moment *)
  accepted : list T;                   (* messages whose [send] did not throw *)
  discarded : list T                   (* messages a channel held when it was closed *)
}.

Definition newQueue (size : option nat) : MessageQueue :=
  mkQueue (default 1000 size) [newChannel (Some (default 1000 size))] 0 true [] false [] [] [] [] [] [].

Definition with_channel (q : MessageQueue) (k : nat) (c : Channel T) (s : list (settled T)) : MessageQueue :=
  mkQueue (maxSize q) (<[k := c]> (channels q)) (current q) (isActive q) (subscribers q)
    (fanoutLoopStarted q) (loops q) (promises q ++ (pair k <$> s)) (handled q) (taken q) (accepted q) (discarded q).

Definition with_loop (q : MessageQueue) (k : nat) (p : point) : MessageQueue :=
  mkQueue (maxSize q) (channels q) (current q) (isActive q) (subscribers q) (fanoutLoopStarted q)
    (alter (λ l, mkFanout (fl_channel l) p) k (loops q)) (promises q) (handled q) (taken q) (accepted q) (discarded q).

(** The history of the messages received. *)
Definition take_message (q : MessageQueue) (v : T) : MessageQueue :=
  mkQueue (maxSize q) (channels q) (current q) (isActive q) (subscribers q) (fanoutLoopStarted q)
    (loops q) (promises q) (handled q) (taken q ++ [(v, length (subscribers q))])
    (accepted q) (discarded q).

Definition accept_message (q : MessageQueue) (message : option T) (r : res channel_error send_outcome) :
    MessageQueue :=
  match message, r with
  | Some v, Ok _ =>
      mkQueue (maxSize q) (channels q) (current q) (isActive q) (subscribers q) (fanoutLoopStarted q)
        (loops q) (promises q) (handled q) (taken q) (accepted q ++ [v]) (discarded q)
  | _, _ => q
  end.

Inductive queue_error := QueueClosed | QueueChannel (e : channel_error).

(** [enqueue]; the promise of a waiting sender is not followed. *)
Definition enqueue (q : MessageQueue) (message : option T) : MessageQueue * res queue_error unit :=
  if isActive q then
    match channels q !! current q with
    | None => (q, Ok tt)
    | Some c =>
        let '(c', s, r) := send c message in
        (accept_message (with_channel q (current q) c' s) message r,
         match r with Ok _ => Ok tt | Throw e => Throw (QueueChannel e) end)
    end
  else (q, Throw QueueClosed).

Definition startFanoutLoop (q : MessageQueue) : MessageQueue :=
  if fanoutLoopStarted q || negb (isActive q) || bool_decide (subscribers q = []) then q
  else
    mkQueue (maxSize q) (channels q) (current q) (isActive q) (subscribers q) true
      (loops q ++ [mkFanout (current q) WaitPrevious]) (promises q) (handled q) (taken q) (accepted q) (discarded q).

Definition subscribe (q : MessageQueue) (handler : nat) : MessageQueue :=
  startFanoutLoop
    (mkQueue (maxSize q) (channels q) (current q) (isActive q) (subscribers q ++ [handler])
       (fanoutLoopStarted q) (loops q) (promises q) (handled q) (taken q) (accepted q) (discarded q)).

Definition close_queue (q : MessageQueue) : MessageQueue :=
  if isActive q then
    match channels q !! current q with
    | None => q
    | Some c =>
        let '(c', s) := close c in
        let q := with_channel q (current q) c' s in
        mkQueue (maxSize q) (channels q) (current q) false (subscribers q) (fanoutLoopStarted q)
          (loops q) (promises q) (handled q) (taken q) (accepted q) (discarded q ++ values c ++ (sends c).*1)
    end
  else q.

Definition start_queue (q : MessageQueue) : MessageQueue :=
  if isActive q then q
  else
    startFanoutLoop
      (mkQueue (maxSize q) (channels q ++ [newChannel (Some (maxSize q))]) (length (channels q)) true
         (subscribers q) false (loops q) (promises q) (handled q) (taken q) (accepted q) (discarded q)).

(** The [finally] clause. *)
Definition finish (q : MessageQueue) (k : nat) (l : fanout) : MessageQueue :=
  let q := with_loop q k Finished in
  if bool_decide (fl_channel l = current q)
  then mkQueue (maxSize q) (channels q) (current q) (isActive q) (subscribers q) false (loops q)
         (promises q) (handled q) (taken q) (accepted q) (discarded q)
  else q.

(** The value or the rejection of a receive signal, once settled. *)
Definition settlement (q : MessageQueue) (chan signal : nat) : option (option T) :=
  foldr (λ p acc,
    match p with
    | (c, ResolveReceive s v) => if bool_decide (c = chan ∧ s = signal) then Some (Some v) else acc
    | (c, RejectReceive s) => if bool_decide (c = chan ∧ s = signal) then Some None else acc
    | _ => acc
    end) None (promises q).

(** The previous loop is done; the first loop waits for a resolved promise. *)
Definition previous_done (q : MessageQueue) (k : nat) : bool :=
  match k with
  | O => true
  | S k => match fl_point <$> loops q !! k with Some Finished => true | _ => false end
  end.

(** One step of [runFanoutLoop] of loop [k]; [None]: it has to wait. *)
Definition loop_step (q : MessageQueue) (k : nat) : option MessageQueue :=
  match loops q !! k with
  | None => None
  | Some l =>
      match fl_point l with
      | Finished => None
      | WaitPrevious => if previous_done q k then Some (with_loop q k AtTop) else None
      | AtTop =>
          if isActive q && bool_decide (fl_channel l = current q) then
            match channels q !! fl_channel l with
            | None => Some (finish q k l)
            | Some c =>
                let '(c', s, r) := receive c in
                let q := with_channel q (fl_channel l) c' s in
                match r with
                | Ok (Received v) => Some (with_loop (take_message q v) k (Delivering v 0))
                | Ok (ReceiveWaits signal) => Some (with_loop q k (Awaiting signal))
                | Throw ChannelClosedError => Some (finish q k l)
                | Throw UndefinedValue => Some q
                end
            end
          else Some (finish q k l)
      | Awaiting signal =>
          match settlement q (fl_channel l) signal with
          | None => None
          | Some (Some v) => Some (with_loop (take_message q v) k (Delivering v 0))
          | Some None => Some (finish q k l)
          end
      | Delivering v i =>
          match subscribers q !! i with
          | None => Some (with_loop q k AtTop)
          | Some h =>
              let q := with_loop q k (Delivering v (S i)) in
              Some (mkQueue (maxSize q) (channels q) (current q) (isActive q) (subscribers q)
                      (fanoutLoopStarted q) (loops q) (promises q) (handled q ++ [(v, h)]) (taken q) (accepted q) (discarded q))
          end
      end
  end.

Inductive queue_step : MessageQueue → MessageQueue → Prop :=
| step_enqueue q m : queue_step q (enqueue q m).1
| step_subscribe q h : queue_step q (subscribe q h)
| step_close q : queue_step q (close_queue q)
| step_start q : queue_step q (start_queue q)
| step_loop q q' k : loop_step q k = Some q' → queue_step q q'.

Definition queue_reach (size : option nat) : MessageQueue → Prop := rtc queue_step (newQueue size).

(** ** The invariant *)

Definition after (p p' : point) : Prop := p ≠ Finished → p' = WaitPrevious.

(** At most one loop runs: those before it are done, those after it wait. *)
Definition serial (ls : list fanout) : Prop :=
  ∀ i j l l', i < j → ls !! i = Some l → ls !! j = Some l' → after (fl_point l) (fl_point l').

Record core_inv (q : MessageQueue) : Prop := {
  qi_current : length (channels q) = S (current q);
  qi_open : ∃ c, channels q !! current q = Some c ∧ isClosed c = negb (isActive q);
  qi_order : ∀ i j l l', i < j → loops q !! i = Some l → loops q !! j = Some l' → fl_channel l < fl_channel l';
  qi_loops : ∀ i l, loops q !! i = Some l → fl_channel l ≤ current q;
  qi_running : isActive q = true → ∀ i l, loops q !! i = Some l → fl_channel l = current q →
    fl_point l ≠ Finished ∧ fanoutLoopStarted q = true;
  qi_started : isActive q = true → fanoutLoopStarted q = true →
    ∃ i l, loops q !! i = Some l ∧ fl_channel l = current q;
  qi_serial : serial (loops q);
  qi_promises : ∀ k s, (k, s) ∈ promises q → k ≤ current q;
  qi_rejected : ∀ s, (current q, RejectReceive s) ∈ promises q → isActive q = false
}.

(** An active queue with subscribers has its loop. *)
Record queue_inv (q : MessageQueue) : Prop := {
  qi_core : core_inv q;
  qi_subscribed : isActive q = true → subscribers q ≠ [] → fanoutLoopStarted q = true
}.

Lemma queue_inv_new size : queue_inv (newQueue size).
Proof.
  split; [|done]. split; simpl; try done; [by eexists|by intros k s []%elem_of_nil|by intros s []%elem_of_nil].
Qed.

Lemma lookup_snoc_cases {A} (l : list A) x i y : (l ++ [x]) !! i = Some y →
  l !! i = Some y ∨ (i = length l ∧ y = x).
Proof.
  intros [Hi|[Hge Hi]]%lookup_app_Some; [by left|]. apply list_lookup_singleton_Some in Hi as [Hi ->].
  right. split; [lia|done].
Qed.

Lemma startFanoutLoop_inv q : core_inv q → queue_inv (startFanoutLoop q).
Proof.
  intros Hq. unfold startFanoutLoop. destruct (fanoutLoopStarted q) eqn:Es; simpl; [by split|].
  destruct (isActive q) eqn:Ea; simpl; [|split; [done|by rewrite Ea]].
  case_bool_decide as Hsub; [by split|]. destruct Hq as [H1 H2 H3 H4 H5 H6 H7 H8 H9].
  assert (∀ i l, loops q !! i = Some l → fl_channel l < current q) as Hlt.
  { intros i l Hl. specialize (H4 i l Hl). destruct (decide (fl_channel l = current q)) as [E|]; [|lia].
    destruct (H5 Ea i l Hl E). congruence. }
  split; [|done]. rewrite ?Ea in *. split; simpl; rewrite ?Ea; try done.
  - intros i j l l' Hij Hi Hj. apply lookup_snoc_cases in Hi, Hj.
    destruct Hi as [Hi|[-> ->]], Hj as [Hj|[-> ->]]; simpl; eauto.
    + apply lookup_lt_Some in Hj. lia.
    + lia.
  - intros i l [Hi|[_ ->]]%lookup_snoc_cases; simpl; eauto.
  - intros _ i l [Hi|[_ ->]]%lookup_snoc_cases Hc; [|done]. apply Hlt in Hi. lia.
  - intros _ _. exists (length (loops q)), (mkFanout (current q) WaitPrevious). split; [|done].
    by rewrite lookup_app_r, Nat.sub_diag.
  - intros i j l l' Hij Hi Hj. apply lookup_snoc_cases in Hi, Hj.
    destruct Hj as [Hj|[-> ->]]; [|done]. destruct Hi as [Hi|[-> ->]]; [by eapply H7|].
    apply lookup_lt_Some in Hj. lia.
Qed.

(** A loop that is not waiting for its predecessor is the only one running. *)
Lemma serial_update ls k l p : serial ls → ls !! k = Some l →
  (fl_point l = WaitPrevious → ∀ i l', i < k → ls !! i = Some l' → fl_point l' = Finished) →
  fl_point l ≠ Finished → serial (alter (λ l, mkFanout (fl_channel l) p) k ls).
Proof.
  intros Hs Hk Hw Hf i j l1 l2 Hij Hl1 Hl2. rewrite list_lookup_alter in Hl1, Hl2.
  destruct (decide (k = i)) as [Ei|Hi], (decide (k = j)) as [Ej|Hj]; try lia.
  - intros _. subst i. by apply (Hs k j l l2).
  - subst j. rewrite Hk in Hl2. simplify_eq/=. intros Hnf. exfalso. apply Hnf.
    assert (fl_point l = WaitPrevious ∨ fl_point l ≠ WaitPrevious) as [E|E] by (destruct (fl_point l); auto).
    + by eapply Hw.
    + destruct E. by apply (Hs i k l1 l).
  - by apply (Hs i j).
Qed.

Lemma core_with_loop q k l p : core_inv q → loops q !! k = Some l → fl_point l ≠ Finished →
  (fl_point l = WaitPrevious → ∀ i l', i < k → loops q !! i = Some l' → fl_point l' = Finished) →
  (p = Finished → isActive q = true → fl_channel l ≠ current q) →
  core_inv (with_loop q k p).
Proof.
  intros [H1 H2 H3 H4 H5 H6 H7 H8 H9] Hk Hnf Hw Hp.
  assert (∀ i l', loops (with_loop q k p) !! i = Some l' →
    ∃ l0, loops q !! i = Some l0 ∧ fl_channel l' = fl_channel l0 ∧
      ((i = k ∧ fl_point l' = p) ∨ (i ≠ k ∧ l' = l0))) as Hback.
  { intros i l' Hi. simpl in Hi. rewrite list_lookup_alter in Hi. case_decide.
    - subst. rewrite Hk in Hi. simplify_eq/=. eauto 10.
    - eauto 10. }
  split; simpl; try done.
  - intros i j l1 l2 Hij (l3 & Hl3 & -> & _)%Hback (l4 & Hl4 & -> & _)%Hback. eauto.
  - intros i l1 (l3 & Hl3 & -> & _)%Hback. eauto.
  - intros Ha i l1 (l3 & Hl3 & Ec & Hcase)%Hback Hcur. rewrite Ec in Hcur.
    destruct (H5 Ha i l3 Hl3 Hcur) as [K1 K2]. split; [|done].
    destruct Hcase as [[-> Ep]|[_ ->]]; [|done]. rewrite Ep. intros ->. simplify_eq. by apply Hp.
  - intros Ha Hs. destruct (H6 Ha Hs) as (i & l1 & Hl1 & Ec). exists i. destruct (decide (k = i)) as [->|Hne].
    + simplify_eq. eexists. rewrite list_lookup_alter_eq, Hk. simpl. by split.
    + exists l1. by rewrite list_lookup_alter_ne.
  - by eapply serial_update.
Qed.

(** The [finally] clause of a loop that ends. *)
Lemma core_finish q k l : core_inv q → loops q !! k = Some l → fl_point l ≠ Finished →
  fl_point l ≠ WaitPrevious → (isActive q = true → fl_channel l ≠ current q) →
  core_inv (finish q k l) ∧ (isActive q = true → fanoutLoopStarted (finish q k l) = fanoutLoopStarted q) ∧
  isActive (finish q k l) = isActive q ∧ subscribers (finish q k l) = subscribers q.
Proof.
  intros Hq Hk Hnf Hnw Hp. pose proof (core_with_loop q k l Finished Hq Hk Hnf ltac:(done) ltac:(auto)) as Hq'.
  unfold finish. case_bool_decide as Hc; [|by split_and!].
  assert (isActive q = false) as Ha by (destruct (isActive q); [by destruct Hp|done]).
  split; [|simpl; rewrite Ha; by split_and!]. destruct Hq' as [H1 H2 H3 H4 H5 H6 H7 H8 H9].
  split; simpl in *; rewrite ?Ha in *; done.
Qed.

(** A channel operation on a channel other than by closing it. *)
Lemma core_with_channel q k c c' s : core_inv q → channels q !! k = Some c → isClosed c' = isClosed c →
  (∀ sig, RejectReceive sig ∉ s) → core_inv (with_channel q k c' s).
Proof.
  intros [H1 H2 H3 H4 H5 H6 H7 H8 H9] Hk Hcl Hs. apply lookup_lt_Some in Hk as Hlt.
  split; simpl; try done.
  - by rewrite length_insert.
  - destruct H2 as (c0 & Hc0 & Hcl0). destruct (decide (k = current q)) as [->|Hne].
    + exists c'. rewrite list_lookup_insert_eq by done. simplify_eq. by rewrite Hcl.
    + exists c0. by rewrite list_lookup_insert_ne.
  - intros k' s' [Hp|Hp]%elem_of_app; [eauto|]. apply list_elem_of_fmap in Hp as (x & Hx & _). simplify_eq. lia.
  - intros s' [Hp|Hp]%elem_of_app; [eauto|]. apply list_elem_of_fmap in Hp as (x & Hx & Hin).
    injection Hx as Hx1 Hx2. subst x. by apply Hs in Hin.
Qed.

Lemma send_frame (c : Channel T) m : let '(c', s, r) := send c m in
  isClosed c' = isClosed c ∧ ∀ sig, RejectReceive sig ∉ s.
Proof.
  unfold send. destruct (isClosed c) eqn:E; [split; [done|set_solver]|].
  destruct m; [|split; [done|set_solver]]. destruct (receives c); [|split; [done|]; set_solver].
  destruct (_ <? _); (split; [done|set_solver]).
Qed.

Lemma receive_frame (c : Channel T) : let '(c', s, r) := receive c in
  isClosed c' = isClosed c ∧ (∀ sig, RejectReceive sig ∉ s) ∧
  (r = Throw ChannelClosedError → isClosed c = true) ∧ r ≠ Throw UndefinedValue.
Proof.
  unfold receive. destruct (isClosed c) eqn:E; [split_and!; try done; set_solver|].
  destruct (values c); [|split_and!; try done; set_solver].
  destruct (sends c) as [|[]]; split_and!; try done; set_solver.
Qed.

Lemma accept_message_inv q m r : queue_inv q → queue_inv (accept_message q m r).
Proof.
  intros [[H1 H2 H3 H4 H5 H6 H7 H8 H9] Hs]. unfold accept_message.
  destruct m; [|by split; [split|]]. destruct r; by split; [split|].
Qed.

Lemma enqueue_inv q m : queue_inv q → queue_inv (enqueue q m).1.
Proof.
  intros Hq. pose proof Hq as [Hc Hs]. unfold enqueue. destruct (isActive q) eqn:Ea; [|exact Hq].
  destruct (channels q !! current q) as [c|] eqn:Hk; [|exact Hq].
  pose proof (send_frame c m) as Hf. destruct (send c m) as [[c' s] r]. destruct Hf as [Hcl Hno]. simpl.
  apply accept_message_inv. split; [by eapply core_with_channel|intros _; by apply Hs].
Qed.

Lemma close_inv q : queue_inv q → queue_inv (close_queue q).
Proof.
  intros Hq. pose proof Hq as [Hc Hs]. unfold close_queue. destruct (isActive q) eqn:Ea; [|exact Hq].
  destruct (channels q !! current q) as [c|] eqn:Hk; [|exact Hq].
  destruct Hc as [H1 H2 H3 H4 H5 H6 H7 H8 H9]. apply lookup_lt_Some in Hk as Hlt.
  split; [|done]. split; simpl; try done.
  - by rewrite length_insert.
  - eexists. rewrite list_lookup_insert_eq by done. by split.
  - intros k' s' [Hp|Hp]%elem_of_app; [eauto|]. apply list_elem_of_fmap in Hp as (x & Hx & _).
    injection Hx as -> _. done.
Qed.

Lemma start_inv q : queue_inv q → queue_inv (start_queue q).
Proof.
  intros Hq. pose proof Hq as [Hc Hs]. unfold start_queue. destruct (isActive q) eqn:Ea; [exact Hq|].
  apply startFanoutLoop_inv. destruct Hc as [H1 H2 H3 H4 H5 H6 H7 H8 H9].
  split; simpl; try done.
  - rewrite length_app. simpl. lia.
  - eexists. rewrite lookup_app_r, Nat.sub_diag by done. by split.
  - intros i l Hl. specialize (H4 i l Hl). lia.
  - intros _ i l Hl Hcur. specialize (H4 i l Hl). lia.
  - intros k s Hp. specialize (H8 k s Hp). lia.
  - intros s Hp. specialize (H8 _ _ Hp). lia.
Qed.

Lemma subscribe_inv q h : queue_inv q → queue_inv (subscribe q h).
Proof.
  intros [Hc Hs]. unfold subscribe. apply startFanoutLoop_inv.
  destruct Hc as [H1 H2 H3 H4 H5 H6 H7 H8 H9]. by split.
Qed.

Lemma settlement_promise q chan sig r : settlement q chan sig = Some r →
  match r with
  | Some v => (chan, ResolveReceive sig v) ∈ promises q
  | None => (chan, RejectReceive sig) ∈ promises q
  end.
Proof.
  unfold settlement. induction (promises q) as [|[c p] ps IH]; [done|]. simpl.
  destruct p as [s v|s|s|s]; try case_bool_decide as Hb; try (intros Hr; specialize (IH Hr);
    destruct r; by right); destruct Hb as [-> ->]; intros [= <-]; by left.
Qed.

Lemma previous_finished q k : serial (loops q) → previous_done q k = true →
  ∀ i l, i < k → loops q !! i = Some l → fl_point l = Finished.
Proof.
  intros Hs Hp i l Hi Hl. destruct k as [|k]; [lia|]. simpl in Hp.
  destruct (loops q !! k) as [lk|] eqn:Hk; [|done]. simpl in Hp.
  destruct (fl_point lk) eqn:Ek; try done. destruct (decide (i = k)) as [->|]; [congruence|].
  assert (after (fl_point l) (fl_point lk)) as Ha by (eapply Hs; [|done|done]; lia).
  rewrite Ek in Ha. destruct (fl_point l); try done; by discriminate Ha.
Qed.

(** The history is no part of the invariant. *)
Lemma take_message_inv q v k p : queue_inv (with_loop q k p) → queue_inv (with_loop (take_message q v) k p).
Proof. intros [[H1 H2 H3 H4 H5 H6 H7 H8 H9] Hs]. by split; [split|]. Qed.

Lemma loop_step_inv q k q' : queue_inv q → loop_step q k = Some q' → queue_inv q'.
Proof.
  intros [Hc Hs] Hstep. unfold loop_step in Hstep. destruct (loops q !! k) as [l|] eqn:Hl; [|done].
  assert (fl_point l ≠ Finished → fl_point l ≠ WaitPrevious → (isActive q = true → fl_channel l ≠ current q) →
    queue_inv (finish q k l)) as Hfin.
  { intros Hnf Hnw Hp. destruct (core_finish q k l Hc Hl Hnf Hnw Hp) as (K1 & K2 & K3 & K4). split; [done|].
    rewrite K3, K4. intros Ha Hne. rewrite K2 by done. by apply Hs. }
  assert (∀ p, fl_point l ≠ Finished → (fl_point l = WaitPrevious → previous_done q k = true) →
    p ≠ Finished → queue_inv (with_loop q k p)) as Hmove.
  { intros p Hnf Hw Hp. split; [|exact Hs]. eapply core_with_loop; [done|done|done| |done].
    intros E. apply previous_finished; [apply Hc|by apply Hw]. }
  destruct (fl_point l) as [| |sig|v i|] eqn:Ep; simplify_eq.
  - destruct (previous_done q k) eqn:Hp; simplify_eq. by apply Hmove.
  - destruct (isActive q && bool_decide (fl_channel l = current q)) eqn:Hcond; simplify_eq; cycle 1.
    { apply Hfin; try done. intros Ha Hcur. rewrite Ha, bool_decide_true in Hcond by done. done. }
    apply andb_true_iff in Hcond as [Ha Hcur%bool_decide_eq_true].
    destruct (qi_open q Hc) as (c & Hopen & Hcl). rewrite Hcur, Hopen in Hstep.
    pose proof (receive_frame c) as Hf. destruct (receive c) as [[c' s] r]. destruct Hf as (F1 & F2 & F3 & F4).
    pose proof (core_with_channel q (current q) c c' s Hc Hopen F1 F2) as Hc'.
    assert (∀ p, p ≠ Finished → queue_inv (with_loop (with_channel q (current q) c' s) k p)) as Hgo.
    { intros p Hp. split; [|exact Hs]. eapply core_with_loop; [done|exact Hl|by rewrite Ep|by rewrite Ep|done]. }
    destruct r as [[v|sig]|[]]; simplify_eq; try (by apply take_message_inv, Hgo); try (by apply Hgo).
    specialize (F3 eq_refl). rewrite Ha in Hcl. simpl in Hcl. congruence.
  - destruct (settlement q (fl_channel l) sig) as [[v|]|] eqn:Hse; simplify_eq; [by apply take_message_inv, Hmove|].
    apply Hfin; try done. intros Ha Hcur. apply settlement_promise in Hse. simpl in Hse. rewrite Hcur in Hse.
    apply (qi_rejected q Hc) in Hse. congruence.
  - destruct (subscribers q !! i) as [h|]; simplify_eq; [|by apply Hmove].
    destruct (Hmove (Delivering v (S i))) as [Hcm Hsm]; [done..|].
    split; [|exact Hsm]. destruct Hcm as [H1 H2 H3 H4 H5 H6 H7 H8 H9]. by split.
Qed.

Lemma queue_reach_inv size q : queue_reach size q → queue_inv q.
Proof.
  intros Hr. apply (rtc_ind_r (λ q, queue_inv q) (newQueue size)) in Hr; [done|apply queue_inv_new|].
  intros q1 q2 _ [q' m|q' h|q'|q'|q' q'' k Hk] IH;
    [by apply enqueue_inv|by apply subscribe_inv|by apply close_inv|by apply start_inv|by eapply loop_step_inv].
Qed.

(** ** Deliveries *)

Definition running (p : point) : Prop := p ≠ Finished ∧ p ≠ WaitPrevious.

Lemma running_unique ls i j l l' : serial ls → ls !! i = Some l → ls !! j = Some l' →
  running (fl_point l) → running (fl_point l') → i = j.
Proof.
  intros Hs Hi Hj [R1 R2] [R3 R4]. destruct (decide (i < j)) as [Hlt|]; [destruct R4; by eapply (Hs i j)|].
  destruct (decide (j < i)) as [Hlt|]; [destruct R2; by eapply (Hs j i)|]. lia.
Qed.

(** A message handed to the first [n] subscribers, in order. *)
Definition block (subs : list nat) (b : T * nat) : list (T * nat) := pair b.1 <$> take b.2 subs.

Definition delivering (q : MessageQueue) (v : T) (i : nat) : Prop :=
  ∃ k l, loops q !! k = Some l ∧ fl_point l = Delivering v i.

(** The block [b] hands the message of [t] to every subscriber there was when
    it was received, and possibly to some that came during the delivery. *)
Definition served (n : nat) (t b : T * nat) : Prop := b.1 = t.1 ∧ t.2 ≤ b.2 ≤ n.

(** The log is a sequence of complete blocks, one for each message received in
    the order of receipt, and the block being delivered. *)
Definition log_ok (q : MessageQueue) : Prop := ∃ received blocks cur,
  Forall2 (served (length (subscribers q))) received blocks ∧
  handled q = mjoin (block (subscribers q) <$> blocks) ++ cur ∧
  (∀ v i, delivering q v i → i ≤ length (subscribers q) ∧ cur = block (subscribers q) (v, i) ∧
     ∃ n, n ≤ length (subscribers q) ∧ taken q = received ++ [(v, n)]) ∧
  ((∀ v i, ¬ delivering q v i) → cur = [] ∧ taken q = received).

Lemma log_same q q' : (∀ v i, delivering q' v i ↔ delivering q v i) → subscribers q' = subscribers q →
  handled q' = handled q → taken q' = taken q → log_ok q → log_ok q'.
Proof.
  intros Hd Hs Hh Ht (ts & bs & cur & H1 & H2 & H3 & H4). exists ts, bs, cur. rewrite Hs, Hh, Ht. split_and!; try done.
  - intros v i ?%Hd. by apply H3.
  - intros Hn. apply H4. intros v i ?%Hd. by apply (Hn v i).
Qed.

Lemma startFanoutLoop_log q : log_ok q → log_ok (startFanoutLoop q).
Proof.
  intros Hq. unfold startFanoutLoop. destruct (_ || _ || _); [done|].
  apply (log_same q); [|done|done|done|exact Hq]. intros v i. unfold delivering. simpl. split.
  - intros (k & l & [Hk|[_ ->]]%lookup_snoc_cases & Hp); [eauto|done].
  - intros (k & l & Hk & Hp). exists k, l. split; [by apply lookup_app_l_Some|done].
Qed.

Lemma subscribe_log q h : log_ok q → log_ok (subscribe q h).
Proof.
  intros (ts & bs & cur & H1 & H2 & H3 & H4). unfold subscribe. apply startFanoutLoop_log.
  assert (∀ b, b.2 ≤ length (subscribers q) → block (subscribers q ++ [h]) b = block (subscribers q) b) as Hb.
  { intros b Hle. unfold block. by rewrite take_app_le. }
  exists ts, bs, cur. simpl. rewrite length_app. split_and!; [| | |done].
  - eapply Forall2_impl; [exact H1|]. intros t b [? ?]. simpl. split; [done|lia].
  - rewrite H2. f_equal. f_equal. apply list_fmap_ext. intros j b Hj. symmetry. apply Hb.
    destruct (Forall2_lookup_r _ _ _ _ _ H1 Hj) as (t & _ & _ & _ & Hle). exact Hle.
  - intros v i Hd. destruct (H3 v i Hd) as (Hle & -> & n & Hn & Ht). simpl. split_and!; [lia|by rewrite Hb|].
    exists n. split; [lia|done].
Qed.

(** Moving the running loop [k] to the point [p]. *)
Lemma with_loop_delivering q k l p v i : loops q !! k = Some l → serial (loops q) → running (fl_point l) →
  (delivering (with_loop q k p) v i ↔ p = Delivering v i) ∧
  (delivering q v i ↔ fl_point l = Delivering v i).
Proof.
  intros Hk Hs Hr.
  assert (∀ j l' v i, loops q !! j = Some l' → fl_point l' = Delivering v i → j = k) as Hu.
  { intros j l' v' i' Hj Hp. apply (running_unique (loops q) j k l' l); try done. by rewrite Hp. }
  unfold delivering. split.
  - simpl. split.
    + intros (j & l' & Hj & Hp). rewrite list_lookup_alter in Hj. case_decide as Hjk; [|by destruct Hjk; symmetry; eapply Hu].
      rewrite Hk in Hj. by simplify_eq/=.
    + intros ->. exists k. eexists. rewrite list_lookup_alter_eq, Hk. by split.
  - split; [|eauto]. intros (j & l' & Hj & Hp). assert (j = k) as -> by eauto. by simplify_eq.
Qed.

(** The running loop leaves or reaches a point outside the deliveries; at the
    start of a delivery the message has just been received. *)
Definition taken_at (q q1 : MessageQueue) (p : point) : Prop :=
  match p with
  | Delivering v i => i = 0 ∧ taken q1 = taken q ++ [(v, length (subscribers q))]
  | _ => taken q1 = taken q
  end.

Lemma with_loop_log q q1 k l p : queue_inv q → log_ok q → loops q !! k = Some l → running (fl_point l) →
  (∀ v i, fl_point l ≠ Delivering v i) → taken_at q q1 p →
  loops q1 = loops q → subscribers q1 = subscribers q → handled q1 = handled q → log_ok (with_loop q1 k p).
Proof.
  intros [Hc _] (ts & bs & cur & H1 & H2 & H3 & H4) Hk Hr Hnd Hp El Es Eh.
  destruct H4 as [-> Ht].
  { intros v i Hd. apply (proj2 (with_loop_delivering q k l p v i Hk (qi_serial q Hc) Hr)) in Hd.
    by apply Hnd in Hd. }
  assert (∀ v i, delivering (with_loop q1 k p) v i ↔ p = Delivering v i) as Hd.
  { intros v i. rewrite <- (proj1 (with_loop_delivering q k l p v i Hk (qi_serial q Hc) Hr)).
    unfold delivering. simpl. by rewrite El. }
  exists ts, bs, []. simpl. rewrite Es, Eh. split_and!; [done|done| |].
  - intros v i ->%Hd. destruct Hp as [-> ->]. split_and!; [lia|done|]. rewrite Ht. eauto.
  - intros Hn. split; [done|]. destruct p as [| |?|v i|]; [by rewrite <- Ht..| |by rewrite <- Ht].
    by destruct (Hn v i); apply Hd.
Qed.

Lemma finish_log q q1 k l : queue_inv q → log_ok q → loops q !! k = Some l → running (fl_point l) →
  (∀ v i, fl_point l ≠ Delivering v i) → loops q1 = loops q → subscribers q1 = subscribers q →
  handled q1 = handled q → taken q1 = taken q → log_ok (finish q1 k l).
Proof.
  intros Hq Hl Hk Hr Hnd El Es Eh Et. pose proof (with_loop_log q q1 k l Finished Hq Hl Hk Hr Hnd Et El Es Eh) as Hw.
  unfold finish. case_bool_decide; [|done]. by apply (log_same (with_loop q1 k Finished)).
Qed.

(** One call of a subscriber, or the end of the calls for a message. *)
Lemma deliver_log q k l v i q' : queue_inv q → log_ok q → loops q !! k = Some l → fl_point l = Delivering v i →
  loop_step q k = Some q' → log_ok q'.
Proof.
  intros [Hc _] Hlog Hl Ep. unfold loop_step. rewrite Hl, Ep.
  assert (running (fl_point l)) as Hr by (by rewrite Ep). pose proof (qi_serial q Hc) as Hser.
  destruct Hlog as (ts & bs & cur & H1 & H2 & H3 & H4).
  destruct (H3 v i) as (Hle & -> & n & Hn & Ht); [by apply (with_loop_delivering q k l AtTop v i)|].
  destruct (subscribers q !! i) as [h|] eqn:Hh; intros E; simplify_eq.
  - assert (∀ v' i', delivering (with_loop q k (Delivering v (S i))) v' i' ↔ Delivering v (S i) = Delivering v' i') as Hd
      by (intros v' i'; by apply (with_loop_delivering q k l)).
    exists ts, bs, (block (subscribers q) (v, S i)). simpl. split_and!; [done| | |].
    + rewrite H2, <- app_assoc. f_equal. unfold block. simpl. rewrite (take_S_r _ _ h) by done. by rewrite fmap_app.
    + intros v' i' [= <- <-]%Hd. apply lookup_lt_Some in Hh. split_and!; [lia|done|eauto].
    + intros Hno. by destruct (Hno v (S i)); apply Hd.
  - apply lookup_ge_None in Hh.
    exists (ts ++ [(v, n)]), (bs ++ [(v, i)]), []. simpl. split_and!; [| | |done].
    + apply Forall2_app; [done|]. repeat constructor; simpl; lia.
    + rewrite H2, fmap_app, join_app. simpl. by rewrite !app_nil_r.
    + intros v' i' Hd. by apply (with_loop_delivering q k l AtTop v' i') in Hd.
Qed.

Lemma loop_step_log q k q' : queue_inv q → log_ok q → loop_step q k = Some q' → log_ok q'.
Proof.
  intros Hq Hlog Hstep. destruct (loops q !! k) as [l|] eqn:Hl; [|unfold loop_step in Hstep; by rewrite Hl in Hstep].
  destruct (fl_point l) as [| |sig|v i|] eqn:Ep; [| | |by eapply deliver_log|]; unfold loop_step in Hstep;
    rewrite Hl, Ep in Hstep; simplify_eq.
  - destruct (previous_done q k); simplify_eq. apply (log_same q); [|done|done|done|exact Hlog].
    intros v i. unfold delivering. simpl. split; intros (j & l' & Hj & Hp).
    + rewrite list_lookup_alter in Hj. case_decide; [|eauto]. rewrite Hl in Hj. by simplify_eq/=.
    + exists j, l'. rewrite list_lookup_alter_ne; [done|]. intros ->. congruence.
  - assert (running (fl_point l)) as Hr by (by rewrite Ep).
    destruct (isActive q && _); simplify_eq; [|eapply finish_log; try done; by rewrite Ep].
    destruct (channels q !! fl_channel l) as [c|]; simplify_eq; [|eapply finish_log; try done; by rewrite Ep].
    destruct (receive c) as [[c' s] [[v|sig]|[]]]; simplify_eq.
    + apply (with_loop_log q _ k l); try done. by rewrite Ep.
    + apply (with_loop_log q _ k l); try done. by rewrite Ep.
    + eapply (finish_log q); try done. by rewrite Ep.
    + by apply (log_same q).
  - assert (running (fl_point l)) as Hr by (by rewrite Ep).
    destruct (settlement _ _ _) as [[v|]|]; simplify_eq.
    + apply (with_loop_log q _ k l); try done. by rewrite Ep.
    + eapply (finish_log q); try done. by rewrite Ep.
Qed.

Lemma queue_reach_log size q : queue_reach size q → log_ok q.
Proof.
  intros Hr. assert (queue_inv q ∧ log_ok q) as [_ ?]; [|done].
  apply (rtc_ind_r (λ q, queue_inv q ∧ log_ok q) (newQueue size)) in Hr; [done| |].
  { split; [apply queue_inv_new|]. exists [], [], []. split_and!; try done. intros v i (k & l & Hk & _). done. }
  intros q1 q2 _ [q' m|q' h|q'|q'|q' q'' k Hk] [IH1 IH2].
  - split; [by apply enqueue_inv|]. unfold enqueue. destruct (isActive q'); [|done].
    destruct (channels q' !! current q'); [|done]. destruct (send _ _) as [[c' s] r]. simpl.
    unfold accept_message. by destruct m, r.
  - split; [by apply subscribe_inv|by apply subscribe_log].
  - split; [by apply close_inv|]. unfold close_queue. destruct (isActive q'); [|done].
    by destruct (channels q' !! current q').
  - split; [by apply start_inv|]. unfold start_queue. destruct (isActive q'); [done|].
    by apply startFanoutLoop_log.
  - split; [by eapply loop_step_inv|by eapply loop_step_log].
Qed.

(** ** Where the accepted messages are *)

(** A message that a loop waits for and that has been handed to its promise. *)
Definition awaited_message (q : MessageQueue) (l : fanout) : option T :=
  match fl_point l with Awaiting sig => mjoin (settlement q (fl_channel l) sig) | _ => None end.

Definition inflight (q : MessageQueue) : list T := omap (awaited_message q) (loops q).

Definition held (q : MessageQueue) : list T :=
  match channels q !! current q with Some c => values c ++ (sends c).*1 | None => [] end.

(** The current channel, while the queue is active, has no waiting receiver or
    just the loop that owns it, whose promise is not settled. *)
Definition receiver_ok (q : MessageQueue) (c : Channel T) : Prop :=
  receives c = [] ∨ ∃ i l sig, receives c = [sig] ∧ loops q !! i = Some l ∧ fl_channel l = current q ∧
    fl_point l = Awaiting sig ∧ settlement q (current q) sig = None ∧ sig < signals c.

Record flow_ok (q : MessageQueue) : Prop := {
  fo_conserved : accepted q ≡ₚ (taken q).*1 ++ discarded q ++ inflight q ++ held q;
  fo_receiver : ∀ c, isActive q = true → channels q !! current q = Some c → receiver_ok q c;
  fo_fresh : ∀ c s, isActive q = true → channels q !! current q = Some c → signals c ≤ s →
    settlement q (current q) s = None;
  fo_closed : ∀ c, channels q !! current q = Some c → isActive q = false → values c = [] ∧ sends c = []
}.

Lemma settlement_app q q' ps k s : promises q' = promises q ++ ps →
  settlement q' k s = match settlement q k s with
                      | Some r => Some r
                      | None => settlement (mkQueue 0 [] 0 true [] true [] ps [] [] [] []) k s
                      end.
Proof.
  unfold settlement. simpl. intros ->. induction (promises q) as [|[c p] l IH]; [done|]. simpl.
  destruct p; try done; by case_bool_decide.
Qed.

Lemma settlement_same q q' k s : promises q' = promises q → settlement q' k s = settlement q k s.
Proof. unfold settlement. by intros ->. Qed.

(** Promises of senders do not matter to the loops. *)
Lemma settlement_sender q q' k sg ch s : promises q' = promises q ++ [(ch, ResolveSend sg)] →
  settlement q' k s = settlement q k s.
Proof. intros E. rewrite (settlement_app q q' _ k s E). simpl. by destruct (settlement q k s). Qed.

Lemma inflight_ext q q' : loops q' = loops q →
  (∀ i l sig, loops q !! i = Some l → fl_point l = Awaiting sig →
     mjoin (settlement q' (fl_channel l) sig) = mjoin (settlement q (fl_channel l) sig)) →
  inflight q' = inflight q.
Proof.
  intros El Hs. unfold inflight. rewrite El. apply list_omap_ext. apply Forall2_same_length_lookup_2; [done|].
  intros i l l' Hi Hi'. simplify_eq. unfold awaited_message. destruct (fl_point l) eqn:Ep; try done. by eapply Hs.
Qed.

(** One loop changes, or one promise is settled. *)
Lemma inflight_update q q' k l l' : loops q !! k = Some l → loops q' = <[k := l']> (loops q) →
  (∀ j l0, j ≠ k → loops q !! j = Some l0 → awaited_message q' l0 = awaited_message q l0) →
  ∃ rest, inflight q ≡ₚ option_list (awaited_message q l) ++ rest ∧
          inflight q' ≡ₚ option_list (awaited_message q' l') ++ rest.
Proof.
  intros Hk El Hsame. exists (omap (awaited_message q) (delete k (loops q))). unfold inflight. rewrite El.
  assert (∀ (f : fanout → option T) (x : fanout) xs, omap f (x :: xs) = option_list (f x) ++ omap f xs) as Hcons.
  { intros f x xs. simpl. by destruct (f x). }
  split.
  - rewrite <- Hcons. by rewrite <- (delete_Permutation _ _ _ Hk).
  - assert (<[k := l']> (loops q) !! k = Some l') as Hk'.
    { rewrite list_lookup_insert_eq; [done|]. by eapply lookup_lt_Some. }
    rewrite (delete_Permutation _ _ _ Hk'), Hcons. apply Permutation_app_head.
    assert (delete k (<[k := l']> (loops q)) = delete k (loops q)) as ->.
    { apply list_eq. intros j. rewrite !list_lookup_delete. case_decide; by rewrite list_lookup_insert_ne by lia. }
    erewrite list_omap_ext; [done|]. apply Forall2_same_length_lookup_2; [done|].
    intros j x y Hx Hy. simplify_eq. rewrite list_lookup_delete in Hx.
    case_decide; [apply (Hsame j)|apply (Hsame (S j))]; (done || lia).
Qed.

Lemma alter_point (ls : list fanout) k l p : ls !! k = Some l →
  alter (λ l, mkFanout (fl_channel l) p) k ls = <[k := mkFanout (fl_channel l) p]> ls.
Proof.
  intros Hk. apply list_eq. intros j. destruct (decide (j = k)) as [->|Hne].
  - rewrite list_lookup_alter_eq, Hk, list_lookup_insert_eq; [done|]. by eapply lookup_lt_Some.
  - by rewrite list_lookup_alter_ne, list_lookup_insert_ne.
Qed.

Lemma with_loop_inflight q q1 k l p : loops q !! k = Some l → loops q1 = loops q →
  (∀ ch s, settlement q1 ch s = settlement q ch s) →
  ∃ rest, inflight q ≡ₚ option_list (awaited_message q l) ++ rest ∧
    inflight (with_loop q1 k p) ≡ₚ option_list (awaited_message q (mkFanout (fl_channel l) p)) ++ rest.
Proof.
  intros Hk El Hs.
  assert (∀ l0, awaited_message (with_loop q1 k p) l0 = awaited_message q l0) as Ha.
  { intros l0. unfold awaited_message. destruct (fl_point l0); [done..| |done|done].
    rewrite (settlement_same q1 (with_loop q1 k p)) by done. by rewrite Hs. }
  destruct (inflight_update q (with_loop q1 k p) k l (mkFanout (fl_channel l) p)) as (rest & H1 & H2);
    [done|simpl; by rewrite El, (alter_point _ _ l)|by intros|].
  exists rest. by rewrite Ha in H2.
Qed.

(** A receiver that waits is not the loop [k] that moves on. *)
Lemma receiver_move q q1 k l p c : loops q !! k = Some l → loops q1 = loops q → current q1 = current q →
  (∀ ch s, settlement q1 ch s = settlement q ch s) →
  (∀ sig, fl_point l = Awaiting sig → settlement q (fl_channel l) sig ≠ None) →
  receiver_ok q c → receiver_ok (with_loop q1 k p) c.
Proof.
  intros Hk El Ec Hs Hset [Hr|(i & l0 & sig & Hr & Hi & Hch & Hp & Hn & Hlt)]; [by left|].
  right. exists i, l0, sig. simpl. rewrite El, Ec. split_and!; try done.
  - rewrite list_lookup_alter_ne; [done|]. intros ->. simplify_eq. apply (Hset sig Hp). by rewrite Hch.
  - rewrite (settlement_same q1) by done. by rewrite Hs.
Qed.

(** Loop [k] moves on without touching a channel. *)
Lemma flow_move q q1 k l p : flow_ok q → loops q !! k = Some l → loops q1 = loops q →
  channels q1 = channels q → current q1 = current q → isActive q1 = isActive q → promises q1 = promises q →
  accepted q1 = accepted q → discarded q1 = discarded q →
  (∀ sig, fl_point l = Awaiting sig → settlement q (fl_channel l) sig ≠ None) → (∀ sig, p ≠ Awaiting sig) →
  (taken q1).*1 = (taken q).*1 ++ option_list (awaited_message q l) → flow_ok (with_loop q1 k p).
Proof.
  intros [F1 F2 F3 F4] Hk El Ech Ec Ea Ep Eacc Ed Hset Hp Ht.
  assert (∀ ch s, settlement q1 ch s = settlement q ch s) as Hs by (intros; by apply settlement_same).
  destruct (with_loop_inflight q q1 k l p Hk El Hs) as (rest & I1 & I2).
  assert (awaited_message q (mkFanout (fl_channel l) p) = None) as Hnone
    by (unfold awaited_message; simpl; destruct p; naive_solver).
  rewrite Hnone in I2. simpl in I2. split; unfold held in *; simpl; rewrite ?Ech, ?Ec, ?Ea, ?Eacc, ?Ed in *.
  - rewrite F1, Ht, I1, I2. rewrite <- !app_assoc. apply Permutation_app_head. rewrite !(app_assoc (discarded q)).
    rewrite (Permutation_app_comm (discarded q) (option_list _)). by rewrite <- !app_assoc.
  - intros c Hact Hc. eapply (receiver_move q); eauto.
  - intros c s Hact Hc Hle. rewrite (settlement_same q) by done. eauto.
  - done.
Qed.

Lemma flow_same q q' : flow_ok q → channels q' = channels q → current q' = current q → isActive q' = isActive q →
  loops q' = loops q → promises q' = promises q → taken q' = taken q → accepted q' = accepted q →
  discarded q' = discarded q → flow_ok q'.
Proof.
  intros [F1 F2 F3 F4] Ech Ec Ea El Ep Et Eacc Ed.
  assert (inflight q' = inflight q) as Ei.
  { apply inflight_ext; [done|]. intros. by rewrite (settlement_same q) by done. }
  split; unfold held, receiver_ok in *; rewrite ?Ech, ?Ec, ?Ea, ?El, ?Et, ?Eacc, ?Ed, ?Ei; try done.
  - intros c Ha Hc. destruct (F2 c Ha Hc) as [|(i & l & sig & ? & ? & ? & ? & ? & ?)]; [by left|right].
    exists i, l, sig. by rewrite (settlement_same q) by done.
  - intros c s Ha Hc Hle. rewrite (settlement_same q) by done. eauto.
Qed.

Lemma startFanoutLoop_flow q : flow_ok q → flow_ok (startFanoutLoop q).
Proof.
  intros Hq. unfold startFanoutLoop. destruct (_ || _ || _); [done|]. destruct Hq as [F1 F2 F3 F4].
  split; simpl; [|intros c Ha Hc|done|done].
  - etrans; [exact F1|]. do 2 apply Permutation_app_head. apply Permutation_app_tail.
    unfold inflight. simpl. by rewrite omap_app, app_nil_r.
  - destruct (F2 c Ha Hc) as [|(i & l & sig & ? & Hi & ? & ? & ? & ?)]; [by left|right].
    exists i, l, sig. split_and!; [done|by apply lookup_app_l_Some|done..].
Qed.

Lemma start_flow q : queue_inv q → flow_ok q → flow_ok (start_queue q).
Proof.
  intros [Hc _] Hq. unfold start_queue. destruct (isActive q) eqn:Ea; [done|]. apply startFanoutLoop_flow.
  destruct Hq as [F1 F2 F3 F4]. destruct (qi_open q Hc) as (c & Hcur & _). destruct (F4 c Hcur Ea) as [V1 V2].
  assert ((channels q ++ [newChannel (Some (maxSize q))]) !! length (channels q) = Some (newChannel (Some (maxSize q))))
    as Hnew by (by rewrite lookup_app_r, Nat.sub_diag).
  split; unfold held in *; simpl; rewrite ?Hnew.
  - rewrite Hcur, V1, V2 in F1. exact F1.
  - intros c' _ [= <-]. by left.
  - intros c' s _ _ _. destruct (settlement _ _ _) as [r|] eqn:Hs; [|done]. apply settlement_promise in Hs.
    pose proof (qi_promises q Hc (length (channels q))) as Hle. rewrite (qi_current q Hc) in *.
    destruct r; simpl in Hs; apply Hle in Hs; lia.
  - done.
Qed.

(** Rejections hand no message to a loop. *)
Lemma settlement_rejected q q' ps k s : promises q' = promises q ++ ps →
  (∀ ch sg v, (ch, ResolveReceive sg v) ∉ ps) → mjoin (settlement q' k s) = mjoin (settlement q k s).
Proof.
  intros E Hps. rewrite (settlement_app q q' ps k s E). destruct (settlement q k s); [done|].
  destruct (settlement _ k s) as [[v|]|] eqn:Hs; [|done..]. apply settlement_promise in Hs. by apply Hps in Hs.
Qed.

Lemma close_flow q : queue_inv q → flow_ok q → flow_ok (close_queue q).
Proof.
  intros [Hc _] Hq. unfold close_queue. destruct (isActive q); [|done].
  destruct (channels q !! current q) as [c|] eqn:Hcur; [|done]. destruct Hq as [F1 F2 F3 F4].
  apply lookup_lt_Some in Hcur as Hlt. cbn [close]. split; simpl; [|done|done|].
  - unfold held in *. simpl. rewrite list_lookup_insert_eq by done. simpl. rewrite app_nil_r.
    rewrite Hcur in F1. etrans; [exact F1|]. apply Permutation_app_head. rewrite <- app_assoc.
    apply Permutation_app_head. etrans; [apply Permutation_app_comm|]. apply Permutation_app_head.
    match goal with |- _ ≡ₚ inflight ?q' => rewrite (inflight_ext q q'); [done|done|] end.
    intros i l sig _ _. eapply (settlement_rejected q); [reflexivity|].
    intros ch sg v (x & Hx & Hin)%list_elem_of_fmap. injection Hx as _ <-.
    apply elem_of_app in Hin as [(y & Hy & _)%list_elem_of_fmap|(y & Hy & _)%list_elem_of_fmap]; discriminate.
  - intros c' Hc' _. rewrite list_lookup_insert_eq in Hc' by done. by simplify_eq.
Qed.

(** The current channel exchanges a message with a caller or a loop, and no
    receiver is involved. *)
Lemma channel_flow q q1 c c' : flow_ok q → isActive q = true → channels q !! current q = Some c →
  channels q1 = <[current q := c']> (channels q) → current q1 = current q → isActive q1 = true →
  loops q1 = loops q → (∀ ch s, settlement q1 ch s = settlement q ch s) →
  receives c' = receives c → signals c ≤ signals c' →
  accepted q1 ≡ₚ (taken q1).*1 ++ discarded q1 ++ inflight q ++ values c' ++ (sends c').*1 → flow_ok q1.
Proof.
  intros [F1 F2 F3 F4] Ea Hcur Ech Ec Ea1 El Hs Hr Hsig Hacc. apply lookup_lt_Some in Hcur as Hlt.
  assert (channels q1 !! current q1 = Some c') as Hcur1 by (by rewrite Ech, Ec, list_lookup_insert_eq).
  assert (inflight q1 = inflight q) as Ei by (apply inflight_ext; [done|intros; by rewrite Hs]).
  split; unfold held; rewrite ?Hcur1.
  - by rewrite Ei.
  - intros c0 _ [= <-]. unfold receiver_ok. rewrite Hr, El, Ec.
    destruct (F2 c Ea Hcur) as [|(i & l & sig & ? & ? & ? & ? & ? & ?)]; [by left|right].
    exists i, l, sig. rewrite Hs. split_and!; [done..|lia].
  - intros c0 s _ [= <-] Hle. rewrite Hs, Ec. apply (F3 c); [done..|lia].
  - congruence.
Qed.

(** A waiting loop is handed the message. *)
Lemma handover_flow q q1 c c' i l sig v : flow_ok q → isActive q = true → channels q !! current q = Some c →
  loops q !! i = Some l → fl_channel l = current q → fl_point l = Awaiting sig →
  settlement q (current q) sig = None → sig < signals c →
  (∀ j l0 s, loops q !! j = Some l0 → fl_channel l0 = current q → fl_point l0 = Awaiting s → j = i) →
  channels q1 = <[current q := c']> (channels q) → current q1 = current q → isActive q1 = true →
  loops q1 = loops q → promises q1 = promises q ++ [(current q, ResolveReceive sig v)] →
  taken q1 = taken q → discarded q1 = discarded q → accepted q1 = accepted q ++ [v] →
  values c' = values c → sends c' = sends c → receives c' = [] → signals c' = signals c → flow_ok q1.
Proof.
  intros [F1 F2 F3 F4] Ea Hcur Hi Hch Hp Hn Hlt Hown Ech Ec Ea1 El Ep Et Ed Eacc Hv Hsn Hr Hsig.
  apply lookup_lt_Some in Hcur as Hlen.
  assert (channels q1 !! current q1 = Some c') as Hcur1 by (by rewrite Ech, Ec, list_lookup_insert_eq).
  assert (∀ k s, settlement q1 k s =
    if decide (k = current q ∧ s = sig) then Some (Some v) else settlement q k s) as Hset.
  { intros k s. rewrite (settlement_app q q1 _ k s Ep). unfold settlement at 2. simpl.
    case_decide as Hd; [destruct Hd as [-> ->]; rewrite Hn; by rewrite bool_decide_true|].
    rewrite bool_decide_false by naive_solver. by destruct (settlement q k s). }
  destruct (inflight_update q q1 i l l) as (rest & I1 & I2); [done|by rewrite El, list_insert_id| |].
  { intros j l0 Hj Hl0. unfold awaited_message. destruct (fl_point l0) as [| |s|? ?|] eqn:Hp0; try done.
    rewrite Hset, decide_False; [done|]. intros [Hc0 ->]. by apply Hj, (Hown j l0 sig). }
  unfold awaited_message in I1, I2. rewrite Hp, Hch in I1, I2. rewrite Hn in I1. rewrite Hset, decide_True in I2 by done.
  simpl in I1, I2. unfold held in F1. rewrite Hcur in F1.
  split; unfold held; rewrite ?Hcur1.
  - rewrite Eacc, Et, Ed, Hv, Hsn, F1, I1, I2. rewrite <- !app_assoc. apply Permutation_app_head, Permutation_app_head.
    simpl. rewrite (Permutation_app_comm _ [v]) at 1. rewrite !app_assoc. rewrite (Permutation_app_comm _ [v]).
    simpl. by rewrite <- !app_assoc.
  - intros c0 _ [= <-]. by left.
  - intros c0 s _ [= <-] Hle. rewrite Ec, Hset, decide_False by lia. apply (F3 c); [done..|lia].
  - congruence.
Qed.

(** Two loops never share a channel. *)
Lemma owner_unique q i j l l' : core_inv q → loops q !! i = Some l → loops q !! j = Some l' →
  fl_channel l = fl_channel l' → i = j.
Proof.
  intros Hc Hi Hj E. destruct (decide (i = j)) as [|Hne]; [done|]. exfalso. destruct (decide (i < j)).
  - pose proof (qi_order q Hc i j l l' ltac:(done) Hi Hj). lia.
  - pose proof (qi_order q Hc j i l' l ltac:(lia) Hj Hi). lia.
Qed.

Lemma enqueue_flow q m : queue_inv q → flow_ok q → flow_ok (enqueue q m).1.
Proof.
  intros [Hc _] Hq. unfold enqueue. destruct (isActive q) eqn:Ea; [|done].
  destruct (qi_open q Hc) as (c & Hcur & Hop). rewrite Hcur. rewrite Ea in Hop. simpl in Hop.
  unfold send. rewrite Hop.
  destruct m as [v|]; [|apply (flow_same q); simpl; rewrite ?app_nil_r; try done; by rewrite list_insert_id].
  pose proof Hq as [F1 F2 _ _]. unfold held in F1. rewrite Hcur in F1.
  destruct (F2 c Ea Hcur) as [Er|(i & l & sig & Er & Hi & Hch & Hp & Hn & Hlt)]; rewrite Er;
    [destruct (length (values c) <? capacity c)|]; simpl.
  - eapply (channel_flow q _ c); simpl; try done; [intros; apply settlement_same; by rewrite app_nil_r|].
    cbn [values sends]. rewrite F1, <- !app_assoc. do 4 apply Permutation_app_head. apply Permutation_app_comm.
  - eapply (channel_flow q _ c); simpl; try done; [intros; apply settlement_same; by rewrite app_nil_r|simpl; lia|].
    cbn [values sends]. by rewrite F1, fmap_app, <- !app_assoc.
  - eapply (handover_flow q _ c _ i l sig v); simpl; try done.
    intros j l0 s Hj Hc0 _. eapply owner_unique; [done|exact Hj|exact Hi|congruence].
Qed.

(** A loop at the top of its iteration receives. *)
Lemma receive_flow q k l c c' s r : core_inv q → flow_ok q → isActive q = true → channels q !! current q = Some c →
  loops q !! k = Some l → fl_channel l = current q → fl_point l = AtTop → receive c = (c', s, Ok r) →
  match r with
  | Received v => flow_ok (with_loop (take_message (with_channel q (current q) c' s) v) k (Delivering v 0))
  | ReceiveWaits sig => flow_ok (with_loop (with_channel q (current q) c' s) k (Awaiting sig))
  end.
Proof.
  intros Hc Hq Ea Hcur Hl Hch Hp. destruct (qi_open q Hc) as (c0 & Hcur0 & Hop).
  assert (c = c0) as -> by congruence. rewrite Ea in Hop.
  apply lookup_lt_Some in Hcur as Hlen. pose proof Hq as [F1 F2 F3 F4]. unfold held in F1. rewrite Hcur in F1.
  assert (receives c0 = []) as Er.
  { destruct (F2 c0 Ea Hcur) as [|(i & l0 & sig & _ & Hi & Hch0 & Hp0 & _)]; [done|].
    assert (i = k) as -> by (eapply owner_unique; [done|exact Hi|exact Hl|congruence]). congruence. }
  unfold receive. rewrite Hop. simpl. destruct (values c0) as [|v rest] eqn:Ev; [destruct (sends c0) as [|[v sg] rest] eqn:Es|];
    intros E; simplify_eq; simpl in *.
  - set (q1 := with_channel q (current q) _ _). pose proof (F3 c0 (signals c0) Ea Hcur (le_n _)) as Hfresh.
    assert (∀ ch s, settlement q1 ch s = settlement q ch s) as Hs
      by (intros; apply settlement_same; simpl; by rewrite app_nil_r).
    destruct (with_loop_inflight q q1 k l (Awaiting (signals c0)) Hl) as (rs & I1 & I2); [done|done|].
    unfold awaited_message in I1, I2. rewrite Hp in I1. simpl in I1, I2. rewrite Hch, Hfresh in I2. simpl in I2.
    assert (channels q1 !! current q = Some (mkChannel [] [] [signals c0] (capacity c0) false (S (signals c0)))) as Hcur1
      by (simpl; by rewrite list_lookup_insert_eq, Er).
    split; unfold held; change (current (with_loop q1 k _)) with (current q); change (channels (with_loop q1 k _)) with (channels q1);
      rewrite ?Hcur1.
    + etrans; [exact F1|]. do 2 apply Permutation_app_head. simpl. rewrite !app_nil_r. by rewrite I1, I2.
    + intros c1 _ [= <-]. right. exists k, (mkFanout (fl_channel l) (Awaiting (signals c0))), (signals c0). simpl.
      rewrite list_lookup_alter_eq, Hl. split_and!; [done|done|done|done|by rewrite (settlement_same q1), Hs|lia].
    + intros c1 s _ [= <-] Hle. simpl in Hle. rewrite (settlement_same q1), Hs by done. apply (F3 c0); [done..|lia].
    + simpl. congruence.
  - set (q1 := take_message _ v). apply (flow_move q1 q1 k l); try done;
      [|intros; congruence|unfold awaited_message; by rewrite Hp, app_nil_r].
    eapply (channel_flow q q1 c0); simpl; try done; [intros; by eapply settlement_sender|].
    cbn [values sends]. rewrite F1, fmap_app. simpl. rewrite <- !app_assoc. apply Permutation_app_head. simpl.
    by rewrite <- (Permutation_middle (inflight q)), <- (Permutation_middle (discarded q)).
  - set (q1 := take_message _ v). apply (flow_move q1 q1 k l); try done;
      [|intros; congruence|unfold awaited_message; by rewrite Hp, app_nil_r].
    eapply (channel_flow q q1 c0); simpl; try done; [intros; apply settlement_same; simpl; by rewrite app_nil_r|].
    cbn [values sends]. rewrite F1, fmap_app. simpl. rewrite <- !app_assoc. apply Permutation_app_head. simpl.
    by rewrite <- (Permutation_middle (inflight q)), <- (Permutation_middle (discarded q)).
Qed.

Lemma finish_flow q k l : flow_ok q → loops q !! k = Some l → awaited_message q l = None →
  (∀ sig, fl_point l = Awaiting sig → settlement q (fl_channel l) sig ≠ None) → flow_ok (finish q k l).
Proof.
  intros Hq Hk Ha Hs. assert (flow_ok (with_loop q k Finished)) as Hf.
  { apply (flow_move q q k l); try done. by rewrite Ha, app_nil_r. }
  unfold finish. case_bool_decide; [|done]. by apply (flow_same (with_loop q k Finished)).
Qed.

Lemma loop_step_flow q k q' : queue_inv q → flow_ok q → loop_step q k = Some q' → flow_ok q'.
Proof.
  intros [Hc _] Hq. unfold loop_step. destruct (loops q !! k) as [l|] eqn:Hl; [|done].
  assert (∀ p, (∀ sig, fl_point l ≠ Awaiting sig) → (∀ sig, p ≠ Awaiting sig) → flow_ok (with_loop q k p)) as Hmove.
  { intros p Hn Hp. apply (flow_move q q k l); try done; [by intros sig ?%Hn|].
    unfold awaited_message. destruct (fl_point l) eqn:E; rewrite ?app_nil_r; try done. by destruct (Hn signal). }
  destruct (fl_point l) as [| |sig|v i|] eqn:Ep; [| | | |done].
  - destruct (previous_done q k); [|done]. intros [= <-]. by apply Hmove.
  - assert (flow_ok (finish q k l)) as Hfin
      by (apply finish_flow; [done|done|unfold awaited_message; by rewrite Ep|intros; congruence]).
    destruct (isActive q && _) eqn:Hcond; [|by intros [= <-]].
    apply andb_true_iff in Hcond as [Ea Hcur%bool_decide_eq_true].
    destruct (channels q !! fl_channel l) as [c|] eqn:Hch; [|by intros [= <-]]. rewrite Hcur in *.
    pose proof (λ c' s r, receive_flow q k l c c' s r Hc Hq Ea Hch Hl Hcur Ep) as Hr.
    pose proof (receive_frame c) as Hf.
    destruct (receive c) as [[c' s] [r|[]]]; [| |by destruct Hf as (_ & _ & _ & ?)]; cycle 1.
    { destruct Hf as (_ & _ & Hcl & _). specialize (Hcl eq_refl).
      destruct (qi_open q Hc) as (c0 & Hc0 & Hop). rewrite Ea in Hop. simpl in Hop. congruence. }
    specialize (Hr c' s r eq_refl). destruct r; by intros [= <-].
  - destruct (settlement q (fl_channel l) sig) as [[v|]|] eqn:Hs; [| |done]; intros [= <-].
    + apply (flow_move q (take_message q v) k l); try done; [intros; congruence|].
      unfold awaited_message. rewrite Ep, Hs. simpl. by rewrite fmap_app.
    + apply finish_flow; [done|done|unfold awaited_message; by rewrite Ep, Hs|intros; congruence].
  - destruct (subscribers q !! i); intros [= <-]; [|by apply Hmove].
    apply (flow_same (with_loop q k (Delivering v (S i)))); try done. by apply Hmove.
Qed.

Lemma queue_reach_flow size q : queue_reach size q → flow_ok q.
Proof.
  intros Hr. assert (queue_inv q ∧ flow_ok q) as [_ ?]; [|done].
  apply (rtc_ind_r (λ q, queue_inv q ∧ flow_ok q) (newQueue size)) in Hr; [done| |].
  { split; [apply queue_inv_new|]. split; try done. intros c _ [= <-]. by left. }
  intros q1 q2 _ [q' m|q' h|q'|q'|q' q'' k Hk] [IH1 IH2].
  - split; [by apply enqueue_inv|by apply enqueue_flow].
  - split; [by apply subscribe_inv|]. apply startFanoutLoop_flow. by apply (flow_same q').
  - split; [by apply close_inv|by apply close_flow].
  - split; [by apply start_inv|by apply start_flow].
  - split; [by eapply loop_step_inv|by eapply loop_step_flow].
Qed.


(** C18 A queue that is active and has a subscriber is being served: its channel is
    open and a loop that has not ended owns it, after any sequence of
    subscriptions, messages, closes and restarts. *)
Theorem queue_is_served (size : option nat) (q : MessageQueue) (Hr : queue_reach size q)
    (Ha : isActive q = true) (Hs : subscribers q ≠ []) :
  (∃ c, channels q !! current q = Some c ∧ isClosed c = false) ∧
  ∃ k l, loops q !! k = Some l ∧ fl_channel l = current q ∧ fl_point l ≠ Finished.
Proof.
  destruct (queue_reach_inv size q Hr) as [Hc Hsub]. specialize (Hsub Ha Hs). split.
  - destruct (qi_open q Hc) as (c & ? & Hcl). exists c. rewrite Ha in Hcl. done.
  - destruct (qi_started q Hc Ha Hsub) as (k & l & Hk & Hcur). exists k, l.
    destruct (qi_running q Hc Ha k l Hk Hcur). done.
Qed.

End queue.
Arguments MessageQueue : clear implicits.
Arguments fanout : clear implicits.
Arguments point : clear implicits.

(** ** [MessageQueueManager] *)

Section manager.
Context {T : Type}.

Definition GENERAL_QUEUE_ID : string := "general".

Record MessageQueueManager := mkManager {
  maxQueues : nat;
  maxQueueSize : nat;
  queues : gmap string (MessageQueue T)
}.

Definition createQueue (m : MessageQueueManager) (queueId : string) : MessageQueueManager :=
  mkManager (maxQueues m) (maxQueueSize m) (<[queueId := newQueue (Some (maxQueueSize m))]> (queues m)).

(** The constructor, with [getOptions]. *)
Definition newManager (maxQ maxSz : option nat) : MessageQueueManager :=
  createQueue (mkManager (default 102 maxQ + 1) (default 1000 maxSz) ∅) GENERAL_QUEUE_ID.

Definition queue_id (queueId : string) : string :=
  if String.eqb queueId EmptyString then GENERAL_QUEUE_ID else queueId.

Definition hasQueue (m : MessageQueueManager) (queueId : string) : bool :=
  bool_decide (is_Some (queues m !! queue_id queueId)).

Inductive manager_error := QueueNotFound (queueId : string) | MaxQueuesReached | ManagerQueue (e : queue_error).

Definition with_queue (m : MessageQueueManager) (queueId : string) (q : MessageQueue T) : MessageQueueManager :=
  mkManager (maxQueues m) (maxQueueSize m) (<[queueId := q]> (queues m)).

Definition manager_enqueue (m : MessageQueueManager) (queueId : string) (message : option T) :
    MessageQueueManager * res manager_error unit :=
  match queues m !! queue_id queueId with
  | None => (m, Throw (QueueNotFound (queue_id queueId)))
  | Some q =>
      let '(q', r) := enqueue q message in
      (with_queue m (queue_id queueId) q', match r with Ok _ => Ok tt | Throw e => Throw (ManagerQueue e) end)
  end.

Definition manager_subscribe (m : MessageQueueManager) (queueId : string) (handler : nat) :
    MessageQueueManager * res manager_error unit :=
  let id := queue_id queueId in
  match queues m !! id with
  | Some q => (with_queue m id (subscribe q handler), Ok tt)
  | None =>
      if maxQueues m <=? size (queues m) then (m, Throw MaxQueuesReached)
      else
        let m := createQueue m id in
        (match queues m !! id with Some q => with_queue m id (subscribe q handler) | None => m end, Ok tt)
  end.

(** The closed queue is no longer reachable through the manager. *)
Definition manager_close (m : MessageQueueManager) (queueId : string) : MessageQueueManager :=
  match queues m !! queue_id queueId with
  | None => m
  | Some _ => mkManager (maxQueues m) (maxQueueSize m) (delete (queue_id queueId) (queues m))
  end.

Definition closeAll (m : MessageQueueManager) : MessageQueueManager :=
  mkManager (maxQueues m) (maxQueueSize m) (close_queue <$> queues m).

Definition startAll (m : MessageQueueManager) : MessageQueueManager :=
  mkManager (maxQueues m) (maxQueueSize m) (start_queue <$> queues m).

(** ** Runs of a manager *)

Inductive manager_event :=
| MEnqueue (queueId : string) (message : option T)
| MSubscribe (queueId : string) (handler : nat)
| MClose (queueId : string)
| MCloseAll
| MStartAll.

Definition manager_step (m : MessageQueueManager) (e : manager_event) : MessageQueueManager :=
  match e with
  | MEnqueue id msg => (manager_enqueue m id msg).1
  | MSubscribe id h => (manager_subscribe m id h).1
  | MClose id => manager_close m id
  | MCloseAll => closeAll m
  | MStartAll => startAll m
  end.

(** The queue an event names; [closeAll] and [startAll] name all. *)
Definition names (e : manager_event) (id : string) : Prop :=
  match e with
  | MEnqueue id' _ | MSubscribe id' _ | MClose id' => queue_id id' = id
  | MCloseAll | MStartAll => True
  end.

Lemma manager_step_ok m e : size (queues m) ≤ maxQueues m →
  maxQueues (manager_step m e) = maxQueues m ∧ size (queues (manager_step m e)) ≤ maxQueues m ∧
  ∀ id, ¬ names e id → queues (manager_step m e) !! id = queues m !! id.
Proof.
  intros Hs. destruct e as [id msg|id h|id| |]; simpl.
  - unfold manager_enqueue. destruct (queues m !! queue_id id) as [q|] eqn:Hq; [|by split_and!].
    destruct (enqueue q msg) as [q' r]. simpl. split_and!; [done| |].
    + by rewrite map_size_insert_Some.
    + intros id' Hn. by rewrite lookup_insert_ne.
  - unfold manager_subscribe. destruct (queues m !! queue_id id) as [q|] eqn:Hq; simpl.
    + split_and!; [done|by rewrite map_size_insert_Some|]. intros id' Hn. by rewrite lookup_insert_ne.
    + destruct (Nat.leb_spec (maxQueues m) (size (queues m))); simpl; [by split_and!|].
      rewrite lookup_insert_eq. simpl. split_and!; [done| |].
      * rewrite insert_insert_eq, map_size_insert_None by done. lia.
      * intros id' Hn. by rewrite !lookup_insert_ne.
  - unfold manager_close. destruct (queues m !! queue_id id) as [q|] eqn:Hq; simpl; [|by split_and!].
    split_and!; [done| |intros id' Hn; by rewrite lookup_delete_ne].
    rewrite map_size_delete_Some by eauto. lia.
  - split_and!; [done|by rewrite map_size_fmap|]. intros id Hn. by destruct Hn.
  - split_and!; [done|by rewrite map_size_fmap|]. intros id Hn. by destruct Hn.
Qed.

(** C40 The manager never holds more queues than it admits (102 by default, and
    the general one), and an operation on one queue leaves every other queue,
    its messages and its loops as they are. *)
Theorem manager_bounded (maxQ maxSz : option nat) (es : list manager_event) (e : manager_event) (id : string) :
  let m := foldl manager_step (newManager maxQ maxSz) es in
  size (queues m) ≤ default 102 maxQ + 1 ∧
  (names e id ∨ queues (manager_step m e) !! id = queues m !! id).
Proof.
  cbv zeta. assert (∀ m, size (queues m) ≤ maxQueues m → maxQueues m = default 102 maxQ + 1 →
    let m' := foldl manager_step m es in
    size (queues m') ≤ maxQueues m' ∧ maxQueues m' = default 102 maxQ + 1) as Hrun.
  { induction es as [|e' es IH]; intros m Hs Hm; [done|]. simpl.
    destruct (manager_step_ok m e' Hs) as (E1 & E2 & _). apply IH; [by rewrite E1|congruence]. }
  destruct (Hrun (newManager maxQ maxSz)) as [Hs Hm]; [simpl; rewrite map_size_insert_None, map_size_empty by done; lia|done|].
  split; [lia|]. destruct (manager_step_ok (foldl manager_step (newManager maxQ maxSz) es) e Hs) as (_ & _ & Hn).
  destruct e as [id' msg|id' h|id'| |]; [..|by left|by left];
    (destruct (decide (queue_id id' = id)); [by left|right; by apply Hn]).
Qed.

End manager.

(** ** Witnesses *)

Definition w_queue : MessageQueue nat := subscribe (newQueue None) 7.

Lemma w_queue_reach : queue_reach None w_queue.
Proof. apply rtc_once. apply step_subscribe. Qed.

Lemma queue_is_served_witness : ∃ k l,
  loops w_queue !! k = Some l ∧ fl_channel l = current w_queue ∧ fl_point l ≠ Finished.
Proof. apply (queue_is_served None w_queue w_queue_reach); [reflexivity|discriminate]. Defined.

(** Two subscribers; the second message is on its way. *)
Definition w_step (q : MessageQueue nat) : MessageQueue nat := default q (loop_step q 0).
Definition w_sent : MessageQueue nat := (enqueue (enqueue (subscribe w_queue 8) (Some 5)).1 (Some 6)).1.
Definition w_busy : MessageQueue nat := Nat.iter 7 w_step w_sent.

Lemma w_busy_reach : queue_reach None w_busy.
Proof.
  assert (∀ q, queue_reach None q → is_Some (loop_step q 0) → queue_reach None (w_step q)) as Hstep.
  { intros q Hq [q' Hq']. unfold w_step. rewrite Hq'. simpl. eapply rtc_r; [exact Hq|by eapply step_loop]. }
  unfold w_busy. simpl. do 7 (apply Hstep; [|vm_compute; by eexists]).
  eapply rtc_r; [|apply step_enqueue]. eapply rtc_r; [|apply step_enqueue].
  eapply rtc_r; [apply w_queue_reach|apply step_subscribe].
Qed.

